(** * ironwood: the router core (network/router.go, network/peers.go)

    A shallow embedding of the routing core: the wire codecs of the
    router messages, the announcement store with its CRDT ordering and
    expiry timers, the parent selector [_fix], the Merkle request
    handler, the tree-distance forwarder [_lookup], and the peer-port
    allocator of [peers.addPeer].

    Conventions.
    - A [uint64] is a [Z] in [0, 2^64); arithmetic that can wrap is
      written with [wrap64].  A byte is a [Z] in [0, 256).
    - A fixed-size byte array ([publicKey], [signature],
      [merkletree.Digest]) is a [list Z]; its length is a parameter.
    - A Go map that is only looked up, inserted into and deleted from is
      a [gmap]; a Go map whose [range] order can influence the result is
      an association list, the list order being the order in which
      [range] visits the entries (Go leaves that order unspecified, so
      statements quantify over every list).
    - A [time.Time] and a [time.Duration] are integers counting
      nanoseconds, without a bound; a timer is its due instant.
    - A panic is an explicit outcome of the handlers. *)

From Stdlib Require Import ZArith Lia Bool.
From stdpp Require Import base decidable option list gmap fin_maps fin_sets.

Local Open Scope Z_scope.

(** ** Machine integers *)

Definition wrap64 (z : Z) : Z := z mod 2 ^ 64.

Definition uint64 (z : Z) : Prop := 0 <= z < 2 ^ 64.

(** Go's [int(u)] for a [uint64] [u] on a 64-bit platform. *)
Definition int_of_uint64 (u : Z) : Z :=
  let z := wrap64 u in if z <? 2 ^ 63 then z else z - 2 ^ 64.

(** ** Sizes of the fixed-size arrays

    [publicKeySize], [signatureSize] and the length of
    [merkletree.Digest] are constants declared outside the two source
    files; they are parameters here. *)

Class Sizes := {
  publicKeySize : nat;
  signatureSize : nat;
  digestSize : nat;
}.

(** ** Wire helpers *)

(** Modelled from the spec: [wireAppendUint], [wireSizeUint],
    [wireChopUint] and [wireChopSlice] live in the wire layer, which is
    not part of the two source files.  The spec fixes the integers as
    varints and keys, signatures and digests as raw bytes; the varint is
    the one of Go's [encoding/binary] ([PutUvarint] / [Uvarint]): seven
    payload bits per byte, least significant group first, the high bit
    set on every byte but the last, at most ten bytes. *)
Fixpoint putUvarint (fuel : nat) (x : Z) : list Z :=
  match fuel with
  | O => [x mod 256]
  | S fuel' =>
      if 128 <=? x
      then Z.lor (x mod 256) 128 :: putUvarint fuel' (Z.shiftr x 7)
      else [x mod 256]
  end.

(** Modelled from the spec: nine continuation bytes exhaust a [uint64]. *)
Definition wireAppendUint (out : list Z) (u : Z) : list Z :=
  out ++ putUvarint 9 u.

(** Modelled from the spec: the number of bytes [wireAppendUint] adds. *)
Definition wireSizeUint (u : Z) : nat := length (putUvarint 9 u).

(** Modelled from the spec: [binary.Uvarint]; [i] is the index of the
    byte being read, [s] the shift, [x] the value accumulated so far.
    [None] stands for a non-positive length (short buffer or overflow). *)
Fixpoint uvarint (i : nat) (s x : Z) (buf : list Z) : option (Z * list Z) :=
  match buf with
  | [] => None
  | b :: rest =>
      if (i =? 10)%nat then None
      else if b <? 128 then
        if (i =? 9)%nat && (1 <? b) then None
        else Some (Z.lor x (Z.shiftl b s), rest)
      else uvarint (S i) (s + 7) (Z.lor x (Z.shiftl (Z.land b 127) s)) rest
  end.

(** Modelled from the spec: read one varint off the front of [data]. *)
Definition wireChopUint (data : list Z) : option (Z * list Z) :=
  uvarint 0 0 0 data.

(** Modelled from the spec: fill an [n]-byte array from the front of
    [data]; fails when fewer than [n] bytes are left. *)
Definition wireChopSlice (n : nat) (data : list Z) : option (list Z * list Z) :=
  if (length data <? n)%nat then None else Some (take n data, drop n data).

(** ** Message types *)

Record routerSigReq := RouterSigReq {
  seq : Z;
  nonce : Z;
}.

Record routerSigRes := RouterSigRes {
  res_req : routerSigReq;     (* the embedded routerSigReq *)
  port : Z;                   (* peerPort *)
  psig : list Z;
}.

Record routerAnnounce := RouterAnnounce {
  ann_key : list Z;
  ann_parent : list Z;
  ann_res : routerSigRes;     (* the embedded routerSigRes *)
  ann_sig : list Z;
}.

Record routerInfo := RouterInfo {
  info_parent : list Z;
  info_res : routerSigRes;    (* the embedded routerSigRes *)
  info_sig : list Z;
  expired : bool;
}.

Record routerMerkleReq := RouterMerkleReq {
  prefixLen : Z;
  prefix : list Z;
}.

Record routerMerkleRes := RouterMerkleRes {
  mres_req : routerMerkleReq; (* the embedded routerMerkleReq *)
  digest : list Z;
}.

#[global] Instance routerSigReq_eq_dec : EqDecision routerSigReq.
Proof. solve_decision. Defined.
#[global] Instance routerSigRes_eq_dec : EqDecision routerSigRes.
Proof. solve_decision. Defined.
#[global] Instance routerAnnounce_eq_dec : EqDecision routerAnnounce.
Proof. solve_decision. Defined.
#[global] Instance routerInfo_eq_dec : EqDecision routerInfo.
Proof. solve_decision. Defined.
#[global] Instance routerMerkleReq_eq_dec : EqDecision routerMerkleReq.
Proof. solve_decision. Defined.
#[global] Instance routerMerkleRes_eq_dec : EqDecision routerMerkleRes.
Proof. solve_decision. Defined.

(** Promoted fields of the embedded structs. *)
Definition ann_seq (a : routerAnnounce) : Z := seq (res_req (ann_res a)).
Definition ann_nonce (a : routerAnnounce) : Z := nonce (res_req (ann_res a)).
Definition ann_port (a : routerAnnounce) : Z := port (ann_res a).
Definition info_seq (i : routerInfo) : Z := seq (res_req (info_res i)).
Definition info_nonce (i : routerInfo) : Z := nonce (res_req (info_res i)).
Definition info_port (i : routerInfo) : Z := port (info_res i).

(** ** Codecs

    [encode] returns [None] where the source panics on a size mismatch;
    [chop] and [decode] return [None] for [types.ErrDecode]. *)

Section Codecs.
Context `{Sizes}.

Definition routerSigReq_size (r : routerSigReq) : nat :=
  (wireSizeUint (seq r) + wireSizeUint (nonce r))%nat.

Definition routerSigReq_encode (r : routerSigReq) (out : list Z)
  : option (list Z) :=
  let start := length out in
  let out := wireAppendUint out (seq r) in
  let out := wireAppendUint out (nonce r) in
  let end_ := length out in
  if decide ((end_ - start)%nat = routerSigReq_size r) then Some out else None.

Definition routerSigReq_chop (data : list Z)
  : option (routerSigReq * list Z) :=
  match wireChopUint data with
  | None => None
  | Some (s, orig) =>
      match wireChopUint orig with
      | None => None
      | Some (n, orig) => Some (RouterSigReq s n, orig)
      end
  end.

Definition routerSigReq_decode (data : list Z) : option routerSigReq :=
  match routerSigReq_chop data with
  | None => None
  | Some (tmp, data) =>
      if decide (length data ≠ 0%nat) then None else Some tmp
  end.

Definition routerSigRes_size (r : routerSigRes) : nat :=
  (routerSigReq_size (res_req r) + wireSizeUint (port r) + length (psig r))%nat.

Definition routerSigRes_encode (r : routerSigRes) (out : list Z)
  : option (list Z) :=
  let start := length out in
  match routerSigReq_encode (res_req r) out with
  | None => None
  | Some out =>
      let out := wireAppendUint out (port r) in
      let out := out ++ psig r in
      let end_ := length out in
      if decide ((end_ - start)%nat = routerSigRes_size r) then Some out
      else None
  end.

Definition routerSigRes_chop (data : list Z)
  : option (routerSigRes * list Z) :=
  match routerSigReq_chop data with
  | None => None
  | Some (rq, orig) =>
      match wireChopUint orig with
      | None => None
      | Some (p, orig) =>
          match wireChopSlice signatureSize orig with
          | None => None
          | Some (ps, orig) => Some (RouterSigRes rq p ps, orig)
          end
      end
  end.

Definition routerSigRes_decode (data : list Z) : option routerSigRes :=
  match routerSigRes_chop data with
  | None => None
  | Some (tmp, data) =>
      if decide (length data ≠ 0%nat) then None else Some tmp
  end.

Definition routerAnnounce_size (a : routerAnnounce) : nat :=
  (length (ann_key a) + length (ann_parent a)
   + routerSigRes_size (ann_res a) + length (ann_sig a))%nat.

Definition routerAnnounce_encode (a : routerAnnounce) (out : list Z)
  : option (list Z) :=
  let start := length out in
  let out := out ++ ann_key a in
  let out := out ++ ann_parent a in
  match routerSigRes_encode (ann_res a) out with
  | None => None
  | Some out =>
      let out := out ++ ann_sig a in
      let end_ := length out in
      if decide ((end_ - start)%nat = routerAnnounce_size a) then Some out
      else None
  end.

Definition routerAnnounce_decode (data : list Z) : option routerAnnounce :=
  match wireChopSlice publicKeySize data with
  | None => None
  | Some (k, data) =>
      match wireChopSlice publicKeySize data with
      | None => None
      | Some (p, data) =>
          match routerSigRes_chop data with
          | None => None
          | Some (rs, data) =>
              match wireChopSlice signatureSize data with
              | None => None
              | Some (sg, data) =>
                  if decide (length data ≠ 0%nat) then None
                  else Some (RouterAnnounce k p rs sg)
              end
          end
      end
  end.

Definition getAnnounce (info : routerInfo) (key : list Z) : routerAnnounce :=
  {| ann_key := key;
     ann_parent := info_parent info;
     ann_res := info_res info;
     ann_sig := info_sig info |}.

Definition routerMerkleReq_size (r : routerMerkleReq) : nat :=
  (wireSizeUint (prefixLen r) + length (prefix r))%nat.

Definition routerMerkleReq_encode (r : routerMerkleReq) (out : list Z)
  : option (list Z) :=
  let start := length out in
  let out := wireAppendUint out (prefixLen r) in
  let out := out ++ prefix r in
  let end_ := length out in
  if decide ((end_ - start)%nat = routerMerkleReq_size r) then Some out
  else None.

Definition routerMerkleReq_chop (data : list Z)
  : option (routerMerkleReq * list Z) :=
  match wireChopUint data with
  | None => None
  | Some (pl, orig) =>
      match wireChopSlice publicKeySize orig with
      | None => None
      | Some (p, orig) => Some (RouterMerkleReq pl p, orig)
      end
  end.

Definition routerMerkleReq_decode (data : list Z) : option routerMerkleReq :=
  match routerMerkleReq_chop data with
  | None => None
  | Some (tmp, data) =>
      if decide (length data ≠ 0%nat) then None else Some tmp
  end.

Definition routerMerkleRes_size (r : routerMerkleRes) : nat :=
  (routerMerkleReq_size (mres_req r) + length (digest r))%nat.

Definition routerMerkleRes_encode (r : routerMerkleRes) (out : list Z)
  : option (list Z) :=
  let start := length out in
  match routerMerkleReq_encode (mres_req r) out with
  | None => None
  | Some out =>
      let out := out ++ digest r in
      let end_ := length out in
      if decide ((end_ - start)%nat = routerMerkleRes_size r) then Some out
      else None
  end.

Definition routerMerkleRes_chop (data : list Z)
  : option (routerMerkleRes * list Z) :=
  match routerMerkleReq_chop data with
  | None => None
  | Some (rq, orig) =>
      match wireChopSlice digestSize orig with
      | None => None
      | Some (d, orig) => Some (RouterMerkleRes rq d, orig)
      end
  end.

Definition routerMerkleRes_decode (data : list Z) : option routerMerkleRes :=
  match routerMerkleRes_chop data with
  | None => None
  | Some (tmp, data) =>
      if decide (length data ≠ 0%nat) then None else Some tmp
  end.

(** Values of the Go types: every integer field is a [uint64] and
    every array has its declared length. *)
Definition routerSigReq_wf (r : routerSigReq) : Prop :=
  uint64 (seq r) ∧ uint64 (nonce r).

Definition routerSigRes_wf (r : routerSigRes) : Prop :=
  routerSigReq_wf (res_req r) ∧ uint64 (port r)
  ∧ length (psig r) = signatureSize.

Definition routerAnnounce_wf (a : routerAnnounce) : Prop :=
  length (ann_key a) = publicKeySize
  ∧ length (ann_parent a) = publicKeySize
  ∧ routerSigRes_wf (ann_res a)
  ∧ length (ann_sig a) = signatureSize.

Definition routerMerkleReq_wf (r : routerMerkleReq) : Prop :=
  uint64 (prefixLen r) ∧ length (prefix r) = publicKeySize.

Definition routerMerkleRes_wf (r : routerMerkleRes) : Prop :=
  routerMerkleReq_wf (mres_req r) ∧ length (digest r) = digestSize.

(** The bytes each encoder appends; the size check never fails. *)
Definition sigReq_bytes (r : routerSigReq) : list Z :=
  putUvarint 9 (seq r) ++ putUvarint 9 (nonce r).

Definition sigRes_bytes (r : routerSigRes) : list Z :=
  sigReq_bytes (res_req r) ++ putUvarint 9 (port r) ++ psig r.

Definition announce_bytes (a : routerAnnounce) : list Z :=
  ann_key a ++ ann_parent a ++ sigRes_bytes (ann_res a) ++ ann_sig a.

Definition merkleReq_bytes (r : routerMerkleReq) : list Z :=
  putUvarint 9 (prefixLen r) ++ prefix r.

Definition merkleRes_bytes (r : routerMerkleRes) : list Z :=
  merkleReq_bytes (mres_req r) ++ digest r.

End Codecs.

(** The sizes of the Ed25519 instantiation (32-byte keys and digests, 64-byte
    signatures). *)
Definition ed25519_sizes : Sizes :=
  {| publicKeySize := 32; signatureSize := 64; digestSize := 32 |}.

(** ** The peer registry (network/peers.go) *)

(** A link to a directly connected node.  [peers.addPeer] sets [key] and
    [port] ([new(peer)] leaves every other field zero); [prio] and [time]
    are the link priority and the time the link came up, read by the
    forwarder; their declaration is outside the two source files.  The
    connection, the keep-alive timer and the write buffer play no role in
    routing and are left out. *)
Record peer := Peer {
  peer_key : list Z;
  peer_port : Z;
  peer_prio : Z;
  peer_time : Z;
}.

#[global] Instance peer_eq_dec : EqDecision peer.
Proof. solve_decision. Defined.

Record peers := Peers {
  pconn_closed : bool;          (* ps.core.pconn.closed has been closed *)
  peers_map : gmap Z peer;      (* ps.peers, keyed by peerPort *)
}.

(** Go's [idx++] on an [int] and [peerPort(idx)] (a [uint64]). *)
Definition int64_wrap (z : Z) : Z := (z + 2 ^ 63) mod 2 ^ 64 - 2 ^ 63.

(** The port search [for idx := 1; ; idx++] of [addPeer]; [None] when the
    loop has not left after [fuel] iterations. *)
Fixpoint addPeer_findPort (fuel : nat) (m : gmap Z peer) (idx : Z) : option Z :=
  match fuel with
  | O => None
  | S fuel' =>
      match m !! wrap64 idx with
      | Some _ => addPeer_findPort fuel' m (int64_wrap (idx + 1))
      | None => Some (wrap64 idx)
      end
  end.

(** [peers.addPeer]: the outer [None] means the search loop is still
    running after [size + 1] iterations; [(None, ps)] is the error return
    for a closed PacketConn. *)
Definition peers_addPeer (key : list Z) (ps : peers)
  : option (option peer * peers) :=
  if pconn_closed ps then Some (None, ps)
  else
    match addPeer_findPort (S (size (peers_map ps))) (peers_map ps) 1 with
    | None => None
    | Some port =>
        let p := {| peer_key := key; peer_port := port;
                    peer_prio := 0; peer_time := 0 |} in
        Some (Some p,
              {| pconn_closed := pconn_closed ps;
                 peers_map := <[port := p]> (peers_map ps) |})
    end.

Definition peers_removePeer (port : Z) (ps : peers) : option unit * peers :=
  match peers_map ps !! port with
  | None => (None, ps)           (* "peer not found" *)
  | Some _ => (Some tt, {| pconn_closed := pconn_closed ps;
                           peers_map := delete port (peers_map ps) |})
  end.

(** ** Keys *)

(** [treeLess] (the utility function at the end of the source): the
    lexicographic order on keys, byte by byte. *)
Fixpoint treeLess (key1 key2 : list Z) : bool :=
  match key1, key2 with
  | b1 :: k1, b2 :: k2 =>
      if b1 <? b2 then true
      else if b2 <? b1 then false
      else treeLess k1 k2
  | _, _ => false
  end.

(** Modelled from the spec: [publicKey.less] is declared with the crypto
    primitives, outside the two source files; the spec fixes it as the
    lexicographic order, which is what [treeLess] computes. *)
Definition less (key other : list Z) : bool := treeLess key other.

(** ** The environment of a router

    Everything the router code uses but the two source files do not
    define: the array sizes, the signature primitives, the two digest
    functions of the Merkle index, the [bloomMulticastEnabled] constant and
    the two random sources ([crypto/rand] for nonces, [math/rand] for the
    refresh jitter), the latter as the sequence of values they deliver. *)
Class Env := {
  env_sizes :: Sizes;
  sign : list Z -> list Z -> list Z;            (* privateKey.sign(bs) *)
  verify : list Z -> list Z -> list Z -> bool;  (* publicKey.verify(bs, sig) *)
  GetDigest : list Z -> list Z;                 (* merkletree.GetDigest *)
  combineDigests : list Z -> list Z -> list Z;  (* digest of an inner node *)
  bloomMulticastEnabled : bool;
  crandUint64 : nat -> Z;                       (* n-th nonce drawn *)
  mrandIntn1024 : nat -> Z;                     (* n-th mrand.Intn(1024) *)
}.

Section Merkle.
Context `{Env}.

(** The zero value of a key and of a digest. *)
Definition zeroKey : list Z := replicate publicKeySize 0.
Definition zeroDigest : list Z := replicate digestSize 0.

(** [merkletree.KeyBits]: a [merkletree.Key] is converted from and to a
    [publicKey], so it has the same number of bytes. *)
Definition KeyBits : nat := (8 * publicKeySize)%nat.

(** Modelled from the spec: the Merkle index is the package
    [internal/merkletree], which is not part of the two source files.
    The spec describes it as a binary trie over the key bits whose nodes
    cache a digest; the handlers below read the fields [Digest], [Left]
    and [Right] of a node. *)
#[warnings="-register-all"] Inductive Node := MkNode (dig : list Z) (left right : option Node).

Definition Digest (n : Node) : list Z := let 'MkNode d _ _ := n in d.
Definition Left (n : Node) : option Node := let 'MkNode _ l _ := n in l.
Definition Right (n : Node) : option Node := let 'MkNode _ _ r := n in r.

Record Tree := MkTree { Root : Node }.

(** The zero value [merkletree.Tree{}]. *)
Definition emptyTree : Tree := MkTree (MkNode zeroDigest None None).

(** Modelled from the spec: bit [offset] of a key, most significant bit
    of the first byte first ([Key.GetBit], [Key.SetBit]). *)
Definition GetBit (k : list Z) (offset : nat) : bool :=
  Z.testbit (default 0 (k !! (offset / 8)%nat)) (7 - Z.of_nat (offset mod 8)).




(** Modelled from the spec: the digest of an inner node combines the
    digests of its children, an empty child counting as the zero digest. *)
Definition childDigest (c : option Node) : list Z :=
  match c with Some n => Digest n | None => zeroDigest end.

Definition innerNode (l r : option Node) : Node :=
  MkNode (combineDigests (childDigest l) (childDigest r)) l r.

(** Modelled from the spec: [add(key, leaf_digest)] inserts or replaces a
    leaf and recomputes the digests on the path to the root. *)
Fixpoint Add_from (here : option Node) (key : list Z) (idx remaining : nat)
  (leaf : list Z) {struct remaining} : Node :=
  match remaining with
  | O => MkNode leaf None None
  | S remaining' =>
      let l := match here with Some n => Left n | None => None end in
      let r := match here with Some n => Right n | None => None end in
      if GetBit key idx
      then innerNode l (Some (Add_from r key (S idx) remaining' leaf))
      else innerNode (Some (Add_from l key (S idx) remaining' leaf)) r
  end.

Definition Add (key leaf : list Z) (t : Tree) : Tree :=
  MkTree (Add_from (Some (Root t)) key 0 KeyBits leaf).

End Merkle.

(** ** The router state (network/router.go) *)

(** [r.core]: the node's key pair and the configuration values the router
    reads; their declarations are outside the two source files. *)
Record core := Core {
  crypto_publicKey : list Z;
  crypto_privateKey : list Z;
  config_routerRefresh : Z;      (* time.Duration, nanoseconds *)
  config_routerTimeout : Z;      (* time.Duration, nanoseconds *)
  config_routerMaxInfos : Z;     (* uint64 *)
}.

(** A [*time.Timer] created by [_update]: [timer_id] stands for the
    pointer (two timers are the same timer iff their ids agree), [timer_due]
    is the instant at which the runtime fires it. *)
Record timer := Timer {
  timer_id : nat;
  timer_due : Z;
}.

(** A traffic packet; the forwarder reads [path], [watermark] and [dest]
    (the declaration is outside the two source files). *)
Record traffic := Traffic {
  tr_path : list Z;
  tr_watermark : Z;
  tr_source : list Z;
  tr_dest : list Z;
  tr_payload : list Z;
}.

(** What a handler does to the outside: a message handed to a peer's send
    queue ([p.sendSigReq(r, req)] and the like), a packet delivered to the
    local PacketConn, a packet handed to the pathfinder as undeliverable. *)
Inductive message :=
| sendSigReq (req : routerSigReq)
| sendSigRes (res : routerSigRes)
| sendAnnounce (ann : routerAnnounce)
| sendMerkleReq (req : routerMerkleReq)
| sendMerkleRes (res : routerMerkleRes)
| sendTraffic (tr : traffic).

Inductive action :=
| Send (p : peer) (m : message)
| Deliver (tr : traffic)       (* r.core.pconn.handleTraffic(r, tr) *)
| DoBroken (tr : traffic).     (* r.pathfinder._doBroken(tr) *)

(** The fields of [router].  The pathfinder and the bloom filters keep
    state of their own and are not modelled. *)
Record router := Router {
  rcore : core;   (* r.core: keys and configuration, never modified *)
  rpeers : list (list Z * list peer);   (* r.peers: the links to each peered key, in range order *)
  ports : gmap Z (list Z);   (* r.ports *)
  merks : gmap (list Z) Tree;   (* r.merks: one Merkle tree per peered key *)
  infos : gmap (list Z) routerInfo;   (* r.infos *)
  timers : gmap (list Z) timer;   (* r.timers *)
  cache : gmap (list Z) (list Z);   (* r.cache: path of each key, filled by _getDist *)
  requests : gmap (list Z) routerSigReq;   (* r.requests *)
  responses : list (list Z * routerSigRes);   (* r.responses, in range order *)
  resSeqs : gmap (list Z) Z;   (* r.resSeqs *)
  resSeqCtr : Z;   (* r.resSeqCtr *)
  refresh : bool;
  doRoot1 : bool;
  doRoot2 : bool;
  fixTimer : option Z;   (* due time of r.fixTimer while it is armed *)
  now : Z;   (* the clock (time.Now), in nanoseconds *)
  nextTimer : nat;   (* identity of the next timer created *)
  randCtr : nat;   (* number of random values drawn so far *)
  trace : list action;   (* what the router has sent so far, oldest first *)
}.

(** Field updates. *)
Definition set_rpeers (v : list (list Z * list peer)) (r : router) : router :=
  {| rcore := rcore r; rpeers := v; ports := ports r; merks := merks r;
     infos := infos r; timers := timers r; cache := cache r;
     requests := requests r; responses := responses r; resSeqs := resSeqs r;
     resSeqCtr := resSeqCtr r; refresh := refresh r; doRoot1 := doRoot1 r;
     doRoot2 := doRoot2 r; fixTimer := fixTimer r; now := now r;
     nextTimer := nextTimer r; randCtr := randCtr r; trace := trace r |}.
Definition set_ports (v : gmap Z (list Z)) (r : router) : router :=
  {| rcore := rcore r; rpeers := rpeers r; ports := v; merks := merks r;
     infos := infos r; timers := timers r; cache := cache r;
     requests := requests r; responses := responses r; resSeqs := resSeqs r;
     resSeqCtr := resSeqCtr r; refresh := refresh r; doRoot1 := doRoot1 r;
     doRoot2 := doRoot2 r; fixTimer := fixTimer r; now := now r;
     nextTimer := nextTimer r; randCtr := randCtr r; trace := trace r |}.
Definition set_merks (v : gmap (list Z) Tree) (r : router) : router :=
  {| rcore := rcore r; rpeers := rpeers r; ports := ports r; merks := v;
     infos := infos r; timers := timers r; cache := cache r;
     requests := requests r; responses := responses r; resSeqs := resSeqs r;
     resSeqCtr := resSeqCtr r; refresh := refresh r; doRoot1 := doRoot1 r;
     doRoot2 := doRoot2 r; fixTimer := fixTimer r; now := now r;
     nextTimer := nextTimer r; randCtr := randCtr r; trace := trace r |}.
Definition set_infos (v : gmap (list Z) routerInfo) (r : router) : router :=
  {| rcore := rcore r; rpeers := rpeers r; ports := ports r;
     merks := merks r; infos := v; timers := timers r; cache := cache r;
     requests := requests r; responses := responses r; resSeqs := resSeqs r;
     resSeqCtr := resSeqCtr r; refresh := refresh r; doRoot1 := doRoot1 r;
     doRoot2 := doRoot2 r; fixTimer := fixTimer r; now := now r;
     nextTimer := nextTimer r; randCtr := randCtr r; trace := trace r |}.
Definition set_timers (v : gmap (list Z) timer) (r : router) : router :=
  {| rcore := rcore r; rpeers := rpeers r; ports := ports r;
     merks := merks r; infos := infos r; timers := v; cache := cache r;
     requests := requests r; responses := responses r; resSeqs := resSeqs r;
     resSeqCtr := resSeqCtr r; refresh := refresh r; doRoot1 := doRoot1 r;
     doRoot2 := doRoot2 r; fixTimer := fixTimer r; now := now r;
     nextTimer := nextTimer r; randCtr := randCtr r; trace := trace r |}.
Definition set_cache (v : gmap (list Z) (list Z)) (r : router) : router :=
  {| rcore := rcore r; rpeers := rpeers r; ports := ports r;
     merks := merks r; infos := infos r; timers := timers r; cache := v;
     requests := requests r; responses := responses r; resSeqs := resSeqs r;
     resSeqCtr := resSeqCtr r; refresh := refresh r; doRoot1 := doRoot1 r;
     doRoot2 := doRoot2 r; fixTimer := fixTimer r; now := now r;
     nextTimer := nextTimer r; randCtr := randCtr r; trace := trace r |}.
Definition set_requests (v : gmap (list Z) routerSigReq) (r : router) : router :=
  {| rcore := rcore r; rpeers := rpeers r; ports := ports r;
     merks := merks r; infos := infos r; timers := timers r;
     cache := cache r; requests := v; responses := responses r;
     resSeqs := resSeqs r; resSeqCtr := resSeqCtr r; refresh := refresh r;
     doRoot1 := doRoot1 r; doRoot2 := doRoot2 r; fixTimer := fixTimer r;
     now := now r; nextTimer := nextTimer r; randCtr := randCtr r;
     trace := trace r |}.
Definition set_responses (v : list (list Z * routerSigRes)) (r : router) : router :=
  {| rcore := rcore r; rpeers := rpeers r; ports := ports r;
     merks := merks r; infos := infos r; timers := timers r;
     cache := cache r; requests := requests r; responses := v;
     resSeqs := resSeqs r; resSeqCtr := resSeqCtr r; refresh := refresh r;
     doRoot1 := doRoot1 r; doRoot2 := doRoot2 r; fixTimer := fixTimer r;
     now := now r; nextTimer := nextTimer r; randCtr := randCtr r;
     trace := trace r |}.
Definition set_resSeqs (v : gmap (list Z) Z) (r : router) : router :=
  {| rcore := rcore r; rpeers := rpeers r; ports := ports r;
     merks := merks r; infos := infos r; timers := timers r;
     cache := cache r; requests := requests r; responses := responses r;
     resSeqs := v; resSeqCtr := resSeqCtr r; refresh := refresh r;
     doRoot1 := doRoot1 r; doRoot2 := doRoot2 r; fixTimer := fixTimer r;
     now := now r; nextTimer := nextTimer r; randCtr := randCtr r;
     trace := trace r |}.
Definition set_resSeqCtr (v : Z) (r : router) : router :=
  {| rcore := rcore r; rpeers := rpeers r; ports := ports r;
     merks := merks r; infos := infos r; timers := timers r;
     cache := cache r; requests := requests r; responses := responses r;
     resSeqs := resSeqs r; resSeqCtr := v; refresh := refresh r;
     doRoot1 := doRoot1 r; doRoot2 := doRoot2 r; fixTimer := fixTimer r;
     now := now r; nextTimer := nextTimer r; randCtr := randCtr r;
     trace := trace r |}.
Definition set_refresh (v : bool) (r : router) : router :=
  {| rcore := rcore r; rpeers := rpeers r; ports := ports r;
     merks := merks r; infos := infos r; timers := timers r;
     cache := cache r; requests := requests r; responses := responses r;
     resSeqs := resSeqs r; resSeqCtr := resSeqCtr r; refresh := v;
     doRoot1 := doRoot1 r; doRoot2 := doRoot2 r; fixTimer := fixTimer r;
     now := now r; nextTimer := nextTimer r; randCtr := randCtr r;
     trace := trace r |}.
Definition set_doRoot1 (v : bool) (r : router) : router :=
  {| rcore := rcore r; rpeers := rpeers r; ports := ports r;
     merks := merks r; infos := infos r; timers := timers r;
     cache := cache r; requests := requests r; responses := responses r;
     resSeqs := resSeqs r; resSeqCtr := resSeqCtr r; refresh := refresh r;
     doRoot1 := v; doRoot2 := doRoot2 r; fixTimer := fixTimer r;
     now := now r; nextTimer := nextTimer r; randCtr := randCtr r;
     trace := trace r |}.
Definition set_doRoot2 (v : bool) (r : router) : router :=
  {| rcore := rcore r; rpeers := rpeers r; ports := ports r;
     merks := merks r; infos := infos r; timers := timers r;
     cache := cache r; requests := requests r; responses := responses r;
     resSeqs := resSeqs r; resSeqCtr := resSeqCtr r; refresh := refresh r;
     doRoot1 := doRoot1 r; doRoot2 := v; fixTimer := fixTimer r;
     now := now r; nextTimer := nextTimer r; randCtr := randCtr r;
     trace := trace r |}.
Definition set_fixTimer (v : option Z) (r : router) : router :=
  {| rcore := rcore r; rpeers := rpeers r; ports := ports r;
     merks := merks r; infos := infos r; timers := timers r;
     cache := cache r; requests := requests r; responses := responses r;
     resSeqs := resSeqs r; resSeqCtr := resSeqCtr r; refresh := refresh r;
     doRoot1 := doRoot1 r; doRoot2 := doRoot2 r; fixTimer := v; now := now r;
     nextTimer := nextTimer r; randCtr := randCtr r; trace := trace r |}.
Definition set_now (v : Z) (r : router) : router :=
  {| rcore := rcore r; rpeers := rpeers r; ports := ports r;
     merks := merks r; infos := infos r; timers := timers r;
     cache := cache r; requests := requests r; responses := responses r;
     resSeqs := resSeqs r; resSeqCtr := resSeqCtr r; refresh := refresh r;
     doRoot1 := doRoot1 r; doRoot2 := doRoot2 r; fixTimer := fixTimer r;
     now := v; nextTimer := nextTimer r; randCtr := randCtr r;
     trace := trace r |}.
Definition set_nextTimer (v : nat) (r : router) : router :=
  {| rcore := rcore r; rpeers := rpeers r; ports := ports r;
     merks := merks r; infos := infos r; timers := timers r;
     cache := cache r; requests := requests r; responses := responses r;
     resSeqs := resSeqs r; resSeqCtr := resSeqCtr r; refresh := refresh r;
     doRoot1 := doRoot1 r; doRoot2 := doRoot2 r; fixTimer := fixTimer r;
     now := now r; nextTimer := v; randCtr := randCtr r; trace := trace r |}.
Definition set_randCtr (v : nat) (r : router) : router :=
  {| rcore := rcore r; rpeers := rpeers r; ports := ports r;
     merks := merks r; infos := infos r; timers := timers r;
     cache := cache r; requests := requests r; responses := responses r;
     resSeqs := resSeqs r; resSeqCtr := resSeqCtr r; refresh := refresh r;
     doRoot1 := doRoot1 r; doRoot2 := doRoot2 r; fixTimer := fixTimer r;
     now := now r; nextTimer := nextTimer r; randCtr := v; trace := trace r |}.
Definition set_trace (v : list action) (r : router) : router :=
  {| rcore := rcore r; rpeers := rpeers r; ports := ports r;
     merks := merks r; infos := infos r; timers := timers r;
     cache := cache r; requests := requests r; responses := responses r;
     resSeqs := resSeqs r; resSeqCtr := resSeqCtr r; refresh := refresh r;
     doRoot1 := doRoot1 r; doRoot2 := doRoot2 r; fixTimer := fixTimer r;
     now := now r; nextTimer := nextTimer r; randCtr := randCtr r;
     trace := v |}.

(** ** Handlers as state transformers

    A handler runs on the router's actor, one at a time: it is a function
    from the state to an outcome, [Panicked] where the source panics. *)

Inductive outcome (A : Type) :=
| Done (a : A) (r : router)
| Panicked.
Arguments Done {A} a r.
Arguments Panicked {A}.

Definition M (A : Type) : Type := router -> outcome A.

#[global] Instance M_ret : MRet M := fun A (a : A) r => Done a r.

#[global] Instance M_bind : MBind M := fun A B (f : A -> M B) (m : M A) r =>
  match m r with
  | Done a r' => f a r'
  | Panicked => Panicked
  end.

Definition get : M router := fun r => Done r r.
Definition modify (f : router -> router) : M unit := fun r => Done tt (f r).
Definition panic {A : Type} : M A := fun _ => Panicked.

(** Run a helper that returns [None] where the source panics. *)
Definition orPanic {A : Type} (o : option A) : M A :=
  match o with Some a => mret a | None => panic end.

(** [for x := range l { body }]. *)
Fixpoint forEach {A : Type} (l : list A) (body : A -> M unit) : M unit :=
  match l with
  | [] => mret tt
  | x :: l' => body x;; forEach l' body
  end.

(** [for x := range l { acc = body(acc, x) }]. *)
Fixpoint foldEach {A S : Type} (l : list A) (acc : S) (body : S -> A -> M S)
  : M S :=
  match l with
  | [] => mret acc
  | x :: l' => acc' ← body acc x; foldEach l' acc' body
  end.

Definition emit (a : action) : M unit :=
  modify (fun r => set_trace (trace r ++ [a]) r).

(** Lookup in a map kept as an association list. *)
Fixpoint alookup {V : Type} (k : list Z) (l : list (list Z * V)) : option V :=
  match l with
  | [] => None
  | (k', v) :: l' => if decide (k' = k) then Some v else alookup k l'
  end.

Definition second : Z := 1000000000.     (* time.Second *)
Definition millisecond : Z := 1000000.   (* time.Millisecond *)

Section Router.
Context `{Env}.

Definition zeroSig : list Z := replicate signatureSize 0.

(** The zero value of the structs, as a missing map entry reads. *)
Definition zeroSigReq : routerSigReq := RouterSigReq 0 0.
Definition zeroSigRes : routerSigRes := RouterSigRes zeroSigReq 0 zeroSig.
Definition zeroInfo : routerInfo := RouterInfo zeroKey zeroSigRes zeroSig false.
Definition zeroMerkleReq : routerMerkleReq := RouterMerkleReq 0 zeroKey.

Definition selfKey (r : router) : list Z := crypto_publicKey (rcore r).

(** *** Signatures and validity *)

Definition routerSigReq_bytesForSig (req : routerSigReq) (node parent : list Z)
  : option (list Z) :=
  routerSigReq_encode req (node ++ parent).

Definition routerSigRes_bytesForSig (res : routerSigRes) (node parent : list Z)
  : option (list Z) :=
  match routerSigReq_bytesForSig (res_req res) node parent with
  | None => None
  | Some bs => Some (wireAppendUint bs (port res))
  end.

Definition routerSigRes_check (res : routerSigRes) (node parent : list Z)
  : option bool :=
  match routerSigRes_bytesForSig res node parent with
  | None => None
  | Some bs => Some (verify parent bs (psig res))
  end.

Definition routerAnnounce_check (ann : routerAnnounce) : option bool :=
  if (ann_port ann =? 0) && bool_decide (ann_key ann ≠ ann_parent ann)
  then Some false
  else
    match routerSigRes_bytesForSig (ann_res ann) (ann_key ann) (ann_parent ann) with
    | None => None
    | Some bs =>
        Some (verify (ann_key ann) bs (ann_sig ann)
              && verify (ann_parent ann) bs (psig (ann_res ann)))
    end.

Definition routerMerkleReq_check (req : routerMerkleReq) : bool :=
  prefixLen req <=? Z.of_nat KeyBits.

(** *** Requests *)

Definition _resetCache : M unit := modify (set_cache ∅).

Definition _clearReqs : M unit :=
  modify (set_requests ∅);;
  modify (set_responses []);;
  modify (set_resSeqs ∅);;
  modify (set_resSeqCtr 0).

Definition _newReq : M routerSigReq :=
  r ← get;
  let nonce := wrap64 (crandUint64 (randCtr r)) in
  modify (set_randCtr (S (randCtr r)));;
  let self := default zeroInfo (infos r !! selfKey r) in
  mret {| seq := wrap64 (info_seq self + 1); nonce := nonce |}.

Definition _sendReqs : M unit :=
  _clearReqs;;
  r ← get;
  forEach (rpeers r) (fun '(pk, ps) =>
    req ← _newReq;
    modify (fun r => set_requests (<[pk := req]> (requests r)) r);;
    forEach ps (fun p => emit (Send p (sendSigReq req)))).

(** [_handleRequest]: attest to the requester the port of its link. *)
Definition _handleRequest (p : peer) (req : routerSigReq) : M unit :=
  r ← get;
  let res0 := {| res_req := req; port := peer_port p; psig := zeroSig |} in
  bs ← orPanic (routerSigRes_bytesForSig res0 (peer_key p) (selfKey r));
  let res := {| res_req := req; port := peer_port p;
                psig := sign (crypto_privateKey (rcore r)) bs |} in
  emit (Send p (sendSigRes res)).

(** *** The announcement store *)

(** [_update]: the CRDT comparison against a stored info, then the store
    with a fresh timer.  The timer created for the local key fires after
    [routerRefresh] plus a jitter, the one for any other key after
    [routerTimeout]; what they do when they fire is [timerCallback]. *)
Definition _update (ann : routerAnnounce) : M bool :=
  r ← get;
  let reject :=
    match infos r !! ann_key ann with
    | Some info =>
        if info_seq info >? ann_seq ann then true
        else if info_seq info <? ann_seq ann then false
        else if less (info_parent info) (ann_parent ann) then true
        else if less (ann_parent ann) (info_parent info) then false
        else if ann_nonce ann <? info_nonce info then false
        else true
    | None => false
    end in
  if reject then mret false
  else
    _resetCache;;
    let info := {| info_parent := ann_parent ann;
                   info_res := ann_res ann;
                   info_sig := ann_sig ann;
                   expired := false |} in
    let key := ann_key ann in
    delay ← (if decide (key = selfKey r)
             then
               r ← get;
               modify (set_randCtr (S (randCtr r)));;
               mret (config_routerRefresh (rcore r)
                     + millisecond * mrandIntn1024 (randCtr r))
             else mret (config_routerTimeout (rcore r)));
    r ← get;
    let tm := {| timer_id := nextTimer r; timer_due := now r + delay |} in
    modify (set_nextTimer (S (nextTimer r)));;
    modify (fun r => set_infos (<[key := info]> (infos r)) r);;
    modify (fun r => set_timers (<[key := tm]> (timers r)) r);;
    mret true.

Definition _becomeRoot : M bool :=
  req ← _newReq;
  r ← get;
  let self := selfKey r in
  let res0 := {| res_req := req; port := 0; psig := zeroSig |} in
  bs ← orPanic (routerSigRes_bytesForSig res0 self self);
  let res := {| res_req := req; port := 0;
                psig := sign (crypto_privateKey (rcore r)) bs |} in
  let ann := {| ann_key := self; ann_parent := self;
                ann_res := res; ann_sig := psig res |} in
  ok ← orPanic (routerAnnounce_check ann);
  if negb ok then panic else _update ann.

Definition _useResponse (peerKey : list Z) (res : routerSigRes) : M bool :=
  r ← get;
  bs ← orPanic (routerSigRes_bytesForSig res (selfKey r) peerKey);
  let info := {| info_parent := peerKey;
                 info_res := res;
                 info_sig := sign (crypto_privateKey (rcore r)) bs;
                 expired := false |} in
  let ann := getAnnounce info (selfKey r) in
  ok ← _update ann;
  if (ok : bool) then mret true else mret false.

(** *** Walking the tree *)

(** The loop of [_getRootAndDists]; [None] when it is still running after
    [fuel] iterations. *)
Fixpoint getRootAndDists_loop (fuel : nat) (infos : gmap (list Z) routerInfo)
  (dists : gmap (list Z) Z) (root next : list Z) (dist : Z)
  : option (list Z * gmap (list Z) Z) :=
  match fuel with
  | O => None
  | S fuel' =>
      match dists !! next with
      | Some _ => Some (root, dists)
      | None =>
          match infos !! next with
          | Some info =>
              if expired info then Some (root, dists)
              else getRootAndDists_loop fuel' infos (<[next := dist]> dists)
                     next (info_parent info) (wrap64 (dist + 1))
          | None => Some (root, dists)
          end
      end
  end.

(** Every iteration but the last adds a key of [infos] to [dists], so
    [size infos + 1] iterations are enough ([getRootAndDists_fuel]). *)
Definition _getRootAndDists (r : router) (dest : list Z)
  : list Z * gmap (list Z) Z :=
  default (zeroKey, ∅)
    (getRootAndDists_loop (S (size (infos r))) (infos r) ∅ zeroKey dest 0).

(** The loop of [_getRootAndPath]; [ports] is collected from the node
    towards the root and reversed at the end. *)
Fixpoint getRootAndPath_loop (fuel : nat) (infos : gmap (list Z) routerInfo)
  (visited : gset (list Z)) (ports : list Z) (next dest : list Z)
  : option (list Z * list Z) :=
  match fuel with
  | O => None
  | S fuel' =>
      if decide (next ∈ visited) then Some (dest, [])
      else
        match infos !! next with
        | Some info =>
            if expired info then Some (dest, [])
            else if decide (next = info_parent info) then Some (next, rev ports)
            else getRootAndPath_loop fuel' infos (visited ∪ {[next]})
                   (ports ++ [info_port info]) (info_parent info) dest
        | None => Some (dest, [])
        end
  end.

Definition _getRootAndPath (r : router) (dest : list Z) : list Z * list Z :=
  default (dest, [])
    (getRootAndPath_loop (S (size (infos r))) (infos r) ∅ [] dest dest).

(** The comparison loop of [_getDist]: two less for every leading port the
    two paths share. *)
Fixpoint getDist_loop (keyPath destPath : list Z) (dist : Z) : Z :=
  match keyPath, destPath with
  | a :: keyPath', b :: destPath' =>
      if a =? b then getDist_loop keyPath' destPath' (wrap64 (dist - 2))
      else dist
  | _, _ => dist
  end.

Definition _getDist (destPath : list Z) (key : list Z) : M Z :=
  r ← get;
  keyPath ← match cache r !! key with
            | Some cached => mret cached
            | None =>
                let keyPath := (_getRootAndPath r key).2 in
                modify (fun r => set_cache (<[key := keyPath]> (cache r)) r);;
                mret keyPath
            end;
  let dist := wrap64 (Z.of_nat (length keyPath + length destPath)) in
  mret (getDist_loop keyPath destPath dist).

(** *** Merkle trees of the peers *)

(** [_fixMerks]: rebuild the tree of all infos and push it to every peer
    whose tree has another root digest.  The tree does not depend on the
    order in which the infos are added, and the order in which [r.merks] is
    visited only orders messages that go to different peers; both loops
    run in the order of [map_to_list]. *)
Definition _fixMerks : M unit :=
  r ← get;
  merk ← (if negb bloomMulticastEnabled
          then foldEach (map_to_list (infos r)) emptyTree (fun merk '(k, info) =>
                 let ann := getAnnounce info k in
                 bs ← orPanic (routerAnnounce_encode ann []);
                 let digest := GetDigest bs in
                 mret (Add k digest merk))
          else mret emptyTree);
  forEach (map_to_list (merks r)) (fun '(k, orig) =>
    (if negb bloomMulticastEnabled then mret tt else panic);;
    if decide (Digest (Root merk) = Digest (Root orig)) then mret tt
    else
      modify (fun r => set_merks (<[k := merk]> (merks r)) r);;
      let res := {| mres_req := zeroMerkleReq; digest := Digest (Root merk) |} in
      let req := zeroMerkleReq in
      r ← get;
      forEach (default [] (alookup k (rpeers r))) (fun p =>
        emit (Send p (sendMerkleRes res));;
        emit (Send p (sendMerkleReq req)))).

(** *** The parent selector *)

Definition resSeq (r : router) (pk : list Z) : Z := default 0 (resSeqs r !! pk).

(** One iteration of [for pk := range r.responses] in [_fix], on the pair
    [(bestRoot, bestParent)]. *)
Definition fix_response (r : router) (self : routerInfo)
  (best : list Z * list Z) (pk : list Z) : list Z * list Z :=
  match infos r !! pk with
  | None => best
  | Some _ =>
      let '(pRoot, pDists) := _getRootAndDists r pk in
      match pDists !! selfKey r with
      | Some _ => best
      | None =>
          let '(bestRoot, bestParent) :=
            if less pRoot best.1 then (pRoot, pk) else best in
          if refresh r || bool_decide (bestParent ≠ info_parent self)
          then
            if bool_decide (pRoot = bestRoot)
               && (resSeq r pk <? resSeq r bestParent)
            then (pRoot, pk)
            else (bestRoot, bestParent)
          else (bestRoot, bestParent)
      end
  end.

Definition clearRootFlags : M unit :=
  modify (set_refresh false);;
  modify (set_doRoot1 false);;
  modify (set_doRoot2 false).

(** [_fix].  The deferred [_fixMerks] runs when the body returns; the two
    deferred calls into the bloom layer are not modelled.  The one-second
    [fixTimer] armed in the third case runs [fixTimerCallback]. *)
Definition _fix : M unit :=
  r ← get;
  let bestRoot := selfKey r in
  let bestParent := selfKey r in
  let self := default zeroInfo (infos r !! selfKey r) in
  let '(bestRoot, bestParent) :=
    match alookup (info_parent self) (rpeers r) with
    | Some _ =>
        let root := (_getRootAndDists r (selfKey r)).1 in
        if less root bestRoot then (root, info_parent self)
        else (bestRoot, bestParent)
    | None => (bestRoot, bestParent)
    end in
  let '(bestRoot, bestParent) :=
    fold_left (fix_response r self) (responses r).*1 (bestRoot, bestParent) in
  (if refresh r || doRoot1 r || doRoot2 r
      || bool_decide (info_parent self ≠ bestParent)
   then
     let res := alookup bestParent (responses r) in
     match (if bool_decide (bestRoot ≠ selfKey r) then res else None) with
     | Some res =>
         (* Somebody else should be root *)
         ok ← _useResponse bestParent res;
         (if negb ok then panic else mret tt);;
         modify (set_fixTimer None);;
         clearRootFlags;;
         _sendReqs
     | None =>
         if doRoot2 r then
           (* Become root *)
           ok ← _becomeRoot;
           (if negb ok then panic else mret tt);;
           clearRootFlags;;
           modify (set_fixTimer None);;
           _sendReqs
         else if negb (doRoot1 r) then
           modify (set_fixTimer (Some (now r + second)));;
           modify (set_doRoot1 true)
         else mret tt
     end
   else mret tt);;
  _fixMerks.

(** [_handleResponse]: keep the first response that answers the
    outstanding request of the peer. *)
Definition _handleResponse (p : peer) (res : routerSigRes) : M unit :=
  r ← get;
  if bool_decide (alookup (peer_key p) (responses r) = None)
     && bool_decide (default zeroSigReq (requests r !! peer_key p) = res_req res)
  then
    modify (set_resSeqCtr (wrap64 (resSeqCtr r + 1)));;
    modify (fun r => set_resSeqs (<[peer_key p := resSeqCtr r]> (resSeqs r)) r);;
    modify (fun r => set_responses (responses r ++ [(peer_key p, res)]) r);;
    _fix
  else mret tt.

(** The callback of the one-second timer armed by [_fix]. *)
Definition fixTimerCallback : M unit :=
  modify (set_fixTimer None);;
  r ← get;
  if doRoot1 r then modify (set_doRoot2 true);; _fix else mret tt.

(** The callback of the timer [tm] that [_update] created for [key]: the
    refresh of the local info, the two-phase expiry of any other. *)
Definition timerCallback (key : list Z) (tm : timer) : M unit :=
  r ← get;
  match timers r !! key with
  | Some cur =>
      if decide (timer_id cur = timer_id tm) then
        if decide (key = selfKey r) then
          modify (set_refresh true);;
          _fix
        else
          let info := default zeroInfo (infos r !! key) in
          if bool_decide (infos r !! key = None) || expired info then
            modify (fun r => set_infos (delete key (infos r)) r);;
            modify (fun r => set_timers (delete key (timers r)) r);;
            _resetCache;;
            _fix
          else
            let info := {| info_parent := info_parent info;
                           info_res := info_res info;
                           info_sig := info_sig info;
                           expired := true |} in
            modify (fun r => set_infos (<[key := info]> (infos r)) r);;
            modify (fun r => set_timers
              (<[key := {| timer_id := timer_id cur;
                           timer_due := now r + 2 * config_routerTimeout (rcore r) |}]>
                 (timers r)) r);;
            _fix
      else mret tt
  | None => mret tt
  end.

(** The runtime fires the timer stored for [key] when the clock reaches
    its due time. *)
Definition fireTimer (key : list Z) : M unit :=
  r ← get;
  match timers r !! key with
  | Some tm => modify (set_now (timer_due tm));; timerCallback key tm
  | None => mret tt
  end.

(** *** Announcements from peers *)

(** One iteration of [for k := range r.infos] in [_handleAnnounce], on the
    pair [(worst, found)]. *)
Definition worst_step (self : list Z) (acc : list Z * bool) (k : list Z)
  : list Z * bool :=
  if decide (k = self) then acc
  else if negb acc.2 || less acc.1 k then (k, true)
  else acc.

Definition _handleAnnounce (sender : peer) (ann : routerAnnounce) : M unit :=
  r ← get;
  let '(doUpdate, worst, found) :=
    if Z.of_nat (size (infos r)) <? int_of_uint64 (config_routerMaxInfos (rcore r))
    then (true, zeroKey, false)
    else
      match infos r !! ann_key ann with
      | Some _ => (true, zeroKey, false)
      | None =>
          let '(worst, found) :=
            fold_left (worst_step (selfKey r)) (map_to_list (infos r)).*1
              (zeroKey, false) in
          if less (ann_key ann) worst then (true, worst, found)
          else (false, worst, found)
      end in
  if negb doUpdate then mret tt
  else
    ok ← _update ann;
    if (ok : bool) then
      (if (found : bool) then
         r ← get;
         match timers r !! worst with
         | None => panic          (* Stop on a nil timer *)
         | Some _ =>
             modify (fun r => set_infos (delete worst (infos r)) r);;
             modify (fun r => set_timers (delete worst (timers r)) r);;
             _resetCache
         end
       else mret tt);;
      (if decide (ann_key ann = selfKey r) then modify (set_refresh true)
       else mret tt);;
      _fix
    else mret tt.

(** *** Merkle requests *)



(** *** Forwarding *)

(** One iteration of [for p := range ps] in [_lookup], on [bestPeer]. *)
Definition lookup_link (bestPeer : option peer) (p : peer) : option peer :=
  match bestPeer with
  | Some best =>
      if peer_prio p >? peer_prio best then bestPeer
      else if peer_time p >? peer_time best then bestPeer
      else Some p
  | None => Some p
  end.

Definition _lookup (tr : traffic) : M (option peer * traffic) :=
  r ← get;
  dist ← _getDist (tr_path tr) (selfKey r);
  if dist <? tr_watermark tr then
    let bestDist := dist in
    let tr := {| tr_path := tr_path tr; tr_watermark := dist;
                 tr_source := tr_source tr; tr_dest := tr_dest tr;
                 tr_payload := tr_payload tr |} in
    best ← foldEach (rpeers r) (None, bestDist) (fun '(bestPeer, bestDist) '(k, ps) =>
      dist ← _getDist (tr_path tr) k;
      if dist <? bestDist
      then mret (fold_left lookup_link ps bestPeer, dist)
      else mret (bestPeer, bestDist));
    mret (best.1, tr)
  else mret (None, tr).

Definition handleTraffic (tr : traffic) : M unit :=
  '(next, tr) ← _lookup tr;
  r ← get;
  match next with
  | Some p => emit (Send p (sendTraffic tr))
  | None =>
      if decide (tr_dest tr = selfKey r) then emit (Deliver tr)
      else emit (DoBroken tr)
  end.

(** *** Peers coming up *)

(** Add the link [p] to the links of its key, at the end of the range
    order (a new key goes to the end as well). *)
Fixpoint addLink (p : peer) (l : list (list Z * list peer))
  : list (list Z * list peer) :=
  match l with
  | [] => [(peer_key p, [p])]
  | (k, ps) :: l' =>
      if decide (k = peer_key p) then (k, ps ++ [p]) :: l'
      else (k, ps) :: addLink p l'
  end.

(** [router.addPeer]; the calls into the bloom layer are not modelled. *)
Definition router_addPeer (p : peer) : M unit :=
  r ← get;
  let isNew := bool_decide (alookup (peer_key p) (rpeers r) = None) in
  (if isNew then
     modify (fun r => set_ports (<[peer_port p := peer_key p]> (ports r)) r);;
     modify (fun r => set_merks (<[peer_key p := emptyTree]> (merks r)) r)
   else mret tt);;
  modify (fun r => set_rpeers (addLink p (rpeers r)) r);;
  (r ← get;
   match alookup (peer_key p) (responses r) with
   | Some _ => mret tt
   | None =>
       (match requests r !! peer_key p with
        | Some _ => mret tt
        | None =>
            req ← _newReq;
            modify (fun r => set_requests (<[peer_key p := req]> (requests r)) r)
        end);;
       r ← get;
       let req := default zeroSigReq (requests r !! peer_key p) in
       emit (Send p (sendSigReq req))
   end);;
  (* the deferred calls *)
  if isNew then _fixMerks
  else
    r ← get;
    let res := {| mres_req := zeroMerkleReq;
                  digest := Digest (Root (default emptyTree (merks r !! peer_key p))) |} in
    emit (Send p (sendMerkleRes res));;
    emit (Send p (sendMerkleReq zeroMerkleReq)).

(** *** Start-up *)

(** The state [router.init] builds, and the first [_fix] it schedules. *)
Definition initRouter (c : core) (t0 : Z) : router :=
  {| rcore := c; rpeers := []; ports := ∅; merks := ∅; infos := ∅;
     timers := ∅; cache := ∅; requests := ∅; responses := [];
     resSeqs := ∅; resSeqCtr := 0; refresh := false; doRoot1 := false;
     doRoot2 := true; fixTimer := None; now := t0; nextTimer := 0;
     randCtr := 0; trace := [] |}.

Definition init (c : core) (t0 : Z) : outcome unit := _fix (initRouter c t0).

End Router.

(** ** More of the router: links going down, the closest known key *)

Section RouterMore.
Context `{Env}.

(** Delete a key from a map kept as an association list. *)
Definition adelete {V : Type} (k : list Z) (l : list (list Z * V))
  : list (list Z * V) :=
  filter (fun kv => kv.1 ≠ k) l.

(** Take the link [p] out of the links of its key. *)
Fixpoint removeLink (p : peer) (l : list (list Z * list peer))
  : list (list Z * list peer) :=
  match l with
  | [] => []
  | (k, ps) :: l' =>
      if decide (k = peer_key p) then (k, filter (fun q => q ≠ p) ps) :: l'
      else (k, ps) :: removeLink p l'
  end.

(** [router.removePeer]: [ps] is the set of links of the key, a nil set
    when the key is not peered; when the last link has gone the key is
    forgotten and the parent is chosen anew.  The call into the bloom
    layer is not modelled. *)
Definition router_removePeer (p : peer) : M unit :=
  modify (fun r => set_rpeers (removeLink p (rpeers r)) r);;
  r ← get;
  let ps := default [] (alookup (peer_key p) (rpeers r)) in
  if (length ps =? 0)%nat then
    modify (fun r => set_rpeers (adelete (peer_key p) (rpeers r)) r);;
    modify (fun r => set_requests (delete (peer_key p) (requests r)) r);;
    modify (fun r => set_responses (adelete (peer_key p) (responses r)) r);;
    modify (fun r => set_resSeqs (delete (peer_key p) (resSeqs r)) r);;
    modify (fun r => set_ports (delete (peer_port p) (ports r)) r);;
    modify (fun r => set_cache (delete (peer_key p) (cache r)) r);;
    _fix
  else mret tt.

(** One iteration of [for key := range r.infos] in [_keyLookup], on the
    pair [(lowest, best)] of pointers; [None] is the dereference of a nil
    [best] in [best.less(key)]. *)
Definition keyLookup_step (dest : list Z)
  (acc : option (list Z) * option (list Z)) (key : list Z)
  : option (option (list Z) * option (list Z)) :=
  let '(lowest, best) := acc in
  let lowest :=
    match lowest with
    | None => Some key
    | Some l => if less key l then Some key else lowest
    end in
  let best :=
    match best with
    | None => if less key dest then Some key else None
    | Some _ => best
    end in
  if less key dest then
    match best with
    | None => None
    | Some b => if less b key then Some (lowest, Some key)
                else Some (lowest, best)
    end
  else Some (lowest, best).

Fixpoint keyLookup_loop (dest : list Z) (keys : list (list Z))
  (acc : option (list Z) * option (list Z))
  : option (option (list Z) * option (list Z)) :=
  match keys with
  | [] => Some acc
  | key :: keys' =>
      match keyLookup_step dest acc key with
      | None => None
      | Some acc' => keyLookup_loop dest keys' acc'
      end
  end.

(** [_keyLookup]: the known key that is the closest match to [dest].  The
    loop runs over [r.infos] in the order of [map_to_list]; the outer
    [None] is a panic. *)
Definition _keyLookup (r : router) (dest : list Z) : option (list Z) :=
  match infos r !! dest with
  | Some _ => Some dest
  | None =>
      match keyLookup_loop dest (map_to_list (infos r)).*1 (None, None) with
      | None => None
      | Some (lowest, best) =>
          let best := match best with None => lowest | Some _ => best end in
          match best with
          | None => Some dest
          | Some b => Some b
          end
      end
  end.

End RouterMore.

(** ** Specification-side notions

    The definitions below follow the words of the specification; the
    theorems compare them with the code above. *)

(** "Less means lexicographically smaller", on keys of one length. *)
Inductive lex_lt : list Z -> list Z -> Prop :=
| lex_lt_here (a b : Z) (k1 k2 : list Z) : a < b -> lex_lt (a :: k1) (b :: k2)
| lex_lt_next (a : Z) (k1 k2 : list Z) : lex_lt k1 k2 -> lex_lt (a :: k1) (a :: k2).

(** The ordering table of the announcement store: the first rule on which
    the announce [a] and the stored info [i] differ decides; a higher [seq]
    wins, then the lower [parent], then the lower [nonce]. *)
Definition crdt_accepts (a : routerAnnounce) (i : routerInfo) : Prop :=
  ann_seq a > info_seq i
  \/ (ann_seq a = info_seq i
      /\ (lex_lt (ann_parent a) (info_parent i)
          \/ (ann_parent a = info_parent i /\ ann_nonce a < info_nonce i))).

(** The info [_update] stores for an accepted announce. *)
Definition infoOf (a : routerAnnounce) : routerInfo :=
  {| info_parent := ann_parent a; info_res := ann_res a;
     info_sig := ann_sig a; expired := false |}.

(** ** A small environment for running the code

    One-byte keys, signatures and digests; a toy signature (the byte sum
    of key and message, with the public key as private key), byte sums as
    digests, and counters as random sources. *)
Definition byteSum (bs : list Z) : Z := fold_right Z.add 0 bs mod 256.

Definition exampleEnv : Env :=
  {| env_sizes := {| publicKeySize := 1; signatureSize := 1; digestSize := 1 |};
     sign := fun priv bs => [byteSum (priv ++ bs)];
     verify := fun pub bs sg => bool_decide (sg = [byteSum (pub ++ bs)]);
     GetDigest := fun bs => [byteSum bs];
     combineDigests := fun l r => [byteSum (1 :: l ++ r ++ r)];
     bloomMulticastEnabled := false;
     crandUint64 := fun n => Z.of_nat n + 100;
     mrandIntn1024 := fun n => Z.of_nat n mod 1024 |}.

(** A node with key [[k]] (one byte), refresh period 50 s, timeout 100 s and
    room for [maxInfos] infos. *)
Definition exampleCore (k maxInfos : Z) : core :=
  {| crypto_publicKey := [k]; crypto_privateKey := [k];
     config_routerRefresh := 50 * second; config_routerTimeout := 100 * second;
     config_routerMaxInfos := maxInfos |}.

(** What an accepted [_update] of [a] does to the state: the info and a
    fresh timer are stored under the key, the path cache is emptied, and
    nothing is sent. *)
Definition stores `{Env} (a : routerAnnounce) (r r' : router) : Prop :=
  infos r' = <[ann_key a := infoOf a]> (infos r)
  /\ timers r' =
       <[ann_key a :=
           {| timer_id := nextTimer r;
              timer_due := now r +
                (if decide (ann_key a = crypto_publicKey (rcore r))
                 then config_routerRefresh (rcore r)
                      + millisecond * mrandIntn1024 (randCtr r)
                 else config_routerTimeout (rcore r)) |}]> (timers r)
  /\ cache r' = ∅
  /\ nextTimer r' = S (nextTimer r)
  /\ rcore r' = rcore r /\ now r' = now r /\ trace r' = trace r
  /\ rpeers r' = rpeers r /\ merks r' = merks r
  /\ requests r' = requests r /\ responses r' = responses r
  /\ resSeqs r' = resSeqs r /\ resSeqCtr r' = resSeqCtr r
  /\ refresh r' = refresh r /\ doRoot1 r' = doRoot1 r
  /\ doRoot2 r' = doRoot2 r /\ fixTimer r' = fixTimer r.

(** A handler step that leaves the announcement store, its timers, the
    peers, the clock and the configuration alone. *)
Definition same_store (r r' : router) : Prop :=
  rcore r' = rcore r /\ now r' = now r /\ rpeers r' = rpeers r
  /\ infos r' = infos r /\ timers r' = timers r.

(** What [_fix] may do to the store: nothing, or replace the info of the
    local key (and its timer) by a new announcement of the local key. *)
Definition fix_frame (r r' : router) : Prop :=
  rcore r' = rcore r /\ now r' = now r /\ rpeers r' = rpeers r
  /\ ((infos r' = infos r /\ timers r' = timers r)
      \/ exists a tm,
           ann_key a = crypto_publicKey (rcore r)
           /\ infos r' = <[ann_key a := infoOf a]> (infos r)
           /\ timers r' = <[ann_key a := tm]> (timers r)).

(** [m] relates every state to the state it ends in as [R] does. *)
Definition preserves {A : Type} (R : router -> router -> Prop) (m : M A) : Prop :=
  forall r a r', m r = Done a r' -> R r r'.

(** The stored info once its expiry timer has fired for the first time. *)
Definition expire (i : routerInfo) : routerInfo :=
  {| info_parent := info_parent i; info_res := info_res i;
     info_sig := info_sig i; expired := true |}.

(** "The entry is deleted [d] after acceptance": the announce is accepted,
    the timer of its key fires twice, each time when due and with nothing
    happening in between, the entry is still there after the first firing
    and gone after the second, which takes place [d] after the acceptance. *)
Definition deleted_after `{Env} (a : routerAnnounce) (r0 : router) (d : Z) : Prop :=
  exists r1 r2 r3,
    _update a r0 = Done true r1
    /\ fireTimer (ann_key a) r1 = Done tt r2
    /\ is_Some (infos r2 !! ann_key a)
    /\ fireTimer (ann_key a) r2 = Done tt r3
    /\ infos r3 !! ann_key a = None
    /\ timers r3 !! ann_key a = None
    /\ now r3 = now r0 + d.

(** Bytes. *)
Definition bytes_ok (k : list Z) : Prop := Forall (fun b => 0 <= b < 256) k.

(** A key as the Go type has it: [publicKeySize] bytes. *)
Definition key_wf `{Sizes} (k : list Z) : Prop :=
  length k = publicKeySize /\ bytes_ok k.

#[global] Instance key_wf_dec `{Sizes} (k : list Z) : Decision (key_wf k).
Proof. unfold key_wf, bytes_ok. apply _. Defined.

(** Every key of the store is a key. *)
Definition keys_wf `{Sizes} (r : router) : Prop :=
  map_Forall (fun k _ => key_wf k) (infos r).

#[global] Instance keys_wf_dec `{Sizes} (r : router) : Decision (keys_wf r).
Proof. unfold keys_wf. apply _. Defined.

(** "The highest-keyed non-self entry" of the store. *)
Definition highest_nonself (r : router) (w : list Z) : Prop :=
  is_Some (infos r !! w)
  /\ w ≠ crypto_publicKey (rcore r)
  /\ forall k, is_Some (infos r !! k) -> k ≠ crypto_publicKey (rcore r) ->
       ~ lex_lt w k.

(** Every info stored for a key other than the local one passes
    [routerAnnounce.check]. *)
Definition remote_valid `{Env} (r : router) : Prop :=
  map_Forall (fun k i => k ≠ crypto_publicKey (rcore r) ->
                routerAnnounce_check (getAnnounce i k) = Some true) (infos r).

#[global] Instance remote_valid_dec `{Env} (r : router) : Decision (remote_valid r).
Proof. unfold remote_valid. apply _. Defined.

(** A forwarding trajectory: [trajectory tr hops] when the packet [tr] is
    forwarded from node to node, [hops] being the packet as each node in
    turn sends it on ([handleTraffic] hands it to the next hop's link).
    The nodes are arbitrary routers in arbitrary states. *)
Inductive trajectory : traffic -> list traffic -> Prop :=
| trajectory_end (tr : traffic) : trajectory tr []
| trajectory_hop (tr tr' : traffic) (r r' : router) (p : peer)
    (rest : list traffic) :
    handleTraffic tr r = Done tt r' ->
    trace r' = trace r ++ [Send p (sendTraffic tr')] ->
    trajectory tr' rest ->
    trajectory tr (tr' :: rest).

(** The watermarks of [hops] go strictly down from [w]. *)
Fixpoint decreasing (w : Z) (hops : list traffic) : Prop :=
  match hops with
  | [] => True
  | tr :: hops' => tr_watermark tr < w /\ decreasing (tr_watermark tr) hops'
  end.





(** The state after one more action. *)
Definition sending (a : action) (r : router) : router :=
  set_trace (trace r ++ [a]) r.

(** The key [_keyLookup] is after: [dest] itself when it is known or
    nothing is; otherwise a known key below [dest] that no known key below
    [dest] is above, or, when no known key is below [dest], a known key
    that no known key is below. *)
Definition closest_key (r : router) (dest k : list Z) : Prop :=
  (is_Some (infos r !! dest) /\ k = dest)
  \/ (infos r = ∅ /\ k = dest)
  \/ (infos r !! dest = None
      /\ is_Some (infos r !! k)
      /\ ((less k dest = true
           /\ forall k', is_Some (infos r !! k') -> less k' dest = true ->
                less k k' = false)
          \/ ((forall k', is_Some (infos r !! k') -> less k' dest = false)
              /\ forall k', is_Some (infos r !! k') -> less k' k = false))).

(** The key the loop of [_keyLookup] has settled on when it ends with
    [(lowest, best)]. *)
Definition keyLookup_choice (dest : list Z)
  (acc : option (list Z) * option (list Z)) : list Z :=
  match acc.2 with
  | Some b => b
  | None => default dest acc.1
  end.

(** The walk from [k] along the parents, over infos that have not
    expired, ends at the self-parented [root]; [path] lists the ports from
    the root down to [k]. *)
Inductive ancestry (infos : gmap (list Z) routerInfo)
  : list Z -> list Z -> list Z -> Prop :=
| ancestry_root (k : list Z) (i : routerInfo) :
    infos !! k = Some i -> expired i = false -> info_parent i = k ->
    ancestry infos k k []
| ancestry_step (k : list Z) (i : routerInfo) (root path : list Z) :
    infos !! k = Some i -> expired i = false -> info_parent i ≠ k ->
    ancestry infos (info_parent i) root path ->
    ancestry infos k root (path ++ [info_port i]).

(** The path [_getDist] measures [key] by: the cached one if there is
    one, else the one [_getRootAndPath] finds. *)
Definition cachedPath (r : router) (key : list Z) : list Z :=
  match cache r !! key with
  | Some cached => cached
  | None => (_getRootAndPath r key).2
  end.

(** The distance [_getDist] computes from the two paths. *)
Definition pathDist (keyPath destPath : list Z) : Z :=
  getDist_loop keyPath destPath
    (wrap64 (Z.of_nat (length keyPath + length destPath))).

(** The store and its timers go together: every info has a timer and
    every timer an info, and the node's own info is in the store. *)
Definition store_inv (r : router) : Prop :=
  dom (infos r) = dom (timers r)
  /\ is_Some (infos r !! crypto_publicKey (rcore r)).

(** A step that keeps the node's identity and [store_inv]. *)
Definition keeps_inv (r r' : router) : Prop :=
  rcore r' = rcore r /\ (store_inv r -> store_inv r').

#[global] Instance store_inv_dec (r : router) : Decision (store_inv r).
Proof. unfold store_inv. apply _. Defined.

Section Admission.
Context `{Env}.

(** The capacity test of [_handleAnnounce] lets the announce through:
    there is room, or the key is known, or the key is below the highest
    key of another node. *)
Definition admitted (r : router) (a : routerAnnounce) : bool :=
  (Z.of_nat (size (infos r)) <? int_of_uint64 (config_routerMaxInfos (rcore r)))
  || bool_decide (is_Some (infos r !! ann_key a))
  || less (ann_key a)
       (fold_left (worst_step (selfKey r)) (map_to_list (infos r)).*1
          (zeroKey, false)).1.

(** The key [_handleAnnounce] evicts for an admitted announce: none when
    there is room or the key is known, otherwise the highest key of
    another node, if there is one. *)
Definition evicted (r : router) (a : routerAnnounce) : option (list Z) :=
  if Z.of_nat (size (infos r)) <? int_of_uint64 (config_routerMaxInfos (rcore r))
  then None
  else
    match infos r !! ann_key a with
    | Some _ => None
    | None =>
        let wf := fold_left (worst_step (selfKey r)) (map_to_list (infos r)).*1
                    (zeroKey, false) in
        if wf.2 then Some wf.1 else None
    end.

(** The state [_handleAnnounce] hands to [_fix], [ru] being the state
    [_update] left: the entry [evict] and its timer are gone and the cache
    is empty, and the refresh flag is up for an announce of the local
    key. *)
Definition beforeFix_with (r : router) (a : routerAnnounce)
  (evict : option (list Z)) (ru : router) : router :=
  let r1 := match evict with
            | Some worst =>
                set_cache ∅
                  (set_timers (delete worst (timers ru))
                     (set_infos (delete worst (infos ru)) ru))
            | None => ru
            end in
  if decide (ann_key a = selfKey r) then set_refresh true r1 else r1.

Definition beforeFix (r : router) (a : routerAnnounce) (ru : router) : router :=
  beforeFix_with r a (evicted r a) ru.

End Admission.

(** The key pair of the node is sound: what its private key signs, its
    public key verifies. *)
Definition keypair_ok `{Env} (c : core) : Prop :=
  forall bs, verify (crypto_publicKey c) bs (sign (crypto_privateKey c) bs) = true.

(** The announcement by which a node makes itself root when its own info
    has sequence number [sq] and the random source is at [ctr]. *)
Definition rootAnnounce `{Env} (c : core) (sq : Z) (ctr : nat) : routerAnnounce :=
  let self := crypto_publicKey c in
  let req := {| seq := wrap64 (sq + 1); nonce := wrap64 (crandUint64 ctr) |} in
  let bs := wireAppendUint (self ++ self ++ sigReq_bytes req) 0 in
  let sg := sign (crypto_privateKey c) bs in
  {| ann_key := self; ann_parent := self;
     ann_res := {| res_req := req; port := 0; psig := sg |};
     ann_sig := sg |}.

(** Timers are told apart by their identity: every stored timer was
    created before the next one to be created. *)
Definition timers_fresh (r : router) : Prop :=
  map_Forall (fun _ tm => (timer_id tm < nextTimer r)%nat) (timers r).

(** A step that creates timers only with new identities. *)
Definition fresh_step (r r' : router) : Prop :=
  (nextTimer r <= nextTimer r')%nat /\ (timers_fresh r -> timers_fresh r').

Section MerkleSync.
Context `{Env}.

(** The Merkle tree of all stored announcements, as [_fixMerks] builds it. *)
Definition infosTree (r : router) : Tree :=
  fold_left (fun merk '(k, info) =>
               Add k (GetDigest (announce_bytes (getAnnounce info k))) merk)
            (map_to_list (infos r)) emptyTree.

(** The tree kept for every peer key has the root digest of [infosTree]. *)
Definition merks_synced (r : router) : Prop :=
  map_Forall (fun _ t => Digest (Root t) = Digest (Root (infosTree r))) (merks r).

(** The two messages [_fixMerks] sends to a peer whose tree it replaced. *)
Definition merkleRefresh (r : router) (p : peer) : list action :=
  [Send p (sendMerkleRes {| mres_req := zeroMerkleReq;
                            digest := Digest (Root (infosTree r)) |});
   Send p (sendMerkleReq zeroMerkleReq)].

End MerkleSync.

(** The bookkeeping of signature requests and responses: a request is
    out for every peered key and for no other key; a stored response
    carries the request that is out for its key; the responses are
    numbered in the order they came, by numbers that are positive, at most
    the counter and different from one another. *)
Definition reqs_inv (r : router) : Prop :=
  0 <= resSeqCtr r
  /\ (forall k, is_Some (requests r !! k) <-> is_Some (alookup k (rpeers r)))
  /\ (forall k res, alookup k (responses r) = Some res ->
        requests r !! k = Some (res_req res) /\ is_Some (resSeqs r !! k))
  /\ (forall k n, resSeqs r !! k = Some n ->
        is_Some (alookup k (responses r)) /\ 0 < n <= resSeqCtr r)
  /\ (forall k1 k2 n, resSeqs r !! k1 = Some n -> resSeqs r !! k2 = Some n ->
        k1 = k2).

(** A step that leaves the peers and the bookkeeping alone. *)
Definition same_reqs (r r' : router) : Prop :=
  rpeers r' = rpeers r /\ requests r' = requests r
  /\ responses r' = responses r /\ resSeqs r' = resSeqs r
  /\ resSeqCtr r' = resSeqCtr r.

(** What [_fix] may do to the bookkeeping: nothing, or start it anew with
    a request to every peered key. *)
Definition reqs_step (r r' : router) : Prop :=
  same_reqs r r'
  \/ (rpeers r' = rpeers r /\ responses r' = [] /\ resSeqs r' = ∅
      /\ resSeqCtr r' = 0
      /\ forall k, is_Some (requests r' !! k) <->
                   is_Some (alookup k (rpeers r'))).

Section ParentChoice.
Context `{Env}.

(** The root [_fix] reckons with for a key: where [_getRootAndDists]
    stops.  It is the zero key where the key itself is unknown or has
    expired. *)
Definition rootOf (r : router) (k : list Z) : list Z := (_getRootAndDists r k).1.

(** A peer [_fix] considers as a parent: it has answered the request, its
    info is stored, and the way up from it does not pass the node. *)
Definition fix_eligible (r : router) (pk : list Z) : Prop :=
  pk ∈ (responses r).*1 /\ is_Some (infos r !! pk)
  /\ (_getRootAndDists r pk).2 !! selfKey r = None.

(** The parent [p] comes with the root [root]: it is an eligible peer and
    [root] is its root, or it is the parent the node has, still peered,
    and [root] is the root of the node. *)
Definition fix_candidate (r : router) (p root : list Z) : Prop :=
  (fix_eligible r p /\ root = rootOf r p)
  \/ (p = info_parent (default zeroInfo (infos r !! selfKey r))
      /\ is_Some (alookup p (rpeers r))
      /\ root = rootOf r (selfKey r)).

End ParentChoice.

(** Every cached path is the path [_getRootAndPath] finds in the store. *)
Definition cache_ok (r : router) : Prop :=
  map_Forall (fun k p => p = (_getRootAndPath r k).2) (cache r).

#[global] Instance cache_ok_dec (r : router) : Decision (cache_ok r).
Proof. unfold cache_ok. apply _. Defined.

(** A step that keeps the cache in line with the store. *)
Definition cache_step (r r' : router) : Prop := cache_ok r -> cache_ok r'.

Section MerkleIndex.
Context `{Env}.


(** A trie as [Add] builds it: all leaves are [h] levels down, a leaf
    holds the digest of some bytes, and an inner node the digest of its
    children. *)
Fixpoint built (h : nat) (n : Node) : Prop :=
  match h with
  | O => Left n = None /\ Right n = None /\ exists bs, Digest n = GetDigest bs
  | S h' =>
      (is_Some (Left n) \/ is_Some (Right n))
      /\ Digest n = combineDigests (childDigest (Left n)) (childDigest (Right n))
      /\ (forall l, Left n = Some l -> built h' l)
      /\ (forall r, Right n = Some r -> built h' r)
  end.

(** A tree of [r.merks]: the zero value, or a trie over whole keys. *)
Definition tree_wf (t : Tree) : Prop := t = emptyTree \/ built KeyBits (Root t).

(** What the handlers keep of the Merkle trees while they run: the local
    key and the keys of the store are keys, every tree is the zero value
    or a trie over whole keys, and every peered key has a tree. *)
Definition merks_wf (r : router) : Prop :=
  key_wf (selfKey r)
  /\ keys_wf r
  /\ map_Forall (fun _ t => tree_wf t) (merks r)
  /\ forall k, is_Some (alookup k (rpeers r)) -> is_Some (merks r !! k).

Definition merks_step (r r' : router) : Prop :=
  rcore r' = rcore r /\ (merks_wf r -> merks_wf r').

(** A step that leaves the store and the trees alone. *)
Definition same_merks (r r' : router) : Prop :=
  infos r' = infos r /\ merks r' = merks r.


End MerkleIndex.


(** ** Example states

    All under [exampleEnv]; keys are one byte. *)
Definition exampleSender : peer :=
  {| peer_key := [3]; peer_port := 1; peer_prio := 0; peer_time := 0 |}.

Definition stateOf {A : Type} (o : outcome A) (otherwise : router) : router :=
  match o with Done _ r => r | Panicked => otherwise end.

(** Node [[k]] right after start-up: it has made itself root. *)
Definition exampleNode (k maxInfos : Z) : router :=
  stateOf (@init exampleEnv (exampleCore k maxInfos) 0)
          (initRouter (exampleCore k maxInfos) 0).

(** An announcement of node [[k]] with parent [[par]], signed by both with
    the toy signature. *)
Definition exampleAnnounce (k par sq nc pt : Z) : routerAnnounce :=
  let bs := [k] ++ [par] ++ putUvarint 9 sq ++ putUvarint 9 nc ++ putUvarint 9 pt in
  {| ann_key := [k]; ann_parent := [par];
     ann_res := {| res_req := {| seq := sq; nonce := nc |}; port := pt;
                   psig := [byteSum ([par] ++ bs)] |};
     ann_sig := [byteSum ([k] ++ bs)] |}.

(** A root announcement of node [[k]]. *)
Definition exampleRootAnnounce (k sq nc : Z) : routerAnnounce :=
  exampleAnnounce k k sq nc 0.

(** An announcement that fails [routerAnnounce.check]: port 0 with a parent
    other than the key, and signatures that do not verify. *)
Definition exampleBadAnnounce : routerAnnounce :=
  {| ann_key := [4]; ann_parent := [9];
     ann_res := {| res_req := {| seq := 1; nonce := 1 |}; port := 0; psig := [0] |};
     ann_sig := [0] |}.

(** The handlers, run on a state ([r] itself if the handler panics). *)
Definition afterAnnounce (a : routerAnnounce) (r : router) : router :=
  stateOf (@_handleAnnounce exampleEnv exampleSender a r) r.

Definition afterAddPeer (p : peer) (r : router) : router :=
  stateOf (@router_addPeer exampleEnv p r) r.

(** Node [[5]] after it has learned of nodes [[3]] and [[7]]. *)
Definition exampleNode3 (maxInfos : Z) : router :=
  afterAnnounce (exampleRootAnnounce 7 1 8)
    (afterAnnounce (exampleRootAnnounce 3 1 7) (exampleNode 5 maxInfos)).

(** Two parallel links to node [[2]]: [linkA] has the higher (worse) prio
    value and came up first, [linkB] has the lower prio and came up later. *)
Definition linkA : peer :=
  {| peer_key := [2]; peer_port := 1; peer_prio := 2; peer_time := 1 |}.
Definition linkB : peer :=
  {| peer_key := [2]; peer_port := 2; peer_prio := 1; peer_time := 5 |}.

(** A link to node [[4]], of worse prio than [linkC] to node [[2]]. *)
Definition linkC : peer :=
  {| peer_key := [2]; peer_port := 1; peer_prio := 1; peer_time := 1 |}.
Definition linkD : peer :=
  {| peer_key := [4]; peer_port := 2; peer_prio := 2; peer_time := 1 |}.

(** The root [[1]] of the tree [1] -7-> [2] -9-> [4] -3-> destination, with
    the links [first] and [second] added in that order. *)
Definition exampleRoot (first second : peer) : router :=
  afterAnnounce (exampleAnnounce 4 2 1 6 9)
    (afterAnnounce (exampleAnnounce 2 1 1 5 7)
       (afterAddPeer second (afterAddPeer first (exampleNode 1 10)))).

(** A packet for a child of [[4]], seen so far no closer than 10 hops. *)
Definition examplePacket : traffic :=
  {| tr_path := [7; 9; 3]; tr_watermark := 10; tr_source := [8];
     tr_dest := [6]; tr_payload := [] |}.

(** [_handleResponse], run on a state ([r] itself if it panics). *)
Definition afterResponse (p : peer) (res : routerSigRes) (r : router) : router :=
  stateOf (@_handleResponse exampleEnv p res r) r.

(** A response of the peer [p] to the request that is outstanding for its
    key, attesting port 1. *)
Definition exampleResponse (r : router) (p : peer) : routerSigRes :=
  {| res_req := default zeroSigReq (requests r !! peer_key p); port := 1;
     psig := [0] |}.

(** Node [[5]] with the peer [[3]], which it has taken as its parent, and
    a second response of that peer in store. *)
Definition exampleChild : router :=
  let r1 := afterAddPeer exampleSender (exampleNode 5 10) in
  let r2 := afterAnnounce (exampleRootAnnounce 3 1 7) r1 in
  let r3 := afterResponse exampleSender (exampleResponse r2 exampleSender) r2 in
  afterResponse exampleSender (exampleResponse r3 exampleSender) r3.

(** Node [[5]] with the peer [[3]], whose root announcement it has stored
    and whose response has just come in, before [_fix] has run. *)
Definition examplePending : router :=
  let r2 := afterAnnounce (exampleRootAnnounce 3 1 7)
              (afterAddPeer exampleSender (exampleNode 5 10)) in
  set_responses [([3], exampleResponse r2 exampleSender)]
    (set_resSeqs (<[ [3] := 1 ]> ∅) (set_resSeqCtr 1 r2)).

Definition afterFix (r : router) : router := stateOf (@_fix exampleEnv r) r.

(** The root [[1]] after it has routed [examplePacket], which fills its
    path cache, and the same node after the timer of [[2]] has fired. *)
Definition exampleRouted : router :=
  stateOf (handleTraffic examplePacket (exampleRoot linkA linkB))
          (exampleRoot linkA linkB).

Definition afterTimer (key : list Z) (r : router) : router :=
  stateOf (@fireTimer exampleEnv key r) r.





(** ** The spanning tree and the DHT traffic of network/dhtree.go

    The second half of the source is the tree layer the peers of
    network/peers.go talk to: signed ancestries ([treeInfo]), the labels
    that address a node in the tree ([treeLabel]) and the traffic that is
    routed by key.  Embedded here are its data types, the checks and the
    codecs of [treeInfo] and of the traffic types, the tree distance and
    the next-hop choice [_treeLookup]. *)

(** [binary.BigEndian.PutUint64]: the eight bytes of [v], most significant
    first. *)
Definition putUint64 (v : Z) : list Z :=
  [ (v / 2 ^ 56) mod 256; (v / 2 ^ 48) mod 256; (v / 2 ^ 40) mod 256;
    (v / 2 ^ 32) mod 256; (v / 2 ^ 24) mod 256; (v / 2 ^ 16) mod 256;
    (v / 2 ^ 8) mod 256; v mod 256 ].

(** [binary.BigEndian.Uint64] of the first eight bytes of [b]. *)
Definition getUint64 (b : list Z) : Z :=
  fold_left (fun acc x => acc * 256 + x) (take 8 b) 0.

Record treeHop := TreeHop {
  hop_next : list Z;
  hop_port : Z;
  hop_sig : list Z;
}.

Record treeInfo := TreeInfo {
  ti_time : Z;              (* not serialized *)
  ti_hseq : Z;              (* not serialized *)
  ti_root : list Z;
  ti_seq : Z;
  ti_hops : list treeHop;
}.

Record treeLabel := TreeLabel {
  label_sig : list Z;
  label_key : list Z;
  label_root : list Z;
  label_rootSeq : Z;
  label_seq : Z;
  label_path : list Z;
}.

Record dhtWatermark := DhtWatermark {
  mark_key : list Z;
  mark_seq : Z;
}.

Record baseTraffic := BaseTraffic {
  bt_source : list Z;
  bt_dest : list Z;
  bt_kind : Z;              (* a byte *)
  bt_payload : list Z;
}.

Record dhtTraffic := DhtTraffic {
  dt_mark : dhtWatermark;
  dt_base : baseTraffic;
}.

#[global] Instance treeHop_eq_dec : EqDecision treeHop.
Proof. solve_decision. Defined.
#[global] Instance treeInfo_eq_dec : EqDecision treeInfo.
Proof. solve_decision. Defined.

(** Modelled from the spec: [wireEncodeUint] is the name the tree layer
    uses for appending a varint; like [wireAppendUint] it lives in the wire
    layer, outside the two source files. *)
Definition wireEncodeUint (out : list Z) (u : Z) : list Z :=
  wireAppendUint out u.

(** The largest [int]: [int(^(uint(0)) >> 1)] on a 64-bit platform. *)
Definition maxInt : Z := 2 ^ 63 - 1.

Section TreeCodecs.
Context `{Sizes}.

(** *** [treeInfo]: wire format *)

(** The bytes one hop adds in [treeInfo.encode]. *)
Definition treeHop_encode (out : list Z) (hop : treeHop) : list Z :=
  wireEncodeUint (out ++ hop_next hop) (hop_port hop) ++ hop_sig hop.

(** [treeInfo.encode]; its error result is always [nil]. *)
Definition treeInfo_encode (info : treeInfo) (out : list Z) : list Z :=
  fold_left treeHop_encode (ti_hops info)
    (out ++ ti_root info ++ putUint64 (ti_seq info)).

(** The loop [for len(data) > 0] of [treeInfo.decode].  The outer [None]
    means the loop is still running after [fuel] iterations, the inner one
    is [wireDecodeError]. *)
Fixpoint treeInfo_decode_hops (fuel : nat) (data : list Z) (hops : list treeHop)
  : option (option (list treeHop)) :=
  match data with
  | [] => Some (Some hops)
  | _ :: _ =>
      match fuel with
      | O => None
      | S fuel' =>
          match wireChopSlice publicKeySize data with
          | None => Some None
          | Some (next, data) =>
              match wireChopUint data with
              | None => Some None
              | Some (port, data) =>
                  match wireChopSlice signatureSize data with
                  | None => Some None
                  | Some (sig, data) =>
                      treeInfo_decode_hops fuel' data
                        (hops ++ [{| hop_next := next; hop_port := port;
                                     hop_sig := sig |}])
                  end
              end
          end
      end
  end.

(** [treeInfo.decode]; every hop takes at least the byte of its port, so
    [length data] iterations are enough ([treeInfo_decode_total]).  The
    fields that are not serialized keep their zero value. *)
Definition treeInfo_decode (data : list Z) : option (option treeInfo) :=
  match wireChopSlice publicKeySize data with
  | None => Some None
  | Some (root, data) =>
      if (8 <=? length data)%nat then
        let seq := getUint64 (take 8 data) in
        let data := drop 8 data in
        match treeInfo_decode_hops (length data) data [] with
        | None => None
        | Some None => Some None
        | Some (Some hops) =>
            Some (Some {| ti_time := 0; ti_hseq := 0; ti_root := root;
                          ti_seq := seq; ti_hops := hops |})
        end
      else Some None
  end.

(** *** The traffic routed by key *)

(** [dhtWatermark.encode]; its error result is always [nil]. *)
Definition dhtWatermark_encode (m : dhtWatermark) (out : list Z) : list Z :=
  out ++ mark_key m ++ putUint64 (mark_seq m).

(** [dhtWatermark.decode]; [None] is [wireDecodeError]. *)
Definition dhtWatermark_decode (data : list Z) : option dhtWatermark :=
  match wireChopSlice publicKeySize data with
  | None => None
  | Some (key, data) =>
      if (length data <? 8)%nat then None
      else Some {| mark_key := key; mark_seq := getUint64 (take 8 data) |}
  end.

(** [dhtWatermark.chop] on a non-nil pointer: decode, then drop the bytes
    of the key and of the sequence number. *)
Definition dhtWatermark_chop (data : list Z) : option (dhtWatermark * list Z) :=
  match dhtWatermark_decode data with
  | None => None
  | Some m => Some (m, drop (publicKeySize + 8) data)
  end.

(** [baseTraffic.encode]; its error result is always [nil]. *)
Definition baseTraffic_encode (t : baseTraffic) (out : list Z) : list Z :=
  out ++ bt_source t ++ bt_dest t ++ [bt_kind t] ++ bt_payload t.

(** [baseTraffic.decode]; [None] is [wireDecodeError]. *)
Definition baseTraffic_decode (data : list Z) : option baseTraffic :=
  match wireChopSlice publicKeySize data with
  | None => None
  | Some (source, data) =>
      match wireChopSlice publicKeySize data with
      | None => None
      | Some (dest, data) =>
          match data with
          | [] => None
          | kind :: payload =>
              Some {| bt_source := source; bt_dest := dest;
                      bt_kind := kind; bt_payload := payload |}
          end
      end
  end.

(** [dhtTraffic.encode]. *)
Definition dhtTraffic_encode (t : dhtTraffic) (out : list Z) : list Z :=
  baseTraffic_encode (dt_base t)
    (out ++ mark_key (dt_mark t) ++ putUint64 (mark_seq (dt_mark t))).

(** [dhtTraffic.decode]. *)
Definition dhtTraffic_decode (data : list Z) : option dhtTraffic :=
  match dhtWatermark_chop data with
  | None => None
  | Some (mark, data) =>
      match baseTraffic_decode data with
      | None => None
      | Some base => Some {| dt_mark := mark; dt_base := base |}
      end
  end.

End TreeCodecs.

Section TreeInfo.
Context `{Env}.

(** *** [treeInfo]: ends, signatures, loops, distance *)

(** [treeInfo.dest]: the node the ancestry ends at. *)
Definition treeInfo_dest (info : treeInfo) : list Z :=
  match last (ti_hops info) with
  | Some hop => hop_next hop
  | None => ti_root info
  end.

(** [treeInfo.from]: the node that sent the ancestry, one hop before its
    end. *)
Definition treeInfo_from (info : treeInfo) : list Z :=
  if (1 <? length (ti_hops info))%nat then
    match ti_hops info !! (length (ti_hops info) - 2)%nat with
    | Some hop => hop_next hop
    | None => ti_root info
    end
  else ti_root info.

(** The bytes a hop signs: everything signed so far, the next key and the
    port. *)
Definition sigBytes_step (bs : list Z) (hop : treeHop) : list Z :=
  wireEncodeUint (bs ++ hop_next hop) (hop_port hop).

(** The loop of [treeInfo.checkSigs]: [key] signs the hop that leaves it. *)
Fixpoint checkSigs_loop (key bs : list Z) (hops : list treeHop) : bool :=
  match hops with
  | [] => true
  | hop :: hops' =>
      let bs := sigBytes_step bs hop in
      if negb (verify key bs (hop_sig hop)) then false
      else checkSigs_loop (hop_next hop) bs hops'
  end.

Definition treeInfo_checkSigs (info : treeInfo) : bool :=
  if (length (ti_hops info) =? 0)%nat then false
  else checkSigs_loop (ti_root info)
         (ti_root info ++ putUint64 (ti_seq info)) (ti_hops info).

(** The loop of [treeInfo.checkLoops]; [keys] holds the keys seen. *)
Fixpoint checkLoops_loop (key : list Z) (keys : gset (list Z))
  (hops : list treeHop) : bool :=
  match hops with
  | [] => negb (bool_decide (key ∈ keys))
  | hop :: hops' =>
      if bool_decide (key ∈ keys) then false
      else checkLoops_loop (hop_next hop) (keys ∪ {[key]}) hops'
  end.

Definition treeInfo_checkLoops (info : treeInfo) : bool :=
  checkLoops_loop (ti_root info) ∅ (ti_hops info).

(** [treeInfo.add]: extend the ancestry by the hop to [next], signed with
    [priv]. *)
Definition treeInfo_add (info : treeInfo) (priv : list Z) (next : peer)
  : treeInfo :=
  let bs := fold_left sigBytes_step (ti_hops info)
              (ti_root info ++ putUint64 (ti_seq info)) in
  let bs := wireEncodeUint (bs ++ peer_key next) (peer_port next) in
  let sig := sign priv bs in
  let hop := {| hop_next := peer_key next; hop_port := peer_port next;
                hop_sig := sig |} in
  {| ti_time := ti_time info; ti_hseq := ti_hseq info;
     ti_root := ti_root info; ti_seq := ti_seq info;
     ti_hops := ti_hops info ++ [hop] |}.

(** The loop of [treeInfo.dist]: the index of the last hop the two paths
    share, [lcaIdx] when there is none from [idx] on. *)
Fixpoint dist_loop (hops : list treeHop) (path : list Z) (idx lcaIdx : Z) : Z :=
  match hops, path with
  | hop :: hops', port :: path' =>
      if bool_decide (hop_port hop ≠ port) then lcaIdx
      else dist_loop hops' path' (idx + 1) idx
  | _, _ => lcaIdx
  end.

(** [treeInfo.dist]: hops up to the last common ancestor and down again. *)
Definition treeInfo_dist (info : treeInfo) (dest : treeLabel) : Z :=
  if bool_decide (ti_root info ≠ label_root dest) then maxInt
  else
    let a := Z.of_nat (length (ti_hops info)) in
    let b := Z.of_nat (length (label_path dest)) in
    let '(a, b) := if b <? a then (b, a) else (a, b) in
    let lcaIdx := dist_loop (ti_hops info) (label_path dest) 0 (-1) in
    a + b - 2 * (lcaIdx + 1).

(** *** [peer.handleTree] (network/peers.go) *)

Inductive treeError :=
| wireDecodeError
| invalidSignature
| unrecognizedPublicKey
| incorrectDestination.

(** [peer.handleTree] of the peer [p] of the node [self]: the checks an
    ancestry passes before it is handed to [dhtree.update].  The outer
    [None] is a decode loop out of fuel or the index panic of
    [info.hops[len(info.hops)-1]]. *)
Definition handleTree (self : list Z) (p : peer) (bs : list Z)
  : option (treeError + treeInfo) :=
  match treeInfo_decode bs with
  | None => None
  | Some None => Some (inl wireDecodeError)
  | Some (Some info) =>
      if negb (treeInfo_checkSigs info) then Some (inl invalidSignature)
      else if negb (bool_decide (peer_key p = treeInfo_from info))
      then Some (inl unrecognizedPublicKey)
      else
        match last (ti_hops info) with
        | None => None
        | Some hop =>
            if negb (bool_decide (self = hop_next hop))
            then Some (inl incorrectDestination)
            else Some (inr info)
        end
  end.

(** *** The next hop in the tree *)

(** The part of the [dhtree] state that [_treeLookup] reads: the own key,
    [t.self] ([None] for nil) and [t.tinfos] in the order [range] visits
    it. *)
Record dhtree := Dhtree {
  tree_key : list Z;
  tree_self : option treeInfo;
  tinfos : list (peer * treeInfo);
}.

(** One iteration of [for p, info := range t.tinfos] in [_treeLookup], on
    [(best, bestDist, bestPeer)]; [None] is the panic of slicing an empty
    [hops] to [len-1]. *)
Definition treeLookup_step (dest : treeLabel) (distCut : Z)
  (acc : treeInfo * Z * option peer) (entry : peer * treeInfo)
  : option (treeInfo * Z * option peer) :=
  let '(best, bestDist, bestPeer) := acc in
  let '(p, info) := entry in
  if bool_decide (ti_root info ≠ label_root dest)
     || bool_decide (ti_seq info ≠ label_rootSeq dest)
  then Some acc
  else
    match ti_hops info with
    | [] => None
    | _ :: _ =>
        let tmp := {| ti_time := ti_time info; ti_hseq := ti_hseq info;
                      ti_root := ti_root info; ti_seq := ti_seq info;
                      ti_hops := removelast (ti_hops info) |} in
        let dist := treeInfo_dist tmp dest in
        let isBetter :=
          if dist >=? distCut then false
          else if dist <? bestDist then true
          else if dist >? bestDist then false
          else if ti_time info <? ti_time best then true
          else if ti_time best <? ti_time info then false
          else treeLess (treeInfo_from info) (treeInfo_from best) in
        if isBetter then Some (info, dist, Some p) else Some acc
    end.

Fixpoint treeLookup_loop (dest : treeLabel) (distCut : Z)
  (l : list (peer * treeInfo)) (acc : treeInfo * Z * option peer)
  : option (treeInfo * Z * option peer) :=
  match l with
  | [] => Some acc
  | entry :: l' =>
      match treeLookup_step dest distCut acc entry with
      | None => None
      | Some acc' => treeLookup_loop dest distCut l' acc'
      end
  end.

(** [_treeLookup]; the outer [None] is a panic (a nil [t.self], or an
    ancestry without hops among the candidates). *)
Definition _treeLookup (t : dhtree) (dest : treeLabel) : option (option peer) :=
  if bool_decide (tree_key t = label_key dest) then Some None
  else
    match tree_self t with
    | None => None
    | Some self =>
        let bestDist := treeInfo_dist self dest in
        match treeLookup_loop dest bestDist (tinfos t) (self, bestDist, None) with
        | None => None
        | Some (best, _, bestPeer) =>
            if bool_decide (ti_root best ≠ label_root dest)
               || bool_decide (ti_seq best ≠ label_rootSeq dest)
            then Some None
            else Some bestPeer
        end
    end.

(** [dhtOrdered]. *)
Definition dhtOrdered (first second third : list Z) : bool :=
  treeLess first second && treeLess second third.

End TreeInfo.

(** ** The peer registry, continued (network/peers.go) *)

(** [peers.init]: an empty registry (on an open PacketConn). *)
Definition peers_init : peers :=
  {| pconn_closed := false; peers_map := ∅ |}.

(** Source-routed traffic: the ports still to go and the DHT traffic it
    wraps.  The type is declared outside the two source files;
    [handlePathTraffic] reads these two fields. *)
Record pathTraffic := PathTraffic {
  pt_path : list Z;
  pt_dt : dhtTraffic;
}.

(** What [handlePathTraffic] does with a packet. *)
Inductive pathAction :=
| SendPathTraffic (next : peer) (tr : pathTraffic)   (* next.sendPathTraffic *)
| HandleDHTTraffic (dt : dhtTraffic).                (* the fall-back *)

(** [peers.handlePathTraffic]: pop the first port of the path (port 0 for
    an empty path) and forward on that port, or fall back to the DHT. *)
Definition handlePathTraffic (ps : peers) (tr : pathTraffic) : pathAction :=
  let '(nextPort, path) :=
    match pt_path tr with
    | [] => (0, [])
    | port :: rest => (port, rest)
    end in
  match peers_map ps !! nextPort with
  | Some next => SendPathTraffic next {| pt_path := path; pt_dt := pt_dt tr |}
  | None => HandleDHTTraffic (pt_dt tr)
  end.

(** Every peer is registered under its own port, and no port is 0. *)
Definition peers_wf (ps : peers) : Prop :=
  map_Forall (fun port p => peer_port p = port /\ 1 <= port < 2 ^ 64)
    (peers_map ps).

(** ** Well-formed values of the tree layer

    The values of the Go types: keys and signatures of their array
    length, sequence numbers and ports within [uint64]. *)

Definition dhtTraffic_wf `{Sizes} (t : dhtTraffic) : Prop :=
  length (mark_key (dt_mark t)) = publicKeySize
  /\ uint64 (mark_seq (dt_mark t))
  /\ length (bt_source (dt_base t)) = publicKeySize
  /\ length (bt_dest (dt_base t)) = publicKeySize.

Definition treeHop_wf `{Sizes} (hop : treeHop) : Prop :=
  length (hop_next hop) = publicKeySize
  /\ uint64 (hop_port hop)
  /\ length (hop_sig hop) = signatureSize.

Definition treeInfo_wf `{Sizes} (info : treeInfo) : Prop :=
  length (ti_root info) = publicKeySize
  /\ uint64 (ti_seq info)
  /\ Forall treeHop_wf (ti_hops info).

(** An ancestry as it comes off the wire: the two fields that are not
    serialized are zero. *)
Definition unstamped (info : treeInfo) : treeInfo :=
  {| ti_time := 0; ti_hseq := 0; ti_root := ti_root info;
     ti_seq := ti_seq info; ti_hops := ti_hops info |}.

(** The number of leading elements two paths share. *)
Fixpoint common_prefix_length (p q : list Z) : nat :=
  match p, q with
  | a :: p', b :: q' =>
      if decide (a = b) then S (common_prefix_length p' q') else 0%nat
  | _, _ => 0%nat
  end.

(** An ancestry with its last hop taken off, as [_treeLookup] measures
    the peer that sent it. *)
Definition withoutLastHop (info : treeInfo) : treeInfo :=
  {| ti_time := ti_time info; ti_hseq := ti_hseq info;
     ti_root := ti_root info; ti_seq := ti_seq info;
     ti_hops := removelast (ti_hops info) |}.

(** * Theorems *)

(** ** Codecs: round trips *)

Section VarintFacts.

Lemma lor_low7_split (v s : Z) :
  0 <= s ->
  Z.lor (Z.shiftl (Z.land v 127) s) (Z.shiftl (Z.shiftr v 7) (s + 7))
  = Z.shiftl v s.
Proof.
  intros Hs.
  replace (s + 7) with (7 + s) by lia.
  rewrite <- (Z.shiftl_shiftl _ 7 s) by lia.
  rewrite <- Z.shiftl_lor. f_equal.
  apply Z.bits_inj'. intros n Hn.
  rewrite Z.lor_spec, Z.land_spec.
  change 127 with (Z.ones 7).
  destruct (Z.lt_ge_cases n 7) as [Hlt | Hge].
  - rewrite Z.ones_spec_low by lia.
    rewrite Z.shiftl_spec_low by lia.
    now rewrite andb_true_r, orb_false_r.
  - rewrite Z.ones_spec_high by lia.
    rewrite Z.shiftl_spec by lia.
    rewrite Z.shiftr_spec by lia.
    rewrite andb_false_r. simpl. f_equal. lia.
Qed.

Lemma land_continuation_byte (v : Z) :
  Z.land (Z.lor (v mod 256) 128) 127 = Z.land v 127.
Proof.
  apply Z.bits_inj'. intros n Hn.
  rewrite !Z.land_spec, Z.lor_spec.
  change 127 with (Z.ones 7).
  destruct (Z.lt_ge_cases n 7) as [Hlt | Hge].
  - rewrite Z.ones_spec_low by lia. rewrite !andb_true_r.
    change 256 with (2 ^ 8). rewrite Z.mod_pow2_bits_low by lia.
    change 128 with (2 ^ 7). rewrite Z.pow2_bits_false by lia.
    now rewrite orb_false_r.
  - rewrite Z.ones_spec_high by lia. now rewrite !andb_false_r.
Qed.

Lemma continuation_byte_ge (v : Z) : 128 <= Z.lor (v mod 256) 128.
Proof.
  assert (Hnn : 0 <= Z.lor (v mod 256) 128).
  { apply Z.lor_nonneg. split; [apply Z.mod_pos_bound|]; lia. }
  destruct (Z.lt_ge_cases (Z.lor (v mod 256) 128) 128) as [Hlt | Hge]; [|lia].
  exfalso.
  assert (Hbit : Z.testbit (Z.lor (v mod 256) 128) 7 = true).
  { rewrite Z.lor_spec. change 128 with (2 ^ 7).
    rewrite Z.pow2_bits_true by lia. apply orb_true_r. }
  destruct (Z.eq_dec (Z.lor (v mod 256) 128) 0) as [E | NE].
  - rewrite E in Hbit. now rewrite Z.bits_0 in Hbit.
  - rewrite Z.bits_above_log2 in Hbit; [discriminate | lia |].
    apply Z.log2_lt_pow2; lia.
Qed.

(** Reading back what [putUvarint] wrote, from byte index [i] on. *)
Lemma uvarint_putUvarint (k : nat) :
  forall (i : nat) (x v : Z) (rest : list Z),
    (i + k = 9)%nat ->
    0 <= v < 2 ^ (64 - 7 * Z.of_nat i) ->
    uvarint i (7 * Z.of_nat i) x (putUvarint k v ++ rest)
    = Some (Z.lor x (Z.shiftl v (7 * Z.of_nat i)), rest).
Proof.
  induction k as [|k IH]; intros i x v rest Hik Hv.
  - assert (i = 9%nat) by lia. subst i.
    change (2 ^ (64 - 7 * Z.of_nat 9)) with 2 in Hv.
    simpl putUvarint. rewrite Z.mod_small by lia.
    simpl. destruct (Z.ltb_spec v 128); [|lia].
    destruct (Z.ltb_spec 1 v); [lia|]. reflexivity.
  - assert (Hi : (i <= 8)%nat) by lia.
    simpl putUvarint.
    destruct (Z.leb_spec 128 v) as [Hbig | Hsmall].
    + simpl.
      destruct (Nat.eqb_spec i 10); [lia|].
      pose proof (continuation_byte_ge v) as Hge.
      destruct (Z.ltb_spec (Z.lor (v mod 256) 128) 128); [lia|].
      rewrite land_continuation_byte.
      replace (7 * Z.of_nat i + 7) with (7 * Z.of_nat (S i)) by lia.
      rewrite IH.
      * rewrite <- Z.lor_assoc.
        replace (7 * Z.of_nat (S i)) with (7 * Z.of_nat i + 7) by lia.
        rewrite lor_low7_split by lia. reflexivity.
      * lia.
      * split; [apply Z.shiftr_nonneg; lia|].
        rewrite Z.shiftr_div_pow2 by lia.
        apply Z.div_lt_upper_bound; [lia|].
        rewrite <- Z.pow_add_r by lia.
        replace (7 + (64 - 7 * Z.of_nat (S i))) with (64 - 7 * Z.of_nat i) by lia.
        lia.
    + rewrite Z.mod_small by lia. simpl.
      destruct (Nat.eqb_spec i 10); [lia|].
      destruct (Z.ltb_spec v 128); [|lia].
      destruct (Nat.eqb_spec i 9); [lia|]. reflexivity.
Qed.

Lemma wireChopUint_append (u : Z) (rest : list Z) :
  uint64 u -> wireChopUint (putUvarint 9 u ++ rest) = Some (u, rest).
Proof.
  intros Hu. unfold wireChopUint.
  change 0 with (7 * Z.of_nat 0) at 1.
  rewrite uvarint_putUvarint; [| lia | exact Hu].
  now rewrite Z.lor_0_l, Z.shiftl_0_r.
Qed.

Lemma wireChopSlice_append (n : nat) (l rest : list Z) :
  length l = n -> wireChopSlice n (l ++ rest) = Some (l, rest).
Proof.
  intros <-. unfold wireChopSlice.
  destruct (Nat.ltb_spec (length (l ++ rest)) (length l)) as [Hlt | _].
  - rewrite length_app in Hlt. lia.
  - now rewrite take_app_length, drop_app_length.
Qed.

End VarintFacts.

Arguments putUvarint : simpl never.
Arguments uvarint : simpl never.
Arguments wireChopUint : simpl never.
Arguments wireChopSlice : simpl never.

Section CodecFacts.
Context `{Sizes}.

Lemma routerSigReq_encode_eq r out :
  routerSigReq_encode r out = Some (out ++ sigReq_bytes r).
Proof.
  unfold routerSigReq_encode, wireAppendUint, routerSigReq_size,
    wireSizeUint, sigReq_bytes.
  rewrite decide_True; [now rewrite <- !app_assoc|].
  rewrite !length_app. lia.
Qed.

Lemma routerSigRes_encode_eq r out :
  routerSigRes_encode r out = Some (out ++ sigRes_bytes r).
Proof.
  unfold routerSigRes_encode. rewrite routerSigReq_encode_eq.
  unfold wireAppendUint, routerSigRes_size, routerSigReq_size,
    wireSizeUint, sigRes_bytes, sigReq_bytes.
  rewrite decide_True; [now rewrite <- !app_assoc|].
  rewrite !length_app. lia.
Qed.

Lemma routerAnnounce_encode_eq a out :
  routerAnnounce_encode a out = Some (out ++ announce_bytes a).
Proof.
  unfold routerAnnounce_encode. rewrite routerSigRes_encode_eq.
  unfold routerAnnounce_size, routerSigRes_size, routerSigReq_size,
    wireSizeUint, announce_bytes, sigRes_bytes, sigReq_bytes.
  rewrite decide_True; [now rewrite <- !app_assoc|].
  rewrite !length_app. lia.
Qed.

Lemma routerMerkleReq_encode_eq r out :
  routerMerkleReq_encode r out = Some (out ++ merkleReq_bytes r).
Proof.
  unfold routerMerkleReq_encode, wireAppendUint, routerMerkleReq_size,
    wireSizeUint, merkleReq_bytes.
  rewrite decide_True; [now rewrite <- !app_assoc|].
  rewrite !length_app. lia.
Qed.

Lemma routerMerkleRes_encode_eq r out :
  routerMerkleRes_encode r out = Some (out ++ merkleRes_bytes r).
Proof.
  unfold routerMerkleRes_encode. rewrite routerMerkleReq_encode_eq.
  unfold routerMerkleRes_size, routerMerkleReq_size, wireSizeUint,
    merkleRes_bytes, merkleReq_bytes.
  rewrite decide_True; [now rewrite <- !app_assoc|].
  rewrite !length_app. lia.
Qed.

(** Chopping a serialized value off the front of a buffer. *)
Lemma routerSigReq_chop_bytes r rest :
  routerSigReq_wf r ->
  routerSigReq_chop (sigReq_bytes r ++ rest) = Some (r, rest).
Proof.
  intros [Hs Hn]. destruct r as [s n]; simpl in *.
  unfold routerSigReq_chop, sigReq_bytes; simpl.
  rewrite <- app_assoc, wireChopUint_append by done.
  now rewrite wireChopUint_append.
Qed.

Lemma routerSigRes_chop_bytes r rest :
  routerSigRes_wf r ->
  routerSigRes_chop (sigRes_bytes r ++ rest) = Some (r, rest).
Proof.
  intros (Hq & Hp & Hl). destruct r as [q p ps]; simpl in *.
  unfold routerSigRes_chop, sigRes_bytes; simpl.
  rewrite <- !app_assoc, routerSigReq_chop_bytes by done.
  rewrite wireChopUint_append by done.
  now rewrite wireChopSlice_append.
Qed.

Lemma routerMerkleReq_chop_bytes r rest :
  routerMerkleReq_wf r ->
  routerMerkleReq_chop (merkleReq_bytes r ++ rest) = Some (r, rest).
Proof.
  intros [Hp Hl]. destruct r as [pl p]; simpl in *.
  unfold routerMerkleReq_chop, merkleReq_bytes; simpl.
  rewrite <- app_assoc, wireChopUint_append by done.
  now rewrite wireChopSlice_append.
Qed.

Lemma routerMerkleRes_chop_bytes r rest :
  routerMerkleRes_wf r ->
  routerMerkleRes_chop (merkleRes_bytes r ++ rest) = Some (r, rest).
Proof.
  intros [Hq Hl]. destruct r as [q d]; simpl in *.
  unfold routerMerkleRes_chop, merkleRes_bytes; simpl.
  rewrite <- app_assoc, routerMerkleReq_chop_bytes by done.
  now rewrite wireChopSlice_append.
Qed.

Lemma routerAnnounce_decode_bytes a rest :
  routerAnnounce_wf a ->
  routerAnnounce_decode (announce_bytes a ++ rest)
  = if decide (length rest ≠ 0%nat) then None else Some a.
Proof.
  intros (Hk & Hp & Hr & Hs). destruct a as [k p r s]; simpl in *.
  unfold routerAnnounce_decode, announce_bytes; simpl.
  rewrite <- !app_assoc.
  rewrite wireChopSlice_append by done.
  rewrite wireChopSlice_append by done.
  rewrite routerSigRes_chop_bytes by done.
  now rewrite wireChopSlice_append.
Qed.

Lemma trailing_length (t : list Z) : t ≠ [] -> length t ≠ 0%nat.
Proof. destruct t; simpl; [done | lia]. Qed.

(** C8. Round trip, for each of the five router messages
    ([routerSigReq], [routerSigRes], [routerAnnounce],
    [routerMerkleReq], [routerMerkleRes]): encoding a value of the
    type into an empty buffer succeeds, decoding the produced bytes
    succeeds and gives the value back, and decoding the same bytes
    followed by any non-empty trailer is rejected. *)
Theorem codec_round_trip :
  (forall x, routerSigReq_wf x ->
     exists bs, routerSigReq_encode x [] = Some bs
       /\ routerSigReq_decode bs = Some x
       /\ forall t, t ≠ [] -> routerSigReq_decode (bs ++ t) = None)
  /\ (forall x, routerSigRes_wf x ->
     exists bs, routerSigRes_encode x [] = Some bs
       /\ routerSigRes_decode bs = Some x
       /\ forall t, t ≠ [] -> routerSigRes_decode (bs ++ t) = None)
  /\ (forall x, routerAnnounce_wf x ->
     exists bs, routerAnnounce_encode x [] = Some bs
       /\ routerAnnounce_decode bs = Some x
       /\ forall t, t ≠ [] -> routerAnnounce_decode (bs ++ t) = None)
  /\ (forall x, routerMerkleReq_wf x ->
     exists bs, routerMerkleReq_encode x [] = Some bs
       /\ routerMerkleReq_decode bs = Some x
       /\ forall t, t ≠ [] -> routerMerkleReq_decode (bs ++ t) = None)
  /\ (forall x, routerMerkleRes_wf x ->
     exists bs, routerMerkleRes_encode x [] = Some bs
       /\ routerMerkleRes_decode bs = Some x
       /\ forall t, t ≠ [] -> routerMerkleRes_decode (bs ++ t) = None).
Proof.
  repeat split.
  - intros x Hx. exists (sigReq_bytes x).
    rewrite routerSigReq_encode_eq. split; [done|].
    unfold routerSigReq_decode. split.
    + rewrite <- (app_nil_r (sigReq_bytes x)).
      now rewrite routerSigReq_chop_bytes.
    + intros t Ht. rewrite routerSigReq_chop_bytes by done.
      now rewrite decide_True by now apply trailing_length.
  - intros x Hx. exists (sigRes_bytes x).
    rewrite routerSigRes_encode_eq. split; [done|].
    unfold routerSigRes_decode. split.
    + rewrite <- (app_nil_r (sigRes_bytes x)).
      now rewrite routerSigRes_chop_bytes.
    + intros t Ht. rewrite routerSigRes_chop_bytes by done.
      now rewrite decide_True by now apply trailing_length.
  - intros x Hx. exists (announce_bytes x).
    rewrite routerAnnounce_encode_eq. split; [done|]. split.
    + rewrite <- (app_nil_r (announce_bytes x)).
      now rewrite routerAnnounce_decode_bytes.
    + intros t Ht. rewrite routerAnnounce_decode_bytes by done.
      now rewrite decide_True by now apply trailing_length.
  - intros x Hx. exists (merkleReq_bytes x).
    rewrite routerMerkleReq_encode_eq. split; [done|].
    unfold routerMerkleReq_decode. split.
    + rewrite <- (app_nil_r (merkleReq_bytes x)).
      now rewrite routerMerkleReq_chop_bytes.
    + intros t Ht. rewrite routerMerkleReq_chop_bytes by done.
      now rewrite decide_True by now apply trailing_length.
  - intros x Hx. exists (merkleRes_bytes x).
    rewrite routerMerkleRes_encode_eq. split; [done|].
    unfold routerMerkleRes_decode. split.
    + rewrite <- (app_nil_r (merkleRes_bytes x)).
      now rewrite routerMerkleRes_chop_bytes.
    + intros t Ht. rewrite routerMerkleRes_chop_bytes by done.
      now rewrite decide_True by now apply trailing_length.
Qed.

End CodecFacts.

(** Witness for C8 at the Ed25519 sizes. *)
Lemma codec_round_trip_witness :
  let q := RouterSigReq 300 (2 ^ 64 - 1) in
  let r := RouterSigRes q 7 (replicate 64 9) in
  let a := RouterAnnounce (replicate 32 1) (replicate 32 2) r (replicate 64 3) in
  let m := RouterMerkleReq 256 (replicate 32 255) in
  let d := RouterMerkleRes m (replicate 32 4) in
  (@routerSigReq_decode (@sigReq_bytes q) = Some q)
  /\ (@routerSigRes_decode ed25519_sizes (@sigRes_bytes r) = Some r)
  /\ (@routerAnnounce_decode ed25519_sizes (@announce_bytes a ++ [0]) = None)
  /\ (@routerMerkleReq_decode ed25519_sizes (@merkleReq_bytes m) = Some m)
  /\ (@routerMerkleRes_decode ed25519_sizes (@merkleRes_bytes d ++ [1; 2]) = None).
Proof.
  intros q r a m d.
  destruct (@codec_round_trip ed25519_sizes) as (H1 & H2 & H3 & H4 & H5).
  assert (Wq : routerSigReq_wf q) by (unfold routerSigReq_wf, uint64; simpl; lia).
  assert (Wr : @routerSigRes_wf ed25519_sizes r)
    by (split; [exact Wq | split; [unfold uint64; simpl; lia | reflexivity]]).
  assert (Wa : @routerAnnounce_wf ed25519_sizes a)
    by (split; [reflexivity | split; [reflexivity | split; [exact Wr | reflexivity]]]).
  assert (Wm : @routerMerkleReq_wf ed25519_sizes m)
    by (split; [unfold uint64; simpl; lia | reflexivity]).
  assert (Wd : @routerMerkleRes_wf ed25519_sizes d)
    by (split; [exact Wm | reflexivity]).
  destruct (H1 q Wq) as (b1 & E1 & D1 & _).
  destruct (H2 r Wr) as (b2 & E2 & D2 & _).
  destruct (H3 a Wa) as (b3 & E3 & _ & T3).
  destruct (H4 m Wm) as (b4 & E4 & D4 & _).
  destruct (H5 d Wd) as (b5 & E5 & _ & T5).
  rewrite routerSigReq_encode_eq in E1. injection E1 as <-.
  rewrite routerSigRes_encode_eq in E2. injection E2 as <-.
  rewrite routerAnnounce_encode_eq in E3. injection E3 as <-.
  rewrite routerMerkleReq_encode_eq in E4. injection E4 as <-.
  rewrite routerMerkleRes_encode_eq in E5. injection E5 as <-.
  split; [exact D1|]. split; [exact D2|]. split; [apply T3; discriminate|].
  split; [exact D4 | apply T5; discriminate].
Defined.

(** ** The peer registry: port allocation *)

Section PeersFacts.

Lemma addPeer_findPort_spec (m : gmap Z peer) (fuel : nat) :
  forall idx, 1 <= idx -> idx + Z.of_nat fuel <= 2 ^ 63 ->
    match addPeer_findPort fuel m idx with
    | Some port =>
        idx <= port < idx + Z.of_nat fuel /\ m !! port = None
        /\ forall j, idx <= j < port -> is_Some (m !! j)
    | None => forall j, idx <= j < idx + Z.of_nat fuel -> is_Some (m !! j)
    end.
Proof.
  induction fuel as [|fuel IH]; intros idx Hlo Hhi; cbn [addPeer_findPort].
  - intros j Hj. lia.
  - assert (Ew : wrap64 idx = idx) by (unfold wrap64; apply Z.mod_small; lia).
    rewrite Ew.
    destruct (m !! idx) as [p|] eqn:Hm.
    + destruct (decide (fuel = 0%nat)) as [-> | Hfuel].
      { cbn. intros j Hj. assert (j = idx) as -> by lia. eauto. }
      assert (Ei : int64_wrap (idx + 1) = idx + 1).
      { unfold int64_wrap. rewrite Z.mod_small by lia. lia. }
      rewrite Ei. specialize (IH (idx + 1) ltac:(lia) ltac:(lia)).
      destruct (addPeer_findPort fuel m (idx + 1)) as [port|].
      * destruct IH as (Hr & Hfree & Hused). repeat split; [lia | lia | done |].
        intros j Hj. destruct (decide (j = idx)) as [->|]; [eauto|].
        apply Hused. lia.
      * intros j Hj. destruct (decide (j = idx)) as [->|]; [eauto|].
        apply IH. lia.
    + repeat split; [lia | lia | done |]. intros j Hj. lia.
Qed.

(** Pigeonhole: a map that holds every port of [1..n] has at least [n]
    entries. *)
Lemma ports_all_used_size (m : gmap Z peer) (n : nat) :
  (forall j, 1 <= j < 1 + Z.of_nat n -> is_Some (m !! j)) ->
  (n <= size m)%nat.
Proof.
  intros Hall.
  assert (Hsub : (list_to_set (seqZ 1 (Z.of_nat n)) : gset Z) ⊆ dom m).
  { intros j Hj. apply elem_of_list_to_set, elem_of_seqZ in Hj.
    apply elem_of_dom, Hall. lia. }
  apply subseteq_size in Hsub.
  rewrite size_list_to_set in Hsub by apply NoDup_seqZ.
  rewrite length_seqZ, size_dom in Hsub. lia.
Qed.

End PeersFacts.


(** ** Reasoning about handlers *)

Ltac munfold :=
  unfold mbind, M_bind, mret, M_ret, get, modify, panic, orPanic in *.

Lemma bind_Done_inv {A B : Type} (m : M A) (f : A -> M B) r b r2 :
  (m ≫= f) r = Done b r2 ->
  exists a r1, m r = Done a r1 /\ f a r1 = Done b r2.
Proof.
  unfold mbind, M_bind. destruct (m r) as [a r1|]; [eauto | discriminate].
Qed.

Lemma bind_Done {A B : Type} (m : M A) (f : A -> M B) r a r1 :
  m r = Done a r1 -> (m ≫= f) r = f a r1.
Proof. unfold mbind, M_bind. now intros ->. Qed.

(** ** The key order *)

Lemma treeLess_lex_lt (k1 k2 : list Z) :
  treeLess k1 k2 = true <-> lex_lt k1 k2.
Proof.
  revert k2. induction k1 as [|a k1 IH]; intros [|b k2]; simpl;
    try (split; [discriminate | inversion 1]).
  destruct (Z.ltb_spec a b) as [Hab | Hab].
  - split; [intros _; now constructor | done].
  - destruct (Z.ltb_spec b a) as [Hba | Hba].
    + split; [discriminate|]. inversion 1; subst; lia.
    + assert (a = b) as -> by lia. rewrite IH.
      split; [now constructor|]. inversion 1; subst; [lia | done].
Qed.

Lemma treeLess_total (k1 k2 : list Z) :
  length k1 = length k2 ->
  treeLess k1 k2 = false -> treeLess k2 k1 = false -> k1 = k2.
Proof.
  revert k2. induction k1 as [|a k1 IH]; intros [|b k2]; simpl; try done.
  intros Hlen.
  destruct (Z.ltb_spec a b); [done|]. destruct (Z.ltb_spec b a); [done|].
  assert (a = b) as -> by lia. intros H1 H2. f_equal. apply IH; [lia | done | done].
Qed.

Lemma treeLess_irrefl (k : list Z) : treeLess k k = false.
Proof.
  induction k as [|a k IH]; simpl; [done|].
  now rewrite Z.ltb_irrefl.
Qed.

Lemma treeLess_asym (k1 k2 : list Z) :
  treeLess k1 k2 = true -> treeLess k2 k1 = false.
Proof.
  revert k2. induction k1 as [|a k1 IH]; intros [|b k2]; simpl; try done.
  destruct (Z.ltb_spec a b), (Z.ltb_spec b a); try done; try lia.
  apply IH.
Qed.

(** ** The announcement store: ordering *)

Section UpdateFacts.
Context `{Env}.

(** [_update] never panics; a rejected announce leaves the state as it
    was, an accepted one is stored. *)
Lemma update_run (r : router) (a : routerAnnounce) :
  _update a r = Done false r
  \/ exists r', _update a r = Done true r' /\ stores a r r'.
Proof.
  unfold _update, stores, _resetCache, selfKey, infoOf. munfold. simpl.
  match goal with
  | |- context [if ?b then (fun r0 : router => Done false r0) else _] =>
      destruct b
  end;
    [now left | right].
  destruct (decide (ann_key a = crypto_publicKey (rcore r))) as [E | NE]; simpl;
    (eexists; split; [reflexivity|]; simpl; repeat split; done).
Qed.

Lemma update_new (a : routerAnnounce) (r : router) :
  infos r !! ann_key a = None ->
  exists r', _update a r = Done true r' /\ stores a r r'.
Proof.
  intros Hnone. destruct (update_run r a) as [E | Hacc]; [|done].
  exfalso. revert E. unfold _update. munfold. rewrite Hnone.
  destruct (decide _); simpl; discriminate.
Qed.

Lemma update_false_inv (r r' : router) (a : routerAnnounce) :
  _update a r = Done false r' -> r' = r.
Proof.
  intros Hrun. destruct (update_run r a) as [E | (r1 & E & _)];
    rewrite E in Hrun; congruence.
Qed.

Lemma update_true_inv (r r' : router) (a : routerAnnounce) :
  _update a r = Done true r' -> stores a r r'.
Proof.
  intros Hrun. destruct (update_run r a) as [E | (r1 & E & Hst)];
    rewrite E in Hrun; [discriminate|]. now injection Hrun as <-.
Qed.

(** The comparison made against a stored info is the ordering table. *)
Lemma update_known (r : router) (a : routerAnnounce) (i : routerInfo) :
  infos r !! ann_key a = Some i ->
  length (ann_parent a) = length (info_parent i) ->
  (crdt_accepts a i /\ exists r', _update a r = Done true r')
  \/ (~ crdt_accepts a i /\ _update a r = Done false r).
Proof.
  intros Hi Hlen.
  assert (Hcases :
    (crdt_accepts a i /\ _update a r ≠ Done false r)
    \/ (~ crdt_accepts a i /\ _update a r = Done false r)).
  { unfold _update, crdt_accepts, less. munfold. rewrite Hi.
    destruct (Z.gtb_spec (info_seq i) (ann_seq a)) as [Hgt | Hle].
    { right. split; [|done]. intros [? | [? _]]; lia. }
    destruct (Z.ltb_spec (info_seq i) (ann_seq a)) as [Hlt | Hge].
    { left. split; [left; lia|]. destruct (decide _); simpl; discriminate. }
    assert (Hseq : ann_seq a = info_seq i) by lia.
    destruct (treeLess (info_parent i) (ann_parent a)) eqn:Hip.
    { right. split; [|done]. intros [? | [_ [Hl | [Hp _]]]]; [lia | |].
      - apply treeLess_lex_lt, treeLess_asym in Hl. congruence.
      - rewrite Hp, treeLess_irrefl in Hip. discriminate. }
    destruct (treeLess (ann_parent a) (info_parent i)) eqn:Hap.
    { left. split; [right; split; [done|]; left; now apply treeLess_lex_lt|].
      destruct (decide _); simpl; discriminate. }
    pose proof (treeLess_total _ _ Hlen Hap Hip) as Hpar.
    destruct (Z.ltb_spec (ann_nonce a) (info_nonce i)) as [Hn | Hn].
    { left. split; [right; split; [done|]; right; done|].
      destruct (decide _); simpl; discriminate. }
    right. split; [|done]. intros [? | [_ [Hl | [_ ?]]]]; [lia | | lia].
    apply treeLess_lex_lt in Hl. congruence. }
  destruct Hcases as [[Hacc Hne] | Hrej]; [left | now right].
  split; [done|]. destruct (update_run r a) as [E | (r' & E & _)]; [done | eauto].
Qed.

End UpdateFacts.
(** ** Port allocation and the attested port *)

Lemma routerSigRes_bytesForSig_Some `{Env} (res : routerSigRes)
  (node parent : list Z) :
  is_Some (routerSigRes_bytesForSig res node parent).
Proof.
  unfold routerSigRes_bytesForSig, routerSigReq_bytesForSig.
  rewrite routerSigReq_encode_eq. eauto.
Qed.

(** C10. [peers.addPeer] on an open PacketConn returns a new peer whose
    port is the smallest port from 1 upwards that is not in use: the port
    is at least 1 (never 0), it was free, every smaller port from 1 on was
    taken, the peer is registered under it, and the entry of port 0 is left
    as it was.  The port a router attests to such a peer in a [SigRes]
    ([_handleRequest]) is that port, hence not 0: port 0 in an announcement
    is left to the self-root marker of [_becomeRoot].  On a closed
    PacketConn [addPeer] returns the error and registers nothing.  (The
    registry is assumed to hold fewer than [2^63 - 1] peers, so that the
    [int] loop counter cannot wrap.) *)
Theorem peers_addPeer_smallest_free_port `{Env} (key : list Z) (ps : peers) :
  Z.of_nat (size (peers_map ps)) < 2 ^ 63 - 1 ->
  (pconn_closed ps = true -> peers_addPeer key ps = Some (None, ps))
  /\ (pconn_closed ps = false ->
      exists p ps',
        peers_addPeer key ps = Some (Some p, ps')
        /\ peer_key p = key
        /\ 1 <= peer_port p
        /\ peers_map ps !! peer_port p = None
        /\ (forall j, 1 <= j < peer_port p -> is_Some (peers_map ps !! j))
        /\ peers_map ps' = <[peer_port p := p]> (peers_map ps)
        /\ peers_map ps' !! 0 = peers_map ps !! 0
        /\ (forall (r : router) (req : routerSigReq),
              exists res,
                _handleRequest p req r = Done tt (sending (Send p (sendSigRes res)) r)
                /\ port res = peer_port p /\ port res ≠ 0)).
Proof.
  intros Hsize. unfold peers_addPeer. split; intros ->; [done|].
  pose proof (addPeer_findPort_spec (peers_map ps) (S (size (peers_map ps))) 1
                ltac:(lia) ltac:(lia)) as Hspec.
  destruct (addPeer_findPort _ _ 1) as [port|].
  - destruct Hspec as (Hr & Hfree & Hused).
    eexists _, _. split; [reflexivity|]. simpl.
    split; [done|]. split; [lia|]. split; [done|]. split; [done|].
    split; [done|]. split; [apply lookup_insert_ne; lia|].
    intros r req. unfold _handleRequest.
    rewrite (bind_Done get _ r r r eq_refl). cbn [peer_port peer_key].
    match goal with
    | |- context [routerSigRes_bytesForSig ?a ?b ?c] =>
        destruct (routerSigRes_bytesForSig_Some a b c) as [bs Hbs]
    end.
    rewrite Hbs. eexists. split; [reflexivity|]. simpl. split; [done | lia].
  - apply ports_all_used_size in Hspec. lia.
Qed.

(** Witness for C10: ports 1, 2 and 4 are taken, so port 3 is handed out. *)
Lemma peers_addPeer_smallest_free_port_witness :
  let mk := fun port => Peer [port] port 0 0 in
  let ps := Peers false (<[1 := mk 1]> (<[2 := mk 2]> (<[4 := mk 4]> ∅))) in
  exists ps', peers_addPeer [9] ps = Some (Some (Peer [9] 3 0 0), ps').
Proof.
  intros mk ps.
  destruct (@peers_addPeer_smallest_free_port exampleEnv [9] ps) as [_ Hopen].
  - vm_compute. reflexivity.
  - destruct (Hopen eq_refl) as (p & ps' & E & _).
    exists ps'. rewrite E. vm_compute in E.
    injection E as <- _. reflexivity.
Defined.

(** ** Walking the tree terminates *)

Section WalkFuel.
Context `{Env}.

Lemma getRootAndDists_loop_fuel (infos : gmap (list Z) routerInfo) (fuel : nat) :
  forall (dists : gmap (list Z) Z) (root next : list Z) (dist : Z),
    dom dists ⊆ dom infos ->
    (size infos < fuel + size dists)%nat ->
    is_Some (getRootAndDists_loop fuel infos dists root next dist).
Proof.
  induction fuel as [|fuel IH]; intros dists root next dist Hsub Hsize.
  - apply subseteq_size in Hsub. rewrite !size_dom in Hsub. lia.
  - cbn [getRootAndDists_loop].
    destruct (dists !! next) eqn:Hd; [eauto|].
    destruct (infos !! next) as [info|] eqn:Hi; [|eauto].
    destruct (expired info); [eauto|].
    apply IH.
    + rewrite dom_insert. apply union_least; [|done].
      apply singleton_subseteq_l, elem_of_dom. eauto.
    + rewrite map_size_insert_None by done. lia.
Qed.

(** [size infos + 1] iterations are enough for [_getRootAndDists]: the
    value it falls back on is never used. *)
Lemma getRootAndDists_fuel (r : router) (dest : list Z) :
  is_Some (getRootAndDists_loop (S (size (infos r))) (infos r) ∅ zeroKey dest 0).
Proof.
  apply getRootAndDists_loop_fuel.
  - rewrite dom_empty. apply empty_subseteq.
  - rewrite map_size_empty. lia.
Qed.

Lemma getRootAndPath_loop_fuel (infos : gmap (list Z) routerInfo) (fuel : nat) :
  forall (visited : gset (list Z)) (ports : list Z) (next dest : list Z),
    visited ⊆ dom infos ->
    (size infos < fuel + size visited)%nat ->
    is_Some (getRootAndPath_loop fuel infos visited ports next dest).
Proof.
  induction fuel as [|fuel IH]; intros visited ports next dest Hsub Hsize.
  - apply subseteq_size in Hsub. rewrite size_dom in Hsub. lia.
  - cbn [getRootAndPath_loop].
    destruct (decide (next ∈ visited)) as [Hin | Hnotin]; [eauto|].
    destruct (infos !! next) as [info|] eqn:Hi; [|eauto].
    destruct (expired info); [eauto|].
    destruct (decide (next = info_parent info)); [eauto|].
    apply IH.
    + apply union_least; [done|].
      apply singleton_subseteq_l, elem_of_dom. eauto.
    + rewrite size_union by set_solver. rewrite size_singleton. lia.
Qed.

(** The same for [_getRootAndPath]. *)
Lemma getRootAndPath_fuel (r : router) (dest : list Z) :
  is_Some (getRootAndPath_loop (S (size (infos r))) (infos r) ∅ [] dest dest).
Proof.
  apply getRootAndPath_loop_fuel.
  - apply empty_subseteq.
  - rewrite size_empty. lia.
Qed.

End WalkFuel.

(** ** Frame rules *)

Section Preserves.
Context (R : router -> router -> Prop) `{!PreOrder R}.

Lemma preserves_ret {A : Type} (a : A) : preserves R (mret a).
Proof. intros r a' r' E. injection E as _ <-. reflexivity. Qed.

Lemma preserves_get : preserves R get.
Proof. intros r a' r' E. injection E as _ <-. reflexivity. Qed.

Lemma preserves_panic {A : Type} : preserves R (@panic A).
Proof. intros r a' r' E. discriminate. Qed.

Lemma preserves_orPanic {A : Type} (o : option A) : preserves R (orPanic o).
Proof. destruct o; [apply preserves_ret | apply preserves_panic]. Qed.

Lemma preserves_modify (f : router -> router) :
  (forall r, R r (f r)) -> preserves R (modify f).
Proof. intros Hf r a' r' E. injection E as _ <-. apply Hf. Qed.

Lemma preserves_bind {A B : Type} (m : M A) (f : A -> M B) :
  preserves R m -> (forall a, preserves R (f a)) -> preserves R (m ≫= f).
Proof.
  intros Hm Hf r b r2 E.
  apply bind_Done_inv in E as (a & r1 & E1 & E2).
  transitivity r1; [eapply Hm | eapply Hf]; eassumption.
Qed.

Lemma preserves_forEach {A : Type} (l : list A) (body : A -> M unit) :
  (forall x, preserves R (body x)) -> preserves R (forEach l body).
Proof.
  intros Hb. induction l as [|x l IH]; simpl.
  - apply preserves_ret.
  - apply preserves_bind; [apply Hb | intros _; apply IH].
Qed.

Lemma preserves_foldEach {A S : Type} (l : list A) (acc : S)
  (body : S -> A -> M S) :
  (forall s x, preserves R (body s x)) -> preserves R (foldEach l acc body).
Proof.
  intros Hb. revert acc. induction l as [|x l IH]; intros acc; simpl.
  - apply preserves_ret.
  - apply preserves_bind; [apply Hb | intros s; apply IH].
Qed.

End Preserves.

#[global] Instance same_store_preorder : PreOrder same_store.
Proof.
  split.
  - intros r. now repeat split.
  - intros r1 r2 r3 (A1 & A2 & A3 & A4 & A5) (B1 & B2 & B3 & B4 & B5).
    repeat split; congruence.
Qed.

Ltac preserves_step :=
  first
    [ apply preserves_ret; tc_solve
    | apply preserves_get; tc_solve
    | apply preserves_panic
    | apply preserves_orPanic; tc_solve
    | apply preserves_modify; intros ?; repeat split; reflexivity
    | apply preserves_forEach; [tc_solve | intros ?]
    | apply preserves_foldEach; [tc_solve | intros ? ?]
    | apply preserves_bind; [tc_solve | | intros ?]
    | match goal with
      | |- preserves _ (if ?b then _ else _) => destruct b
      | |- preserves _ (match ?x with _ => _ end) => destruct x
      | |- preserves _ (let '(_, _) := ?x in _) => destruct x
      end ].

Section StoreFrames.
Context `{Env}.

Lemma emit_same_store (a : action) : preserves same_store (emit a).
Proof. unfold emit. repeat preserves_step. Qed.

Lemma resetCache_same_store : preserves same_store _resetCache.
Proof. unfold _resetCache. repeat preserves_step. Qed.

Lemma clearReqs_same_store : preserves same_store _clearReqs.
Proof. unfold _clearReqs. repeat preserves_step. Qed.

Lemma newReq_same_store : preserves same_store _newReq.
Proof. unfold _newReq. repeat preserves_step. Qed.

Lemma clearRootFlags_same_store : preserves same_store clearRootFlags.
Proof. unfold clearRootFlags. repeat preserves_step. Qed.

Lemma sendReqs_same_store : preserves same_store _sendReqs.
Proof.
  unfold _sendReqs.
  apply preserves_bind; [tc_solve | apply clearReqs_same_store | intros _].
  apply preserves_bind; [tc_solve | apply preserves_get; tc_solve | intros r].
  apply preserves_forEach; [tc_solve | intros [pk ps]].
  apply preserves_bind; [tc_solve | apply newReq_same_store | intros req].
  apply preserves_bind; [tc_solve | | intros _].
  - apply preserves_modify. intros ?. repeat split; reflexivity.
  - apply preserves_forEach; [tc_solve | intros p]. apply emit_same_store.
Qed.

Lemma fixMerks_same_store : preserves same_store _fixMerks.
Proof.
  unfold _fixMerks.
  apply preserves_bind; [tc_solve | apply preserves_get; tc_solve | intros r].
  apply preserves_bind; [tc_solve | | intros merk].
  - destruct (negb bloomMulticastEnabled); [|apply preserves_ret; tc_solve].
    apply preserves_foldEach; [tc_solve | intros s [k info]].
    repeat preserves_step.
  - apply preserves_forEach; [tc_solve | intros [k orig]].
    apply preserves_bind; [tc_solve | | intros _].
    { destruct (negb bloomMulticastEnabled); repeat preserves_step. }
    destruct (decide _); [apply preserves_ret; tc_solve|].
    apply preserves_bind; [tc_solve | | intros _].
    { apply preserves_modify. intros ?. repeat split; reflexivity. }
    apply preserves_bind; [tc_solve | apply preserves_get; tc_solve | intros r1].
    apply preserves_forEach; [tc_solve | intros p].
    apply preserves_bind; [tc_solve | apply emit_same_store | intros _].
    apply emit_same_store.
Qed.

End StoreFrames.

(** ** What [_fix] does to the store *)

Section FixFrame.
Context `{Env}.

Lemma get_inv (r : router) (a r' : router) : get r = Done a r' -> a = r /\ r' = r.
Proof. intros E. injection E as <- <-. done. Qed.

Lemma stores_same_store_l (a : routerAnnounce) (r r1 r2 : router) :
  same_store r r1 -> stores a r1 r2 ->
  rcore r2 = rcore r /\ now r2 = now r /\ rpeers r2 = rpeers r
  /\ infos r2 = <[ann_key a := infoOf a]> (infos r)
  /\ exists tm, timers r2 = <[ann_key a := tm]> (timers r).
Proof.
  intros (A1 & A2 & A3 & A4 & A5) (B1 & B2 & _ & _ & B5 & B6 & _ & B8 & _).
  rewrite B1, B2, B5, B6, B8, A1, A2, A3, A4, A5. repeat split; eauto.
Qed.

Lemma useResponse_run (peerKey : list Z) (res : routerSigRes) (r : router) b r' :
  _useResponse peerKey res r = Done b r' ->
  (b = false /\ r' = r)
  \/ (b = true /\ exists a, ann_key a = selfKey r /\ stores a r r').
Proof.
  unfold _useResponse. intros Hrun.
  apply bind_Done_inv in Hrun as (r0 & r1 & Hget & Hrun).
  apply get_inv in Hget as [-> ->].
  apply bind_Done_inv in Hrun as (bs & r1 & Hbs & Hrun).
  assert (r1 = r) as ->.
  { unfold orPanic in Hbs. destruct (routerSigRes_bytesForSig _ _ _);
      [now injection Hbs as _ <- | discriminate]. }
  apply bind_Done_inv in Hrun as (ok & r2 & Hup & Hrun).
  destruct ok; injection Hrun as <- <-.
  - right. split; [done|]. eexists. split; [|apply update_true_inv, Hup]. done.
  - left. split; [done|]. now apply update_false_inv in Hup.
Qed.

Lemma becomeRoot_run (r : router) b r' :
  _becomeRoot r = Done b r' ->
  exists r1, same_store r r1
    /\ ((b = false /\ r' = r1)
        \/ (b = true /\ exists a, ann_key a = selfKey r /\ stores a r1 r')).
Proof.
  unfold _becomeRoot. intros Hrun.
  apply bind_Done_inv in Hrun as (req & r1 & Hreq & Hrun).
  apply newReq_same_store in Hreq.
  apply bind_Done_inv in Hrun as (r0 & r1' & Hget & Hrun).
  apply get_inv in Hget as [-> ->].
  apply bind_Done_inv in Hrun as (bs & r2 & Hbs & Hrun).
  assert (r2 = r1) as ->.
  { unfold orPanic in Hbs. destruct (routerSigRes_bytesForSig _ _ _);
      [now injection Hbs as _ <- | discriminate]. }
  apply bind_Done_inv in Hrun as (ok & r2 & Hok & Hrun).
  assert (r2 = r1) as ->.
  { unfold orPanic in Hok. destruct (routerAnnounce_check _);
      [now injection Hok as _ <- | discriminate]. }
  exists r1. split; [done|].
  destruct ok; simpl in Hrun; [|discriminate].
  assert (Hself : selfKey r1 = selfKey r).
  { unfold selfKey. now destruct Hreq as (-> & _). }
  destruct b.
  - right. split; [done|]. eexists. split; [|apply update_true_inv, Hrun].
    simpl. done.
  - left. split; [done|]. now apply update_false_inv in Hrun.
Qed.

Lemma fix_frame_refl (r : router) : fix_frame r r.
Proof. repeat split. now left. Qed.

Lemma same_store_fix_frame (r r' : router) : same_store r r' -> fix_frame r r'.
Proof. intros (A1 & A2 & A3 & A4 & A5). repeat split; [done..|]. now left. Qed.

Lemma fix_frame_same_store (r r1 r2 : router) :
  fix_frame r r1 -> same_store r1 r2 -> fix_frame r r2.
Proof.
  intros (A1 & A2 & A3 & A4) (B1 & B2 & B3 & B4 & B5).
  repeat split; [congruence..|].
  rewrite B4, B5. exact A4.
Qed.

(** After one of the two self-announcing steps has succeeded, the rest of
    the case ([fixTimer.Stop], the flags, [_sendReqs]) leaves the store. *)
Lemma fix_rest_same_store (ok : bool) (first second : M unit) :
  preserves same_store first -> preserves same_store second ->
  preserves same_store
    ((if negb ok then panic else mret tt);; first;; second;; _sendReqs).
Proof.
  intros H1 H2.
  apply preserves_bind; [tc_solve | | intros _].
  { destruct (negb ok); [apply preserves_panic | apply preserves_ret; tc_solve]. }
  apply preserves_bind; [tc_solve | exact H1 | intros _].
  apply preserves_bind; [tc_solve | exact H2 | intros _].
  apply sendReqs_same_store.
Qed.

Lemma stop_fixTimer_same_store : preserves same_store (modify (set_fixTimer None)).
Proof. apply preserves_modify. intros ?. repeat split; reflexivity. Qed.

Lemma fix_run (r r' : router) : _fix r = Done tt r' -> fix_frame r r'.
Proof.
  unfold _fix. intros Hrun.
  apply bind_Done_inv in Hrun as (r0 & r1 & Hget & Hrun).
  apply get_inv in Hget as [-> ->].
  destruct (match alookup _ (rpeers r) with Some _ => _ | None => _ end)
    as [bestRoot0 bestParent0].
  destruct (fold_left _ _ _) as [bestRoot bestParent].
  apply bind_Done_inv in Hrun as ([] & r2 & Hdec & Hmerks).
  apply fixMerks_same_store in Hmerks.
  eapply fix_frame_same_store; [|exact Hmerks]. clear Hmerks r'.
  destruct (_ || _ || _ || _); [|injection Hdec as <-; apply fix_frame_refl].
  destruct (if bool_decide (bestRoot ≠ selfKey r) then _ else _) as [res|].
  - apply bind_Done_inv in Hdec as (ok & r1 & Huse & Hrest).
    apply (fix_rest_same_store ok _ _ stop_fixTimer_same_store
             clearRootFlags_same_store) in Hrest.
    apply useResponse_run in Huse as [[-> ->] | [-> (a & Ha & Hst)]].
    + now apply same_store_fix_frame.
    + eapply fix_frame_same_store; [|exact Hrest].
      destruct (stores_same_store_l a r r r1 ltac:(reflexivity) Hst)
        as (C1 & C2 & C3 & C4 & tm & C5).
      repeat split; [done..|]. right. exists a, tm. done.
  - destruct (doRoot2 r).
    + apply bind_Done_inv in Hdec as (ok & r1 & Hroot & Hrest).
      apply (fix_rest_same_store ok _ _ clearRootFlags_same_store
               stop_fixTimer_same_store) in Hrest.
      apply becomeRoot_run in Hroot as (r0 & Hr0 & [[-> ->] | [-> (a & Ha & Hst)]]).
      * apply same_store_fix_frame. now transitivity r0.
      * eapply fix_frame_same_store; [|exact Hrest].
        destruct (stores_same_store_l a r r0 r1 Hr0 Hst)
          as (C1 & C2 & C3 & C4 & tm & C5).
        repeat split; [done..|]. right. exists a, tm. done.
    + apply same_store_fix_frame. revert Hdec.
      match goal with |- ?m r = _ -> _ => assert (Hp : preserves same_store m) end.
      { destruct (negb (doRoot1 r)); repeat preserves_step. }
      apply Hp.
Qed.

End FixFrame.

(** ** Announcements against a stored info *)

Section KnownKey.
Context `{Env}.

(** For a key that is already stored, the capacity test always lets the
    announce through to [_update], and nothing is evicted. *)
Lemma handleAnnounce_known (sender : peer) (a : routerAnnounce) (r : router) :
  is_Some (infos r !! ann_key a) ->
  _handleAnnounce sender a r =
  (ok ← _update a;
   if (ok : bool) then
     mret tt;;
     (if decide (ann_key a = selfKey r) then modify (set_refresh true)
      else mret tt);;
     _fix
   else mret tt) r.
Proof.
  intros [i Hi]. unfold _handleAnnounce.
  unfold mbind at 1, M_bind at 1, get at 1. cbv beta iota. rewrite Hi.
  now destruct (_ <? _).
Qed.

(** C1. For an announce [a] whose key already has a stored info [i]
    (parents being keys of one length), [_update] accepts exactly when the
    ordering table accepts: a higher seq, or the same seq and a
    lexicographically lower parent, or the same seq and parent and a lower
    nonce.  A rejected announce leaves the whole state as it was, also
    through [_handleAnnounce]: nothing is stored and nothing is sent.  In
    particular an announce with the seq, parent and nonce of the stored
    info is rejected and not echoed. *)
Theorem update_crdt_order (sender : peer) (a : routerAnnounce) (i : routerInfo)
  (r : router) :
  infos r !! ann_key a = Some i ->
  length (ann_parent a) = length (info_parent i) ->
  (crdt_accepts a i <->
     exists r', _update a r = Done true r'
                /\ infos r' !! ann_key a = Some (infoOf a))
  /\ (~ crdt_accepts a i <->
        _update a r = Done false r)
  /\ (~ crdt_accepts a i -> _handleAnnounce sender a r = Done tt r)
  /\ (ann_seq a = info_seq i -> ann_parent a = info_parent i ->
      ann_nonce a = info_nonce i ->
      _update a r = Done false r
      /\ _handleAnnounce sender a r = Done tt r
      /\ forall r', _handleAnnounce sender a r = Done tt r' ->
           trace r' = trace r).
Proof.
  intros Hi Hlen.
  assert (Hrej : ~ crdt_accepts a i -> _update a r = Done false r
                 /\ _handleAnnounce sender a r = Done tt r).
  { intros Hn. destruct (update_known r a i Hi Hlen) as [[Hacc _] | [_ E]]; [done|].
    split; [done|]. rewrite handleAnnounce_known by eauto.
    now rewrite (bind_Done _ _ _ _ _ E). }
  split; [|split; [|split]].
  - split.
    + intros Hacc. destruct (update_known r a i Hi Hlen) as [[_ (r' & E)] | [Hn _]];
        [|done].
      exists r'. split; [done|]. apply update_true_inv in E as (-> & _).
      apply lookup_insert_eq.
    + intros (r' & E & _).
      destruct (update_known r a i Hi Hlen) as [[Hacc _] | [_ E']]; [done|].
      congruence.
  - split; [apply Hrej|]. intros E Hacc.
    destruct (update_known r a i Hi Hlen) as [[_ (r' & E')] | [Hn _]]; [|done].
    congruence.
  - apply Hrej.
  - intros Hs Hp Hn.
    assert (Hno : ~ crdt_accepts a i).
    { intros [? | [_ [Hl | [_ ?]]]]; [lia | | lia].
      rewrite Hp in Hl. apply treeLess_lex_lt in Hl.
      rewrite treeLess_irrefl in Hl. discriminate. }
    destruct (Hrej Hno) as [E1 E2]. repeat split; [done | done |].
    intros r' E. rewrite E2 in E. now injection E as <-.
Qed.

End KnownKey.

(** ** Announcements for a key that is not stored *)

Section UnknownKey.
Context `{Env}.

(** C9. For an announce whose key has no stored info, [_update] returns
    true and stores the announce: the info built from it (not expired) and
    a fresh timer appear under the key.  None of the ordering rules is
    consulted, and nothing about the validity of the announce
    ([routerAnnounce.check]: signatures, port 0 only with the key as its
    own parent) is assumed: [_update] does not look at it. *)
Theorem update_unknown_key (a : routerAnnounce) (r : router) :
  infos r !! ann_key a = None ->
  exists r',
    _update a r = Done true r'
    /\ stores a r r'
    /\ infos r' !! ann_key a = Some (infoOf a)
    /\ (exists tm, timers r' !! ann_key a = Some tm
                   /\ timer_id tm = nextTimer r)
    /\ (forall k, k ≠ ann_key a ->
          infos r' !! k = infos r !! k /\ timers r' !! k = timers r !! k).
Proof.
  intros Hnone. destruct (update_new a r Hnone) as (r' & E & Hst).
  exists r'. split; [done|]. split; [done|].
  destruct Hst as (Hi & Ht & _). rewrite Hi, Ht.
  split; [apply lookup_insert_eq|]. split.
  - eexists. split; [apply lookup_insert_eq | done].
  - intros k Hk. now rewrite !lookup_insert_ne.
Qed.

End UnknownKey.

(** Witness for C1: the node is handed its own current announcement. *)
Lemma update_crdt_order_witness :
  let r := exampleNode 5 3 in
  let a := exampleRootAnnounce 5 1 100 in
  @_update exampleEnv a r = Done false r
  /\ @_handleAnnounce exampleEnv exampleSender a r = Done tt r.
Proof.
  intros r a.
  destruct (@update_crdt_order exampleEnv exampleSender a (infoOf a) r)
    as (_ & _ & _ & Hsame).
  - vm_compute. reflexivity.
  - reflexivity.
  - destruct Hsame as (E1 & E2 & _); [reflexivity..|]. split; [exact E1 | exact E2].
Defined.

(** Witness for C9: an announcement that fails [routerAnnounce.check] is
    stored all the same. *)
Lemma update_unknown_key_witness :
  @routerAnnounce_check exampleEnv exampleBadAnnounce = Some false
  /\ exists r',
       @_update exampleEnv exampleBadAnnounce (exampleNode 5 3) = Done true r'
       /\ infos r' !! [4] = Some (infoOf exampleBadAnnounce).
Proof.
  split; [vm_compute; reflexivity|].
  destruct (@update_unknown_key exampleEnv exampleBadAnnounce (exampleNode 5 3))
    as (r' & E & _ & Hi & _).
  - vm_compute. reflexivity.
  - exists r'. split; [exact E | exact Hi].
Defined.

(** ** Expiry timers *)

Section Expiry.
Context `{Env}.

Lemma fix_frame_lookup (r r' : router) (k : list Z) :
  fix_frame r r' -> k ≠ selfKey r ->
  infos r' !! k = infos r !! k /\ timers r' !! k = timers r !! k.
Proof.
  intros (_ & _ & _ & [[-> ->] | (a & tm & Ha & -> & ->)]) Hk; [done|].
  unfold selfKey in Hk. rewrite !lookup_insert_ne by congruence. done.
Qed.

Lemma fix_frame_core (r r' : router) :
  fix_frame r r' -> rcore r' = rcore r /\ now r' = now r.
Proof. intros (? & ? & _). done. Qed.

(** The first firing of the timer of a remote key whose info is live. *)
Lemma fireTimer_live (k : list Z) (tm : timer) (i : routerInfo) (r r' : router) :
  k ≠ selfKey r ->
  timers r !! k = Some tm ->
  infos r !! k = Some i ->
  expired i = false ->
  fireTimer k r = Done tt r' ->
  rcore r' = rcore r
  /\ now r' = timer_due tm
  /\ infos r' !! k = Some (expire i)
  /\ timers r' !! k =
       Some {| timer_id := timer_id tm;
               timer_due := timer_due tm + 2 * config_routerTimeout (rcore r) |}.
Proof.
  intros Hk Ht Hi Hexp. unfold fireTimer, timerCallback. munfold. rewrite Ht.
  cbn. rewrite Ht. rewrite decide_True by done.
  rewrite decide_False by done. rewrite Hi. cbn. rewrite Hexp.
  intros Hfix. apply fix_run in Hfix.
  destruct (fix_frame_core _ _ Hfix) as [Hc Hn].
  destruct (fix_frame_lookup _ _ k Hfix Hk) as [Hi' Ht'].
  cbn in Hc, Hn, Hi', Ht'.
  rewrite Hc, Hn, Hi', Ht', !lookup_insert_eq. done.
Qed.

(** The firing of the timer of a remote key whose info has expired. *)
Lemma fireTimer_expired (k : list Z) (tm : timer) (i : routerInfo) (r r' : router) :
  k ≠ selfKey r ->
  timers r !! k = Some tm ->
  infos r !! k = Some i ->
  expired i = true ->
  fireTimer k r = Done tt r' ->
  rcore r' = rcore r
  /\ now r' = timer_due tm
  /\ infos r' !! k = None
  /\ timers r' !! k = None.
Proof.
  intros Hk Ht Hi Hexp. unfold fireTimer, timerCallback, _resetCache. munfold.
  rewrite Ht. cbn. rewrite Ht. rewrite decide_True by done.
  rewrite decide_False by done. rewrite Hi. cbn. rewrite Hexp. cbn.
  intros Hfix. apply fix_run in Hfix.
  destruct (fix_frame_core _ _ Hfix) as [Hc Hn].
  destruct (fix_frame_lookup _ _ k Hfix Hk) as [Hi' Ht'].
  cbn in Hc, Hn, Hi', Ht'.
  rewrite Hc, Hn, Hi', Ht', !lookup_delete_eq. done.
Qed.

(** The firing of the timer of the local key. *)
Lemma fireTimer_self (tm : timer) (r : router) :
  timers r !! selfKey r = Some tm ->
  fireTimer (selfKey r) r = _fix (set_refresh true (set_now (timer_due tm) r)).
Proof.
  intros Ht. unfold fireTimer, timerCallback. munfold. rewrite Ht. cbn.
  rewrite Ht. rewrite decide_True by done.
  unfold selfKey at 1 2. cbn. rewrite decide_True by done. done.
Qed.

(** C6, amended. A remote key's timer is set to fire [routerTimeout] after
    the acceptance.  When it fires (the callback running to its end), the
    info is marked expired and otherwise unchanged, and the same timer is
    re-armed to fire [2 * routerTimeout] later; when it fires again the
    info and the timer are deleted.  With nothing else happening to the
    key, the entry is therefore deleted [3 * routerTimeout] after the
    acceptance.  The timer of the local key is set to [routerRefresh] plus
    the jitter; firing it only sets [refresh] and runs [_fix], after which
    the local info is still stored. *)
Theorem expiry_two_phase (a : routerAnnounce) (r0 r1 : router) :
  _update a r0 = Done true r1 ->
  let key := ann_key a in
  let T := config_routerTimeout (rcore r0) in
  (key ≠ selfKey r0 ->
     timers r1 !! key
       = Some {| timer_id := nextTimer r0; timer_due := now r0 + T |}
     /\ forall r2, fireTimer key r1 = Done tt r2 ->
          now r2 = now r0 + T
          /\ infos r2 !! key = Some (expire (infoOf a))
          /\ timers r2 !! key
               = Some {| timer_id := nextTimer r0; timer_due := now r0 + 3 * T |}
          /\ forall r3, fireTimer key r2 = Done tt r3 ->
               now r3 = now r0 + 3 * T
               /\ infos r3 !! key = None
               /\ timers r3 !! key = None
               /\ deleted_after a r0 (3 * T))
  /\ (key = selfKey r0 ->
        timers r1 !! key
          = Some {| timer_id := nextTimer r0;
                    timer_due := now r0 + config_routerRefresh (rcore r0)
                                 + millisecond * mrandIntn1024 (randCtr r0) |}
        /\ fireTimer key r1
           = _fix (set_refresh true
                     (set_now (now r0 + config_routerRefresh (rcore r0)
                               + millisecond * mrandIntn1024 (randCtr r0)) r1))
        /\ forall r2, fireTimer key r1 = Done tt r2 ->
             exists i, infos r2 !! key = Some i /\ expired i = false).
Proof.
  intros Hup key T. pose proof (update_true_inv _ _ _ Hup) as Hst.
  destruct Hst as (Hi & Ht & _ & _ & Hc & Hn & _).
  assert (Hself : selfKey r1 = selfKey r0) by (unfold selfKey; now rewrite Hc).
  split.
  - intros Hk. fold key in Ht, Hi.
    assert (Hk1 : key ≠ selfKey r1) by (rewrite Hself; exact Hk).
    unfold selfKey in Hk.
    rewrite decide_False in Ht by done.
    assert (Ht1 : timers r1 !! key =
                  Some {| timer_id := nextTimer r0; timer_due := now r0 + T |}).
    { rewrite Ht. apply lookup_insert_eq. }
    assert (Hi1 : infos r1 !! key = Some (infoOf a)).
    { rewrite Hi. apply lookup_insert_eq. }
    split; [exact Ht1|]. intros r2 Hf2.
    destruct (fireTimer_live key _ _ r1 r2 Hk1 Ht1 Hi1 eq_refl Hf2)
      as (Hc2 & Hn2 & Hi2 & Ht2).
    cbn in Hn2, Ht2. rewrite Hc in Ht2. fold T in Ht2.
    replace (now r0 + T + 2 * T) with (now r0 + 3 * T) in Ht2 by lia.
    split; [done|]. split; [done|]. split; [done|]. intros r3 Hf3.
    assert (Hk2 : key ≠ selfKey r2).
    { unfold selfKey. rewrite Hc2, Hc. done. }
    destruct (fireTimer_expired key _ _ r2 r3 Hk2 Ht2 Hi2 eq_refl Hf3)
      as (Hc3 & Hn3 & Hi3 & Ht3).
    cbn in Hn3. repeat split; [done..|].
    exists r1, r2, r3. split; [exact Hup|]. split; [exact Hf2|].
    split; [eexists; exact Hi2|]. split; [exact Hf3|]. done.
  - intros Hk. fold key in Ht, Hi. unfold selfKey in Hk.
    rewrite decide_True in Ht by done.
    assert (Ht1 : timers r1 !! selfKey r1 =
      Some {| timer_id := nextTimer r0;
              timer_due := now r0 + (config_routerRefresh (rcore r0)
                           + millisecond * mrandIntn1024 (randCtr r0)) |}).
    { rewrite Hself. unfold selfKey. rewrite <- Hk, Ht. apply lookup_insert_eq. }
    assert (Hkey : key = selfKey r1) by (rewrite Hself; exact Hk).
    rewrite Z.add_assoc in Ht1.
    split; [rewrite Hkey; exact Ht1|].
    assert (Hfire := fireTimer_self _ r1 Ht1). cbn in Hfire.
    rewrite <- Hkey in Hfire.
    split; [exact Hfire|]. intros r2 Hf2. rewrite Hfire in Hf2.
    apply fix_run in Hf2.
    destruct Hf2 as (_ & _ & _ & [[Hi2 _] | (a' & tm' & Ha' & Hi2 & _)]).
    + cbn in Hi2. rewrite Hi2, Hi. exists (infoOf a).
      split; [apply lookup_insert_eq | done].
    + cbn in Hi2, Ha'. rewrite Hi2. exists (infoOf a').
      rewrite Hc, <- Hk in Ha'. rewrite Ha'.
      split; [apply lookup_insert_eq | done].
Qed.

End Expiry.

(** Counterexample to C6 as stated: node [[5]] accepts an announcement of
    node [[3]] at time 0 with a timeout of 100 s; the entry is not deleted
    after 200 s (the second firing is due at 300 s). *)
Lemma expiry_not_after_two_timeouts :
  ~ @deleted_after exampleEnv (exampleRootAnnounce 3 1 7) (exampleNode 5 3)
      (2 * config_routerTimeout (rcore (exampleNode 5 3))).
Proof.
  intros (r1 & r2 & r3 & Hup & Hf2 & _ & Hf3 & _ & _ & Hnow).
  vm_compute in Hup. injection Hup as <-.
  vm_compute in Hf2. injection Hf2 as <-.
  vm_compute in Hf3. injection Hf3 as <-.
  vm_compute in Hnow. discriminate Hnow.
Qed.

(** Witness for the amended C6: the same run, deleted after 300 s. *)
Lemma expiry_two_phase_witness :
  @deleted_after exampleEnv (exampleRootAnnounce 3 1 7) (exampleNode 5 3)
    (300 * second).
Proof.
  set (a := exampleRootAnnounce 3 1 7). set (r0 := exampleNode 5 3).
  set (r1 := stateOf (@_update exampleEnv a r0) r0).
  set (r2 := stateOf (@fireTimer exampleEnv [3] r1) r1).
  set (r3 := stateOf (@fireTimer exampleEnv [3] r2) r2).
  assert (E1 : @_update exampleEnv a r0 = Done true r1) by (vm_compute; reflexivity).
  assert (E2 : @fireTimer exampleEnv [3] r1 = Done tt r2) by (vm_compute; reflexivity).
  assert (E3 : @fireTimer exampleEnv [3] r2 = Done tt r3) by (vm_compute; reflexivity).
  destruct (@expiry_two_phase exampleEnv a r0 r1 E1) as [Hremote _].
  destruct Hremote as [_ H2]; [discriminate|].
  destruct (H2 r2 E2) as (_ & _ & _ & H3).
  destruct (H3 r3 E3) as (_ & _ & _ & Hdel).
  exact Hdel.
Defined.

(** ** The capacity rule *)

Section Worst.
Context `{Env}.

Lemma lex_lt_trans (k1 k2 k3 : list Z) :
  lex_lt k1 k2 -> lex_lt k2 k3 -> lex_lt k1 k3.
Proof.
  intros H12. revert k3. induction H12 as [a b k1 k2 Hab | a k1 k2 H12 IH];
    intros k3 H23; inversion H23; subst.
  - constructor. lia.
  - now constructor.
  - now constructor.
  - apply lex_lt_next. now apply IH.
Qed.

Lemma treeLess_trans (k1 k2 k3 : list Z) :
  treeLess k1 k2 = true -> treeLess k2 k3 = true -> treeLess k1 k3 = true.
Proof. rewrite !treeLess_lex_lt. apply lex_lt_trans. Qed.

(** No key is below the zero key. *)
Lemma treeLess_zeroKey (k : list Z) :
  key_wf k -> treeLess k zeroKey = false.
Proof.
  intros [Hlen Hb]. unfold zeroKey. rewrite <- Hlen. clear Hlen.
  induction Hb as [|b k Hb0 Hb IH]; simpl; [done|].
  destruct (Z.ltb_spec b 0); [lia|].
  destruct (Z.ltb_spec 0 b); [done | apply IH].
Qed.

Lemma elem_of_map_keys (m : gmap (list Z) routerInfo) (k : list Z) :
  k ∈ (map_to_list m).*1 <-> is_Some (m !! k).
Proof.
  rewrite list_elem_of_fmap. split.
  - intros ([k' v] & -> & Hin). apply elem_of_map_to_list in Hin. eauto.
  - intros [v Hv]. exists (k, v). split; [done|]. now apply elem_of_map_to_list.
Qed.

(** The search loop of [_handleAnnounce] ends on a non-self key that no
    other non-self key of the list is above, whatever the order of the
    list, and finds nothing only if the list has no non-self key. *)
Lemma worst_fold_spec (self : list Z) (l : list (list Z)) :
  forall (seen : list (list Z)) (acc : list Z * bool),
    (acc.2 = false -> forall k, k ∈ seen -> k = self) ->
    (acc.2 = true ->
       acc.1 ∈ seen /\ acc.1 ≠ self
       /\ forall k, k ∈ seen -> k ≠ self -> treeLess acc.1 k = false) ->
    let res := fold_left (worst_step self) l acc in
    (res.2 = false -> forall k, k ∈ seen ++ l -> k = self)
    /\ (res.2 = true ->
          res.1 ∈ seen ++ l /\ res.1 ≠ self
          /\ forall k, k ∈ seen ++ l -> k ≠ self -> treeLess res.1 k = false).
Proof.
  induction l as [|x l IH]; intros seen [w found] Hnf Hf; simpl in *.
  - rewrite app_nil_r. done.
  - replace (seen ++ x :: l) with ((seen ++ [x]) ++ l) by now rewrite <- app_assoc.
    apply IH; unfold worst_step; simpl.
    + destruct (decide (x = self)) as [-> | Hx]; simpl.
      * intros Hfalse k Hk. apply elem_of_app in Hk as [Hk | Hk]; [eauto|].
        now apply list_elem_of_singleton in Hk.
      * destruct found; simpl; [|discriminate].
        destruct (less w x); simpl; [discriminate|].
        discriminate.
    + destruct (decide (x = self)) as [-> | Hx]; simpl.
      * intros Htrue. destruct (Hf Htrue) as (Hin & Hne & Hmax).
        split; [apply elem_of_app; now left|]. split; [done|].
        intros k Hk Hks. apply elem_of_app in Hk as [Hk | Hk]; [eauto|].
        now apply list_elem_of_singleton in Hk.
      * destruct found; simpl.
        -- destruct (Hf eq_refl) as (Hin & Hne & Hmax).
           unfold less. destruct (treeLess w x) eqn:Hwx; simpl; intros _.
           ++ split; [apply elem_of_app; right; now apply list_elem_of_singleton|].
              split; [done|]. intros k Hk Hks.
              apply elem_of_app in Hk as [Hk | Hk].
              ** destruct (treeLess x k) eqn:Hxk; [|done].
                 specialize (Hmax k Hk Hks).
                 rewrite (treeLess_trans _ _ _ Hwx Hxk) in Hmax. discriminate.
              ** apply list_elem_of_singleton in Hk as ->. apply treeLess_irrefl.
           ++ split; [apply elem_of_app; now left|]. split; [done|].
              intros k Hk Hks. apply elem_of_app in Hk as [Hk | Hk]; [eauto|].
              now apply list_elem_of_singleton in Hk as ->.
        -- intros _.
           split; [apply elem_of_app; right; now apply list_elem_of_singleton|].
           split; [done|]. intros k Hk Hks.
           apply elem_of_app in Hk as [Hk | Hk].
           ++ specialize (Hnf eq_refl k Hk). done.
           ++ apply list_elem_of_singleton in Hk as ->. apply treeLess_irrefl.
Qed.

Lemma worst_fold_found (self : list Z) (l : list (list Z)) :
  forall acc, acc.2 = true -> (fold_left (worst_step self) l acc).2 = true.
Proof.
  induction l as [|y l IH]; intros acc Ha; simpl; [done|].
  apply IH. unfold worst_step. destruct (decide _); [done|].
  rewrite Ha. simpl. now destruct (less _ _).
Qed.

Lemma worst_fold_notfound (self : list Z) (l : list (list Z)) :
  forall acc, acc.2 = false ->
    (fold_left (worst_step self) l acc).2 = false ->
    (fold_left (worst_step self) l acc).1 = acc.1.
Proof.
  induction l as [|x l IH]; intros acc Ha Hr; simpl in *; [done|].
  unfold worst_step at 2 in Hr. unfold worst_step at 2.
  destruct (decide (x = self)); [now apply IH|].
  rewrite Ha in *. simpl in *.
  rewrite worst_fold_found in Hr; done.
Qed.

(** The same, for the keys of the store. *)
Lemma worst_spec (r : router) (w : list Z) (found : bool) :
  fold_left (worst_step (selfKey r)) (map_to_list (infos r)).*1 (zeroKey, false)
  = (w, found) ->
  (found = false ->
     w = zeroKey /\ forall k, is_Some (infos r !! k) -> k = selfKey r)
  /\ (found = true -> highest_nonself r w).
Proof.
  intros Hfold.
  pose proof (worst_fold_spec (selfKey r) (map_to_list (infos r)).*1 []
                (zeroKey, false)) as Hspec.
  simpl in Hspec. rewrite Hfold in Hspec. simpl in Hspec.
  destruct Hspec as [Hnf Hf]; [intros _ k Hk; now apply elem_of_nil in Hk | done |].
  split.
  - intros ->. split.
    + pose proof (worst_fold_notfound (selfKey r)) as Hgen.
      specialize (Hgen (map_to_list (infos r)).*1 (zeroKey, false) eq_refl).
      rewrite Hfold in Hgen. now apply Hgen.
    + intros k Hk. apply Hnf; [done|]. now apply elem_of_map_keys.
  - intros ->. destruct (Hf eq_refl) as (Hin & Hne & Hmax).
    split; [now apply elem_of_map_keys|]. split; [done|].
    intros k Hk Hks Hlt. apply treeLess_lex_lt in Hlt.
    rewrite Hmax in Hlt; [discriminate | now apply elem_of_map_keys | done].
Qed.

End Worst.

(** ** Running [_handleAnnounce] *)

Section HandleAnnounce.
Context `{Env}.

(** The part of [_handleAnnounce] after the capacity test has let the
    announce through, [found] and [worst] being what the test left. *)
Lemma handleAnnounce_accept_run (found : bool) (worst : list Z)
  (a : routerAnnounce) (r r' : router) :
  (ok ← _update a;
   if (ok : bool) then
     (if (found : bool) then
        r ← get;
        match timers r !! worst with
        | None => panic
        | Some _ =>
            modify (fun r => set_infos (delete worst (infos r)) r);;
            modify (fun r => set_timers (delete worst (timers r)) r);;
            _resetCache
        end
      else mret tt);;
     (if decide (ann_key a = selfKey r) then modify (set_refresh true)
      else mret tt);;
     _fix
   else mret tt) r = Done tt r' ->
  (r' = r /\ _update a r = Done false r)
  \/ exists ru rm,
       _update a r = Done true ru
       /\ fix_frame rm r'
       /\ rcore rm = rcore r
       /\ if found
          then is_Some (timers ru !! worst)
               /\ infos rm = delete worst (infos ru)
               /\ timers rm = delete worst (timers ru)
          else infos rm = infos ru /\ timers rm = timers ru.
Proof.
  intros Hrun.
  apply bind_Done_inv in Hrun as (ok & ru & Hup & Hrun).
  destruct ok.
  2:{ left. injection Hrun as <-. apply update_false_inv in Hup as Hr.
      subst ru. done. }
  right. exists ru.
  pose proof (update_true_inv _ _ _ Hup) as (_ & _ & _ & _ & Hc & _).
  apply bind_Done_inv in Hrun as ([] & r1 & Hev & Hrun).
  apply bind_Done_inv in Hrun as ([] & r2 & Hrf & Hrun).
  apply fix_run in Hrun.
  assert (Hr2 : same_store r1 r2).
  { revert Hrf. match goal with |- ?m r1 = _ -> _ =>
      assert (Hp : preserves same_store m) end.
    { destruct (decide _); repeat preserves_step. }
    apply Hp. }
  destruct Hr2 as (C1 & C2 & C3 & C4 & C5).
  exists r2. split; [done|]. split; [done|].
  destruct found.
  - apply bind_Done_inv in Hev as (r0 & r0' & Hget & Hev).
    apply get_inv in Hget as [-> ->].
    destruct (timers ru !! worst) as [tm|] eqn:Htm; [|discriminate].
    unfold _resetCache in Hev. munfold. injection Hev as <-.
    cbn in *. rewrite C1, C4, C5. split; [done|]. split; [eauto|]. done.
  - injection Hev as <-. rewrite C1, C4, C5. done.
Qed.

Lemma handleAnnounce_run (sender : peer) (a : routerAnnounce) (r r' : router) :
  _handleAnnounce sender a r = Done tt r' ->
  let room :=
    Z.of_nat (size (infos r)) <? int_of_uint64 (config_routerMaxInfos (rcore r)) in
  let wf := fold_left (worst_step (selfKey r)) (map_to_list (infos r)).*1
              (zeroKey, false) in
  (r' = r
   /\ (_update a r = Done false r
       \/ (room = false /\ infos r !! ann_key a = None
           /\ less (ann_key a) wf.1 = false)))
  \/ exists ru rm,
       _update a r = Done true ru
       /\ fix_frame rm r'
       /\ rcore rm = rcore r
       /\ ((infos rm = infos ru /\ timers rm = timers ru
            /\ (room = true \/ is_Some (infos r !! ann_key a)
                \/ (wf.2 = false /\ less (ann_key a) wf.1 = true)))
           \/ (room = false /\ infos r !! ann_key a = None
               /\ less (ann_key a) wf.1 = true /\ wf.2 = true
               /\ is_Some (timers ru !! wf.1)
               /\ infos rm = delete wf.1 (infos ru)
               /\ timers rm = delete wf.1 (timers ru))).
Proof.
  intros Hrun room wf. unfold _handleAnnounce in Hrun.
  apply bind_Done_inv in Hrun as (r0 & r0' & Hget & Hrun).
  apply get_inv in Hget as [-> ->]. fold room in Hrun. fold wf in Hrun.
  destruct room eqn:Hroom.
  { destruct (handleAnnounce_accept_run false zeroKey a r r' Hrun)
      as [[-> E] | (ru & rm & E & Hfix & Hc & Hi & Ht)].
    - left. split; [done | now left].
    - right. exists ru, rm. split; [done|]. split; [done|]. split; [done|].
      left. split; [done|]. split; [done|]. now left. }
  destruct (infos r !! ann_key a) as [i|] eqn:Hi.
  { destruct (handleAnnounce_accept_run false zeroKey a r r' Hrun)
      as [[-> E] | (ru & rm & E & Hfix & Hc & Hi' & Ht)].
    - left. split; [done | now left].
    - right. exists ru, rm. split; [done|]. split; [done|]. split; [done|].
      left. split; [done|]. split; [done|]. right. left. eauto. }
  destruct wf as [w found] eqn:Hwf. simpl.
  destruct (less (ann_key a) w) eqn:Hless.
  2:{ left. injection Hrun as <-. split; [done|]. right. done. }
  destruct (handleAnnounce_accept_run found w a r r' Hrun)
    as [[-> E] | (ru & rm & E & Hfix & Hc & Hrest)].
  - left. split; [done | now left].
  - right. exists ru, rm. split; [done|]. split; [done|]. split; [done|].
    destruct found.
    + right. destruct Hrest as (Htm & Him & Htm'). done.
    + left. destruct Hrest as (Him & Htm').
      split; [done|]. split; [done|]. right. right. done.
Qed.

End HandleAnnounce.

(** ** The local info is always stored *)

Section SelfInfo.
Context `{Env}.

(** Start-up stores the announcement of the local key (invariant 1). *)
Lemma init_self_info (c : core) (t0 : Z) (r : router) :
  init c t0 = Done tt r ->
  rcore r = c /\ is_Some (infos r !! crypto_publicKey c).
Proof.
  unfold init, _fix. intros Hrun.
  apply bind_Done_inv in Hrun as (r0 & r1 & Hget & Hrun).
  apply get_inv in Hget as [-> ->].
  cbn -[_becomeRoot _sendReqs _fixMerks clearRootFlags _getRootAndDists] in Hrun.
  assert (Hnone : (if bool_decide (selfKey (initRouter c t0) ≠ selfKey (initRouter c t0))
                   then @None routerSigRes else None) = None)
    by now destruct (bool_decide _).
  rewrite Hnone in Hrun. clear Hnone.
  apply bind_Done_inv in Hrun as ([] & r2 & Hdec & Hmerks).
  apply fixMerks_same_store in Hmerks.
  apply bind_Done_inv in Hdec as (ok & r1 & Hroot & Hrest).
  assert (ok = true) as ->.
  { destruct ok; [done|]. apply bind_Done_inv in Hrest as (? & ? & ? & _).
    discriminate. }
  apply (fix_rest_same_store true _ _ clearRootFlags_same_store
           stop_fixTimer_same_store) in Hrest.
  apply becomeRoot_run in Hroot
    as (r0 & Hr0 & [[? _] | [_ (a & Ha & Hst)]]); [discriminate|].
  destruct (stores_same_store_l a _ r0 r1 Hr0 Hst) as (C1 & _ & _ & C4 & _).
  destruct Hrest as (D1 & _ & _ & D4 & _), Hmerks as (E1 & _ & _ & E4 & _).
  rewrite E1, D1, C1, E4, D4, C4, Ha. split; [done|].
  rewrite lookup_insert_eq. eauto.
Qed.

(** [_fix], [_handleAnnounce] and the timers keep it: the eviction skips
    the local key and its timer only refreshes. *)
Lemma fix_keeps_self (r r' : router) :
  _fix r = Done tt r' ->
  is_Some (infos r !! selfKey r) -> is_Some (infos r' !! selfKey r').
Proof.
  intros Hrun Hself. apply fix_run in Hrun.
  destruct Hrun as (Hc & _ & _ & [[-> _] | (a & tm & Ha & -> & _)]);
    unfold selfKey in *; rewrite Hc; [done|].
  rewrite Ha, lookup_insert_eq. eauto.
Qed.

Lemma handleAnnounce_keeps_self (sender : peer) (a : routerAnnounce)
  (r r' : router) :
  _handleAnnounce sender a r = Done tt r' ->
  is_Some (infos r !! selfKey r) -> is_Some (infos r' !! selfKey r').
Proof.
  intros Hrun Hself. apply handleAnnounce_run in Hrun. cbv zeta in Hrun.
  destruct (fold_left _ _ _) as [w0 found] eqn:Hfold. simpl in Hrun.
  destruct Hrun as [[-> _] | (ru & rm & Hup & Hfix & Hc & Hcase)]; [done|].
  apply update_true_inv in Hup as (Hiu & _).
  assert (Hm : is_Some (infos rm !! selfKey rm)).
  { unfold selfKey in *. rewrite Hc.
    assert (Hu : is_Some (infos ru !! crypto_publicKey (rcore r))).
    { rewrite Hiu. destruct (decide (ann_key a = crypto_publicKey (rcore r)))
        as [-> | Hne]; [rewrite lookup_insert_eq; eauto|].
      now rewrite lookup_insert_ne. }
    destruct Hcase as [(-> & _) | (_ & _ & _ & -> & _ & -> & _)]; [done|].
    destruct (worst_spec r w0 true Hfold) as [_ Hw].
    destruct (Hw eq_refl) as (_ & Hws & _).
    now rewrite lookup_delete_ne. }
  destruct Hfix as (Hc' & _ & _ & [[-> _] | (a' & tm & Ha' & -> & _)]);
    unfold selfKey in *; rewrite Hc'; [done|].
  rewrite Ha', lookup_insert_eq. eauto.
Qed.

End SelfInfo.

(** ** The capacity bound *)

Section Capacity.
Context `{Env}.

Lemma int_of_uint64_le (u : Z) : uint64 u -> int_of_uint64 u <= u.
Proof.
  intros Hu. unfold int_of_uint64, wrap64, uint64 in *.
  rewrite Z.mod_small by lia. destruct (_ <? _); lia.
Qed.

Lemma highest_nonself_unique (r : router) (w1 w2 : list Z) :
  keys_wf r -> highest_nonself r w1 -> highest_nonself r w2 -> w1 = w2.
Proof.
  intros Hwf (Hin1 & Hs1 & Hmax1) (Hin2 & Hs2 & Hmax2).
  destruct Hin1 as [i1 Hi1], Hin2 as [i2 Hi2].
  apply treeLess_total.
  - destruct (Hwf _ _ Hi1) as [-> _], (Hwf _ _ Hi2) as [-> _]. done.
  - destruct (treeLess w1 w2) eqn:E; [|done].
    apply treeLess_lex_lt in E. exfalso. apply (Hmax1 w2); [eauto | done | done].
  - destruct (treeLess w2 w1) eqn:E; [|done].
    apply treeLess_lex_lt in E. exfalso. apply (Hmax2 w1); [eauto | done | done].
Qed.

Lemma size_insert_known (m : gmap (list Z) routerInfo) k v :
  is_Some (m !! k) -> size (<[k := v]> m) = size m.
Proof. intros [x Hx]. rewrite map_size_insert, Hx. done. Qed.

(** [_fix] does not change the number of infos of a store that holds the
    local info. *)
Lemma fix_frame_size (r r' : router) :
  fix_frame r r' -> is_Some (infos r !! selfKey r) ->
  size (infos r') = size (infos r).
Proof.
  intros (_ & _ & _ & [[-> _] | (a & tm & Ha & -> & _)]) Hself; [done|].
  apply size_insert_known. now rewrite Ha.
Qed.

(** C3. [_handleAnnounce] keeps the store within [routerMaxInfos].  Let the
    store hold the local info, all keys be keys, and the handler run to its
    end.  If the store had at most [routerMaxInfos] infos before, it has at
    most that many after.  If the store is full and the key of the announce
    is not stored, then: unless the key is lexicographically below the
    highest-keyed non-self entry, nothing changes at all; and if it is
    below, the announce is stored and that entry and its timer are deleted,
    the number of infos staying the same. *)
Theorem handleAnnounce_capacity (sender : peer) (a : routerAnnounce)
  (r r' : router) :
  keys_wf r ->
  key_wf (ann_key a) ->
  uint64 (config_routerMaxInfos (rcore r)) ->
  is_Some (infos r !! selfKey r) ->
  _handleAnnounce sender a r = Done tt r' ->
  let max := config_routerMaxInfos (rcore r) in
  (Z.of_nat (size (infos r)) <= max -> Z.of_nat (size (infos r')) <= max)
  /\ (max <= Z.of_nat (size (infos r)) ->
      infos r !! ann_key a = None ->
      ((forall w, highest_nonself r w -> ~ lex_lt (ann_key a) w) -> r' = r)
      /\ (forall w, highest_nonself r w -> lex_lt (ann_key a) w ->
            infos r' !! ann_key a = Some (infoOf a)
            /\ infos r' !! w = None
            /\ timers r' !! w = None
            /\ size (infos r') = size (infos r))).
Proof.
  intros Hwf Hkey Hmax Hself Hrun max.
  pose proof (int_of_uint64_le _ Hmax) as Hint. fold max in Hint.
  apply handleAnnounce_run in Hrun. cbv zeta in Hrun.
  destruct (fold_left _ _ _) as [w0 found] eqn:Hfold. simpl in Hrun.
  pose proof (worst_spec r w0 found Hfold) as [Hnf Hf].
  (* the odd case: nothing found, yet the key is below the zero key *)
  assert (Hodd : ~ (found = false /\ less (ann_key a) w0 = true)).
  { intros [-> Hl]. destruct (Hnf eq_refl) as [-> _].
    unfold less in Hl. rewrite treeLess_zeroKey in Hl; done. }
  (* what the eviction leaves *)
  assert (Hevict : forall ru rm,
    _update a r = Done true ru -> infos r !! ann_key a = None ->
    highest_nonself r w0 -> less (ann_key a) w0 = true ->
    fix_frame rm r' -> rcore rm = rcore r ->
    infos rm = delete w0 (infos ru) -> timers rm = delete w0 (timers ru) ->
    infos r' !! ann_key a = Some (infoOf a) /\ infos r' !! w0 = None
    /\ timers r' !! w0 = None /\ size (infos r') = size (infos r)).
  { intros ru rm Hup Hnone (Hin & Hs & _) Hl Hfix Hc Hi Ht.
    apply update_true_inv in Hup as (Hiu & _).
    assert (Hkw : ann_key a ≠ w0).
    { intros E. rewrite <- E, Hnone in Hin. now destruct Hin. }
    assert (Hks0 : ann_key a ≠ crypto_publicKey (rcore r)).
    { intros E. rewrite E in Hnone.
      unfold selfKey in Hself. rewrite Hnone in Hself. now destruct Hself. }
    assert (Hks : ann_key a ≠ selfKey rm) by (unfold selfKey; now rewrite Hc).
    assert (Hws : w0 ≠ selfKey rm) by (unfold selfKey; now rewrite Hc).
    destruct (fix_frame_lookup _ _ _ Hfix Hks) as [-> _].
    destruct (fix_frame_lookup _ _ _ Hfix Hws) as [-> ->].
    rewrite Hi, Ht, Hiu, !lookup_delete_eq, lookup_delete_ne, lookup_insert_eq by done.
    repeat split; [done..|].
    rewrite (fix_frame_size _ _ Hfix).
    - rewrite Hi, Hiu, map_size_delete, lookup_insert_ne by done.
      destruct Hin as [x ->]. rewrite map_size_insert, Hnone. lia.
    - unfold selfKey. rewrite Hc, Hi, Hiu, lookup_delete_ne, lookup_insert_ne by done.
      exact Hself. }
  split.
  - intros Hle.
    destruct Hrun as [[-> _] | (ru & rm & Hup & Hfix & Hc & Hcase)]; [done|].
    destruct Hcase as [(Hi & Ht & Hwhy) | (Hroom & Hnone & Hl & -> & _ & Hi & Ht)].
    + pose proof (update_true_inv _ _ _ Hup) as (Hiu & _).
      rewrite (fix_frame_size _ _ Hfix).
      2:{ unfold selfKey. rewrite Hc, Hi, Hiu.
          destruct (decide (ann_key a = crypto_publicKey (rcore r))) as [-> | Hne].
          - rewrite lookup_insert_eq. eauto.
          - rewrite lookup_insert_ne by done. exact Hself. }
      rewrite Hi, Hiu, map_size_insert.
      destruct (infos r !! ann_key a) eqn:Hlk;
        destruct Hwhy as [Hroom | [[x Hx] | Hbad]]; try done;
        try (apply Z.ltb_lt in Hroom; fold max in Hroom); lia.
    + destruct (Hevict ru rm Hup Hnone (Hf eq_refl) Hl Hfix Hc Hi Ht)
        as (_ & _ & _ & ->). done.
  - intros Hfull Hnone.
    assert (Hroom : (Z.of_nat (size (infos r)) <? int_of_uint64 max) = false).
    { apply Z.ltb_ge. lia. }
    fold max in Hrun. rewrite Hroom in Hrun. rewrite Hnone in Hrun.
    split.
    + intros Hnobetter.
      destruct Hrun as [[-> _] | (ru & rm & Hup & Hfix & Hc & Hcase)]; [done|].
      exfalso.
      destruct Hcase as [(_ & _ & [? | [[? ?] | Hbad]])
                        | (_ & _ & Hl & -> & _)]; [done | done | done |].
      apply (Hnobetter w0 (Hf eq_refl)). now apply treeLess_lex_lt.
    + intros w Hw Hlt.
      destruct Hrun as [[-> [Hrej | (_ & _ & Hl)]]
                       | (ru & rm & Hup & Hfix & Hc & Hcase)].
      * destruct (update_new a r Hnone) as (ru & E & _). congruence.
      * exfalso. destruct found.
        -- rewrite (highest_nonself_unique r w w0 Hwf Hw (Hf eq_refl)) in Hlt.
           apply treeLess_lex_lt in Hlt. unfold less in Hl. congruence.
        -- destruct (Hnf eq_refl) as [_ Hall]. destruct Hw as (Hin & Hs & _).
           apply Hs, Hall, Hin.
      * destruct Hcase as [(_ & _ & [? | [[? ?] | Hbad]])
                          | (_ & _ & Hl & -> & _ & Hi & Ht)]; [done | done | done |].
        rewrite (highest_nonself_unique r w w0 Hwf Hw (Hf eq_refl)).
        apply (Hevict ru rm Hup Hnone (Hf eq_refl) Hl Hfix Hc Hi Ht).
Qed.

End Capacity.

(** Witness for C3: node [[5]] holds [[3]], [[5]] and [[7]] and has room for
    three infos; an announcement of [[4]] is stored and [[7]] is evicted. *)
Lemma handleAnnounce_capacity_witness :
  let r := exampleNode3 3 in
  let a := exampleRootAnnounce 4 1 9 in
  exists r',
    @_handleAnnounce exampleEnv exampleSender a r = Done tt r'
    /\ infos r' !! [4] = Some (infoOf a)
    /\ infos r' !! [7] = None
    /\ timers r' !! [7] = None
    /\ size (infos r') = 3%nat.
Proof.
  intros r a.
  set (r' := stateOf (@_handleAnnounce exampleEnv exampleSender a r) r).
  assert (E : @_handleAnnounce exampleEnv exampleSender a r = Done tt r')
    by (vm_compute; reflexivity).
  exists r'. split; [exact E|].
  destruct (@handleAnnounce_capacity exampleEnv exampleSender a r r') as [_ Hfull].
  - apply (bool_decide_unpack _). vm_compute. exact I.
  - apply (bool_decide_unpack _). vm_compute. exact I.
  - unfold uint64. vm_compute. split; [discriminate | reflexivity].
  - vm_compute. eexists. reflexivity.
  - exact E.
  - destruct Hfull as [_ Hevict].
    + vm_compute. discriminate.
    + vm_compute. reflexivity.
    + destruct (Hevict [7]) as (H4 & H7 & T7 & Hsz).
      * split; [vm_compute; eexists; reflexivity|].
        split; [vm_compute; discriminate|].
        intros k [i Hk] Hks Hlt.
        assert (Hin : k ∈ [[7]; [3]; [5]]).
        { assert (Hk' : k ∈ (map_to_list (infos r)).*1).
          { apply list_elem_of_fmap. exists (k, i). split; [done|].
            now apply elem_of_map_to_list. }
          vm_compute in Hk'. exact Hk'. }
        apply elem_of_cons in Hin as [-> | Hin].
        { inversion Hlt; subst; [lia|].
          match goal with Hx : lex_lt [] [] |- _ => inversion Hx end. }
        apply elem_of_cons in Hin as [-> | Hin].
        { inversion Hlt; subst; lia. }
        apply elem_of_cons in Hin as [-> | Hin].
        { apply Hks. vm_compute. reflexivity. }
        now apply elem_of_nil in Hin.
      * constructor. lia.
      * split; [exact H4|]. split; [exact H7|]. split; [exact T7|].
        rewrite Hsz. vm_compute. reflexivity.
Defined.

(** ** Validity of stored announcements *)

Section Validity.
Context `{Env}.

Lemma getAnnounce_infoOf (a : routerAnnounce) :
  getAnnounce (infoOf a) (ann_key a) = a.
Proof. now destruct a. Qed.

(** C4, amended. [_handleAnnounce] does not validate: whatever passes the
    capacity test and the ordering rules is stored as it came.  Validity is
    preserved, not established: if every info stored for a remote key
    passes [routerAnnounce.check] and the incoming announce passes it, then
    after the handler every info stored for a remote key passes it; each
    remote entry is either what it was, or gone, or the incoming announce
    itself. *)
Theorem handleAnnounce_keeps_valid (sender : peer) (a : routerAnnounce)
  (r r' : router) :
  remote_valid r ->
  routerAnnounce_check a = Some true ->
  _handleAnnounce sender a r = Done tt r' ->
  remote_valid r'
  /\ forall k, k ≠ selfKey r ->
       infos r' !! k = infos r !! k
       \/ infos r' !! k = None
       \/ (k = ann_key a /\ infos r' !! k = Some (infoOf a)).
Proof.
  intros Hvalid Hcheck Hrun.
  assert (Hent : rcore r' = rcore r /\ forall k, k ≠ selfKey r ->
            infos r' !! k = infos r !! k
            \/ infos r' !! k = None
            \/ (k = ann_key a /\ infos r' !! k = Some (infoOf a))).
  { apply handleAnnounce_run in Hrun. cbv zeta in Hrun.
    destruct Hrun as [[-> _] | (ru & rm & Hup & Hfix & Hc & Hcase)];
      [split; [done | now left]|].
    apply update_true_inv in Hup as (Hiu & _).
    split; [destruct Hfix as (-> & _); exact Hc|].
    intros k Hk.
    assert (Hkm : k ≠ selfKey rm) by (unfold selfKey; now rewrite Hc).
    destruct (fix_frame_lookup _ _ _ Hfix Hkm) as [-> _].
    destruct Hcase as [(-> & _) | (_ & _ & _ & _ & _ & -> & _)]; rewrite Hiu.
    - destruct (decide (k = ann_key a)) as [-> | Hne].
      + right. right. split; [done | apply lookup_insert_eq].
      + left. now apply lookup_insert_ne.
    - match goal with |- context [delete ?w _] =>
        destruct (decide (k = w)) as [-> | Hw] end.
      + right. left. apply lookup_delete_eq.
      + rewrite lookup_delete_ne by done.
        destruct (decide (k = ann_key a)) as [-> | Hne].
        * right. right. split; [done | apply lookup_insert_eq].
        * left. now apply lookup_insert_ne. }
  destruct Hent as [Hc Hent]. split; [|exact Hent].
  intros k i Hi Hk. rewrite Hc in Hk.
  destruct (Hent k Hk) as [E | [E | [-> E]]]; rewrite E in Hi.
  - now apply (Hvalid k i).
  - discriminate.
  - injection Hi as <-. now rewrite getAnnounce_infoOf.
Qed.

End Validity.

(** Counterexample to C4 as stated: an announcement with port 0, a parent
    other than its key and signatures that do not verify is stored by
    [_handleAnnounce]. *)
Lemma handleAnnounce_stores_unchecked :
  @routerAnnounce_check exampleEnv exampleBadAnnounce = Some false
  /\ infos (exampleNode 5 3) !! [4] = None
  /\ exists r',
       @_handleAnnounce exampleEnv exampleSender exampleBadAnnounce (exampleNode 5 3)
       = Done tt r'
       /\ infos r' !! [4] = Some (infoOf exampleBadAnnounce).
Proof.
  split; [vm_compute; reflexivity|]. split; [vm_compute; reflexivity|].
  eexists. split; vm_compute; reflexivity.
Qed.

(** Witness for the amended C4: a valid announcement of [[3]] arrives at the
    freshly started node [[5]]. *)
Lemma handleAnnounce_keeps_valid_witness :
  let r := exampleNode 5 3 in
  let a := exampleRootAnnounce 3 1 7 in
  exists r',
    @_handleAnnounce exampleEnv exampleSender a r = Done tt r'
    /\ @remote_valid exampleEnv r'
    /\ infos r' !! [3] = Some (infoOf a).
Proof.
  intros r a.
  set (r' := stateOf (@_handleAnnounce exampleEnv exampleSender a r) r).
  assert (E : @_handleAnnounce exampleEnv exampleSender a r = Done tt r')
    by (vm_compute; reflexivity).
  exists r'. split; [exact E|].
  destruct (@handleAnnounce_keeps_valid exampleEnv exampleSender a r r')
    as [Hv _].
  - apply (bool_decide_unpack _). vm_compute. exact I.
  - vm_compute. reflexivity.
  - exact E.
  - split; [exact Hv | vm_compute; reflexivity].
Defined.

(** ** Forwarding *)

Section Lookup.
Context `{Env}.

Lemma wrap64_range (z : Z) : 0 <= wrap64 z < 2 ^ 64.
Proof. unfold wrap64. apply Z.mod_pos_bound. lia. Qed.

Lemma getDist_loop_range (keyPath destPath : list Z) (dist : Z) :
  0 <= dist < 2 ^ 64 -> 0 <= getDist_loop keyPath destPath dist < 2 ^ 64.
Proof.
  revert destPath dist. induction keyPath as [|a keyPath IH];
    intros [|b destPath] dist Hd; simpl; try done.
  destruct (a =? b); [|done]. apply IH, wrap64_range.
Qed.

(** [_getDist] always returns, with a [uint64], and touches the cache
    only. *)
Lemma getDist_run (destPath key : list Z) (r : router) :
  exists d r', _getDist destPath key r = Done d r'
    /\ 0 <= d < 2 ^ 64
    /\ same_store r r' /\ trace r' = trace r.
Proof.
  unfold _getDist. munfold.
  destruct (cache r !! key) as [cached|]; simpl;
    (eexists _, _; split; [reflexivity|];
     split; [apply getDist_loop_range, wrap64_range|]; now repeat split).
Qed.

(** The loop of [_lookup] over the peers does not touch the store or the
    trace. *)
Lemma lookup_fold_run (tr : traffic) (l : list (list Z * list peer)) :
  forall (acc : option peer * Z) (r : router),
  exists best r',
    foldEach l acc (fun '(bestPeer, bestDist) '(k, ps) =>
      dist ← _getDist (tr_path tr) k;
      if dist <? bestDist
      then mret (fold_left lookup_link ps bestPeer, dist)
      else mret (bestPeer, bestDist)) r = Done best r'
    /\ same_store r r' /\ trace r' = trace r.
Proof.
  induction l as [|[k ps] l IH]; intros [bestPeer bestDist] r; simpl.
  - eexists _, _. split; [reflexivity|]. now repeat split.
  - destruct (getDist_run (tr_path tr) k r) as (d & r1 & E & _ & Hs & Ht).
    match goal with
    | |- exists best r', (?body ≫= ?k) r = _ /\ _ =>
        assert (Ebody : body r =
                  Done (if d <? bestDist
                        then (fold_left lookup_link ps bestPeer, d)
                        else (bestPeer, bestDist)) r1)
    end.
    { rewrite (bind_Done _ _ _ _ _ E). now destruct (d <? bestDist). }
    destruct (IH (if d <? bestDist
                  then (fold_left lookup_link ps bestPeer, d)
                  else (bestPeer, bestDist)) r1) as (best & r' & E' & Hs' & Ht').
    exists best, r'. rewrite (bind_Done _ _ _ _ _ Ebody).
    split; [exact E'|]. split; [now transitivity r1 | congruence].
Qed.

(** What [_lookup] returns, by the self distance. *)
Lemma lookup_run (tr : traffic) (r : router) :
  exists d r1,
    _getDist (tr_path tr) (selfKey r) r = Done d r1
    /\ 0 <= d < 2 ^ 64
    /\ trace r1 = trace r
    /\ ((tr_watermark tr <= d /\ _lookup tr r = Done (None, tr) r1)
        \/ (d < tr_watermark tr
            /\ exists next r',
                 _lookup tr r
                 = Done (next, {| tr_path := tr_path tr; tr_watermark := d;
                                  tr_source := tr_source tr; tr_dest := tr_dest tr;
                                  tr_payload := tr_payload tr |}) r'
                 /\ trace r' = trace r)).
Proof.
  destruct (getDist_run (tr_path tr) (selfKey r) r) as (d & r1 & E & Hd & Hs & Ht).
  exists d, r1. split; [exact E|]. split; [exact Hd|]. split; [exact Ht|].
  unfold _lookup.
  rewrite (bind_Done get _ r r r eq_refl), (bind_Done _ _ _ _ _ E).
  destruct (Z.ltb_spec d (tr_watermark tr)) as [Hlt | Hge].
  - right. split; [done|].
    set (tr' := {| tr_path := tr_path tr; tr_watermark := d;
                   tr_source := tr_source tr; tr_dest := tr_dest tr;
                   tr_payload := tr_payload tr |}).
    destruct (lookup_fold_run tr' (rpeers r) (None, d) r1)
      as (best & r' & E' & Hs' & Ht').
    exists best.1, r'. split; [|congruence].
    eapply eq_trans; [apply (bind_Done _ _ _ _ _ E') | reflexivity].
  - left. split; [lia | reflexivity].
Qed.

Lemma handleTraffic_hop (tr tr' : traffic) (r r' : router) (p : peer) :
  handleTraffic tr r = Done tt r' ->
  trace r' = trace r ++ [Send p (sendTraffic tr')] ->
  exists r1, _lookup tr r = Done (Some p, tr') r1.
Proof.
  unfold handleTraffic. intros Hrun Htrace.
  apply bind_Done_inv in Hrun as ([next tr1] & r1 & Hl & Hrun).
  assert (Ht1 : trace r1 = trace r).
  { destruct (lookup_run tr r)
      as (d & r0 & _ & _ & Ht0 & [[_ E] | [_ (n & r2 & E & Ht)]]);
      rewrite E in Hl; injection Hl as _ _ <-; done. }
  apply bind_Done_inv in Hrun as (r0 & r0' & Hget & Hrun).
  apply get_inv in Hget as [-> ->].
  exists r1. rewrite Hl. f_equal.
  assert (Hact : forall x y : action, trace r ++ [x] = trace r ++ [y] -> x = y).
  { intros x y Hxy. apply app_inv_head in Hxy. now injection Hxy. }
  destruct next as [q|].
  - unfold emit, modify in Hrun. injection Hrun as <-. cbn in Htrace.
    rewrite Ht1 in Htrace. apply Hact in Htrace. now injection Htrace as -> ->.
  - destruct (decide _); unfold emit, modify in Hrun; injection Hrun as <-;
      cbn in Htrace; rewrite Ht1 in Htrace; apply Hact in Htrace; discriminate.
Qed.


(** C2. [_lookup] returns no peer (and leaves the packet as it is) whenever
    the self distance [_getDist(path, self)] is at least the watermark of
    the packet; and whenever it returns a peer, the packet it hands back
    carries the self distance as its watermark, which is strictly below the
    incoming one.  Hence along every forwarding trajectory the watermarks
    go strictly down and the number of hops is at most the initial
    watermark.  In particular a node at self distance 5 that receives a
    packet with watermark 5 gets no peer from [_lookup] and does not
    forward the packet. *)
Theorem lookup_watermark :
  (forall tr r d r1,
     _getDist (tr_path tr) (selfKey r) r = Done d r1 ->
     tr_watermark tr <= d ->
     _lookup tr r = Done (None, tr) r1)
  /\ (forall tr r p tr' r',
        _lookup tr r = Done (Some p, tr') r' ->
        exists d r1,
          _getDist (tr_path tr) (selfKey r) r = Done d r1
          /\ tr_watermark tr' = d /\ 0 <= d < tr_watermark tr)
  /\ (forall tr hops,
        0 <= tr_watermark tr ->
        trajectory tr hops ->
        decreasing (tr_watermark tr) hops
        /\ Z.of_nat (length hops) <= tr_watermark tr)
  /\ (forall tr r r1,
        tr_watermark tr = 5 ->
        _getDist (tr_path tr) (selfKey r) r = Done 5 r1 ->
        _lookup tr r = Done (None, tr) r1
        /\ forall r' p tr',
             handleTraffic tr r = Done tt r' ->
             trace r' ≠ trace r ++ [Send p (sendTraffic tr')]).
Proof.
  assert (Hnil : forall tr r d r1,
     _getDist (tr_path tr) (selfKey r) r = Done d r1 ->
     tr_watermark tr <= d -> _lookup tr r = Done (None, tr) r1).
  { intros tr r d r1 E Hle.
    destruct (lookup_run tr r) as (d' & r1' & E' & _ & _ & [[_ El] | [Hlt _]]).
    - congruence.
    - rewrite E in E'. injection E' as <- <-. lia. }
  assert (Hsome : forall tr r p tr' r',
        _lookup tr r = Done (Some p, tr') r' ->
        exists d r1,
          _getDist (tr_path tr) (selfKey r) r = Done d r1
          /\ tr_watermark tr' = d /\ 0 <= d < tr_watermark tr).
  { intros tr r p tr' r' El.
    destruct (lookup_run tr r)
      as (d & r1 & E & Hd & _ & [[_ El'] | [Hlt (n & r2 & El' & _)]]);
      rewrite El' in El; [discriminate|].
    injection El as _ <- _. exists d, r1. split; [done|]. split; [done | lia]. }
  split; [exact Hnil|]. split; [exact Hsome|]. split.
  - intros tr hops Hw Htraj. induction Htraj as [tr | tr tr' r r' p rest Hh Ht _ IH].
    + simpl. split; [done | lia].
    + destruct (handleTraffic_hop _ _ _ _ _ Hh Ht) as (r1 & El).
      destruct (Hsome _ _ _ _ _ El) as (d & r2 & _ & Hd & Hlt).
      destruct IH as [Hdec Hlen]; [lia|].
      cbn [decreasing length]. split; [split; [lia | done] | lia].
  - intros tr r r1 Hw E. split; [apply (Hnil tr r 5 r1 E); lia|].
    intros r' p tr' Hh Ht.
    destruct (handleTraffic_hop _ _ _ _ _ Hh Ht) as (r2 & El).
    rewrite (Hnil tr r 5 r1 E) in El by lia. discriminate.
Qed.

End Lookup.

(** Witness for C2: the root [[1]] forwards a packet with watermark 10 at
    self distance 3; the packet leaves with watermark 3. *)
Lemma lookup_watermark_witness :
  let r := exampleRoot linkB linkA in
  exists tr',
    trajectory examplePacket [tr']
    /\ tr_watermark tr' = 3
    /\ decreasing 10 [tr'].
Proof.
  intros r.
  set (tr' := {| tr_path := [7; 9; 3]; tr_watermark := 3; tr_source := [8];
                 tr_dest := [6]; tr_payload := [] |}).
  set (r' := stateOf (handleTraffic examplePacket r) r).
  assert (Htraj : trajectory examplePacket [tr']).
  { apply (trajectory_hop examplePacket tr' r r' linkB []).
    - vm_compute. reflexivity.
    - vm_compute. reflexivity.
    - apply trajectory_end. }
  exists tr'. split; [exact Htraj|]. split; [reflexivity|].
  destruct lookup_watermark as (_ & _ & Hdec & _).
  destruct (Hdec examplePacket [tr']) as [Hd _]; [vm_compute; discriminate | exact Htraj|].
  exact Hd.
Defined.

(** ** The choice among parallel links *)

(** C7, at the failing inputs.  The root [[1]] of the tree
    [1] -7-> [2] -9-> [4] forwards a packet with path [7; 9; 3].

    (a) It has two links to [[2]]: [linkA] (prio 2, up since 1) and [linkB]
    (prio 1, up since 5).  When [range] visits [linkA] first, [_lookup]
    returns [linkA], the link with the higher prio value: [linkB] is
    skipped by the time comparison, which is made whatever the prios are.
    When [range] visits [linkB] first, [linkB] is returned.

    (b) It has a link [linkC] to [[2]] (prio 1, distance 2) and a link
    [linkD] to [[4]] (prio 2, distance 1).  When [range] visits [[2]]
    first, [_lookup] returns [linkC]: the only link of the closer key
    [[4]] is compared with the link kept from [[2]] and skipped. *)
Theorem lookup_link_choice :
  let sent := {| tr_path := [7; 9; 3]; tr_watermark := 3; tr_source := [8];
                 tr_dest := [6]; tr_payload := [] |} in
  (rpeers (exampleRoot linkA linkB) = [([2], [linkA; linkB])]
   /\ peer_prio linkB < peer_prio linkA
   /\ exists r', _lookup examplePacket (exampleRoot linkA linkB)
                 = Done (Some linkA, sent) r')
  /\ (rpeers (exampleRoot linkB linkA) = [([2], [linkB; linkA])]
      /\ exists r', _lookup examplePacket (exampleRoot linkB linkA)
                    = Done (Some linkB, sent) r')
  /\ (rpeers (exampleRoot linkC linkD) = [([2], [linkC]); ([4], [linkD])]
      /\ (exists r', _getDist [7; 9; 3] [2] (exampleRoot linkC linkD) = Done 2 r')
      /\ (exists r', _getDist [7; 9; 3] [4] (exampleRoot linkC linkD) = Done 1 r')
      /\ exists r', _lookup examplePacket (exampleRoot linkC linkD)
                    = Done (Some linkC, sent) r').
Proof.
  intros sent. repeat split; try (vm_compute; reflexivity);
    eexists; vm_compute; reflexivity.
Qed.

(** ** Bits of a key *)

Section KeyBitsFacts.
Context `{Sizes}.





End KeyBitsFacts.

(** ** Merkle requests *)

Section MerkleReq.
Context `{Env}.






End MerkleReq.

(** ** The tree layer: byte order and traffic codecs *)

Section BigEndianFacts.

Lemma putUint64_length (v : Z) : length (putUint64 v) = 8%nat.
Proof. reflexivity. Qed.

Lemma byte_step (v k k' : Z) :
  0 <= k -> k' = k + 8 ->
  (v / 2 ^ k') * 256 + (v / 2 ^ k) mod 256 = v / 2 ^ k.
Proof.
  intros Hk ->. rewrite Z.pow_add_r by lia. change (2 ^ 8) with 256.
  rewrite <- Z.div_div by lia.
  pose proof (Z.div_mod (v / 2 ^ k) 256 ltac:(lia)). lia.
Qed.

Lemma getUint64_putUint64 (v : Z) (rest : list Z) :
  uint64 v -> getUint64 (putUint64 v ++ rest) = v.
Proof.
  unfold uint64, getUint64, putUint64. intros Hv. cbn [app take fold_left].
  assert (H56 : (v / 2 ^ 56) mod 256 = v / 2 ^ 56).
  { apply Z.mod_small. split; [apply Z.div_pos; lia|].
    apply Z.div_lt_upper_bound; lia. }
  rewrite H56. rewrite Z.mul_0_l, Z.add_0_l.
  rewrite (byte_step v 48 56), (byte_step v 40 48), (byte_step v 32 40),
    (byte_step v 24 32), (byte_step v 16 24), (byte_step v 8 16) by lia.
  pose proof (byte_step v 0 8 ltac:(lia) ltac:(lia)) as H0.
  change (2 ^ 0) with 1 in H0. now rewrite Z.div_1_r in H0.
Qed.

Lemma byte_digit (hi lo k : Z) :
  0 <= k -> 0 <= lo < 2 ^ k -> (hi * 2 ^ k + lo) / 2 ^ k = hi.
Proof.
  intros Hk Hlo. rewrite Z.add_comm, Z.div_add by lia.
  rewrite Z.div_small by lia. lia.
Qed.

Lemma putUint64_getUint64 (bs : list Z) :
  length bs = 8%nat -> bytes_ok bs -> putUint64 (getUint64 bs) = bs.
Proof.
  intros Hlen Hb.
  do 9 (destruct bs as [|? bs]; try discriminate Hlen).
  unfold bytes_ok in Hb. repeat (apply Forall_cons in Hb as [? Hb]).
  unfold getUint64, putUint64. cbn [take fold_left].
  rewrite Z.mul_0_l, Z.add_0_l.
  repeat f_equal.
  - replace (_ + z6) with (z * 2 ^ 56 + (z0 * 2 ^ 48 + z1 * 2 ^ 40 + z2 * 2 ^ 32
      + z3 * 2 ^ 24 + z4 * 2 ^ 16 + z5 * 2 ^ 8 + z6)) by lia.
    rewrite byte_digit by lia. apply Z.mod_small; lia.
  - replace (_ + z6) with ((z * 256 + z0) * 2 ^ 48 + (z1 * 2 ^ 40 + z2 * 2 ^ 32
      + z3 * 2 ^ 24 + z4 * 2 ^ 16 + z5 * 2 ^ 8 + z6)) by lia.
    rewrite byte_digit by lia. rewrite Z.add_comm, Z.mod_add by lia.
    apply Z.mod_small; lia.
  - replace (_ + z6) with (((z * 256 + z0) * 256 + z1) * 2 ^ 40 + (z2 * 2 ^ 32
      + z3 * 2 ^ 24 + z4 * 2 ^ 16 + z5 * 2 ^ 8 + z6)) by lia.
    rewrite byte_digit by lia. rewrite Z.add_comm, Z.mod_add by lia.
    apply Z.mod_small; lia.
  - replace (_ + z6) with ((((z * 256 + z0) * 256 + z1) * 256 + z2) * 2 ^ 32
      + (z3 * 2 ^ 24 + z4 * 2 ^ 16 + z5 * 2 ^ 8 + z6)) by lia.
    rewrite byte_digit by lia. rewrite Z.add_comm, Z.mod_add by lia.
    apply Z.mod_small; lia.
  - replace (_ + z6) with (((((z * 256 + z0) * 256 + z1) * 256 + z2) * 256 + z3)
      * 2 ^ 24 + (z4 * 2 ^ 16 + z5 * 2 ^ 8 + z6)) by lia.
    rewrite byte_digit by lia. rewrite Z.add_comm, Z.mod_add by lia.
    apply Z.mod_small; lia.
  - replace (_ + z6) with ((((((z * 256 + z0) * 256 + z1) * 256 + z2) * 256 + z3)
      * 256 + z4) * 2 ^ 16 + (z5 * 2 ^ 8 + z6)) by lia.
    rewrite byte_digit by lia. rewrite Z.add_comm, Z.mod_add by lia.
    apply Z.mod_small; lia.
  - replace (_ + z6) with (((((((z * 256 + z0) * 256 + z1) * 256 + z2) * 256 + z3)
      * 256 + z4) * 256 + z5) * 2 ^ 8 + z6) by lia.
    rewrite byte_digit by lia. rewrite Z.add_comm, Z.mod_add by lia.
    apply Z.mod_small; lia.
  - rewrite Z.add_comm, Z.mod_add by lia. apply Z.mod_small; lia.
Qed.

Lemma getUint64_bound (bs : list Z) :
  bytes_ok bs -> uint64 (getUint64 bs).
Proof.
  intros Hb. unfold getUint64, uint64.
  assert (Hgen : forall (l : list Z) acc n,
    Forall (fun b => 0 <= b < 256) l -> 0 <= acc < 256 ^ n -> 0 <= n ->
    0 <= fold_left (fun a x => a * 256 + x) l acc < 256 ^ (n + Z.of_nat (length l))).
  { induction l as [|x l IH]; intros acc n Hl Hacc Hn; cbn [fold_left length].
    - now rewrite Z.add_0_r.
    - apply Forall_cons in Hl as [Hx Hl].
      replace (n + Z.of_nat (S (length l))) with ((n + 1) + Z.of_nat (length l)) by lia.
      apply IH; [done | | lia].
      rewrite Z.pow_add_r by lia. change (256 ^ 1) with 256. nia. }
  specialize (Hgen (take 8 bs) 0 0).
  assert (Hlen : (length (take 8 bs) <= 8)%nat) by (rewrite length_take; lia).
  destruct Hgen as [Hlo Hhi]; [by apply Forall_take | lia | lia |].
  split; [done|].
  eapply Z.lt_le_trans; [exact Hhi|].
  change (2 ^ 64) with (256 ^ 8). apply Z.pow_le_mono_r; lia.
Qed.

Lemma getUint64_putUint64_nil (v : Z) :
  uint64 v -> getUint64 (putUint64 v) = v.
Proof.
  intros Hv. rewrite <- (getUint64_putUint64 v [] Hv) at 2.
  now rewrite app_nil_r.
Qed.

End BigEndianFacts.

Section TrafficCodec.
Context `{Sizes}.

Lemma wireChopSlice_Some (n : nat) (data : list Z) :
  (n <= length data)%nat ->
  wireChopSlice n data = Some (take n data, drop n data).
Proof.
  intros Hn. unfold wireChopSlice.
  destruct (Nat.ltb_spec (length data) n); [lia | done].
Qed.

Lemma wireChopSlice_None (n : nat) (data : list Z) :
  (length data < n)%nat -> wireChopSlice n data = None.
Proof.
  intros Hn. unfold wireChopSlice.
  destruct (Nat.ltb_spec (length data) n); [done | lia].
Qed.

Lemma wireChopSlice_inv (n : nat) (data x rest : list Z) :
  wireChopSlice n data = Some (x, rest) ->
  data = x ++ rest /\ length x = n.
Proof.
  unfold wireChopSlice.
  destruct (Nat.ltb_spec (length data) n) as [|Hn]; [done|].
  intros [= <- <-]. split; [now rewrite take_drop|].
  rewrite length_take. lia.
Qed.

Lemma dhtWatermark_chop_spec (data : list Z) :
  dhtWatermark_chop data =
    if (length data <? publicKeySize + 8)%nat then None
    else Some ({| mark_key := take publicKeySize data;
                  mark_seq := getUint64 (take 8 (drop publicKeySize data)) |},
               drop (publicKeySize + 8) data).
Proof.
  unfold dhtWatermark_chop, dhtWatermark_decode.
  destruct (Nat.ltb_spec (length data) (publicKeySize + 8)) as [Hlt | Hge].
  - destruct (Nat.lt_ge_cases (length data) publicKeySize) as [Hk | Hk].
    + now rewrite wireChopSlice_None.
    + rewrite wireChopSlice_Some by done.
      destruct (Nat.ltb_spec (length (drop publicKeySize data)) 8) as [|H8];
        [done|]. rewrite length_drop in H8. lia.
  - rewrite wireChopSlice_Some by lia.
    destruct (Nat.ltb_spec (length (drop publicKeySize data)) 8) as [H8|];
      [|done]. rewrite length_drop in H8. lia.
Qed.

Lemma baseTraffic_decode_spec (data : list Z) :
  baseTraffic_decode data =
    if (length data <? 2 * publicKeySize + 1)%nat then None
    else Some {| bt_source := take publicKeySize data;
                 bt_dest := take publicKeySize (drop publicKeySize data);
                 bt_kind := default 0 (data !! (2 * publicKeySize)%nat);
                 bt_payload := drop (2 * publicKeySize + 1) data |}.
Proof.
  unfold baseTraffic_decode.
  destruct (Nat.ltb_spec (length data) (2 * publicKeySize + 1)) as [Hlt | Hge].
  - destruct (Nat.lt_ge_cases (length data) publicKeySize) as [Hk | Hk].
    { now rewrite wireChopSlice_None. }
    rewrite wireChopSlice_Some by done.
    destruct (Nat.lt_ge_cases (length (drop publicKeySize data)) publicKeySize)
      as [Hk2 | Hk2].
    { now rewrite wireChopSlice_None. }
    rewrite wireChopSlice_Some by done.
    destruct (drop publicKeySize (drop publicKeySize data)) eqn:E; [done|].
    apply (f_equal length) in E. rewrite !length_drop in E. simpl in E. lia.
  - rewrite wireChopSlice_Some by lia.
    rewrite wireChopSlice_Some by (rewrite length_drop; lia).
    rewrite drop_drop.
    replace (publicKeySize + publicKeySize)%nat with (2 * publicKeySize)%nat by lia.
    destruct (drop (2 * publicKeySize) data) as [|kind payload] eqn:E.
    { apply (f_equal length) in E. rewrite length_drop in E. simpl in E. lia. }
    f_equal. f_equal.
    + rewrite <- (Nat.add_0_r (2 * publicKeySize)), <- lookup_drop.
      now rewrite E.
    + rewrite <- drop_drop. now rewrite E.
Qed.

(** X10. The codec of [dhtTraffic]: encoding a well-formed packet and
    decoding the bytes gives the packet back; decoding succeeds exactly
    on inputs of at least three keys and nine bytes; and a decoded packet
    is well formed and encodes to the bytes it came from (every byte
    after the fixed header is payload). *)
Theorem dhtTraffic_codec :
  (forall t, dhtTraffic_wf t ->
     dhtTraffic_decode (dhtTraffic_encode t []) = Some t)
  /\ (forall data,
        is_Some (dhtTraffic_decode data)
        <-> (3 * publicKeySize + 9 <= length data)%nat)
  /\ (forall data t, bytes_ok data -> dhtTraffic_decode data = Some t ->
        dhtTraffic_wf t /\ dhtTraffic_encode t [] = data).
Proof.
  split; [|split].
  - intros [[mk ms] [src dst kind payload]] (Hmk & Hms & Hsrc & Hdst).
    simpl in *. unfold dhtTraffic_decode, dhtTraffic_encode, baseTraffic_encode.
    cbn [dt_base dt_mark mark_key mark_seq bt_source bt_dest bt_kind bt_payload app].
    set (tail := src ++ dst ++ kind :: payload).
    assert (Htail : length tail = (2 * publicKeySize + 1 + length payload)%nat).
    { unfold tail. rewrite !length_app. simpl. lia. }
    replace ((mk ++ putUint64 ms) ++ tail) with (mk ++ putUint64 ms ++ tail)
      by now rewrite app_assoc.
    rewrite dhtWatermark_chop_spec.
    destruct (Nat.ltb_spec (length (mk ++ putUint64 ms ++ tail))
                (publicKeySize + 8)) as [Hlt|_].
    { rewrite !length_app, putUint64_length in Hlt. lia. }
    rewrite (take_app_length' mk) by lia.
    rewrite (drop_app_length' mk _ publicKeySize) by lia.
    rewrite (take_app_length' (putUint64 ms)) by (rewrite putUint64_length; lia).
    rewrite (app_assoc mk).
    rewrite (drop_app_length' (mk ++ putUint64 ms) _ (publicKeySize + 8))
      by (rewrite length_app, putUint64_length; lia).
    rewrite getUint64_putUint64_nil by done.
    rewrite baseTraffic_decode_spec.
    destruct (Nat.ltb_spec (length tail) (2 * publicKeySize + 1)) as [Hlt|_];
      [lia|].
    unfold tail.
    rewrite (take_app_length' src) by lia.
    rewrite (drop_app_length' src) by lia.
    rewrite (take_app_length' dst) by lia.
    f_equal. f_equal. f_equal.
    + rewrite lookup_app_r by lia. rewrite lookup_app_r by lia.
      replace (2 * publicKeySize - length src - length dst)%nat with 0%nat by lia.
      done.
    + rewrite (app_assoc src dst).
      replace (2 * publicKeySize + 1)%nat with (S (length (src ++ dst)))
        by (rewrite length_app; lia).
      rewrite <- (Nat.add_1_r (length (src ++ dst))), <- drop_drop.
      now rewrite drop_app_length.
  - intros data. unfold dhtTraffic_decode.
    rewrite dhtWatermark_chop_spec.
    destruct (Nat.ltb_spec (length data) (publicKeySize + 8)) as [Hlt | Hge].
    { split; [intros [? [=]] | lia]. }
    rewrite baseTraffic_decode_spec, length_drop.
    destruct (Nat.ltb_spec (length data - (publicKeySize + 8))
                (2 * publicKeySize + 1)) as [Hlt2 | Hge2].
    + split; [intros [? [=]] | lia].
    + split; [lia | eauto].
  - intros data t Hb. unfold dhtTraffic_decode.
    rewrite dhtWatermark_chop_spec.
    destruct (Nat.ltb_spec (length data) (publicKeySize + 8)) as [|Hge]; [done|].
    rewrite baseTraffic_decode_spec, length_drop.
    destruct (Nat.ltb_spec (length data - (publicKeySize + 8))
                (2 * publicKeySize + 1)) as [|Hge2]; [done|].
    intros [= <-]. split.
    + unfold dhtTraffic_wf. cbn.
      rewrite !length_take, !length_drop.
      split; [lia|]. split; [|lia].
      apply getUint64_bound. apply Forall_take, Forall_drop, Hb.
    + unfold dhtTraffic_encode, baseTraffic_encode. cbn.
      rewrite putUint64_getUint64.
      2:{ rewrite length_take, length_drop. lia. }
      2:{ apply Forall_take, Forall_drop, Hb. }
      set (d1 := drop publicKeySize data).
      set (d2 := drop (publicKeySize + 8) data).
      assert (E1 : data = take publicKeySize data ++ d1)
        by (symmetry; apply take_drop).
      assert (E2 : d1 = take 8 d1 ++ d2).
      { unfold d2, d1. rewrite <- drop_drop. symmetry. apply take_drop. }
      assert (E3 : d2 = take publicKeySize d2 ++ drop publicKeySize d2)
        by (symmetry; apply take_drop).
      assert (E4 : drop publicKeySize d2
                   = take publicKeySize (drop publicKeySize d2)
                     ++ drop (2 * publicKeySize) d2).
      { replace (2 * publicKeySize)%nat with (publicKeySize + publicKeySize)%nat by lia.
        rewrite <- drop_drop. symmetry. apply take_drop. }
      assert (E5 : drop (2 * publicKeySize) d2
                   = default 0 (d2 !! (2 * publicKeySize)%nat)
                     :: drop (2 * publicKeySize + 1) d2).
      { destruct (d2 !! (2 * publicKeySize)%nat) as [x|] eqn:Ex.
        - rewrite (drop_S _ _ _ Ex). simpl. f_equal. f_equal. lia.
        - apply lookup_ge_None in Ex. unfold d2 in Ex.
          rewrite length_drop in Ex. lia. }
      change (publicKeySize + (publicKeySize + 0))%nat with (2 * publicKeySize)%nat.
      rewrite <- E5, <- E4, <- E3, <- app_assoc, <- E2. now rewrite <- E1.
Qed.

End TrafficCodec.

(** Witness for the [dhtTraffic] codec at the Ed25519 sizes. *)
Lemma dhtTraffic_codec_witness :
  let t := {| dt_mark := {| mark_key := replicate 32 7; mark_seq := 2 ^ 40 + 5 |};
              dt_base := {| bt_source := replicate 32 1; bt_dest := replicate 32 2;
                            bt_kind := 1; bt_payload := [10; 20; 30] |} |} in
  @dhtTraffic_decode ed25519_sizes (dhtTraffic_encode t []) = Some t
  /\ (3 * 32 + 9 <= length (dhtTraffic_encode t []))%nat.
Proof.
  intros t.
  destruct (@dhtTraffic_codec ed25519_sizes) as (H1 & H2 & _).
  assert (W : @dhtTraffic_wf ed25519_sizes t).
  { unfold dhtTraffic_wf, uint64. simpl. lia. }
  split; [exact (H1 t W)|].
  apply (proj1 (H2 (dhtTraffic_encode t []))). rewrite (H1 t W). eauto.
Defined.

(** ** The tree layer: the codec of [treeInfo] *)

Section TreeInfoCodec.
Context `{Sizes}.

Lemma uvarint_cons (i : nat) (s x b : Z) (rest : list Z) :
  uvarint i s x (b :: rest) =
    if (i =? 10)%nat then None
    else if b <? 128 then
      if (i =? 9)%nat && (1 <? b) then None
      else Some (Z.lor x (Z.shiftl b s), rest)
    else uvarint (S i) (s + 7) (Z.lor x (Z.shiftl (Z.land b 127) s)) rest.
Proof. reflexivity. Qed.

Lemma uvarint_shorter (buf : list Z) :
  forall i s x u rest,
    uvarint i s x buf = Some (u, rest) -> (length rest < length buf)%nat.
Proof.
  induction buf as [|b buf IH]; intros i s x u rest; [done|].
  rewrite uvarint_cons.
  destruct (i =? 10)%nat; [done|].
  destruct (b <? 128).
  - destruct ((i =? 9)%nat && (1 <? b)); [done|].
    intros [= _ <-]. simpl. lia.
  - intros Hu. apply IH in Hu. simpl. lia.
Qed.

Lemma wireChopUint_shorter (data : list Z) (u : Z) (rest : list Z) :
  wireChopUint data = Some (u, rest) -> (length rest < length data)%nat.
Proof. apply uvarint_shorter. Qed.

Lemma putUvarint_nonempty (fuel : nat) (u : Z) : putUvarint fuel u ≠ [].
Proof.
  destruct fuel; unfold putUvarint; [done|]. now destruct (128 <=? u).
Qed.

(** The hop loop of [treeInfo.decode] leaves within [length data]
    iterations. *)
Lemma treeInfo_decode_hops_total (fuel : nat) :
  forall data hops,
    (length data <= fuel)%nat ->
    is_Some (treeInfo_decode_hops fuel data hops).
Proof.
  induction fuel as [|fuel IH]; intros data hops Hlen.
  - destruct data; [simpl; eauto | simpl in Hlen; lia].
  - destruct data as [|b data]; [simpl; eauto|].
    cbn [treeInfo_decode_hops].
    destruct (wireChopSlice publicKeySize (b :: data)) as [[next d1]|] eqn:E1;
      [|eauto].
    destruct (wireChopUint d1) as [[port d2]|] eqn:E2; [|eauto].
    destruct (wireChopSlice signatureSize d2) as [[sig d3]|] eqn:E3; [|eauto].
    apply IH.
    apply wireChopSlice_inv in E1 as [E1 _].
    apply wireChopUint_shorter in E2.
    apply wireChopSlice_inv in E3 as [E3 _].
    apply (f_equal length) in E1, E3. rewrite length_app in E1, E3.
    simpl in E1, Hlen. lia.
Qed.

(** The bytes of the hops of an ancestry. *)
Lemma treeHops_encode_app (hops : list treeHop) :
  forall out,
    fold_left treeHop_encode hops out
    = out ++ fold_left treeHop_encode hops [].
Proof.
  induction hops as [|hop hops IH] using rev_ind; intros out.
  - simpl. now rewrite app_nil_r.
  - rewrite !fold_left_app. cbn [fold_left].
    rewrite (IH out). unfold treeHop_encode, wireEncodeUint, wireAppendUint.
    now rewrite <- !app_assoc.
Qed.

Lemma treeInfo_decode_hops_encode (hops : list treeHop) :
  forall fuel acc,
    Forall treeHop_wf hops ->
    (length (fold_left treeHop_encode hops []) <= fuel)%nat ->
    treeInfo_decode_hops fuel (fold_left treeHop_encode hops []) acc
    = Some (Some (acc ++ hops)).
Proof.
  induction hops as [|hop hops IH]; intros fuel acc Hwf Hfuel.
  - simpl. rewrite app_nil_r. now destruct fuel.
  - apply Forall_cons in Hwf as [(Hn & Hp & Hs) Hwf].
    destruct hop as [nx pt sg]. cbn [hop_next hop_port hop_sig] in *.
    cbn [fold_left] in *. rewrite treeHops_encode_app in *.
    unfold treeHop_encode at 1 in Hfuel. unfold treeHop_encode at 1.
    unfold wireEncodeUint, wireAppendUint in *.
    cbn [app hop_next hop_port hop_sig] in *.
    set (tl := fold_left treeHop_encode hops []) in *.
    rewrite <- !app_assoc in *.
    destruct (nx ++ putUvarint 9 pt ++ sg ++ tl)
      as [|b data] eqn:E.
    { apply (f_equal length) in E. rewrite !length_app in E.
      pose proof (putUvarint_nonempty 9 pt) as Hne.
      destruct (putUvarint 9 pt); [done|]. simpl in E. lia. }
    destruct fuel as [|fuel]; [simpl in Hfuel; lia|].
    cbn [treeInfo_decode_hops]. rewrite <- E.
    rewrite wireChopSlice_append by done.
    rewrite wireChopUint_append by done.
    rewrite wireChopSlice_append by done.
    rewrite IH; [now rewrite <- app_assoc | done |].
    fold tl. rewrite <- E in Hfuel. rewrite !length_app in Hfuel.
    pose proof (putUvarint_nonempty 9 pt) as Hne.
    destruct (putUvarint 9 pt); [done|]. simpl in Hfuel. lia.
Qed.

(** X11. The codec of [treeInfo]: decoding always terminates
    within its fuel; input shorter than a key and a sequence number is a
    decode error; and the encoding of a well-formed ancestry decodes to
    the same ancestry, with the two fields that are not serialized
    ([time], [hseq]) zero. *)
Theorem treeInfo_codec :
  (forall data, is_Some (treeInfo_decode data))
  /\ (forall data, (length data < publicKeySize + 8)%nat ->
        treeInfo_decode data = Some None)
  /\ (forall info, treeInfo_wf info ->
        treeInfo_decode (treeInfo_encode info []) = Some (Some (unstamped info))).
Proof.
  split; [|split].
  - intros data. unfold treeInfo_decode.
    destruct (wireChopSlice publicKeySize data) as [[root d1]|]; [|eauto].
    destruct (8 <=? length d1)%nat; [|eauto].
    destruct (treeInfo_decode_hops_total (length (drop 8 d1)) (drop 8 d1) [])
      as [[hops|] ->]; eauto.
  - intros data Hlen. unfold treeInfo_decode.
    destruct (wireChopSlice publicKeySize data) as [[root d1]|] eqn:E1; [|done].
    apply wireChopSlice_inv in E1 as [E1 Hr].
    apply (f_equal length) in E1. rewrite length_app in E1.
    destruct (Nat.leb_spec 8 (length d1)); [lia | done].
  - intros [tm hs root sq hops] (Hroot & Hseq & Hhops). simpl in *.
    unfold treeInfo_decode, treeInfo_encode, unstamped.
    cbn [ti_root ti_seq ti_hops app].
    rewrite treeHops_encode_app, <- app_assoc.
    rewrite wireChopSlice_append by done.
    set (tl := fold_left treeHop_encode hops []).
    destruct (Nat.leb_spec 8 (length (putUint64 sq ++ tl))) as [_|Hlt].
    2:{ rewrite length_app, putUint64_length in Hlt. lia. }
    rewrite (take_app_length' (putUint64 sq)) by done.
    rewrite (drop_app_length' (putUint64 sq)) by done.
    rewrite getUint64_putUint64_nil by done.
    unfold tl. now rewrite treeInfo_decode_hops_encode.
Qed.

End TreeInfoCodec.

(** Witness for the [treeInfo] codec at the Ed25519 sizes: a root
    announcement extended by two hops. *)
Lemma treeInfo_codec_witness :
  let info := {| ti_time := 77; ti_hseq := 3; ti_root := replicate 32 1;
                 ti_seq := 1700000000;
                 ti_hops := [ {| hop_next := replicate 32 2; hop_port := 1;
                                 hop_sig := replicate 64 9 |};
                              {| hop_next := replicate 32 3; hop_port := 300;
                                 hop_sig := replicate 64 8 |} ] |} in
  @treeInfo_decode ed25519_sizes (treeInfo_encode info [])
  = Some (Some (unstamped info))
  /\ @treeInfo_decode ed25519_sizes (replicate 39 0) = Some None.
Proof.
  intros info.
  destruct (@treeInfo_codec ed25519_sizes) as (_ & H2 & H3).
  split.
  - apply H3. split; [reflexivity|]. split; [unfold uint64; simpl; lia|].
    repeat constructor; unfold uint64; simpl; lia.
  - apply H2. simpl. lia.
Defined.

(** ** The tree layer: order, loops, signatures, distance *)

(** X12. [treeLess] is a strict total order on the keys:
    irreflexive, asymmetric and transitive, and any two different keys (of
    the one length keys have) are ordered one way or the other. *)
Theorem treeLess_strict_total_order :
  (forall k, treeLess k k = false)
  /\ (forall k1 k2, treeLess k1 k2 = true -> treeLess k2 k1 = false)
  /\ (forall k1 k2 k3,
        treeLess k1 k2 = true -> treeLess k2 k3 = true -> treeLess k1 k3 = true)
  /\ (forall k1 k2, length k1 = length k2 -> k1 ≠ k2 ->
        treeLess k1 k2 = true \/ treeLess k2 k1 = true).
Proof.
  split; [exact treeLess_irrefl|]. split; [exact treeLess_asym|].
  split; [exact treeLess_trans|].
  intros k1 k2 Hlen Hne.
  destruct (treeLess k1 k2) eqn:E1; [now left|].
  destruct (treeLess k2 k1) eqn:E2; [now right|].
  destruct Hne. now apply treeLess_total.
Qed.

(** Witness: three 32-byte keys that differ in their last byte. *)
Lemma treeLess_strict_total_order_witness :
  let k1 := replicate 31 0 ++ [1] in
  let k2 := replicate 31 0 ++ [2] in
  let k3 := replicate 31 0 ++ [200] in
  treeLess k1 k3 = true /\ treeLess k3 k1 = false
  /\ (treeLess k2 k3 = true \/ treeLess k3 k2 = true).
Proof.
  intros k1 k2 k3.
  destruct treeLess_strict_total_order as (_ & Hasym & Htrans & Htot).
  assert (H13 : treeLess k1 k3 = true).
  { apply (Htrans k1 k2 k3); reflexivity. }
  split; [exact H13|]. split; [exact (Hasym k1 k3 H13)|].
  apply Htot; [reflexivity | discriminate].
Defined.

Section TreeInfoFacts.
Context `{Env}.

Lemma checkLoops_loop_spec (hops : list treeHop) :
  forall key keys,
    checkLoops_loop key keys hops = true
    <-> NoDup (key :: map hop_next hops)
        /\ (forall k, k ∈ key :: map hop_next hops -> k ∉ keys).
Proof.
  induction hops as [|hop hops IH]; intros key keys; cbn [checkLoops_loop map].
  - rewrite negb_true_iff, bool_decide_eq_false. split.
    + intros Hk. split; [apply NoDup_singleton|].
      intros k Hin. apply list_elem_of_singleton in Hin. now subst.
    + intros [_ Hk]. apply Hk. apply list_elem_of_here.
  - case_bool_decide as Hin.
    + split; [done|]. intros [_ Hk]. destruct (Hk key); [apply list_elem_of_here | done].
    + rewrite IH. split.
      * intros [Hnd Hk]. split.
        -- apply NoDup_cons. split; [|done].
           intros Hkey. apply Hk in Hkey.
           apply not_elem_of_union in Hkey as [_ Hkey].
           now apply Hkey, elem_of_singleton.
        -- intros k [->|Hk2]%elem_of_cons; [done|].
           apply Hk in Hk2. now apply not_elem_of_union in Hk2 as [Hk2 _].
      * intros [Hnd Hk]. apply NoDup_cons in Hnd as [Hkey Hnd].
        split; [done|]. intros k Hk2.
        apply not_elem_of_union. split.
        -- apply Hk. now apply list_elem_of_further.
        -- intros ->%elem_of_singleton. done.
Qed.

(** X13. [treeInfo.checkLoops] accepts an ancestry exactly when
    no key occurs twice among the root and the nodes of its hops. *)
Theorem treeInfo_checkLoops_NoDup (info : treeInfo) :
  treeInfo_checkLoops info = true
  <-> NoDup (ti_root info :: map hop_next (ti_hops info)).
Proof.
  unfold treeInfo_checkLoops. rewrite checkLoops_loop_spec.
  split; [now intros [? _] | intros Hnd; split; [done|]].
  intros k _. apply not_elem_of_empty.
Qed.

Lemma last_cons_cons {A : Type} (x : A) (l : list A) :
  last (x :: l) = match l with [] => Some x | _ :: _ => last l end.
Proof. now destruct l. Qed.

Lemma treeInfo_dest_last (info : treeInfo) :
  treeInfo_dest info = default (ti_root info) (hop_next <$> last (ti_hops info)).
Proof. unfold treeInfo_dest. now destruct (last (ti_hops info)). Qed.

(** The last hop is signed by the node the ancestry ended at before. *)
Lemma checkSigs_loop_snoc (hops : list treeHop) (hop : treeHop) :
  forall key bs,
    checkSigs_loop key bs (hops ++ [hop])
    = checkSigs_loop key bs hops
      && verify (default key (hop_next <$> last hops))
           (sigBytes_step (fold_left sigBytes_step hops bs) hop) (hop_sig hop).
Proof.
  induction hops as [|h hops IH]; intros key bs; cbn [app checkSigs_loop fold_left].
  - simpl. now destruct (verify _ _ _).
  - destruct (verify key (sigBytes_step bs h) (hop_sig h)); cbn [negb]; [|done].
    rewrite IH, last_cons_cons. destruct hops as [|t hops]; [reflexivity|].
    destruct (last (t :: hops)) eqn:El; [reflexivity|].
    now apply last_None in El.
Qed.

(** X14. [treeInfo.add] extends a signed ancestry to a signed one: if
    the ancestry has no hops yet or passes [checkSigs], and [priv] is the
    private key of the node it ends at, then the extended ancestry passes
    [checkSigs], ends at the new peer, comes from the node the old one
    ended at, and keeps root and sequence number. *)
Theorem treeInfo_add_signed (info : treeInfo) (priv : list Z) (next : peer) :
  (forall bs, verify (treeInfo_dest info) bs (sign priv bs) = true) ->
  ti_hops info = [] \/ treeInfo_checkSigs info = true ->
  treeInfo_checkSigs (treeInfo_add info priv next) = true
  /\ treeInfo_dest (treeInfo_add info priv next) = peer_key next
  /\ treeInfo_from (treeInfo_add info priv next) = treeInfo_dest info
  /\ ti_root (treeInfo_add info priv next) = ti_root info
  /\ ti_seq (treeInfo_add info priv next) = ti_seq info.
Proof.
  intros Hkey Hold. split; [|split; [|split; [|done]]].
  - unfold treeInfo_checkSigs, treeInfo_add. cbn [ti_hops ti_root ti_seq].
    rewrite length_app. cbn [length].
    destruct (Nat.eqb_spec (length (ti_hops info) + 1) 0) as [|_]; [lia|].
    rewrite checkSigs_loop_snoc. cbn [hop_sig].
    apply andb_true_intro. split.
    + destruct Hold as [-> | Hold]; [done|].
      unfold treeInfo_checkSigs in Hold.
      now destruct (length (ti_hops info) =? 0)%nat.
    + rewrite <- treeInfo_dest_last. apply Hkey.
  - unfold treeInfo_dest, treeInfo_add. cbn [ti_hops]. now rewrite last_snoc.
  - unfold treeInfo_from, treeInfo_add. cbn [ti_hops ti_root].
    rewrite length_app. cbn [length].
    rewrite treeInfo_dest_last, last_lookup.
    destruct (ti_hops info) as [|h hops] eqn:E; [done|].
    cbn [length].
    destruct (Nat.ltb_spec 1 (S (length hops) + 1)) as [_|]; [|lia].
    replace (S (length hops) + 1 - 2)%nat with (length hops) by lia.
    cbn [pred]. rewrite lookup_app_l by (simpl; lia).
    destruct ((h :: hops) !! length hops) eqn:El; [done|].
    apply lookup_ge_None in El. simpl in El. lia.
Qed.

(** *** Distance *)

Lemma dist_loop_spec (hops : list treeHop) :
  forall path idx,
    dist_loop hops path idx (idx - 1)
    = idx - 1 + Z.of_nat (common_prefix_length (map hop_port hops) path).
Proof.
  induction hops as [|hop hops IH]; intros [|port path] idx;
    cbn [dist_loop map common_prefix_length]; try lia.
  case_bool_decide as Hp.
  - rewrite decide_False by done. lia.
  - rewrite decide_True by done.
    replace idx with (idx + 1 - 1) at 2 by lia. rewrite IH. lia.
Qed.

Lemma common_prefix_length_le (p q : list Z) :
  (common_prefix_length p q <= length p)%nat
  /\ (common_prefix_length p q <= length q)%nat.
Proof.
  revert q. induction p as [|a p IH]; intros [|b q]; simpl; try lia.
  destruct (decide (a = b)); [|lia]. destruct (IH q). lia.
Qed.

Lemma common_prefix_length_full (p q : list Z) :
  common_prefix_length p q = length p -> length p = length q -> p = q.
Proof.
  revert q. induction p as [|a p IH]; intros [|b q]; simpl; try done.
  destruct (decide (a = b)) as [->|]; [|done].
  intros [=] [=]. f_equal. now apply IH.
Qed.

Lemma common_prefix_length_refl (p : list Z) :
  common_prefix_length p p = length p.
Proof.
  induction p as [|a p IH]; simpl; [done|]. rewrite decide_True by done.
  now rewrite IH.
Qed.

(** X15. [treeInfo.dist]: against a label of another root the
    distance is the largest [int]; against a label of the same root it is
    the number of hops of the ancestry plus the length of the label's
    path minus twice the number of leading ports they share.  It is never
    negative, and it is zero exactly when the ports of the ancestry are
    the path of the label. *)
Theorem treeInfo_dist_spec (info : treeInfo) (dest : treeLabel) :
  (ti_root info ≠ label_root dest -> treeInfo_dist info dest = maxInt)
  /\ (ti_root info = label_root dest ->
      treeInfo_dist info dest
      = Z.of_nat (length (ti_hops info)) + Z.of_nat (length (label_path dest))
        - 2 * Z.of_nat (common_prefix_length (map hop_port (ti_hops info))
                          (label_path dest))
      /\ 0 <= treeInfo_dist info dest
      /\ (treeInfo_dist info dest = 0
          <-> map hop_port (ti_hops info) = label_path dest)).
Proof.
  unfold treeInfo_dist. split.
  - intros Hr. now rewrite bool_decide_eq_true_2.
  - intros Hr. rewrite bool_decide_eq_false_2 by (intros ?; done).
    pose proof (dist_loop_spec (ti_hops info) (label_path dest) 0) as Hl.
    change (0 - 1) with (-1) in Hl. rewrite Hl.
    pose proof (common_prefix_length_le (map hop_port (ti_hops info))
                  (label_path dest)) as [Hle1 Hle2].
    rewrite length_map in Hle1.
    set (a := length (ti_hops info)) in *.
    set (b := length (label_path dest)) in *.
    set (c := common_prefix_length _ _) in *.
    assert (Hval : (let '(a0, b0) :=
                      if Z.of_nat b <? Z.of_nat a
                      then (Z.of_nat b, Z.of_nat a)
                      else (Z.of_nat a, Z.of_nat b) in
                    a0 + b0 - 2 * (-1 + Z.of_nat c + 1))
                   = Z.of_nat a + Z.of_nat b - 2 * Z.of_nat c).
    { destruct (Z.of_nat b <? Z.of_nat a); lia. }
    rewrite Hval. split; [done|]. split; [lia|]. split.
    + intros H0. apply common_prefix_length_full.
      * fold c. rewrite length_map. fold a. lia.
      * rewrite length_map. fold a b. lia.
    + intros Heq. unfold c, a, b. rewrite Heq, common_prefix_length_refl.
      rewrite <- Heq, length_map. lia.
Qed.

(** *** Ancestries from peers *)

(** X16. [peer.handleTree] always returns (its decode loop
    terminates and the index of the last hop is in range); an ancestry it
    hands to the tree passes [checkSigs], has at least one hop, comes
    from the peer and ends at this node. *)
Theorem handleTree_sound (self : list Z) (p : peer) (bs : list Z) :
  is_Some (handleTree self p bs)
  /\ forall info, handleTree self p bs = Some (inr info) ->
       treeInfo_checkSigs info = true
       /\ ti_hops info ≠ []
       /\ treeInfo_from info = peer_key p
       /\ treeInfo_dest info = self.
Proof.
  unfold handleTree.
  destruct (treeInfo_codec) as (Htot & _ & _).
  destruct (Htot bs) as [[info|] ->]; [|split; [eauto | done]].
  destruct (treeInfo_checkSigs info) eqn:Hsigs; cbn [negb];
    [|split; [eauto | done]].
  case_bool_decide as Hfrom; cbn [negb]; [|split; [eauto | done]].
  assert (Hne : ti_hops info ≠ []).
  { unfold treeInfo_checkSigs in Hsigs. intros E. now rewrite E in Hsigs. }
  unfold treeInfo_dest.
  destruct (last (ti_hops info)) as [hop|] eqn:El.
  2:{ apply last_None in El. done. }
  case_bool_decide as Hdest; cbn [negb]; (split; [eauto|]); [|done].
  intros ? [= <-]. rewrite El. done.
Qed.

(** X17. An ancestry that a neighbour extends towards this
    node with [treeInfo.add] and encodes is accepted by [peer.handleTree]
    at this node and handed on unchanged (its unserialized fields zero),
    provided the neighbour signs with the key of the node the ancestry
    ended at, which is the key this node knows the peer by. *)
Theorem handleTree_accepts_neighbour (self : list Z) (p : peer)
  (info : treeInfo) (priv : list Z) (next : peer) :
  treeInfo_wf info ->
  length self = publicKeySize ->
  peer_key next = self ->
  uint64 (peer_port next) ->
  (forall bs, length (sign priv bs) = signatureSize) ->
  (forall bs, verify (treeInfo_dest info) bs (sign priv bs) = true) ->
  ti_hops info = [] \/ treeInfo_checkSigs info = true ->
  peer_key p = treeInfo_dest info ->
  handleTree self p (treeInfo_encode (treeInfo_add info priv next) [])
  = Some (inr (unstamped (treeInfo_add info priv next))).
Proof.
  intros (Hroot & Hseq & Hhops) Hself Hnext Hport Hlen Hkey Hold Hp.
  destruct (treeInfo_add_signed info priv next Hkey Hold)
    as (Hsigs & Hdest & Hfrom & _ & _).
  destruct treeInfo_codec as (_ & _ & Hrt).
  unfold handleTree. rewrite Hrt.
  2:{ split; [done|]. split; [done|]. unfold treeInfo_add. cbn [ti_hops].
      apply Forall_app. split; [done|]. apply Forall_singleton.
      split; [cbn; congruence|]. split; [done | apply Hlen]. }
  change (treeInfo_checkSigs (unstamped (treeInfo_add info priv next)))
    with (treeInfo_checkSigs (treeInfo_add info priv next)).
  rewrite Hsigs. cbn [negb].
  change (treeInfo_from (unstamped (treeInfo_add info priv next)))
    with (treeInfo_from (treeInfo_add info priv next)).
  rewrite Hfrom, bool_decide_eq_true_2 by done. cbn [negb].
  unfold unstamped at 1. cbn [ti_hops].
  unfold treeInfo_add at 1. cbn [ti_hops]. rewrite last_snoc. cbn [hop_next].
  now rewrite bool_decide_eq_true_2.
Qed.

(** *** The next hop *)

(** What [_treeLookup] has chosen after the entries [seen]: nothing yet,
    or a peer whose ancestry matches the label and, measured without its
    last hop, is strictly closer to it than [distCut]. *)
Lemma treeLookup_loop_inv (dest : treeLabel) (self : treeInfo) (distCut : Z)
  (l : list (peer * treeInfo)) :
  forall seen best bestDist bestPeer,
    (forall p info, (p, info) ∈ l -> ti_hops info ≠ []) ->
    match bestPeer with
    | None => best = self
    | Some p =>
        (p, best) ∈ seen
        /\ ti_root best = label_root dest
        /\ ti_seq best = label_rootSeq dest
        /\ treeInfo_dist (withoutLastHop best) dest < distCut
    end ->
    exists best' bestDist' bestPeer',
      treeLookup_loop dest distCut l (best, bestDist, bestPeer)
      = Some (best', bestDist', bestPeer')
      /\ match bestPeer' with
         | None => best' = self
         | Some p =>
             (p, best') ∈ seen ++ l
             /\ ti_root best' = label_root dest
             /\ ti_seq best' = label_rootSeq dest
             /\ treeInfo_dist (withoutLastHop best') dest < distCut
         end.
Proof.
  induction l as [|[p info] l IH]; intros seen best bestDist bestPeer Hhops Hinv.
  - cbn [treeLookup_loop]. rewrite app_nil_r. eauto.
  - cbn [treeLookup_loop treeLookup_step].
    assert (Hl : forall p0 info0, (p0, info0) ∈ l -> ti_hops info0 ≠ []).
    { intros p0 info0 Hin. eapply Hhops. apply list_elem_of_further, Hin. }
    assert (Hkeep : match bestPeer with
                    | None => best = self
                    | Some p0 =>
                        (p0, best) ∈ seen ++ [(p, info)]
                        /\ ti_root best = label_root dest
                        /\ ti_seq best = label_rootSeq dest
                        /\ treeInfo_dist (withoutLastHop best) dest < distCut
                    end).
    { destruct bestPeer; [|done]. destruct Hinv as (? & ? & ? & ?).
      split; [apply elem_of_app; now left | done]. }
    replace (seen ++ (p, info) :: l) with ((seen ++ [(p, info)]) ++ l)
      by now rewrite <- app_assoc.
    destruct (bool_decide (ti_root info ≠ label_root dest)
              || bool_decide (ti_seq info ≠ label_rootSeq dest)) eqn:Hmatch.
    { apply IH; done. }
    apply orb_false_elim in Hmatch as [Hr Hs].
    apply bool_decide_eq_false in Hr, Hs.
    apply dec_stable in Hr, Hs.
    destruct (ti_hops info) as [|hop hops] eqn:Ehops.
    { exfalso. eapply (Hhops p info); [apply list_elem_of_here | done]. }
    rewrite <- Ehops.
    change {| ti_time := ti_time info; ti_hseq := ti_hseq info;
              ti_root := ti_root info; ti_seq := ti_seq info;
              ti_hops := removelast (ti_hops info) |}
      with (withoutLastHop info).
    set (dist := treeInfo_dist (withoutLastHop info) dest).
    destruct (Z.geb_spec dist distCut) as [Hge | Hlt].
    { apply IH; done. }
    assert (Hnew : (p, info) ∈ seen ++ [(p, info)]
                   /\ ti_root info = label_root dest
                   /\ ti_seq info = label_rootSeq dest
                   /\ treeInfo_dist (withoutLastHop info) dest < distCut).
    { split; [apply elem_of_app; right; apply list_elem_of_here | done]. }
    destruct (dist <? bestDist); [apply IH; done|].
    destruct (dist >? bestDist); [apply IH; done|].
    destruct (ti_time info <? ti_time best); [apply IH; done|].
    destruct (ti_time best <? ti_time info); [apply IH; done|].
    destruct (treeLess (treeInfo_from info) (treeInfo_from best));
      apply IH; done.
Qed.

(** X18. [_treeLookup] on a node that has an ancestry of its own
    and whose peers' ancestries all passed [checkSigs] never panics; it
    answers nil for the node's own key; and a peer it returns holds an
    ancestry of the label's root and root sequence number that, measured
    without its last hop, is strictly closer to the label than the node
    itself. *)
Theorem treeLookup_progress (t : dhtree) (dest : treeLabel) (self : treeInfo) :
  tree_self t = Some self ->
  (forall p info, (p, info) ∈ tinfos t -> treeInfo_checkSigs info = true) ->
  exists res,
    _treeLookup t dest = Some res
    /\ (tree_key t = label_key dest -> res = None)
    /\ forall p, res = Some p ->
         exists info,
           (p, info) ∈ tinfos t
           /\ ti_root info = label_root dest
           /\ ti_seq info = label_rootSeq dest
           /\ treeInfo_dist (withoutLastHop info) dest
              < treeInfo_dist self dest.
Proof.
  intros Hself Hsigs. unfold _treeLookup.
  case_bool_decide as Hkey.
  { exists None. split; [done|]. split; [done|]. intros ? [=]. }
  rewrite Hself.
  destruct (treeLookup_loop_inv dest self (treeInfo_dist self dest) (tinfos t)
              [] self (treeInfo_dist self dest) None)
    as (best & bestDist & bestPeer & -> & Hinv); [|done|].
  { intros p info Hin E. apply Hsigs in Hin.
    unfold treeInfo_checkSigs in Hin. now rewrite E in Hin. }
  destruct bestPeer as [p|].
  - destruct Hinv as (Hin & Hr & Hs & Hd).
    rewrite bool_decide_eq_false_2 by (intros ?; done).
    rewrite bool_decide_eq_false_2 by (intros ?; done).
    exists (Some p). split; [done|]. split; [done|].
    intros ? [= <-]. exists best. done.
  - exists None. split; [now destruct (_ || _)|]. split; [done|]. intros ? [=].
Qed.

End TreeInfoFacts.

(** *** Witnesses for the tree layer, under [exampleEnv]

    The root [[1]] announces itself with sequence number 5 and extends
    the ancestry to its peer [[3]] on port 7. *)

Lemma treeInfo_add_signed_witness :
  let info := {| ti_time := 0; ti_hseq := 0; ti_root := [1]; ti_seq := 5;
                 ti_hops := [] |} in
  let next := {| peer_key := [3]; peer_port := 7; peer_prio := 0;
                 peer_time := 0 |} in
  @treeInfo_checkSigs exampleEnv (@treeInfo_add exampleEnv info [1] next) = true
  /\ treeInfo_dest (@treeInfo_add exampleEnv info [1] next) = [3]
  /\ treeInfo_from (@treeInfo_add exampleEnv info [1] next) = [1].
Proof.
  intros info next.
  destruct (@treeInfo_add_signed exampleEnv info [1] next)
    as (H1 & H2 & H3 & _).
  - intros bs. apply bool_decide_eq_true_2. reflexivity.
  - now left.
  - split; [exact H1|]. split; [exact H2 | exact H3].
Defined.

Lemma treeInfo_dist_spec_witness :
  let hop := fun pt => {| hop_next := [pt]; hop_port := pt; hop_sig := [] |} in
  let info := {| ti_time := 0; ti_hseq := 0; ti_root := [1]; ti_seq := 5;
                 ti_hops := [hop 2; hop 3; hop 4] |} in
  let dest := {| label_sig := []; label_key := [9]; label_root := [1];
                 label_rootSeq := 5; label_seq := 1;
                 label_path := [2; 3; 6; 9] |} in
  treeInfo_dist info dest = 3.
Proof.
  intros hop info dest.
  destruct (treeInfo_dist_spec info dest) as [_ Hsame].
  destruct (Hsame eq_refl) as (Hval & _). exact Hval.
Defined.

Lemma handleTree_sound_witness :
  let info := {| ti_time := 0; ti_hseq := 0; ti_root := [1]; ti_seq := 5;
                 ti_hops := [] |} in
  let next := {| peer_key := [3]; peer_port := 7; peer_prio := 0;
                 peer_time := 0 |} in
  let p := {| peer_key := [1]; peer_port := 2; peer_prio := 0;
              peer_time := 0 |} in
  let sent := @treeInfo_add exampleEnv info [1] next in
  @treeInfo_checkSigs exampleEnv (unstamped sent) = true
  /\ treeInfo_dest (unstamped sent) = [3].
Proof.
  intros info next p sent.
  destruct (@handleTree_sound exampleEnv [3] p (@treeInfo_encode sent []))
    as [_ Hacc].
  destruct (Hacc (unstamped sent)) as (H1 & _ & _ & H4);
    [vm_compute; reflexivity|].
  split; [exact H1 | exact H4].
Defined.

Lemma handleTree_accepts_neighbour_witness :
  let info := {| ti_time := 0; ti_hseq := 0; ti_root := [1]; ti_seq := 5;
                 ti_hops := [] |} in
  let next := {| peer_key := [3]; peer_port := 7; peer_prio := 0;
                 peer_time := 0 |} in
  let p := {| peer_key := [1]; peer_port := 2; peer_prio := 0;
              peer_time := 0 |} in
  let sent := @treeInfo_add exampleEnv info [1] next in
  @handleTree exampleEnv [3] p (treeInfo_encode sent [])
  = Some (inr (unstamped sent)).
Proof.
  intros info next p sent.
  apply (@handleTree_accepts_neighbour exampleEnv [3] p info [1] next).
  - split; [reflexivity|]. split; [unfold uint64; simpl; lia | constructor].
  - reflexivity.
  - reflexivity.
  - unfold uint64. simpl. lia.
  - intros bs. reflexivity.
  - intros bs. apply bool_decide_eq_true_2. reflexivity.
  - now left.
  - reflexivity.
Defined.

Lemma treeLookup_progress_witness :
  let info := {| ti_time := 0; ti_hseq := 0; ti_root := [1]; ti_seq := 5;
                 ti_hops := [] |} in
  let next := {| peer_key := [3]; peer_port := 7; peer_prio := 0;
                 peer_time := 0 |} in
  let p := {| peer_key := [1]; peer_port := 2; peer_prio := 0;
              peer_time := 0 |} in
  let self := @treeInfo_add exampleEnv info [1] next in
  let t := {| tree_key := [3]; tree_self := Some self;
              tinfos := [(p, self)] |} in
  let dest := {| label_sig := []; label_key := [4]; label_root := [1];
                 label_rootSeq := 5; label_seq := 1; label_path := [9] |} in
  exists res,
    _treeLookup t dest = Some res
    /\ forall q, res = Some q ->
         exists i, (q, i) ∈ tinfos t
           /\ treeInfo_dist (withoutLastHop i) dest < treeInfo_dist self dest.
Proof.
  intros info next p self t dest.
  destruct (@treeLookup_progress exampleEnv t dest self) as (res & Hres & _ & Hp).
  - reflexivity.
  - intros q i Hin. apply list_elem_of_singleton in Hin.
    injection Hin as -> ->. vm_compute. reflexivity.
  - exists res. split; [exact Hres|].
    intros q Hq. destruct (Hp q Hq) as (i & Hin & _ & _ & Hd). eauto.
Defined.

(** ** The closest known key *)

Section KeyLookup.
Context `{Env}.

(** The loop of [_keyLookup] never dereferences a nil [best]; it ends
    with the lowest of the keys seen and the highest of those below
    [dest], if any. *)
Lemma keyLookup_loop_spec (dest : list Z) (l : list (list Z)) :
  forall seen lowest best,
    match lowest with
    | None => seen = []
    | Some m => m ∈ seen /\ forall k, k ∈ seen -> less k m = false
    end ->
    match best with
    | None => forall k, k ∈ seen -> less k dest = false
    | Some b =>
        b ∈ seen /\ less b dest = true
        /\ forall k, k ∈ seen -> less k dest = true -> less b k = false
    end ->
    exists lowest' best',
      keyLookup_loop dest l (lowest, best) = Some (lowest', best')
      /\ match lowest' with
         | None => seen ++ l = []
         | Some m => m ∈ seen ++ l /\ forall k, k ∈ seen ++ l -> less k m = false
         end
      /\ match best' with
         | None => forall k, k ∈ seen ++ l -> less k dest = false
         | Some b =>
             b ∈ seen ++ l /\ less b dest = true
             /\ forall k, k ∈ seen ++ l -> less k dest = true -> less b k = false
         end.
Proof.
  induction l as [|x l IH]; intros seen lowest best Hlow Hbest.
  - cbn [keyLookup_loop]. rewrite app_nil_r. eauto.
  - cbn [keyLookup_loop]. unfold keyLookup_step.
    replace (seen ++ x :: l) with ((seen ++ [x]) ++ l) by now rewrite <- app_assoc.
    assert (Hin_x : x ∈ seen ++ [x]).
    { apply elem_of_app. right. apply list_elem_of_here. }
    set (lowest1 := match lowest with
                    | None => Some x
                    | Some m => if less x m then Some x else lowest
                    end).
    assert (Hlow1 : match lowest1 with
                    | None => seen ++ [x] = []
                    | Some m => m ∈ seen ++ [x]
                                /\ forall k, k ∈ seen ++ [x] -> less k m = false
                    end).
    { unfold lowest1. destruct lowest as [m|].
      - destruct Hlow as [Hm Hmin]. destruct (less x m) eqn:Hxm.
        + split; [done|]. intros k [Hk | ->%list_elem_of_singleton]%elem_of_app.
          * destruct (less k x) eqn:Hkx; [|done].
            rewrite <- (Hmin k Hk). symmetry. unfold less in *.
            eapply treeLess_trans; eassumption.
          * apply treeLess_irrefl.
        + split; [apply elem_of_app; now left|].
          intros k [Hk | ->%list_elem_of_singleton]%elem_of_app; [eauto | done].
      - subst seen. split; [done|].
        intros k ->%list_elem_of_singleton. apply treeLess_irrefl. }
    clearbody lowest1.
    destruct (less x dest) eqn:Hxd.
    + destruct best as [b|].
      * destruct Hbest as (Hb & Hbd & Hmax).
        destruct (less b x) eqn:Hbx.
        -- apply IH; [done|]. split; [done|]. split; [done|].
           intros k [Hk | ->%list_elem_of_singleton]%elem_of_app Hkd.
           ++ destruct (less x k) eqn:Hxk; [|done].
              rewrite <- (Hmax k Hk Hkd). symmetry. unfold less in *.
              eapply treeLess_trans; eassumption.
           ++ apply treeLess_irrefl.
        -- apply IH; [done|]. split; [apply elem_of_app; now left|].
           split; [done|].
           intros k [Hk | ->%list_elem_of_singleton]%elem_of_app Hkd; eauto.
      * rewrite (treeLess_irrefl x : less x x = false).
        apply IH; [done|]. split; [done|]. split; [done|].
        intros k [Hk | ->%list_elem_of_singleton]%elem_of_app Hkd.
        -- rewrite (Hbest k Hk) in Hkd. discriminate.
        -- apply treeLess_irrefl.
    + assert (Hbest1 : match best with
                       | None => forall k, k ∈ seen ++ [x] -> less k dest = false
                       | Some b =>
                           b ∈ seen ++ [x] /\ less b dest = true
                           /\ forall k, k ∈ seen ++ [x] -> less k dest = true ->
                                less b k = false
                       end).
      { destruct best as [b|].
        - destruct Hbest as (Hb & Hbd & Hmax).
          split; [apply elem_of_app; now left|]. split; [done|].
          intros k [Hk | ->%list_elem_of_singleton]%elem_of_app Hkd; [eauto|].
          rewrite Hxd in Hkd. discriminate.
        - intros k [Hk | ->%list_elem_of_singleton]%elem_of_app; eauto. }
      destruct best; apply IH; done.
Qed.

(** X7. [_keyLookup] never panics and returns the closest known
    key: [dest] itself when it is known or when nothing is known,
    otherwise the highest known key below [dest], or the lowest known key
    when none is below.  With keys of the one key length the choice does
    not depend on the order in which [range] visits the store. *)
Theorem keyLookup_closest (r : router) (dest : list Z) :
  (exists k, _keyLookup r dest = Some k /\ closest_key r dest k)
  /\ (keys_wf r -> infos r !! dest = None ->
      forall l, l ≡ₚ (map_to_list (infos r)).*1 ->
        exists acc,
          keyLookup_loop dest l (None, None) = Some acc
          /\ _keyLookup r dest = Some (keyLookup_choice dest acc)).
Proof.
  assert (Hloop : forall l, l ≡ₚ (map_to_list (infos r)).*1 ->
    infos r !! dest = None ->
    exists acc, keyLookup_loop dest l (None, None) = Some acc
      /\ closest_key r dest (keyLookup_choice dest acc)).
  { intros l Hl Hdest.
    destruct (keyLookup_loop_spec dest l [] None None)
      as (lowest & best & -> & Hlow & Hbest); [done | intros ? []%elem_of_nil|].
    cbn [app] in Hlow, Hbest.
    assert (Hin : forall k, k ∈ l <-> is_Some (infos r !! k)).
    { intros k. rewrite Hl. apply elem_of_map_keys. }
    exists (lowest, best). split; [done|].
    unfold keyLookup_choice, closest_key. cbn [fst snd].
    destruct best as [b|].
    - destruct Hbest as (Hb & Hbd & Hmax).
      right. right. split; [done|]. split; [now apply Hin|]. left.
      split; [done|]. intros k' Hk'. apply Hmax. now apply Hin.
    - destruct lowest as [m|].
      + destruct Hlow as [Hm Hmin].
        right. right. split; [done|]. split; [now apply Hin|]. right.
        split; intros k' Hk'; [apply Hbest | apply Hmin]; now apply Hin.
      + right. left. split; [|done]. subst l.
        apply map_eq. intros k. rewrite lookup_empty.
        destruct (infos r !! k) eqn:Ek; [|done].
        assert (Hk : k ∈ @nil (list Z)) by (apply Hin; eauto).
        now apply elem_of_nil in Hk. }
  split.
  - unfold _keyLookup.
    destruct (infos r !! dest) eqn:Hdest.
    { exists dest. split; [done|]. left. eauto. }
    destruct (Hloop _ (reflexivity _) eq_refl) as ([lowest best] & -> & Hc).
    exists (keyLookup_choice dest (lowest, best)). split; [|done].
    unfold keyLookup_choice. cbn [fst snd].
    destruct best; [done|]. now destruct lowest.
  - intros Hwf Hdest l Hl.
    destruct (Hloop l Hl Hdest) as (acc & Hacc & Hc).
    destruct (Hloop _ (reflexivity _) Hdest) as ([lowest0 best0] & Hacc0 & Hc0).
    exists acc. split; [done|].
    unfold _keyLookup. rewrite Hdest, Hacc0.
    assert (Hsame : keyLookup_choice dest (lowest0, best0)
                    = keyLookup_choice dest acc).
    { set (k0 := keyLookup_choice dest (lowest0, best0)) in *.
      set (k1 := keyLookup_choice dest acc) in *.
      clearbody k0 k1.
      assert (Hlen : forall k, is_Some (infos r !! k) -> length k = publicKeySize).
      { intros k [i Hi]. now destruct (Hwf k i Hi). }
      destruct Hc0 as [[Hs _] | [[He ->] | (_ & Hk0 & Hc0)]].
      { rewrite Hdest in Hs. now destruct Hs. }
      { destruct Hc as [[Hs _] | [[_ ->] | (_ & Hk1 & _)]]; [| done |].
        - rewrite Hdest in Hs. now destruct Hs.
        - rewrite He, lookup_empty in Hk1. now destruct Hk1. }
      destruct Hc as [[Hs _] | [[He ->] | (_ & Hk1 & Hc)]].
      { rewrite Hdest in Hs. now destruct Hs. }
      { rewrite He, lookup_empty in Hk0. now destruct Hk0. }
      apply treeLess_total; [rewrite !Hlen; done | |].
      - destruct Hc0 as [[Hd0 Hmax0] | [Hnone0 Hmin0]],
                 Hc as [[Hd1 Hmax1] | [Hnone1 Hmin1]]; unfold less in *.
        + now apply Hmax0.
        + rewrite (Hnone1 k0 Hk0) in Hd0. discriminate.
        + rewrite (Hnone0 k1 Hk1) in Hd1. discriminate.
        + now apply Hmin1.
      - destruct Hc0 as [[Hd0 Hmax0] | [Hnone0 Hmin0]],
                 Hc as [[Hd1 Hmax1] | [Hnone1 Hmin1]]; unfold less in *.
        + now apply Hmax1.
        + rewrite (Hnone1 k0 Hk0) in Hd0. discriminate.
        + rewrite (Hnone0 k1 Hk1) in Hd1. discriminate.
        + now apply Hmin0. }
    rewrite <- Hsame. unfold keyLookup_choice. cbn [fst snd].
    destruct best0; [done|]. now destruct lowest0.
Qed.

End KeyLookup.

(** Witness: node [[5]] knows [[3]], [[5]] and [[7]]; the closest key to
    [[6]] is [[5]], whichever way the store is visited. *)
Lemma keyLookup_closest_witness :
  let r := exampleNode3 10 in
  exists acc,
    keyLookup_loop [6] [[5]; [7]; [3]] (None, None) = Some acc
    /\ _keyLookup r [6] = Some (keyLookup_choice [6] acc).
Proof.
  intros r.
  destruct (@keyLookup_closest exampleEnv r [6]) as [_ Hord].
  apply Hord.
  - apply (bool_decide_unpack _). vm_compute. exact I.
  - vm_compute. reflexivity.
  - vm_compute. exact (Permutation_cons_append [[7]; [3]] [5]).
Defined.

(** ** Walking the tree: paths and distances *)

Section Walk.
Context `{Env}.

Lemma ancestry_det (infos : gmap (list Z) routerInfo) (k root path : list Z) :
  ancestry infos k root path ->
  forall root' path', ancestry infos k root' path' ->
    root' = root /\ path' = path.
Proof.
  induction 1 as [k i Hi He Hp | k i root path Hi He Hp Hanc IH];
    intros root' path' Hanc'.
  - inversion Hanc' as [k' i' Hi' He' Hp' | k' i' r' p' Hi' He' Hp' Hanc''];
      subst; [done|].
    rewrite Hi in Hi'. injection Hi' as <-. done.
  - inversion Hanc' as [k' i' Hi' He' Hp' | k' i' r' p' Hi' He' Hp' Hanc''];
      subst.
    + rewrite Hi in Hi'. injection Hi' as <-. done.
    + rewrite Hi in Hi'. injection Hi' as <-.
      destruct (IH _ _ Hanc'') as [-> ->]. done.
Qed.

(** The loop of [_getRootAndPath] follows an ancestry to its root: the
    keys it has visited lie deeper than the one it is at. *)
Lemma getRootAndPath_loop_complete (infos : gmap (list Z) routerInfo)
  (dest next root path : list Z) :
  ancestry infos next root path ->
  forall fuel visited ports res,
    (forall v rt p, v ∈ visited -> ancestry infos v rt p ->
       (length path < length p)%nat) ->
    getRootAndPath_loop fuel infos visited ports next dest = Some res ->
    res = (root, path ++ rev ports).
Proof.
  induction 1 as [k i Hi He Hp | k i root path Hi He Hp Hanc IH];
    intros fuel visited ports res Hvis Hres.
  - destruct fuel as [|fuel]; [done|]. cbn [getRootAndPath_loop] in Hres.
    destruct (decide (k ∈ visited)) as [Hin|_].
    { specialize (Hvis k k [] Hin (ancestry_root _ _ _ Hi He Hp)).
      simpl in Hvis. lia. }
    rewrite Hi, He in Hres. rewrite decide_True in Hres by done.
    now injection Hres as <-.
  - destruct fuel as [|fuel]; [done|]. cbn [getRootAndPath_loop] in Hres.
    assert (Hk : ancestry infos k root (path ++ [info_port i]))
      by (eapply ancestry_step; eassumption).
    destruct (decide (k ∈ visited)) as [Hin|_].
    { specialize (Hvis k _ _ Hin Hk). lia. }
    rewrite Hi, He in Hres. rewrite decide_False in Hres by done.
    apply IH in Hres.
    + rewrite Hres, rev_app_distr. cbn [rev app]. now rewrite <- app_assoc.
    + intros v rt p [Hv | ->%elem_of_singleton]%elem_of_union Hp'.
      * specialize (Hvis v rt p Hv Hp'). rewrite length_app in Hvis.
        simpl in Hvis. lia.
      * destruct (ancestry_det _ _ _ _ Hk _ _ Hp') as [_ ->].
        rewrite length_app. simpl. lia.
Qed.

(** Whatever the loop returns is the fall-back [(dest, nil)] or comes
    from an ancestry. *)
Lemma getRootAndPath_loop_sound (infos : gmap (list Z) routerInfo)
  (dest : list Z) (fuel : nat) :
  forall visited ports next res,
    getRootAndPath_loop fuel infos visited ports next dest = Some res ->
    res = (dest, [])
    \/ exists root path,
         ancestry infos next root path /\ res = (root, path ++ rev ports).
Proof.
  induction fuel as [|fuel IH]; intros visited ports next res Hres; [done|].
  cbn [getRootAndPath_loop] in Hres.
  destruct (decide (next ∈ visited)); [injection Hres as <-; now left|].
  destruct (infos !! next) as [i|] eqn:Hi; [|injection Hres as <-; now left].
  destruct (expired i) eqn:He; [injection Hres as <-; now left|].
  destruct (decide (next = info_parent i)) as [Hp | Hp].
  - injection Hres as <-. right. exists next, []. split; [|done].
    eapply ancestry_root; eauto.
  - apply IH in Hres as [-> | (root & path & Hanc & ->)]; [now left|].
    right. exists root, (path ++ [info_port i]). split.
    + eapply ancestry_step; eauto.
    + rewrite rev_app_distr. cbn [rev app]. now rewrite <- app_assoc.
Qed.

(** X5. [_getRootAndPath]: when the walk from [dest] along the
    parents reaches a self-parented root over infos that have not
    expired, the result is that root and the ports from the root down to
    [dest]; in every other case (a missing or expired info on the way, or
    a loop) it is [(dest, nil)]. *)
Theorem getRootAndPath_spec (r : router) (dest : list Z) :
  (forall root path, ancestry (infos r) dest root path ->
     _getRootAndPath r dest = (root, path))
  /\ ((forall root path, ~ ancestry (infos r) dest root path) ->
      _getRootAndPath r dest = (dest, [])).
Proof.
  unfold _getRootAndPath.
  destruct (getRootAndPath_fuel r dest) as [res Hres]. rewrite Hres.
  cbn [default]. split.
  - intros root path Hanc.
    rewrite (getRootAndPath_loop_complete _ _ _ _ _ Hanc _ _ _ _
               ltac:(intros ? ? ? []%elem_of_empty) Hres).
    cbn [rev]. now rewrite app_nil_r.
  - intros Hnone.
    apply getRootAndPath_loop_sound in Hres as [-> | (root & path & Hanc & _)];
      [done|]. now destruct (Hnone root path).
Qed.

End Walk.

(** Witness: at the root [[1]] of the chain [1] -7-> [2] -9-> [4], the
    path of [[4]] is [7; 9]. *)
Lemma getRootAndPath_spec_witness :
  _getRootAndPath (exampleRoot linkA linkB) [4] = ([1], [7; 9]).
Proof.
  set (r := exampleRoot linkA linkB).
  assert (H4 : exists i, infos r !! [4] = Some i /\ expired i = false
                         /\ info_parent i = [2] /\ info_port i = 9).
  { vm_compute. eexists. repeat split. }
  assert (H2 : exists i, infos r !! [2] = Some i /\ expired i = false
                         /\ info_parent i = [1] /\ info_port i = 7).
  { vm_compute. eexists. repeat split. }
  assert (H1 : exists i, infos r !! [1] = Some i /\ expired i = false
                         /\ info_parent i = [1]).
  { vm_compute. eexists. repeat split. }
  destruct H4 as (i4 & E4 & X4 & P4 & Q4), H2 as (i2 & E2 & X2 & P2 & Q2),
    H1 as (i1 & E1 & X1 & P1).
  apply (proj1 (getRootAndPath_spec r [4])).
  change [7; 9] with ([7] ++ [9]). rewrite <- Q4.
  apply (ancestry_step _ [4] i4); [done | done | rewrite P4; discriminate|].
  rewrite P4. change [7] with ([] ++ [7]). rewrite <- Q2.
  apply (ancestry_step _ [2] i2); [done | done | rewrite P2; discriminate|].
  rewrite P2. apply (ancestry_root _ [1] i1); done.
Defined.

Section Dist.
Context `{Env}.

Lemma getDist_loop_spec (p : list Z) :
  forall q d,
    2 * Z.of_nat (common_prefix_length p q) <= d < 2 ^ 64 ->
    getDist_loop p q d = d - 2 * Z.of_nat (common_prefix_length p q).
Proof.
  induction p as [|a p IH]; intros [|b q] d Hd;
    cbn [getDist_loop common_prefix_length] in *; try lia.
  destruct (Z.eqb_spec a b) as [->|Hab].
  - rewrite decide_True in * by done.
    assert (Hw : wrap64 (d - 2) = d - 2).
    { unfold wrap64. apply Z.mod_small. lia. }
    rewrite Hw, IH by lia. lia.
  - rewrite decide_False in * by done. lia.
Qed.

Lemma common_prefix_length_comm (p q : list Z) :
  common_prefix_length p q = common_prefix_length q p.
Proof.
  revert q. induction p as [|a p IH]; intros [|b q]; simpl; try done.
  destruct (decide (a = b)) as [->|Hab].
  - rewrite decide_True by done. now rewrite IH.
  - rewrite decide_False by (intros ->; done). done.
Qed.

Lemma common_prefix_length_min (p q s : list Z) :
  (Nat.min (common_prefix_length p q) (common_prefix_length q s)
   <= common_prefix_length p s)%nat.
Proof.
  revert q s. induction p as [|a p IH]; intros [|b q] [|c s]; simpl; try lia.
  destruct (decide (a = b)) as [->|Hab]; [|lia].
  destruct (decide (b = c)) as [->|Hbc]; [|lia].
  specialize (IH q s). lia.
Qed.

(** What [_getDist] returns and what it leaves behind. *)
Lemma getDist_run_eq (r : router) (destPath key : list Z) :
  _getDist destPath key r
  = Done (pathDist (cachedPath r key) destPath)
         (set_cache (<[key := cachedPath r key]> (cache r)) r).
Proof.
  unfold _getDist, cachedPath.
  unfold mbind, M_bind, get, mret, M_ret, modify.
  destruct (cache r !! key) as [cached|] eqn:Hc; [|reflexivity].
  rewrite insert_id by done. now destruct r.
Qed.

(** Caching a path does not change the path any key is measured by. *)
Lemma cachedPath_cached (r : router) (key k : list Z) :
  cachedPath (set_cache (<[key := cachedPath r key]> (cache r)) r) k
  = cachedPath r k.
Proof.
  unfold cachedPath at 1. cbn [cache set_cache].
  destruct (decide (key = k)) as [->|Hne].
  - now rewrite lookup_insert_eq.
  - rewrite lookup_insert_ne by done. reflexivity.
Qed.

(** X6. [_getDist] never panics; it measures [key] by the cached
    path, or by the path [_getRootAndPath] finds, which it then caches,
    and changes nothing else.  The distance of two paths whose lengths
    add up to less than [2^64] is the sum of the lengths minus twice the
    number of leading ports they share, without any wrap-around: it is
    symmetric, zero exactly for equal paths, and satisfies the triangle
    inequality. *)
Theorem getDist_metric :
  (forall r destPath key,
     _getDist destPath key r
     = Done (pathDist (cachedPath r key) destPath)
            (set_cache (<[key := cachedPath r key]> (cache r)) r))
  /\ (forall p q, Z.of_nat (length p + length q) < 2 ^ 64 ->
        pathDist p q
        = Z.of_nat (length p) + Z.of_nat (length q)
          - 2 * Z.of_nat (common_prefix_length p q)
        /\ pathDist p q = pathDist q p
        /\ (pathDist p q = 0 <-> p = q))
  /\ (forall p q s,
        Z.of_nat (length p + length q) < 2 ^ 64 ->
        Z.of_nat (length q + length s) < 2 ^ 64 ->
        Z.of_nat (length p + length s) < 2 ^ 64 ->
        pathDist p s <= pathDist p q + pathDist q s).
Proof.
  assert (Hval : forall p q, Z.of_nat (length p + length q) < 2 ^ 64 ->
            pathDist p q
            = Z.of_nat (length p) + Z.of_nat (length q)
              - 2 * Z.of_nat (common_prefix_length p q)).
  { intros p q Hlen. unfold pathDist.
    pose proof (common_prefix_length_le p q) as [H1 H2].
    assert (Hw : wrap64 (Z.of_nat (length p + length q))
                 = Z.of_nat (length p + length q)).
    { unfold wrap64. apply Z.mod_small. lia. }
    rewrite Hw, getDist_loop_spec by lia. lia. }
  split; [|split].
  - intros r destPath key. apply getDist_run_eq.
  - intros p q Hlen. split; [now apply Hval|]. split.
    + rewrite !Hval by lia. rewrite (common_prefix_length_comm p q). lia.
    + rewrite Hval by done.
      pose proof (common_prefix_length_le p q) as [H1 H2]. split.
      * intros H0. apply common_prefix_length_full; lia.
      * intros ->. rewrite common_prefix_length_refl. lia.
  - intros p q s H1 H2 H3. rewrite !Hval by done.
    pose proof (common_prefix_length_min p q s).
    pose proof (common_prefix_length_le p q) as [_ Hq1].
    pose proof (common_prefix_length_le q s) as [Hq2 _].
    lia.
Qed.

End Dist.

(** Witness: the paths of two children of the node at [7; 9] are two
    hops apart, and the path of the root is three hops from either. *)
Lemma getDist_metric_witness :
  pathDist [7; 9; 3] [7; 9; 4] = 2
  /\ pathDist [7; 9; 3] []
     <= pathDist [7; 9; 3] [7; 9; 4] + pathDist [7; 9; 4] [].
Proof.
  destruct getDist_metric as (_ & Hval & Htri).
  split.
  - destruct (Hval [7; 9; 3] [7; 9; 4]) as [-> _]; [simpl; lia | reflexivity].
  - apply Htri; simpl; lia.
Defined.

(** ** The peer registry: invariant and round trip *)

(** X8. The registry starts empty and well formed (every peer
    under its own port, no port 0).  [addPeer] keeps it well formed, and
    removing the peer it returned gives the registry back as it was;
    [removePeer] keeps it well formed, frees the port, and reports an
    error, leaving the registry as it is, exactly when the port was not
    in use. *)
Theorem peers_registry_invariant :
  peers_wf peers_init
  /\ (forall key ps p ps',
        peers_wf ps ->
        Z.of_nat (size (peers_map ps)) < 2 ^ 63 - 1 ->
        peers_addPeer key ps = Some (Some p, ps') ->
        peers_wf ps'
        /\ peers_removePeer (peer_port p) ps' = (Some tt, ps))
  /\ (forall port ps,
        peers_wf ps ->
        peers_wf (peers_removePeer port ps).2
        /\ peers_map (peers_removePeer port ps).2 !! port = None
        /\ ((peers_removePeer port ps).1 = None
            <-> peers_map ps !! port = None)
        /\ ((peers_removePeer port ps).1 = None ->
            (peers_removePeer port ps).2 = ps)).
Proof.
  split; [|split].
  - unfold peers_wf, peers_init. cbn. apply map_Forall_empty.
  - intros key ps p ps' Hwf Hsize Hadd. unfold peers_addPeer in Hadd.
    destruct (pconn_closed ps) eqn:Hclosed; [done|].
    pose proof (addPeer_findPort_spec (peers_map ps) (S (size (peers_map ps))) 1
                  ltac:(lia) ltac:(lia)) as Hspec.
    destruct (addPeer_findPort _ _ 1) as [port|]; [|done].
    destruct Hspec as (Hr & Hfree & Hused).
    injection Hadd as <- <-. cbn [peer_port]. split.
    + unfold peers_wf. cbn [peers_map]. apply map_Forall_insert; [done|].
      split; [|done]. cbn [peer_port]. split; [done|].
      assert (Hbound : port <= Z.of_nat (size (peers_map ps)) + 1).
      { destruct (Z.le_gt_cases port (Z.of_nat (size (peers_map ps)) + 1))
          as [|Hgt]; [done|]. exfalso.
        assert (Hall : forall j, 1 <= j <= Z.of_nat (size (peers_map ps)) + 1 ->
                         is_Some (peers_map ps !! j)).
        { intros j Hj. apply Hused. lia. }
        pose proof (ports_all_used_size (peers_map ps)
                      (S (size (peers_map ps)))) as Hp.
        apply Nat.lt_irrefl with (size (peers_map ps)).
        apply Hp. intros j Hj. apply Hall. lia. }
      lia.
    + unfold peers_removePeer. cbn [peers_map pconn_closed].
      rewrite lookup_insert_eq. rewrite delete_insert_eq, delete_id by done.
      rewrite <- Hclosed. now destruct ps.
  - intros port ps Hwf. unfold peers_removePeer.
    destruct (peers_map ps !! port) as [p|] eqn:Hp; cbn [fst snd peers_map].
    + split; [now apply map_Forall_delete|].
      split; [apply lookup_delete_eq|]. split; [split; done | done].
    + split; [done|]. split; [done|]. split; [split; done | done].
Qed.

(** Witness: a peer added to a registry holding ports 1 and 2 and removed
    again. *)
Lemma peers_registry_invariant_witness :
  let q := fun port => {| peer_key := [port]; peer_port := port;
                          peer_prio := 0; peer_time := 0 |} in
  let ps := {| pconn_closed := false;
               peers_map := <[1 := q 1]> (<[2 := q 2]> ∅) |} in
  exists p ps',
    peers_addPeer [9] ps = Some (Some p, ps')
    /\ peers_wf ps'
    /\ peers_removePeer (peer_port p) ps' = (Some tt, ps).
Proof.
  intros q ps.
  destruct (peers_addPeer [9] ps) as [[[p|] ps']|] eqn:E;
    try (vm_compute in E; discriminate E).
  exists p, ps'. split; [reflexivity|].
  destruct peers_registry_invariant as (_ & Hadd & _).
  apply (Hadd [9] ps p ps').
  - unfold peers_wf, ps. cbn [peers_map].
    apply map_Forall_insert_2; [vm_compute; split; [done | split; done]|].
    apply map_Forall_insert_2; [vm_compute; split; [done | split; done]|].
    apply map_Forall_empty.
  - vm_compute. reflexivity.
  - exact E.
Defined.

(** X9. [handlePathTraffic] on a well-formed registry: traffic
    is forwarded only to the peer registered under the first port of its
    path, which is not 0, with that port taken off the path and the
    payload untouched; traffic whose path is empty or starts with port 0
    always falls back to the DHT, as does traffic for a port not in
    use. *)
Theorem handlePathTraffic_route (ps : peers) (tr : pathTraffic) :
  peers_wf ps ->
  match handlePathTraffic ps tr with
  | SendPathTraffic next tr' =>
      pt_path tr = peer_port next :: pt_path tr'
      /\ peer_port next ≠ 0
      /\ peers_map ps !! peer_port next = Some next
      /\ pt_dt tr' = pt_dt tr
  | HandleDHTTraffic dt =>
      dt = pt_dt tr /\ peers_map ps !! hd 0 (pt_path tr) = None
  end
  /\ (hd 0 (pt_path tr) = 0 ->
      handlePathTraffic ps tr = HandleDHTTraffic (pt_dt tr)).
Proof.
  intros Hwf. unfold handlePathTraffic.
  assert (H0 : peers_map ps !! 0 = None).
  { destruct (peers_map ps !! 0) as [p|] eqn:E; [|done].
    destruct (Hwf 0 p E) as [_ ?]. lia. }
  destruct (pt_path tr) as [|port rest] eqn:Epath; cbn [hd].
  - rewrite H0. done.
  - destruct (peers_map ps !! port) as [next|] eqn:Enext.
    + destruct (Hwf port next Enext) as [Hport Hrange]. cbn [pt_path pt_dt].
      rewrite Hport. split; [|intros ->; congruence].
      split; [done|]. split; [lia|]. done.
    + split; [done|]. done.
Qed.

(** Witness: a packet for ports 2 then 5 is forwarded on port 2. *)
Lemma handlePathTraffic_route_witness :
  let q := fun port => {| peer_key := [port]; peer_port := port;
                          peer_prio := 0; peer_time := 0 |} in
  let ps := {| pconn_closed := false;
               peers_map := <[1 := q 1]> (<[2 := q 2]> ∅) |} in
  let dt := {| dt_mark := {| mark_key := [0]; mark_seq := 0 |};
               dt_base := {| bt_source := [1]; bt_dest := [7]; bt_kind := 1;
                             bt_payload := [42] |} |} in
  handlePathTraffic ps {| pt_path := [2; 5]; pt_dt := dt |}
  = SendPathTraffic (q 2) {| pt_path := [5]; pt_dt := dt |}
  /\ handlePathTraffic ps {| pt_path := []; pt_dt := dt |} = HandleDHTTraffic dt.
Proof.
  intros q ps dt.
  assert (Hwf : peers_wf ps).
  { unfold peers_wf, ps. cbn [peers_map].
    apply map_Forall_insert_2; [vm_compute; split; [done | split; done]|].
    apply map_Forall_insert_2; [vm_compute; split; [done | split; done]|].
    apply map_Forall_empty. }
  split; [reflexivity|].
  apply (proj2 (handlePathTraffic_route ps {| pt_path := []; pt_dt := dt |} Hwf)).
  reflexivity.
Defined.

(** ** The store and its timers *)

#[global] Instance keeps_inv_preorder : PreOrder keeps_inv.
Proof.
  split.
  - intros r. split; done.
  - intros r1 r2 r3 [A1 A2] [B1 B2]. split; [congruence | auto].
Qed.

Section StoreInv.
Context `{Env}.

Lemma same_store_keeps_inv (r r' : router) : same_store r r' -> keeps_inv r r'.
Proof.
  intros (A1 & _ & _ & A4 & A5). split; [done|].
  unfold store_inv. now rewrite A1, A4, A5.
Qed.

Lemma fix_frame_keeps_inv (r r' : router) : fix_frame r r' -> keeps_inv r r'.
Proof.
  intros (A1 & _ & _ & Hcase). split; [done|].
  unfold store_inv. rewrite A1. intros [Hdom Hself].
  destruct Hcase as [[-> ->] | (a & tm & Ha & -> & ->)]; [done|].
  split.
  - rewrite !dom_insert_L. now rewrite Hdom.
  - rewrite Ha, lookup_insert_eq. eauto.
Qed.

Lemma preserves_weaken {A : Type} (R S : router -> router -> Prop) (m : M A) :
  (forall r r', R r r' -> S r r') -> preserves R m -> preserves S m.
Proof. intros HRS Hm r a r' E. eapply HRS, Hm, E. Qed.

Lemma fix_keeps_inv : preserves keeps_inv _fix.
Proof. intros r [] r' E. apply fix_frame_keeps_inv, fix_run, E. Qed.

(** A change of a field other than the store, its timers and the
    configuration. *)
Lemma modify_keeps_inv (f : router -> router) :
  (forall r, rcore (f r) = rcore r) ->
  (forall r, infos (f r) = infos r) ->
  (forall r, timers (f r) = timers r) ->
  preserves keeps_inv (modify f).
Proof.
  intros Hc Hi Ht. apply preserves_modify. intros r.
  split; [apply Hc|]. unfold store_inv. now rewrite Hc, Hi, Ht.
Qed.

Ltac keeps_step :=
  first
    [ apply fix_keeps_inv
    | apply (preserves_weaken same_store keeps_inv);
        [exact same_store_keeps_inv|];
        first [ apply emit_same_store | apply newReq_same_store
              | apply sendReqs_same_store | apply fixMerks_same_store
              | apply resetCache_same_store | apply clearReqs_same_store ]
    | apply modify_keeps_inv; intros ?; reflexivity
    | apply preserves_ret; tc_solve
    | apply preserves_get; tc_solve
    | apply preserves_panic
    | apply preserves_orPanic; tc_solve
    | apply preserves_forEach; [tc_solve | intros ?]
    | apply preserves_foldEach; [tc_solve | intros ? ?]
    | apply preserves_bind; [tc_solve | | intros ?]
    | match goal with
      | |- preserves _ (if ?b then _ else _) => destruct b
      | |- preserves _ (match ?x with _ => _ end) => destruct x
      | |- preserves _ (let '(_, _) := ?x in _) => destruct x
      end ].

Lemma getDist_keeps_inv (destPath key : list Z) :
  preserves keeps_inv (_getDist destPath key).
Proof. unfold _getDist. repeat keeps_step. Qed.

Lemma handleTraffic_keeps_inv (tr : traffic) :
  preserves keeps_inv (handleTraffic tr).
Proof.
  unfold handleTraffic, _lookup.
  apply preserves_bind; [tc_solve | | intros [next tr']].
  - apply preserves_bind; [tc_solve | apply preserves_get; tc_solve | intros r].
    apply preserves_bind; [tc_solve | apply getDist_keeps_inv | intros d].
    destruct (d <? tr_watermark tr); [|apply preserves_ret; tc_solve].
    apply preserves_bind; [tc_solve | | intros ?; apply preserves_ret; tc_solve].
    apply preserves_foldEach; [tc_solve | intros [bp bd] [k ps]].
    apply preserves_bind; [tc_solve | apply getDist_keeps_inv | intros d'].
    destruct (d' <? bd); apply preserves_ret; tc_solve.
  - repeat keeps_step.
Qed.

Lemma addPeer_keeps_inv (p : peer) : preserves keeps_inv (router_addPeer p).
Proof. unfold router_addPeer. repeat keeps_step. Qed.

Lemma removePeer_keeps_inv (p : peer) : preserves keeps_inv (router_removePeer p).
Proof. unfold router_removePeer. repeat keeps_step. Qed.

Lemma handleResponse_keeps_inv (p : peer) (res : routerSigRes) :
  preserves keeps_inv (_handleResponse p res).
Proof. unfold _handleResponse. repeat keeps_step. Qed.

Lemma fixTimerCallback_keeps_inv : preserves keeps_inv fixTimerCallback.
Proof. unfold fixTimerCallback. repeat keeps_step. Qed.

Lemma handleRequest_keeps_inv (p : peer) (req : routerSigReq) :
  preserves keeps_inv (_handleRequest p req).
Proof. unfold _handleRequest. repeat keeps_step. Qed.

Lemma fireTimer_keeps_inv (key : list Z) : preserves keeps_inv (fireTimer key).
Proof.
  intros r [] r' E. unfold fireTimer, timerCallback, _resetCache in E. munfold.
  destruct (timers r !! key) as [tm|] eqn:Ht; [|injection E as <-; reflexivity].
  cbn in E. rewrite Ht in E. rewrite decide_True in E by done.
  destruct (decide (key = selfKey (set_now (timer_due tm) r))) as [Hk | Hk].
  - apply fix_keeps_inv in E. etransitivity; [|exact E]. split; done.
  - unfold selfKey in Hk. cbn in Hk.
    destruct (bool_decide (infos r !! key = None)
              || expired (default zeroInfo (infos r !! key))).
    + apply fix_keeps_inv in E. etransitivity; [|exact E].
      split; [done|]. unfold store_inv. cbn. intros [Hdom Hself]. split.
      * now rewrite !dom_delete_L, Hdom.
      * rewrite lookup_delete_ne by done. done.
    + apply fix_keeps_inv in E. etransitivity; [|exact E].
      split; [done|]. unfold store_inv. cbn. intros [Hdom Hself]. split.
      * now rewrite !dom_insert_L, Hdom.
      * rewrite lookup_insert_ne by done. done.
Qed.

Lemma handleAnnounce_keeps_inv (sender : peer) (a : routerAnnounce) :
  preserves keeps_inv (_handleAnnounce sender a).
Proof.
  intros r [] r' E. split.
  - apply handleAnnounce_run in E. cbv zeta in E.
    destruct E as [[-> _] | (ru & rm & Hup & Hfix & Hc & _)]; [done|].
    destruct Hfix as (Hc' & _). congruence.
  - intros [Hdom Hself]. split.
    2:{ apply (handleAnnounce_keeps_self sender a r r' E). exact Hself. }
    apply handleAnnounce_run in E. cbv zeta in E.
    destruct E as [[-> _] | (ru & rm & Hup & Hfix & Hc & Hcase)]; [done|].
    apply update_true_inv in Hup as (Hiu & Htu & _).
    assert (Hm : dom (infos rm) = dom (timers rm)).
    { destruct Hcase as [(-> & -> & _) | (_ & _ & _ & _ & _ & -> & ->)];
        rewrite Hiu, Htu, ?dom_delete_L, !dom_insert_L, Hdom; done. }
    destruct Hfix as (_ & _ & _ & [[-> ->] | (a' & tm & _ & -> & ->)]); [done|].
    now rewrite !dom_insert_L, Hm.
Qed.

(** X2. Every info in the store has a timer and every timer an info,
    and the node's own info is in the store: [init] ends in such a state
    and every handler of the router that returns keeps it so (and keeps
    the node's configuration). *)
Theorem store_invariant :
  (forall c t0 r, init c t0 = Done tt r -> rcore r = c /\ store_inv r)
  /\ (forall r r', store_inv r ->
       (exists sender a, _handleAnnounce sender a r = Done tt r')
       \/ (exists key, fireTimer key r = Done tt r')
       \/ fixTimerCallback r = Done tt r'
       \/ (exists p, router_addPeer p r = Done tt r')
       \/ (exists p, router_removePeer p r = Done tt r')
       \/ (exists p req, _handleRequest p req r = Done tt r')
       \/ (exists p res, _handleResponse p res r = Done tt r')
       \/ (exists tr, handleTraffic tr r = Done tt r') ->
       rcore r' = rcore r /\ store_inv r').
Proof.
  split.
  - intros c t0 r Hinit.
    destruct (init_self_info c t0 r Hinit) as [Hc Hself]. split; [done|].
    split; [|now rewrite Hc].
    unfold init in Hinit. apply fix_run in Hinit.
    destruct Hinit as (_ & _ & _ & [[-> ->] | (a & tm & _ & -> & ->)]); [done|].
    now rewrite !dom_insert_L.
  - intros r r' Hinv Hstep.
    assert (Hk : keeps_inv r r').
    { destruct Hstep as [(s & a & E) | [(k & E) | [E | [(p & E) | [(p & E) |
        [(p & q & E) | [(p & q & E) | (tr & E)]]]]]]].
      - eapply handleAnnounce_keeps_inv, E.
      - eapply fireTimer_keeps_inv, E.
      - eapply fixTimerCallback_keeps_inv, E.
      - eapply addPeer_keeps_inv, E.
      - eapply removePeer_keeps_inv, E.
      - eapply handleRequest_keeps_inv, E.
      - eapply handleResponse_keeps_inv, E.
      - eapply handleTraffic_keeps_inv, E. }
    destruct Hk as [Hc Hi]. auto.
Qed.

Lemma bind_Panicked_inv {A B : Type} (m : M A) (f : A -> M B) (r : router) :
  (m ≫= f) r = Panicked ->
  m r = Panicked \/ exists a r1, m r = Done a r1 /\ f a r1 = Panicked.
Proof.
  unfold mbind, M_bind. destruct (m r) as [a r1|]; [right; eauto | now left].
Qed.

(** The part of [_handleAnnounce] after the capacity test, once [_update]
    has accepted: it comes to [_fix], if the timer of the entry to evict
    is there. *)
Lemma handleAnnounce_accept_eq (found : bool) (worst : list Z)
  (a : routerAnnounce) (r ru : router) :
  (found = true -> is_Some (timers r !! worst)) ->
  _update a r = Done true ru ->
  (ok ← _update a;
   if (ok : bool) then
     (if (found : bool) then
        r ← get;
        match timers r !! worst with
        | None => panic
        | Some _ =>
            modify (fun r => set_infos (delete worst (infos r)) r);;
            modify (fun r => set_timers (delete worst (timers r)) r);;
            _resetCache
        end
      else mret tt);;
     (if decide (ann_key a = selfKey r) then modify (set_refresh true)
      else mret tt);;
     _fix
   else mret tt) r
  = _fix (beforeFix_with r a (if found then Some worst else None) ru).
Proof.
  intros Htm Hup. rewrite (bind_Done _ _ _ _ _ Hup).
  apply update_true_inv in Hup as (_ & Htu & _).
  assert (Hev :
    (if found then
       r ← get;
       match timers r !! worst with
       | None => panic
       | Some _ =>
           modify (fun r => set_infos (delete worst (infos r)) r);;
           modify (fun r => set_timers (delete worst (timers r)) r);;
           _resetCache
       end
     else mret tt) ru
    = Done tt (match (if found then Some worst else None) with
               | Some worst =>
                   set_cache ∅
                     (set_timers (delete worst (timers ru))
                        (set_infos (delete worst (infos ru)) ru))
               | None => ru
               end)).
  { destruct found; [|reflexivity].
    assert (Hw : is_Some (timers ru !! worst)).
    { rewrite Htu. destruct (decide (ann_key a = worst)) as [->|Hne].
      - rewrite lookup_insert_eq. eauto.
      - rewrite lookup_insert_ne by done. auto. }
    destruct Hw as [tm Hw].
    rewrite (bind_Done get _ _ _ _ eq_refl). rewrite Hw. reflexivity. }
  rewrite (bind_Done _ _ _ _ _ Hev).
  unfold beforeFix_with.
  destruct (decide (ann_key a = selfKey r)); reflexivity.
Qed.

(** X3. On a store that goes together with its timers,
    [_handleAnnounce] never stops on a nil timer: it panics exactly when
    the capacity test lets the announcement through, [_update] accepts it,
    and the parent selector [_fix] panics on the state that is left after
    the eviction ([beforeFix]). *)
Theorem handleAnnounce_panics_only_in_fix (sender : peer) (a : routerAnnounce)
  (r : router) :
  store_inv r ->
  _handleAnnounce sender a r = Panicked <->
  admitted r a = true
  /\ exists ru, _update a r = Done true ru /\ _fix (beforeFix r a ru) = Panicked.
Proof.
  intros [Hdom _]. unfold _handleAnnounce, admitted, beforeFix, evicted.
  rewrite (bind_Done get _ r r r eq_refl).
  assert (Hacc : forall found worst,
    (found = true -> is_Some (timers r !! worst)) ->
    (ok ← _update a;
     if (ok : bool) then
       (if (found : bool) then
          r ← get;
          match timers r !! worst with
          | None => panic
          | Some _ =>
              modify (fun r => set_infos (delete worst (infos r)) r);;
              modify (fun r => set_timers (delete worst (timers r)) r);;
              _resetCache
          end
        else mret tt);;
       (if decide (ann_key a = selfKey r) then modify (set_refresh true)
        else mret tt);;
       _fix
     else mret tt) r = Panicked <->
    exists ru, _update a r = Done true ru
      /\ _fix (beforeFix_with r a (if found then Some worst else None) ru)
         = Panicked).
  { intros found worst Htm. destruct (update_run r a) as [E | (ru & E & _)].
    - rewrite (bind_Done _ _ _ _ _ E). split; [discriminate|].
      intros (ru & E' & _). congruence.
    - rewrite (handleAnnounce_accept_eq found worst a r ru Htm E). split.
      + intros Hp. exists ru. done.
      + intros (ru' & E' & Hp). congruence. }
  destruct (Z.of_nat (size (infos r)) <? _).
  { cbn [orb negb]. rewrite (Hacc false zeroKey) by done. tauto. }
  destruct (infos r !! ann_key a) as [i|] eqn:Hi.
  { rewrite bool_decide_eq_true_2 by eauto.
    cbn [orb negb]. rewrite (Hacc false zeroKey) by done. tauto. }
  rewrite bool_decide_eq_false_2 by (intros [? ?]; discriminate).
  cbn [orb].
  destruct (fold_left _ _ _) as [w found] eqn:Hfold. cbn [fst snd].
  destruct (less (ann_key a) w); cbn [negb].
  - rewrite (Hacc found w).
    + destruct found; tauto.
    + intros ->. apply worst_spec in Hfold as [_ Hhigh].
      destruct (Hhigh eq_refl) as (Hw & _).
      apply elem_of_dom. rewrite <- Hdom. now apply elem_of_dom.
  - split; [discriminate|]. intros [? _]. discriminate.
Qed.

End StoreInv.

(** Witness: node [[5]], started by [init], learns of node [[3]]. *)
Lemma store_invariant_witness :
  store_inv (afterAnnounce (exampleRootAnnounce 3 1 7) (exampleNode 5 3)).
Proof.
  destruct (@store_invariant exampleEnv) as [Hinit Hstep].
  assert (E0 : @init exampleEnv (exampleCore 5 3) 0 = Done tt (exampleNode 5 3))
    by (vm_compute; reflexivity).
  refine (proj2 (Hstep (exampleNode 5 3) _ (proj2 (Hinit _ _ _ E0)) _)).
  left. exists exampleSender, (exampleRootAnnounce 3 1 7).
  vm_compute. reflexivity.
Defined.

(** Witness: node [[5]], child of its peer [[3]] and holding a second
    response of that peer for sequence number 3, is handed an
    announcement of its own key with sequence number 10; [_update] accepts
    it, and [_fix] then panics on the response, which [_update] rejects as
    older than the stored info. *)
Lemma handleAnnounce_panics_only_in_fix_witness :
  let a := exampleAnnounce 5 3 10 0 1 in
  @_handleAnnounce exampleEnv exampleSender a exampleChild = Panicked
  /\ @admitted exampleEnv exampleChild a = true
  /\ exists ru,
       @_update exampleEnv a exampleChild = Done true ru
       /\ @_fix exampleEnv (@beforeFix exampleEnv exampleChild a ru) = Panicked.
Proof.
  intros a.
  assert (Hinv : store_inv exampleChild).
  { apply (bool_decide_unpack _). vm_compute. exact I. }
  assert (Hp : @_handleAnnounce exampleEnv exampleSender a exampleChild
               = Panicked) by (vm_compute; reflexivity).
  split; [exact Hp|].
  exact (proj1 (@handleAnnounce_panics_only_in_fix exampleEnv exampleSender a
                  exampleChild Hinv) Hp).
Defined.

(** ** Start-up and the handshake with a parent *)

Section Init.
Context `{Env}.

Lemma routerSigRes_bytesForSig_eq (res : routerSigRes) (node parent : list Z) :
  routerSigRes_bytesForSig res node parent
  = Some (wireAppendUint (node ++ parent ++ sigReq_bytes (res_req res)) (port res)).
Proof.
  unfold routerSigRes_bytesForSig, routerSigReq_bytesForSig.
  rewrite routerSigReq_encode_eq. now rewrite <- app_assoc.
Qed.

Lemma newReq_run (r : router) :
  _newReq r
  = Done {| seq := wrap64 (info_seq (default zeroInfo (infos r !! selfKey r)) + 1);
            nonce := wrap64 (crandUint64 (randCtr r)) |}
         (set_randCtr (S (randCtr r)) r).
Proof. reflexivity. Qed.

(** [_becomeRoot] of a node with a sound key pair passes its own check
    and goes on to [_update] with the root announcement. *)
Lemma becomeRoot_update (r : router) :
  keypair_ok (rcore r) ->
  let a := rootAnnounce (rcore r)
             (info_seq (default zeroInfo (infos r !! selfKey r))) (randCtr r) in
  routerAnnounce_check a = Some true
  /\ _becomeRoot r = _update a (set_randCtr (S (randCtr r)) r).
Proof.
  intros Hkey a.
  assert (Hcheck : routerAnnounce_check a = Some true).
  { unfold routerAnnounce_check, a, rootAnnounce. cbn [ann_port ann_res port
      ann_key ann_parent ann_sig psig].
    rewrite bool_decide_eq_false_2 by (intros Hne; now apply Hne).
    rewrite andb_false_r, routerSigRes_bytesForSig_eq. cbn [res_req port].
    now rewrite Hkey. }
  split; [done|].
  unfold _becomeRoot.
  rewrite (bind_Done _ _ _ _ _ (newReq_run r)).
  rewrite (bind_Done get _ _ _ _ eq_refl).
  rewrite routerSigRes_bytesForSig_eq. cbn [res_req port orPanic].
  rewrite (bind_Done (mret _) _ _ _ _ eq_refl).
  unfold selfKey. cbn [rcore set_randCtr].
  change (routerAnnounce_check _) with (routerAnnounce_check a).
  rewrite Hcheck. cbn [orPanic].
  rewrite (bind_Done (mret _) _ _ _ _ eq_refl). reflexivity.
Qed.

(** Building the tree of all infos never panics and leaves the state. *)
Lemma fixMerks_tree_run (l : list (list Z * routerInfo)) :
  forall (acc : Tree) (r : router),
    exists merk,
      foldEach l acc (fun merk '(k, info) =>
        let ann := getAnnounce info k in
        bs ← orPanic (routerAnnounce_encode ann []);
        let digest := GetDigest bs in
        mret (Add k digest merk)) r = Done merk r.
Proof.
  induction l as [|[k info] l IH]; intros acc r; cbn [foldEach].
  - eexists. reflexivity.
  - rewrite routerAnnounce_encode_eq. cbn [orPanic].
    destruct (IH (Add k (GetDigest ([] ++ announce_bytes (getAnnounce info k)))
                    acc) r) as [merk Hm].
    exists merk. exact Hm.
Qed.

(** Without peers [_fixMerks] does nothing. *)
Lemma fixMerks_no_peers (r : router) :
  merks r = ∅ -> _fixMerks r = Done tt r.
Proof.
  intros Hm. unfold _fixMerks.
  rewrite (bind_Done get _ _ _ _ eq_refl).
  assert (Hmerk : exists merk,
    (if negb bloomMulticastEnabled
     then foldEach (map_to_list (infos r)) emptyTree (fun merk '(k, info) =>
            let ann := getAnnounce info k in
            bs ← orPanic (routerAnnounce_encode ann []);
            let digest := GetDigest bs in
            mret (Add k digest merk))
     else mret emptyTree) r = Done merk r).
  { destruct (negb bloomMulticastEnabled); [apply fixMerks_tree_run|].
    eexists. reflexivity. }
  destruct Hmerk as [merk Hmerk].
  rewrite (bind_Done _ _ _ _ _ Hmerk).
  rewrite Hm, map_to_list_empty. reflexivity.
Qed.

(** X1. A node with a sound key pair starts without panicking and
    as its own root: after [init] the store holds exactly the node's own
    info, a root announcement (its own parent, port 0) with sequence
    number 1 that passes [routerAnnounce.check], with a refresh timer due
    after [routerRefresh] plus the jitter; no request is out, nothing has
    been sent, and the three flags that ask for a new parent are down. *)
Theorem init_becomes_root (c : core) (t0 : Z) :
  keypair_ok c ->
  let a := rootAnnounce c 0 0 in
  exists r,
    init c t0 = Done tt r
    /\ rcore r = c
    /\ infos r = {[ crypto_publicKey c := infoOf a ]}
    /\ timers r
       = {[ crypto_publicKey c :=
              {| timer_id := 0;
                 timer_due := t0 + (config_routerRefresh c
                                    + millisecond * mrandIntn1024 1) |} ]}
    /\ ann_seq a = 1 /\ ann_port a = 0 /\ ann_parent a = crypto_publicKey c
    /\ routerAnnounce_check a = Some true
    /\ rpeers r = [] /\ requests r = ∅ /\ responses r = [] /\ trace r = []
    /\ refresh r = false /\ doRoot1 r = false /\ doRoot2 r = false
    /\ fixTimer r = None.
Proof.
  intros Hkey a.
  destruct (becomeRoot_update (initRouter c t0) Hkey) as [Hcheck Hroot].
  cbn [rcore initRouter infos randCtr] in Hroot.
  rewrite lookup_empty in Hroot. cbn [default] in Hroot.
  change (info_seq zeroInfo) with 0 in Hroot. fold a in Hroot, Hcheck.
  destruct (update_new a (set_randCtr 1 (initRouter c t0)) (lookup_empty _))
    as (r2 & Hup & Hst).
  rewrite Hup in Hroot.
  destruct Hst as (Hi & Ht & _ & _ & Hc & Hn & Htr & Hp & Hm & _).
  set (r5 := set_resSeqCtr 0 (set_resSeqs ∅ (set_responses [] (set_requests ∅
               (set_fixTimer None (set_doRoot2 false (set_doRoot1 false
                  (set_refresh false r2)))))))).
  assert (Hrun : init c t0 = Done tt r5).
  { unfold init, _fix.
    rewrite (bind_Done get _ _ _ _ eq_refl).
    cbn -[_becomeRoot _sendReqs _fixMerks clearRootFlags _getRootAndDists].
    assert (Hnone : (if bool_decide (selfKey (initRouter c t0)
                                     ≠ selfKey (initRouter c t0))
                     then @None routerSigRes else None) = None)
      by now destruct (bool_decide _).
    rewrite Hnone. clear Hnone.
    assert (Hdec : (ok ← _becomeRoot;
                    (if negb ok then panic else mret tt);;
                    clearRootFlags;; modify (set_fixTimer None);; _sendReqs)
                     (initRouter c t0) = Done tt r5).
    { rewrite (bind_Done _ _ _ _ _ Hroot). cbn [negb].
      unfold clearRootFlags, _sendReqs, _clearReqs. munfold.
      cbn. rewrite Hp. reflexivity. }
    rewrite (bind_Done _ _ _ _ _ Hdec).
    apply fixMerks_no_peers. unfold r5. cbn. now rewrite Hm. }
  exists r5. split; [exact Hrun|].
  unfold r5. cbn.
  cbn in Hi, Ht, Hc, Htr, Hp. rewrite decide_True in Ht by done.
  rewrite Hi, Ht, Hc, Htr, Hp, !insert_empty.
  repeat split; done.
Qed.

(** X4. The handshake with a parent yields a valid
    announcement: the response [_handleRequest] of the parent sends to the
    requester carries the request and the port of the requester's link,
    and verifies under the parent's key ([routerSigRes.check]); and the
    info [_useResponse] of the requester stores from it, when [_update]
    accepts it, names the parent and that port and passes
    [routerAnnounce.check].  (Both key pairs sound; the link's port is
    not 0.) *)
Theorem handshake_valid (rp r : router) (p : peer) (req : routerSigReq) :
  keypair_ok (rcore rp) ->
  keypair_ok (rcore r) ->
  peer_key p = selfKey r ->
  peer_port p ≠ 0 ->
  exists res,
    _handleRequest p req rp = Done tt (sending (Send p (sendSigRes res)) rp)
    /\ res_req res = req
    /\ port res = peer_port p
    /\ routerSigRes_check res (selfKey r) (selfKey rp) = Some true
    /\ forall r', _useResponse (selfKey rp) res r = Done true r' ->
         exists i,
           infos r' !! selfKey r = Some i
           /\ info_parent i = selfKey rp
           /\ info_port i = peer_port p
           /\ routerAnnounce_check (getAnnounce i (selfKey r)) = Some true.
Proof.
  intros Hkp Hkr Hp Hport.
  set (bs := wireAppendUint (peer_key p ++ selfKey rp ++ sigReq_bytes req)
               (peer_port p)).
  set (res := {| res_req := req; port := peer_port p;
                 psig := sign (crypto_privateKey (rcore rp)) bs |}).
  assert (Hbs : routerSigRes_bytesForSig res (selfKey r) (selfKey rp) = Some bs).
  { rewrite routerSigRes_bytesForSig_eq. unfold bs. now rewrite Hp. }
  exists res. split; [|split; [done|split; [done|split]]].
  - unfold _handleRequest.
    rewrite (bind_Done get _ _ _ _ eq_refl).
    rewrite routerSigRes_bytesForSig_eq. cbn [res_req port orPanic].
    rewrite (bind_Done (mret _) _ _ _ _ eq_refl). reflexivity.
  - unfold routerSigRes_check. rewrite Hbs. cbn [psig res]. f_equal. apply Hkp.
  - intros r' Hrun. unfold _useResponse in Hrun.
    rewrite (bind_Done get _ _ _ _ eq_refl) in Hrun.
    rewrite Hbs in Hrun. cbn [orPanic] in Hrun.
    rewrite (bind_Done (mret _) _ _ _ _ eq_refl) in Hrun.
    apply bind_Done_inv in Hrun as (ok & r1 & Hup & Hret).
    assert (ok = true) as -> by (destruct ok; [done | discriminate]).
    injection Hret as <-.
    apply update_true_inv in Hup as (Hi & _).
    rewrite Hi. cbn [ann_key getAnnounce]. rewrite lookup_insert_eq.
    eexists. split; [reflexivity|]. split; [reflexivity|].
    split; [reflexivity|].
    unfold routerAnnounce_check. cbn.
    destruct (peer_port p =? 0) eqn:E0; [apply Z.eqb_eq in E0; done|].
    cbn [andb]. change (routerSigRes_bytesForSig _ _ _)
      with (routerSigRes_bytesForSig res (selfKey r) (selfKey rp)).
    rewrite Hbs. f_equal. apply andb_true_intro. split; [apply Hkr | apply Hkp].
Qed.

End Init.

(** Witness: node [[5]] of the example environment. *)
Lemma init_becomes_root_witness :
  exists r,
    @init exampleEnv (exampleCore 5 3) 0 = Done tt r
    /\ rcore r = exampleCore 5 3
    /\ infos r = {[ [5] := infoOf (@rootAnnounce exampleEnv (exampleCore 5 3) 0 0) ]}.
Proof.
  destruct (@init_becomes_root exampleEnv (exampleCore 5 3) 0)
    as (r & Hrun & Hc & Hi & _).
  - intros bs. apply bool_decide_eq_true_2. reflexivity.
  - exists r. split; [exact Hrun|]. split; [exact Hc | exact Hi].
Defined.

(** Witness: node [[3]] answers the request of its peer [[5]] on port 1. *)
Lemma handshake_valid_witness :
  let rp := exampleNode 3 10 in
  let r := exampleNode 5 10 in
  let p := {| peer_key := [5]; peer_port := 1; peer_prio := 0; peer_time := 0 |} in
  exists res,
    @_handleRequest exampleEnv p (RouterSigReq 2 9) rp
    = Done tt (sending (Send p (sendSigRes res)) rp)
    /\ @routerSigRes_check exampleEnv res [5] [3] = Some true.
Proof.
  intros rp r p.
  destruct (@handshake_valid exampleEnv rp r p (RouterSigReq 2 9))
    as (res & Hrun & _ & _ & Hcheck & _).
  - intros bs. apply bool_decide_eq_true_2. reflexivity.
  - intros bs. apply bool_decide_eq_true_2. reflexivity.
  - reflexivity.
  - discriminate.
  - exists res. split; [exact Hrun | exact Hcheck].
Defined.

(** ** The announcement store: idempotence and convergence *)

Section Converge.
Context `{Env}.

Lemma lex_lt_irrefl (k : list Z) : ~ lex_lt k k.
Proof.
  intros Hk. apply treeLess_lex_lt in Hk. now rewrite treeLess_irrefl in Hk.
Qed.

Lemma lex_lt_asym (k1 k2 : list Z) : lex_lt k1 k2 -> ~ lex_lt k2 k1.
Proof.
  intros H12 H21. apply (lex_lt_irrefl k1). eapply lex_lt_trans; eassumption.
Qed.

Lemma lex_lt_total (k1 k2 : list Z) :
  length k1 = length k2 -> k1 ≠ k2 -> lex_lt k1 k2 \/ lex_lt k2 k1.
Proof.
  intros Hlen Hne. rewrite <- !treeLess_lex_lt.
  destruct (treeLess k1 k2) eqn:E1; [now left|].
  destruct (treeLess k2 k1) eqn:E2; [now right|].
  destruct Hne. now apply treeLess_total.
Qed.

Lemma crdt_accepts_asym (a b : routerAnnounce) :
  crdt_accepts a (infoOf b) -> ~ crdt_accepts b (infoOf a).
Proof.
  unfold crdt_accepts, infoOf, info_seq, info_nonce, ann_seq, ann_nonce.
  cbn [info_parent info_res].
  intros [Hs | (Hs & [Hp | (Hp & Hn)])] [Hs' | (Hs' & [Hp' | (Hp' & Hn')])];
    try lia.
  - now apply (lex_lt_asym _ _ Hp).
  - rewrite Hp' in Hp. now apply lex_lt_irrefl in Hp.
  - rewrite Hp in Hp'. now apply lex_lt_irrefl in Hp'.
Qed.

Lemma crdt_accepts_trans (a b : routerAnnounce) (i : routerInfo) :
  crdt_accepts a (infoOf b) -> crdt_accepts b i -> crdt_accepts a i.
Proof.
  unfold crdt_accepts, infoOf, info_seq, info_nonce, ann_seq, ann_nonce.
  cbn [info_parent info_res].
  intros [Hs | (Hs & [Hp | (Hp & Hn)])] [Hs' | (Hs' & [Hp' | (Hp' & Hn')])];
    try (left; lia); right; (split; [lia|]).
  - left. eapply lex_lt_trans; eassumption.
  - left. now rewrite <- Hp'.
  - left. now rewrite Hp.
  - right. split; [congruence | lia].
Qed.

Lemma crdt_accepts_total (a b : routerAnnounce) :
  length (ann_parent a) = length (ann_parent b) ->
  ann_seq a ≠ ann_seq b \/ ann_parent a ≠ ann_parent b
  \/ ann_nonce a ≠ ann_nonce b ->
  crdt_accepts a (infoOf b) \/ crdt_accepts b (infoOf a).
Proof.
  unfold crdt_accepts, infoOf, info_seq, info_nonce, ann_seq, ann_nonce.
  cbn [info_parent info_res]. intros Hlen Hne.
  destruct (Z.lt_trichotomy (seq (res_req (ann_res a))) (seq (res_req (ann_res b))))
    as [Hs | [Hs | Hs]]; [right; left; lia | | left; left; lia].
  destruct (decide (ann_parent a = ann_parent b)) as [Hp | Hp].
  - destruct (Z.lt_trichotomy (nonce (res_req (ann_res a)))
                (nonce (res_req (ann_res b)))) as [Hn | [Hn | Hn]].
    + left. right. split; [done|]. right. done.
    + destruct Hne as [? | [? | ?]]; done.
    + right. right. split; [done|]. right. done.
  - destruct (lex_lt_total _ _ Hlen Hp) as [Hl | Hl].
    + left. right. split; [done|]. now left.
    + right. right. split; [done|]. now left.
Qed.

(** One [_update]: the announcement replaces the stored info exactly when
    it beats it in the ordering table, or when nothing is stored. *)
Lemma update_step (a : routerAnnounce) (r : router) :
  (forall i, infos r !! ann_key a = Some i ->
     length (ann_parent a) = length (info_parent i)) ->
  exists x r',
    _update a r = Done x r'
    /\ ((x = true /\ infos r' = <[ann_key a := infoOf a]> (infos r)
         /\ forall i, infos r !! ann_key a = Some i -> crdt_accepts a i)
        \/ (x = false /\ r' = r
            /\ exists i, infos r !! ann_key a = Some i /\ ~ crdt_accepts a i)).
Proof.
  intros Hlen. destruct (infos r !! ann_key a) as [i|] eqn:Hi.
  - destruct (update_known r a i Hi (Hlen i eq_refl))
      as [[Hacc [r' Hrun]] | [Hrej Hrun]].
    + exists true, r'. split; [done|]. left. split; [done|].
      apply update_true_inv in Hrun as (Hst & _). split; [done|].
      now intros ? [= <-].
    + exists false, r. split; [done|]. right. eauto.
  - destruct (update_new a r Hi) as (r' & Hrun & Hst & _).
    exists true, r'. split; [done|]. left. split; [done|]. split; [done|].
    intros ? [=].
Qed.

(** X19. The store entry of a key converges: handing an accepted
    announcement to [_update] once more changes nothing, and two
    announcements of one key that differ in sequence number, parent or
    nonce leave the same infos behind in whichever order [_update]
    receives them.  (Parents are keys of the one key length.) *)
Theorem update_converges (a b : routerAnnounce) (r : router) :
  ann_key a = ann_key b ->
  length (ann_parent a) = length (ann_parent b) ->
  (forall i, infos r !! ann_key a = Some i ->
     length (info_parent i) = length (ann_parent a)) ->
  ann_seq a ≠ ann_seq b \/ ann_parent a ≠ ann_parent b
  \/ ann_nonce a ≠ ann_nonce b ->
  (forall r1, _update a r = Done true r1 -> _update a r1 = Done false r1)
  /\ exists x1 r1 x2 r2 y1 r1' y2 r2',
       _update a r = Done x1 r1 /\ _update b r1 = Done x2 r2
       /\ _update b r = Done y1 r1' /\ _update a r1' = Done y2 r2'
       /\ infos r2 = infos r2'.
Proof.
  intros Hk Hab Hlen Hne. split.
  { intros r1 Hrun. apply update_true_inv in Hrun as (Hi & _).
    assert (Hi1 : infos r1 !! ann_key a = Some (infoOf a))
      by now rewrite Hi, lookup_insert_eq.
    destruct (update_known r1 a (infoOf a) Hi1 eq_refl)
      as [[Hacc _] | [_ Hrej]]; [|done].
    destruct (crdt_accepts_asym a a Hacc Hacc). }
  assert (Hlen_a : forall i, infos r !! ann_key a = Some i ->
            length (ann_parent a) = length (info_parent i)).
  { intros i Hi. symmetry. now apply Hlen. }
  assert (Hlen_b : forall i, infos r !! ann_key b = Some i ->
            length (ann_parent b) = length (info_parent i)).
  { intros i Hi. rewrite <- Hk in Hi. rewrite <- Hab. now apply Hlen_a. }
  destruct (update_step a r Hlen_a) as (x1 & r1 & E1 & Ha).
  destruct (update_step b r Hlen_b) as (y1 & r1' & E1' & Hb).
  assert (Hlen_b1 : forall i, infos r1 !! ann_key b = Some i ->
            length (ann_parent b) = length (info_parent i)).
  { intros i Hi. destruct Ha as [(_ & Hi1 & _) | (_ & -> & _)]; [|auto].
    rewrite Hi1, <- Hk, lookup_insert_eq in Hi. injection Hi as <-.
    now symmetry. }
  assert (Hlen_a1 : forall i, infos r1' !! ann_key a = Some i ->
            length (ann_parent a) = length (info_parent i)).
  { intros i Hi. destruct Hb as [(_ & Hi1 & _) | (_ & -> & _)]; [|auto].
    rewrite Hi1, Hk, lookup_insert_eq in Hi. now injection Hi as <-. }
  destruct (update_step b r1 Hlen_b1) as (x2 & r2 & E2 & Hb2).
  destruct (update_step a r1' Hlen_a1) as (y2 & r2' & E2' & Ha2).
  exists x1, r1, x2, r2, y1, r1', y2, r2'. repeat (split; [done|]).
  destruct Ha as [(_ & Hi1 & HA) | (_ & -> & iA & HiA & HnA)],
           Hb as [(_ & Hi1' & HB) | (_ & -> & iB & HiB & HnB)].
  - (* both beat what is stored *)
    destruct Hb2 as [(_ & Hi2 & HBA) | (_ & -> & i2 & Hi2 & HnBA)],
             Ha2 as [(_ & Hi2' & HAB) | (_ & -> & i2' & Hi2' & HnAB)].
    + exfalso. apply (crdt_accepts_asym a b).
      * apply HAB. now rewrite Hi1', Hk, lookup_insert_eq.
      * apply HBA. now rewrite Hi1, <- Hk, lookup_insert_eq.
    + rewrite Hi2, Hi1, Hi1', <- Hk. now rewrite insert_insert_eq.
    + rewrite Hi2', Hi1, Hi1', Hk. now rewrite insert_insert_eq.
    + exfalso. rewrite Hi1, <- Hk, lookup_insert_eq in Hi2. injection Hi2 as <-.
      rewrite Hi1', Hk, lookup_insert_eq in Hi2'. injection Hi2' as <-.
      destruct (crdt_accepts_total a b Hab Hne); done.
  - (* only [a] beats what is stored *)
    rewrite <- Hk in HiB.
    destruct Ha2 as [(_ & Hi2' & _) | (_ & -> & i2' & Hi2' & HnAB)].
    2:{ rewrite HiB in Hi2'. injection Hi2' as <-.
        destruct HnAB. now apply HA. }
    destruct Hb2 as [(_ & Hi2 & HBA) | (_ & -> & _)].
    + exfalso. apply HnB. apply (crdt_accepts_trans b a); [|now apply HA].
      apply HBA. now rewrite Hi1, <- Hk, lookup_insert_eq.
    + now rewrite Hi2', Hi1.
  - (* only [b] beats what is stored *)
    assert (HiA' : infos r !! ann_key b = Some iA) by now rewrite <- Hk.
    destruct Hb2 as [(_ & Hi2 & _) | (_ & -> & i2 & Hi2 & HnBA)].
    2:{ rewrite HiA' in Hi2. injection Hi2 as <-.
        destruct HnBA. now apply HB. }
    destruct Ha2 as [(_ & Hi2' & HAB) | (_ & -> & _)].
    + exfalso. apply HnA. apply (crdt_accepts_trans a b); [|now apply HB].
      apply HAB. now rewrite Hi1', Hk, lookup_insert_eq.
    + now rewrite Hi2, Hi1'.
  - (* neither does *)
    destruct Hb2 as [(_ & _ & HBA) | (_ & -> & _)].
    { rewrite <- Hk in HiB. destruct HnB. apply HBA. now rewrite <- Hk. }
    destruct Ha2 as [(_ & _ & HAB) | (_ & -> & _)]; [|done].
    destruct HnA. now apply HAB.
Qed.

End Converge.

(** Witness: node [[5]] hears of node [[3]] with sequence numbers 1 and 2,
    in both orders. *)
Lemma update_converges_witness :
  let a := exampleRootAnnounce 3 1 7 in
  let b := exampleRootAnnounce 3 2 8 in
  let r := exampleNode 5 10 in
  exists x1 r1 x2 r2 y1 r1' y2 r2',
    @_update exampleEnv a r = Done x1 r1 /\ @_update exampleEnv b r1 = Done x2 r2
    /\ @_update exampleEnv b r = Done y1 r1' /\ @_update exampleEnv a r1' = Done y2 r2'
    /\ infos r2 = infos r2'.
Proof.
  intros a b r.
  apply (@update_converges exampleEnv a b r).
  - reflexivity.
  - reflexivity.
  - intros i Hi. vm_compute in Hi. discriminate.
  - left. vm_compute. discriminate.
Defined.

(** ** Forwarding: the next hop is closer *)

Section Closer.
Context `{Env}.

Lemma fold_lookup_link (ps : list peer) :
  forall bestPeer,
    fold_left lookup_link ps bestPeer = bestPeer
    \/ exists p, p ∈ ps /\ fold_left lookup_link ps bestPeer = Some p.
Proof.
  induction ps as [|q ps IH]; intros bestPeer; cbn [fold_left]; [now left|].
  destruct (IH (lookup_link bestPeer q)) as [E | (p & Hp & E)].
  - rewrite E. unfold lookup_link. destruct bestPeer as [best|].
    + destruct (peer_prio q >? peer_prio best); [now left|].
      destruct (peer_time q >? peer_time best); [now left|].
      right. exists q. split; [apply list_elem_of_here | done].
    + right. exists q. split; [apply list_elem_of_here | done].
  - right. exists p. split; [now apply list_elem_of_further | done].
Qed.

(** The loop of [_lookup] over the peers: the link it holds belongs to a
    key it has visited that is closer than the node itself. *)
Lemma lookup_fold_closer (path : list Z) (dself : Z)
  (l : list (list Z * list peer)) :
  forall seen bestPeer bestDist r,
    bestDist <= dself ->
    (forall p, bestPeer = Some p ->
       exists k ps, (k, ps) ∈ seen /\ p ∈ ps
                    /\ pathDist (cachedPath r k) path < dself) ->
    exists bestPeer' bestDist' r',
      foldEach l (bestPeer, bestDist) (fun '(bestPeer, bestDist) '(k, ps) =>
        dist ← _getDist path k;
        if dist <? bestDist
        then mret (fold_left lookup_link ps bestPeer, dist)
        else mret (bestPeer, bestDist)) r = Done (bestPeer', bestDist') r'
      /\ (forall k, cachedPath r' k = cachedPath r k)
      /\ forall p, bestPeer' = Some p ->
           exists k ps, (k, ps) ∈ seen ++ l /\ p ∈ ps
                        /\ pathDist (cachedPath r k) path < dself.
Proof.
  induction l as [|[k ps] l IH]; intros seen bestPeer bestDist r Hle Hinv;
    cbn [foldEach].
  - rewrite app_nil_r. eexists _, _, _. split; [reflexivity|]. split; done.
  - rewrite (bind_Done (_getDist path k ≫= _) _ r
               (if pathDist (cachedPath r k) path <? bestDist
                then (fold_left lookup_link ps bestPeer,
                      pathDist (cachedPath r k) path)
                else (bestPeer, bestDist))
               (set_cache (<[k := cachedPath r k]> (cache r)) r)).
    2:{ rewrite (bind_Done _ _ _ _ _ (getDist_run_eq r path k)).
        now destruct (_ <? _). }
    set (r1 := set_cache (<[k := cachedPath r k]> (cache r)) r).
    assert (Hcp : forall k', cachedPath r1 k' = cachedPath r k')
      by (intros k'; apply cachedPath_cached).
    replace (seen ++ (k, ps) :: l) with ((seen ++ [(k, ps)]) ++ l)
      by now rewrite <- app_assoc.
    assert (Hkeep : forall p, bestPeer = Some p ->
              exists k0 ps0, (k0, ps0) ∈ seen ++ [(k, ps)] /\ p ∈ ps0
                /\ pathDist (cachedPath r1 k0) path < dself).
    { intros p Hp. destruct (Hinv p Hp) as (k0 & ps0 & Hin & Hpp & Hd).
      exists k0, ps0. split; [apply elem_of_app; now left|].
      split; [done|]. now rewrite Hcp. }
    destruct (Z.ltb_spec (pathDist (cachedPath r k) path) bestDist) as [Hlt|Hge].
    + destruct (IH (seen ++ [(k, ps)]) (fold_left lookup_link ps bestPeer)
                  (pathDist (cachedPath r k) path) r1)
        as (bp & bd & r' & E & Hcp' & Hinv'); [lia | |].
      { intros p Hp.
        destruct (fold_lookup_link ps bestPeer) as [E | (q & Hq & E)];
          rewrite E in Hp.
        - auto.
        - injection Hp as <-. exists k, ps.
          split; [apply elem_of_app; right; apply list_elem_of_here|].
          split; [done|]. rewrite Hcp. lia. }
      exists bp, bd, r'. split; [done|]. split.
      * intros k'. now rewrite Hcp', Hcp.
      * intros p Hp. destruct (Hinv' p Hp) as (k0 & ps0 & ? & ? & Hd).
        exists k0, ps0. rewrite <- Hcp. done.
    + destruct (IH (seen ++ [(k, ps)]) bestPeer bestDist r1)
        as (bp & bd & r' & E & Hcp' & Hinv'); [lia | done |].
      exists bp, bd, r'. split; [done|]. split.
      * intros k'. now rewrite Hcp', Hcp.
      * intros p Hp. destruct (Hinv' p Hp) as (k0 & ps0 & ? & ? & Hd).
        exists k0, ps0. rewrite <- Hcp. done.
Qed.

(** X20. The next hop [_lookup] returns is a link of a peered key
    that is strictly closer to the destination than the node itself: its
    distance from the packet's path is below the node's own distance,
    which is the watermark the packet leaves with.  (Distances are taken
    by the cached paths, which [_lookup] only adds to.) *)
Theorem lookup_next_hop_closer (tr tr' : traffic) (p : peer) (r r' : router) :
  _lookup tr r = Done (Some p, tr') r' ->
  exists k ps,
    (k, ps) ∈ rpeers r /\ p ∈ ps
    /\ pathDist (cachedPath r k) (tr_path tr) < tr_watermark tr'
    /\ tr_watermark tr' = pathDist (cachedPath r (selfKey r)) (tr_path tr)
    /\ forall k', cachedPath r' k' = cachedPath r k'.
Proof.
  unfold _lookup. intros Hrun.
  rewrite (bind_Done get _ r r r eq_refl) in Hrun.
  rewrite (bind_Done _ _ _ _ _ (getDist_run_eq r (tr_path tr) (selfKey r)))
    in Hrun.
  set (dself := pathDist (cachedPath r (selfKey r)) (tr_path tr)) in *.
  set (r1 := set_cache (<[selfKey r := cachedPath r (selfKey r)]> (cache r)) r)
    in *.
  destruct (dself <? tr_watermark tr); [|discriminate].
  cbn [tr_path] in Hrun.
  destruct (lookup_fold_closer (tr_path tr) dself (rpeers r) [] None dself r1)
    as (bp & bd & r2 & E & Hcp & Hinv); [lia | intros ? [=] |].
  rewrite (bind_Done _ _ _ _ _ E) in Hrun. cbn [fst] in Hrun.
  injection Hrun as -> <- <-. cbn [tr_watermark].
  destruct (Hinv p eq_refl) as (k & ps & Hin & Hp & Hd).
  exists k, ps. cbn [app] in Hin. split; [done|]. split; [done|].
  assert (Hcp1 : forall k', cachedPath r1 k' = cachedPath r k')
    by (intros k'; apply cachedPath_cached).
  split; [now rewrite <- Hcp1|]. split; [done|].
  intros k'. now rewrite Hcp, Hcp1.
Qed.

End Closer.

(** Witness: at the root [[1]] the packet for a child of [[4]] goes to a
    link of [[2]], two hops from the destination where the root is
    three. *)
Lemma lookup_next_hop_closer_witness :
  exists k ps,
    (k, ps) ∈ rpeers (exampleRoot linkB linkA) /\ linkB ∈ ps
    /\ pathDist (cachedPath (exampleRoot linkB linkA) k) [7; 9; 3] < 3.
Proof.
  pose (tr' := {| tr_path := [7; 9; 3]; tr_watermark := 3; tr_source := [8];
                  tr_dest := [6]; tr_payload := [] |}).
  pose (r' := stateOf (_lookup examplePacket (exampleRoot linkB linkA))
                (exampleRoot linkB linkA)).
  assert (E : _lookup examplePacket (exampleRoot linkB linkA)
              = Done (Some linkB, tr') r') by (vm_compute; reflexivity).
  destruct (lookup_next_hop_closer examplePacket tr' linkB _ r' E)
    as (k & ps & Hin & Hp & Hd & _).
  exists k, ps. exact (conj Hin (conj Hp Hd)).
Defined.

(** ** Timer identity *)

#[global] Instance fresh_step_preorder : PreOrder fresh_step.
Proof.
  split.
  - intros r. split; done.
  - intros r1 r2 r3 [A1 A2] [B1 B2]. split; [lia | auto].
Qed.

Section TimerIdentity.
Context `{Env}.

(** A change of a field other than the timers and their counter. *)
Lemma modify_fresh_step (f : router -> router) :
  (forall r, timers (f r) = timers r) ->
  (forall r, nextTimer (f r) = nextTimer r) ->
  preserves fresh_step (modify f).
Proof.
  intros Ht Hn. apply preserves_modify. intros r.
  split; [now rewrite Hn|]. unfold timers_fresh. now rewrite Ht, Hn.
Qed.

Lemma update_fresh_step (a : routerAnnounce) : preserves fresh_step (_update a).
Proof.
  intros r x r' E. destruct (update_run r a) as [E' | (r1 & E' & Hst)];
    rewrite E' in E; injection E as <- <-; [reflexivity|].
  destruct Hst as (_ & Ht & _ & Hn & _). split; [lia|].
  unfold timers_fresh. rewrite Ht, Hn. intros Hfresh.
  apply map_Forall_insert_2; [cbn; lia|].
  eapply map_Forall_impl; [exact Hfresh|]. cbn. intros; lia.
Qed.

Ltac fresh_tac :=
  first
    [ apply update_fresh_step
    | apply modify_fresh_step; intros ?; reflexivity
    | apply preserves_ret; tc_solve
    | apply preserves_get; tc_solve
    | apply preserves_panic
    | apply preserves_orPanic; tc_solve
    | apply preserves_forEach; [tc_solve | intros ?]
    | apply preserves_foldEach; [tc_solve | intros ? ?]
    | apply preserves_bind; [tc_solve | | intros ?]
    | match goal with
      | |- preserves _ (if ?b then _ else _) => destruct b
      | |- preserves _ (match ?x with _ => _ end) => destruct x
      | |- preserves _ (let '(_, _) := ?x in _) => destruct x
      end ].

Lemma emit_fresh_step (a : action) : preserves fresh_step (emit a).
Proof. unfold emit. repeat fresh_tac. Qed.

Lemma newReq_fresh_step : preserves fresh_step _newReq.
Proof. unfold _newReq. repeat fresh_tac. Qed.

Lemma sendReqs_fresh_step : preserves fresh_step _sendReqs.
Proof.
  unfold _sendReqs, _clearReqs.
  repeat first [apply newReq_fresh_step | apply emit_fresh_step | fresh_tac].
Qed.

Lemma fixMerks_fresh_step : preserves fresh_step _fixMerks.
Proof.
  unfold _fixMerks.
  repeat first [apply emit_fresh_step | fresh_tac].
Qed.

Lemma useResponse_fresh_step (pk : list Z) (res : routerSigRes) :
  preserves fresh_step (_useResponse pk res).
Proof. unfold _useResponse. repeat fresh_tac. Qed.

Lemma becomeRoot_fresh_step : preserves fresh_step _becomeRoot.
Proof.
  unfold _becomeRoot. repeat first [apply newReq_fresh_step | fresh_tac].
Qed.

Lemma fix_fresh_step : preserves fresh_step _fix.
Proof.
  unfold _fix, clearRootFlags.
  apply preserves_bind; [tc_solve | apply preserves_get; tc_solve | intros r].
  destruct (match alookup _ (rpeers r) with Some _ => _ | None => _ end)
    as [bestRoot0 bestParent0].
  destruct (fold_left _ _ _) as [bestRoot bestParent].
  apply preserves_bind; [tc_solve | | intros _; apply fixMerks_fresh_step].
  destruct (_ || _ || _ || _); [|apply preserves_ret; tc_solve].
  destruct (if bool_decide (bestRoot ≠ selfKey r) then _ else _) as [res|].
  - repeat first [apply useResponse_fresh_step | apply sendReqs_fresh_step
                 | fresh_tac].
  - repeat first [apply becomeRoot_fresh_step | apply sendReqs_fresh_step
                 | fresh_tac].
Qed.

Ltac fresh_handler :=
  repeat first
    [ apply fix_fresh_step | apply fixMerks_fresh_step | apply sendReqs_fresh_step
    | apply newReq_fresh_step | apply emit_fresh_step | fresh_tac ].

Lemma handleAnnounce_fresh_step (sender : peer) (a : routerAnnounce) :
  preserves fresh_step (_handleAnnounce sender a).
Proof.
  unfold _handleAnnounce, _resetCache.
  apply preserves_bind; [tc_solve | apply preserves_get; tc_solve | intros r].
  destruct (if Z.of_nat (size (infos r)) <? _ then _ else _)
    as [[doUpdate worst] found].
  destruct (negb doUpdate); [apply preserves_ret; tc_solve|].
  apply preserves_bind; [tc_solve | apply update_fresh_step | intros ok].
  destruct ok; [|apply preserves_ret; tc_solve].
  apply preserves_bind; [tc_solve | | intros _; fresh_handler].
  destruct found; [|apply preserves_ret; tc_solve].
  apply preserves_bind; [tc_solve | apply preserves_get; tc_solve | intros r1].
  destruct (timers r1 !! worst); [|apply preserves_panic].
  apply preserves_bind; [tc_solve | fresh_handler | intros _].
  apply preserves_bind; [tc_solve | | intros _; fresh_handler].
  apply preserves_modify. intros r2. split; [reflexivity|].
  unfold timers_fresh. cbn. apply map_Forall_delete.
Qed.

Lemma timerCallback_fresh_step (key : list Z) (tm : timer) :
  preserves fresh_step (timerCallback key tm).
Proof.
  intros r [] r' E. unfold timerCallback, _resetCache in E.
  rewrite (bind_Done get _ _ _ _ eq_refl) in E.
  destruct (timers r !! key) as [cur|] eqn:Ht; [|injection E as <-; reflexivity].
  destruct (decide (timer_id cur = timer_id tm)); [|injection E as <-; reflexivity].
  destruct (decide (key = selfKey r)).
  - assert (P : preserves fresh_step (modify (set_refresh true);; _fix))
      by fresh_handler.
    exact (P _ _ _ E).
  - destruct (bool_decide (infos r !! key = None) || _).
    + apply bind_Done_inv in E as ([] & r1 & E1 & E).
      apply bind_Done_inv in E as ([] & r2 & E2 & E).
      apply bind_Done_inv in E as ([] & r3 & E3 & E).
      apply fix_fresh_step in E. etransitivity; [|exact E].
      injection E1 as <-. injection E2 as <-. injection E3 as <-.
      split; [reflexivity|]. unfold timers_fresh. cbn. apply map_Forall_delete.
    + apply bind_Done_inv in E as ([] & r1 & E1 & E).
      apply bind_Done_inv in E as ([] & r2 & E2 & E).
      apply fix_fresh_step in E. etransitivity; [|exact E].
      injection E1 as <-. injection E2 as <-.
      split; [reflexivity|]. unfold timers_fresh. cbn. intros Hfresh.
      apply map_Forall_insert_2; [|done]. cbn. exact (Hfresh key cur Ht).
Qed.

Lemma fireTimer_fresh_step (key : list Z) : preserves fresh_step (fireTimer key).
Proof.
  unfold fireTimer.
  apply preserves_bind; [tc_solve | apply preserves_get; tc_solve | intros r].
  destruct (timers r !! key); [|apply preserves_ret; tc_solve].
  apply preserves_bind; [tc_solve | fresh_handler | intros _].
  apply timerCallback_fresh_step.
Qed.

Lemma lookup_fresh_step (tr : traffic) : preserves fresh_step (handleTraffic tr).
Proof.
  unfold handleTraffic, _lookup, _getDist.
  apply preserves_bind; [tc_solve | | intros [next tr']; fresh_handler].
  apply preserves_bind; [tc_solve | apply preserves_get; tc_solve | intros r].
  apply preserves_bind; [tc_solve | fresh_handler | intros d].
  destruct (d <? tr_watermark tr); [|apply preserves_ret; tc_solve].
  apply preserves_bind; [tc_solve | | intros ?; apply preserves_ret; tc_solve].
  apply preserves_foldEach; [tc_solve | intros [bp bd] [k ps]].
  apply preserves_bind; [tc_solve | fresh_handler | intros d'].
  destruct (d' <? bd); apply preserves_ret; tc_solve.
Qed.

(** X21. Timers are told apart by their identity, and every timer
    [_update] creates gets a new one: [init] ends with every stored timer
    older than the next to be created, and the handlers keep it so.
    Hence the callback of a timer that [_update] has replaced does
    nothing when it still fires, and neither does the callback of a timer
    whose entry is gone. *)
Theorem stale_timer_ignored :
  (forall c t0 r, init c t0 = Done tt r -> timers_fresh r)
  /\ (forall r r', timers_fresh r ->
        (exists sender a, _handleAnnounce sender a r = Done tt r')
        \/ (exists key, fireTimer key r = Done tt r')
        \/ (exists p, router_addPeer p r = Done tt r')
        \/ (exists p, router_removePeer p r = Done tt r')
        \/ (exists p res, _handleResponse p res r = Done tt r')
        \/ (exists tr, handleTraffic tr r = Done tt r') ->
        timers_fresh r')
  /\ (forall a r r1 old,
        timers_fresh r ->
        timers r !! ann_key a = Some old ->
        _update a r = Done true r1 ->
        timerCallback (ann_key a) old r1 = Done tt r1)
  /\ (forall key tm r,
        timers r !! key = None -> timerCallback key tm r = Done tt r).
Proof.
  split; [|split; [|split]].
  - intros c t0 r E. unfold init in E. apply fix_fresh_step in E.
    apply E. unfold timers_fresh. cbn. apply map_Forall_empty.
  - intros r r' Hfresh Hstep.
    assert (Hk : fresh_step r r').
    { destruct Hstep as [(s & a & E) | [(k & E) | [(p & E) | [(p & E) |
        [(p & q & E) | (tr & E)]]]]].
      - eapply handleAnnounce_fresh_step, E.
      - eapply fireTimer_fresh_step, E.
      - assert (P : preserves fresh_step (router_addPeer p))
          by (unfold router_addPeer; fresh_handler).
        exact (P _ _ _ E).
      - assert (P : preserves fresh_step (router_removePeer p))
          by (unfold router_removePeer; fresh_handler).
        exact (P _ _ _ E).
      - assert (P : preserves fresh_step (_handleResponse p q))
          by (unfold _handleResponse; fresh_handler).
        exact (P _ _ _ E).
      - eapply lookup_fresh_step, E. }
    now apply Hk.
  - intros a r r1 old Hfresh Hold Hup.
    apply update_true_inv in Hup as (_ & Ht & _).
    unfold timerCallback. rewrite (bind_Done get _ _ _ _ eq_refl).
    rewrite Ht, lookup_insert_eq. cbn [timer_id].
    rewrite decide_False; [done|].
    specialize (Hfresh _ _ Hold). cbn in Hfresh. lia.
  - intros key tm r Ht. unfold timerCallback.
    rewrite (bind_Done get _ _ _ _ eq_refl). now rewrite Ht.
Qed.

End TimerIdentity.

Lemma stale_timer_ignored_witness :
  let a := exampleRootAnnounce 3 2 8 in
  let r := afterAnnounce (exampleRootAnnounce 3 1 7) (exampleNode 5 10) in
  exists old r1,
    timers r !! ann_key a = Some old
    /\ @_update exampleEnv a r = Done true r1
    /\ @timerCallback exampleEnv (ann_key a) old r1 = Done tt r1.
Proof.
  intros a r.
  destruct (timers r !! ann_key a) as [old|] eqn:Hold;
    [|vm_compute in Hold; discriminate].
  destruct (@_update exampleEnv a r) as [[] r1|] eqn:Hup;
    [|vm_compute in Hup; discriminate ..].
  exists old, r1. split; [reflexivity|]. split; [reflexivity|].
  apply (proj1 (proj2 (proj2 (@stale_timer_ignored exampleEnv))) a r r1 old);
    [|exact Hold|exact Hup].
  unfold timers_fresh. apply (bool_decide_unpack _). vm_compute. exact I.
Defined.

(** ** The per-peer Merkle trees *)

Section MerkleSyncProofs.
Context `{Env}.

Lemma fixMerks_tree_eq (l : list (list Z * routerInfo)) :
  forall (acc : Tree) (r : router),
    foldEach l acc (fun merk '(k, info) =>
      let ann := getAnnounce info k in
      bs ← orPanic (routerAnnounce_encode ann []);
      let digest := GetDigest bs in
      mret (Add k digest merk)) r
    = Done (fold_left (fun merk '(k, info) =>
              Add k (GetDigest (announce_bytes (getAnnounce info k))) merk)
            l acc) r.
Proof.
  induction l as [|[k info] l IH]; intros acc r; cbn [foldEach fold_left].
  - reflexivity.
  - rewrite routerAnnounce_encode_eq. cbn [orPanic].
    exact (IH _ r).
Qed.

(** The messages to the peers of one key. *)
Lemma fixMerks_peers_run (res : routerMerkleRes) (ps : list peer) :
  forall r, exists r',
    forEach ps (fun p =>
      emit (Send p (sendMerkleRes res));;
      emit (Send p (sendMerkleReq zeroMerkleReq))) r = Done tt r'
    /\ same_store r r' /\ merks r' = merks r
    /\ trace r' = trace r ++ flat_map (fun p =>
         [Send p (sendMerkleRes res); Send p (sendMerkleReq zeroMerkleReq)]) ps.
Proof.
  induction ps as [|p ps IH]; intros r; cbn [forEach flat_map].
  - exists r. rewrite app_nil_r. repeat split.
  - destruct (IH (sending (Send p (sendMerkleReq zeroMerkleReq))
                    (sending (Send p (sendMerkleRes res)) r)))
      as (r' & E & Hs & Hm & Ht).
    exists r'. split; [exact E|]. split; [|split].
    + destruct Hs as (? & ? & ? & ? & ?). repeat split; assumption.
    + exact Hm.
    + rewrite Ht. cbn. rewrite <- !app_assoc. reflexivity.
Qed.

(** The loop of [_fixMerks] over a snapshot [l] of [r.merks]. *)
Lemma fixMerks_loop (merk : Tree) (l : list (list Z * Tree)) :
  forall r, exists r' sent,
    forEach l (fun '(k, orig) =>
      (if negb false then mret tt else panic);;
      if decide (Digest (Root merk) = Digest (Root orig)) then mret tt
      else
        modify (fun r => set_merks (<[k := merk]> (merks r)) r);;
        let res := {| mres_req := zeroMerkleReq; digest := Digest (Root merk) |} in
        let req := zeroMerkleReq in
        r ← get;
        forEach (default [] (alookup k (rpeers r))) (fun p =>
          emit (Send p (sendMerkleRes res));;
          emit (Send p (sendMerkleReq req)))) r = Done tt r'
    /\ same_store r r'
    /\ (forall k, merks r' !! k = Some merk \/ merks r' !! k = merks r !! k)
    /\ (forall k orig, (k, orig) ∈ l ->
          Digest (Root merk) ≠ Digest (Root orig) -> merks r' !! k = Some merk)
    /\ (forall k, (forall orig, (k, orig) ∈ l ->
                     Digest (Root merk) = Digest (Root orig)) ->
          merks r' !! k = merks r !! k)
    /\ trace r' = trace r ++ sent
    /\ sent = flat_map (fun '(k, orig) =>
         if decide (Digest (Root merk) = Digest (Root orig)) then []
         else flat_map (fun p =>
                [Send p (sendMerkleRes {| mres_req := zeroMerkleReq;
                                          digest := Digest (Root merk) |});
                 Send p (sendMerkleReq zeroMerkleReq)])
                (default [] (alookup k (rpeers r)))) l.
Proof.
  induction l as [|[k orig] l IH]; intros r; cbn [forEach flat_map].
  - exists r, []. rewrite app_nil_r. repeat split; auto.
    intros k orig Hin. inversion Hin.
  - destruct (decide (Digest (Root merk) = Digest (Root orig))) as [Heq|Hne].
    + destruct (IH r) as (r' & sent & E & Hs & Hany & Hdiff & Hsame & Ht & Hsent).
      exists r', sent. split; [exact E|]. split; [exact Hs|].
      split; [exact Hany|]. split; [|split; [|split; [exact Ht|exact Hsent]]].
      * intros k' orig' Hin Hd. apply elem_of_cons in Hin as [Hin|Hin].
        -- injection Hin as -> ->. contradiction.
        -- eauto.
      * intros k' Hall. apply Hsame. intros orig' Hin. apply (Hall orig').
        now apply list_elem_of_further.
    + set (res := {| mres_req := zeroMerkleReq; digest := Digest (Root merk) |}).
      set (r0 := set_merks (<[k := merk]> (merks r)) r).
      destruct (fixMerks_peers_run res (default [] (alookup k (rpeers r0))) r0)
        as (r1 & E1 & Hs1 & Hm1 & Ht1).
      destruct (IH r1) as (r' & sent & E & Hs & Hany & Hdiff & Hsame & Ht & Hsent).
      assert (Hp1 : rpeers r1 = rpeers r) by (destruct Hs1 as (_ & _ & -> & _); reflexivity).
      exists r'. eexists. split.
      { rewrite <- E. unfold mbind at 1, M_bind at 1.
        unfold mbind at 1, M_bind at 1. cbn [negb mret M_ret].
        unfold mbind at 1, M_bind at 1. unfold modify at 1.
        unfold mbind at 1, M_bind at 1. unfold get at 1.
        fold r0. fold res. rewrite E1. reflexivity. }
      split; [|split; [|split; [|split; [|split]]]].
      * destruct Hs1 as (? & ? & ? & ? & ?), Hs as (? & ? & ? & ? & ?).
        repeat split; etransitivity; eauto.
      * intros k'. destruct (Hany k') as [Hk|Hk]; [now left|].
        rewrite Hk, Hm1. cbn. destruct (decide (k = k')) as [->|Hkk].
        -- left. apply lookup_insert_eq.
        -- right. now apply lookup_insert_ne.
      * intros k' orig' Hin Hd. apply elem_of_cons in Hin as [Hin|Hin].
        -- injection Hin as -> ->. destruct (Hany k) as [Hk|Hk]; [exact Hk|].
           rewrite Hk, Hm1. apply lookup_insert_eq.
        -- eauto.
      * intros k' Hall. rewrite Hsame.
        -- rewrite Hm1. cbn. apply lookup_insert_ne. intros ->.
           apply Hne, Hall, list_elem_of_here.
        -- intros orig' Hin. apply (Hall orig'). now apply list_elem_of_further.
      * rewrite Ht, Ht1. cbn. rewrite <- app_assoc. reflexivity.
      * rewrite Hsent, Hp1. reflexivity.
Qed.

(** X22. With the Bloom multicast off, [_fixMerks] never panics and
    brings the tree kept for every peer key to the root digest of the tree
    of all stored announcements: it keeps the trees that had that digest,
    replaces the others, and sends a Merkle response with the new root
    digest followed by a root request to every link of a peer whose tree
    it replaced, and nothing to anybody else.  The store is untouched, and
    a second run changes and sends nothing. *)
Theorem fixMerks_sync (r : router) :
  bloomMulticastEnabled = false ->
  exists r',
    _fixMerks r = Done tt r'
    /\ same_store r r'
    /\ dom (merks r') = dom (merks r)
    /\ merks_synced r'
    /\ (forall k t, merks r !! k = Some t ->
          merks r' !! k =
            Some (if decide (Digest (Root (infosTree r)) = Digest (Root t))
                  then t else infosTree r))
    /\ trace r' = trace r ++
         flat_map (fun '(k, t) =>
           if decide (Digest (Root (infosTree r)) = Digest (Root t)) then []
           else flat_map (merkleRefresh r) (default [] (alookup k (rpeers r))))
           (map_to_list (merks r))
    /\ _fixMerks r' = Done tt r'.
Proof.
  intros Hb.
  assert (Hrun : forall r0, _fixMerks r0 =
    forEach (map_to_list (merks r0)) (fun '(k, orig) =>
      (if negb false then mret tt else panic);;
      if decide (Digest (Root (infosTree r0)) = Digest (Root orig)) then mret tt
      else
        modify (fun r => set_merks (<[k := infosTree r0]> (merks r)) r);;
        let res := {| mres_req := zeroMerkleReq;
                      digest := Digest (Root (infosTree r0)) |} in
        let req := zeroMerkleReq in
        r ← get;
        forEach (default [] (alookup k (rpeers r))) (fun p =>
          emit (Send p (sendMerkleRes res));;
          emit (Send p (sendMerkleReq req)))) r0).
  { intros r0. unfold _fixMerks. rewrite (bind_Done get _ _ _ _ eq_refl).
    rewrite Hb. cbn [negb].
    rewrite (bind_Done _ _ _ _ _ (fixMerks_tree_eq _ emptyTree r0)).
    reflexivity. }
  destruct (fixMerks_loop (infosTree r) (map_to_list (merks r)) r)
    as (r' & sent & E & Hs & Hany & Hdiff & Hsame & Ht & Hsent).
  assert (Hinfos : infosTree r' = infosTree r).
  { unfold infosTree. destruct Hs as (_ & _ & _ & -> & _). reflexivity. }
  assert (Hnew : forall k t, merks r !! k = Some t ->
    merks r' !! k =
      Some (if decide (Digest (Root (infosTree r)) = Digest (Root t))
            then t else infosTree r)).
  { intros k t Hk. destruct (decide _) as [Heq|Hne].
    - rewrite Hsame; [exact Hk|]. intros orig Hin.
      apply elem_of_map_to_list in Hin. congruence.
    - apply (Hdiff k t); [|exact Hne]. now apply elem_of_map_to_list. }
  assert (Hnone : forall k, merks r !! k = None -> merks r' !! k = None).
  { intros k Hk. rewrite Hsame; [exact Hk|]. intros orig Hin.
    apply elem_of_map_to_list in Hin. congruence. }
  assert (Hsync : merks_synced r').
  { intros k t Hk. cbn. rewrite Hinfos.
    destruct (merks r !! k) as [orig|] eqn:Hk0.
    - rewrite (Hnew _ _ Hk0) in Hk. injection Hk as <-.
      destruct (decide _); congruence.
    - rewrite (Hnone _ Hk0) in Hk. discriminate. }
  exists r'. split; [rewrite Hrun; exact E|]. split; [exact Hs|].
  split; [|split; [exact Hsync|split; [exact Hnew|split]]].
  - apply set_eq. intros k. rewrite !elem_of_dom.
    destruct (merks r !! k) as [orig|] eqn:Hk0.
    + rewrite (Hnew _ _ Hk0). split; eauto.
    + rewrite (Hnone _ Hk0). reflexivity.
  - rewrite Ht, Hsent. reflexivity.
  - rewrite Hrun, Hinfos.
    assert (Hidle : forall l r0,
      Forall (fun kt => Digest (Root (infosTree r)) = Digest (Root kt.2)) l ->
      forEach l (fun '(k, orig) =>
        (if negb false then mret tt else panic);;
        if decide (Digest (Root (infosTree r)) = Digest (Root orig)) then mret tt
        else
          modify (fun r1 => set_merks (<[k := infosTree r]> (merks r1)) r1);;
          let res := {| mres_req := zeroMerkleReq;
                        digest := Digest (Root (infosTree r)) |} in
          let req := zeroMerkleReq in
          r1 ← get;
          forEach (default [] (alookup k (rpeers r1))) (fun p =>
            emit (Send p (sendMerkleRes res));;
            emit (Send p (sendMerkleReq req)))) r0 = Done tt r0).
    { induction l as [|[k t] l IH]; intros r0 Hall; cbn [forEach]; [reflexivity|].
      inversion Hall as [|? ? Hd Hl]; subst. cbn in Hd.
      rewrite decide_True by exact Hd.
      exact (IH r0 Hl). }
    apply Hidle. apply Forall_forall. intros [k t] Hin.
    apply elem_of_map_to_list in Hin. cbn.
    symmetry. rewrite <- Hinfos. exact (Hsync k t Hin).
Qed.

End MerkleSyncProofs.

Lemma fixMerks_sync_witness :
  exists r',
    @_fixMerks exampleEnv (exampleRoot linkA linkB) = Done tt r'
    /\ @merks_synced exampleEnv r'
    /\ @_fixMerks exampleEnv r' = Done tt r'.
Proof.
  destruct (@fixMerks_sync exampleEnv (exampleRoot linkA linkB) eq_refl)
    as (r' & E & _ & _ & Hs & _ & _ & Hidle).
  exists r'. exact (conj E (conj Hs Hidle)).
Defined.

(** ** Requests and responses *)

#[global] Instance same_reqs_preorder : PreOrder same_reqs.
Proof.
  split.
  - intros r. repeat split.
  - intros r1 r2 r3 (A1 & A2 & A3 & A4 & A5) (B1 & B2 & B3 & B4 & B5).
    repeat split; congruence.
Qed.

#[global] Instance reqs_step_preorder : PreOrder reqs_step.
Proof.
  split.
  - intros r. left. reflexivity.
  - intros r1 r2 r3 A [B | (B1 & B2 & B3 & B4 & B5)].
    + destruct A as [A | (A1 & A2 & A3 & A4 & A5)].
      * left. now transitivity r2.
      * right. destruct B as (B1 & B2 & B3 & B4 & B5).
        rewrite B1, B2, B3, B4, B5. auto.
    + right. split; [|auto].
      destruct A as [(A1 & _) | (A1 & _)]; congruence.
Qed.

Section Requests.
Context `{Env}.

Lemma alookup_app {V : Type} (k : list Z) (l1 l2 : list (list Z * V)) :
  alookup k (l1 ++ l2) =
    match alookup k l1 with Some v => Some v | None => alookup k l2 end.
Proof.
  induction l1 as [|[k' v] l1 IH]; cbn; [reflexivity|].
  destruct (decide (k' = k)); [reflexivity | exact IH].
Qed.

Lemma alookup_adelete {V : Type} (k k' : list Z) (l : list (list Z * V)) :
  alookup k' (adelete k l) = if decide (k' = k) then None else alookup k' l.
Proof.
  unfold adelete. induction l as [|[k0 v] l IH].
  - cbn. now destruct (decide (k' = k)).
  - rewrite filter_cons. cbn [fst]. destruct (decide (k0 ≠ k)) as [Hne|Heq].
    + cbn [alookup]. destruct (decide (k0 = k')) as [->|Hk].
      * now rewrite decide_False.
      * exact IH.
    + apply dec_stable in Heq. subst k0. rewrite IH. cbn [alookup].
      destruct (decide (k' = k)) as [->|Hk]; [reflexivity|].
      rewrite decide_False by congruence. reflexivity.
Qed.

Lemma alookup_addLink (p : peer) (k : list Z) (l : list (list Z * list peer)) :
  is_Some (alookup k (addLink p l)) <-> k = peer_key p \/ is_Some (alookup k l).
Proof.
  induction l as [|[k0 ps] l IH]; cbn [addLink alookup].
  - destruct (decide (peer_key p = k)) as [<-|Hk].
    + split; eauto.
    + split; [intros [? ?]; discriminate|].
      intros [->|[? ?]]; [contradiction | discriminate].
  - destruct (decide (k0 = peer_key p)) as [->|Hk0]; cbn [alookup].
    + destruct (decide (peer_key p = k)) as [<-|Hk]; [split; eauto|].
      split; [eauto|]. intros [->|Hs]; [contradiction | exact Hs].
    + destruct (decide (k0 = k)) as [->|Hk]; [split; eauto|]. exact IH.
Qed.

Lemma alookup_removeLink (p : peer) (k : list Z) (l : list (list Z * list peer)) :
  is_Some (alookup k (removeLink p l)) <-> is_Some (alookup k l).
Proof.
  induction l as [|[k0 ps] l IH]; cbn [removeLink alookup]; [reflexivity|].
  destruct (decide (k0 = peer_key p)) as [->|Hk0]; cbn [alookup].
  - destruct (decide (peer_key p = k)); [split; eauto | reflexivity].
  - destruct (decide (k0 = k)); [split; eauto | exact IH].
Qed.

Lemma alookup_is_Some {V : Type} (k : list Z) (l : list (list Z * V)) :
  is_Some (alookup k l) <-> k ∈ l.*1.
Proof.
  induction l as [|[k' v] l IH]; cbn.
  - split; [intros [? ?]; discriminate | intros Hin; inversion Hin].
  - rewrite elem_of_cons. destruct (decide (k' = k)) as [->|Hne].
    + split; eauto.
    + rewrite IH. split; [auto|]. intros [->|Hin]; [contradiction | exact Hin].
Qed.

Lemma modify_bind_run {B : Type} (f : router -> router) (k : unit -> M B)
  (r : router) : (modify f ≫= k) r = k tt (f r).
Proof. reflexivity. Qed.

Lemma same_reqs_inv (r r' : router) : same_reqs r r' -> reqs_inv r -> reqs_inv r'.
Proof.
  intros (Hp & A1 & A2 & A3 & A4) Hinv.
  unfold reqs_inv. rewrite Hp, A1, A2, A3, A4. exact Hinv.
Qed.

Lemma reqs_step_inv (r r' : router) : reqs_step r r' -> reqs_inv r -> reqs_inv r'.
Proof.
  intros [Hs | (Hp & A1 & A2 & A3 & A4)] Hinv.
  - exact (same_reqs_inv r r' Hs Hinv).
  - unfold reqs_inv. rewrite A1, A2, A3. split; [lia|].
    split; [exact A4|].
    split; [intros k res Hk; discriminate|].
    split; [intros k n Hk; rewrite lookup_empty in Hk; discriminate|].
    intros k1 k2 n Hk; rewrite lookup_empty in Hk; discriminate.
Qed.

(** A change of a field other than the peers and the bookkeeping. *)
Lemma modify_same_reqs (f : router -> router) :
  (forall r, rpeers (f r) = rpeers r) ->
  (forall r, requests (f r) = requests r) ->
  (forall r, responses (f r) = responses r) ->
  (forall r, resSeqs (f r) = resSeqs r) ->
  (forall r, resSeqCtr (f r) = resSeqCtr r) ->
  preserves same_reqs (modify f).
Proof.
  intros Hp H1 H2 H3 H4. apply preserves_modify. intros r.
  repeat split; auto.
Qed.

Lemma update_same_reqs (a : routerAnnounce) : preserves same_reqs (_update a).
Proof.
  intros r x r' E. destruct (update_run r a) as [E' | (r1 & E' & Hst)];
    rewrite E' in E; injection E as <- <-; [reflexivity|].
  destruct Hst as (_ & _ & _ & _ & _ & _ & _ & Hp & _ & A1 & A2 & A3 & A4 & _).
  repeat split; assumption.
Qed.

Ltac same_tac :=
  first
    [ apply update_same_reqs
    | apply modify_same_reqs; intros ?; reflexivity
    | apply preserves_ret; tc_solve
    | apply preserves_get; tc_solve
    | apply preserves_panic
    | apply preserves_orPanic; tc_solve
    | apply preserves_forEach; [tc_solve | intros ?]
    | apply preserves_foldEach; [tc_solve | intros ? ?]
    | apply preserves_bind; [tc_solve | | intros ?]
    | match goal with
      | |- preserves _ (if ?b then _ else _) => destruct b
      | |- preserves _ (match ?x with _ => _ end) => destruct x
      | |- preserves _ (let '(_, _) := ?x in _) => destruct x
      end ].

Lemma emit_same_reqs (a : action) : preserves same_reqs (emit a).
Proof. unfold emit. repeat same_tac. Qed.

Lemma newReq_same_reqs : preserves same_reqs _newReq.
Proof. unfold _newReq. repeat same_tac. Qed.

Lemma fixMerks_same_reqs : preserves same_reqs _fixMerks.
Proof. unfold _fixMerks. repeat first [apply emit_same_reqs | same_tac]. Qed.

Lemma useResponse_same_reqs (pk : list Z) (res : routerSigRes) :
  preserves same_reqs (_useResponse pk res).
Proof. unfold _useResponse. repeat same_tac. Qed.

Lemma becomeRoot_same_reqs : preserves same_reqs _becomeRoot.
Proof. unfold _becomeRoot. repeat first [apply newReq_same_reqs | same_tac]. Qed.

Lemma getDist_same_reqs (destPath key : list Z) :
  preserves same_reqs (_getDist destPath key).
Proof. unfold _getDist. repeat same_tac. Qed.

(** The loop of [_sendReqs] over a part [l] of the peers. *)
Lemma sendReqs_loop (l : list (list Z * list peer)) :
  forall r r',
    forEach l (fun '(pk, ps) =>
      req ← _newReq;
      modify (fun r => set_requests (<[pk := req]> (requests r)) r);;
      forEach ps (fun p => emit (Send p (sendSigReq req)))) r = Done tt r' ->
    rpeers r' = rpeers r /\ responses r' = responses r
    /\ resSeqs r' = resSeqs r /\ resSeqCtr r' = resSeqCtr r
    /\ (forall k, is_Some (requests r' !! k) <->
                  is_Some (requests r !! k) \/ k ∈ l.*1).
Proof.
  induction l as [|[pk ps] l IH]; intros r r' E; cbn [forEach] in E.
  - injection E as <-. repeat split; auto.
    intros [Hk|Hin]; [exact Hk | inversion Hin].
  - apply bind_Done_inv in E as ([] & r1 & E1 & E).
    rewrite (bind_Done _ _ _ _ _ (newReq_run r)) in E1.
    rewrite modify_bind_run in E1.
    assert (Pm : forall req, preserves same_reqs
      (forEach ps (fun p => emit (Send p (sendSigReq req)))))
      by (intros req; repeat first [apply emit_same_reqs | same_tac]).
    apply Pm in E1. destruct E1 as (A0 & A1 & A2 & A3 & A4).
    destruct (IH r1 r' E) as (B0 & B1 & B2 & B3 & B4).
    rewrite B0, B1, B2, B3, A0, A2, A3, A4.
    split; [reflexivity|]. split; [reflexivity|]. split; [reflexivity|].
    split; [reflexivity|].
    intros k. rewrite B4, A1. cbn [requests set_requests set_randCtr].
    rewrite fmap_cons, elem_of_cons. cbn [fst].
    destruct (decide (pk = k)) as [<-|Hne].
    + rewrite lookup_insert_eq. split; [auto|]. intros _. left. eauto.
    + rewrite lookup_insert_ne by exact Hne. split.
      * intros [Hk|Hin]; auto.
      * intros [Hk|[->|Hin]]; [auto | contradiction | auto].
Qed.

Lemma sendReqs_reqs_step : preserves reqs_step _sendReqs.
Proof.
  intros r [] r' E. unfold _sendReqs, _clearReqs in E.
  apply bind_Done_inv in E as ([] & r0 & E0 & E).
  rewrite !modify_bind_run in E0. injection E0 as <-.
  rewrite (bind_Done get _ _ _ _ eq_refl) in E.
  apply sendReqs_loop in E as (Hp & A1 & A2 & A3 & A4).
  right. split; [exact Hp|]. split; [exact A1|]. split; [exact A2|].
  split; [exact A3|].
  intros k. rewrite A4, Hp, alookup_is_Some. cbn. rewrite lookup_empty.
  split; [intros [[? ?]|Hin]; [discriminate | exact Hin] | auto].
Qed.

Ltac reqs_weaken :=
  apply (preserves_weaken same_reqs reqs_step); [intros ? ? ?; now left|].

Lemma fix_reqs_step : preserves reqs_step _fix.
Proof.
  unfold _fix, clearRootFlags.
  apply preserves_bind; [tc_solve | apply preserves_get; tc_solve | intros r].
  destruct (match alookup _ (rpeers r) with Some _ => _ | None => _ end)
    as [bestRoot0 bestParent0].
  destruct (fold_left _ _ _) as [bestRoot bestParent].
  apply preserves_bind;
    [tc_solve | | intros _; reqs_weaken; apply fixMerks_same_reqs].
  destruct (_ || _ || _ || _); [|apply preserves_ret; tc_solve].
  destruct (if bool_decide (bestRoot ≠ selfKey r) then _ else _) as [res|].
  - apply preserves_bind;
      [tc_solve | reqs_weaken; apply useResponse_same_reqs | intros ok].
    apply preserves_bind; [tc_solve | | intros _].
    { destruct (negb ok); [apply preserves_panic | apply preserves_ret; tc_solve]. }
    apply preserves_bind; [tc_solve | reqs_weaken; repeat same_tac | intros _].
    apply preserves_bind; [tc_solve | reqs_weaken; repeat same_tac | intros _].
    apply sendReqs_reqs_step.
  - destruct (doRoot2 r).
    + apply preserves_bind;
        [tc_solve | reqs_weaken; apply becomeRoot_same_reqs | intros ok].
      apply preserves_bind; [tc_solve | | intros _].
      { destruct (negb ok); [apply preserves_panic | apply preserves_ret; tc_solve]. }
      apply preserves_bind; [tc_solve | reqs_weaken; repeat same_tac | intros _].
      apply preserves_bind; [tc_solve | reqs_weaken; repeat same_tac | intros _].
      apply sendReqs_reqs_step.
    + reqs_weaken. repeat same_tac.
Qed.

Lemma handleAnnounce_reqs_step (sender : peer) (a : routerAnnounce) :
  preserves reqs_step (_handleAnnounce sender a).
Proof.
  unfold _handleAnnounce, _resetCache.
  apply preserves_bind; [tc_solve | apply preserves_get; tc_solve | intros r].
  destruct (if Z.of_nat (size (infos r)) <? _ then _ else _)
    as [[doUpdate worst] found].
  destruct (negb doUpdate); [apply preserves_ret; tc_solve|].
  apply preserves_bind;
    [tc_solve | reqs_weaken; apply update_same_reqs | intros ok].
  destruct ok; [|apply preserves_ret; tc_solve].
  apply preserves_bind; [tc_solve | reqs_weaken; repeat same_tac | intros _].
  apply preserves_bind; [tc_solve | reqs_weaken; repeat same_tac | intros _].
  apply fix_reqs_step.
Qed.

Lemma timerCallback_reqs_step (key : list Z) (tm : timer) :
  preserves reqs_step (timerCallback key tm).
Proof.
  unfold timerCallback, _resetCache.
  apply preserves_bind; [tc_solve | apply preserves_get; tc_solve | intros r].
  destruct (timers r !! key); [|apply preserves_ret; tc_solve].
  destruct (decide _); [|apply preserves_ret; tc_solve].
  destruct (decide _).
  - apply preserves_bind; [tc_solve | reqs_weaken; repeat same_tac | intros _].
    apply fix_reqs_step.
  - destruct (_ || _).
    + apply preserves_bind; [tc_solve | reqs_weaken; repeat same_tac | intros _].
      apply preserves_bind; [tc_solve | reqs_weaken; repeat same_tac | intros _].
      apply preserves_bind; [tc_solve | reqs_weaken; repeat same_tac | intros _].
      apply fix_reqs_step.
    + apply preserves_bind; [tc_solve | reqs_weaken; repeat same_tac | intros _].
      apply preserves_bind; [tc_solve | reqs_weaken; repeat same_tac | intros _].
      apply fix_reqs_step.
Qed.

Lemma fireTimer_reqs_step (key : list Z) : preserves reqs_step (fireTimer key).
Proof.
  unfold fireTimer.
  apply preserves_bind; [tc_solve | apply preserves_get; tc_solve | intros r].
  destruct (timers r !! key); [|apply preserves_ret; tc_solve].
  apply preserves_bind; [tc_solve | reqs_weaken; repeat same_tac | intros _].
  apply timerCallback_reqs_step.
Qed.

Lemma fixTimerCallback_reqs_step : preserves reqs_step fixTimerCallback.
Proof.
  unfold fixTimerCallback.
  apply preserves_bind; [tc_solve | reqs_weaken; repeat same_tac | intros _].
  apply preserves_bind; [tc_solve | apply preserves_get; tc_solve | intros r].
  destruct (doRoot1 r); [|apply preserves_ret; tc_solve].
  apply preserves_bind; [tc_solve | reqs_weaken; repeat same_tac | intros _].
  apply fix_reqs_step.
Qed.

Lemma handleRequest_same_reqs (p : peer) (req : routerSigReq) :
  preserves same_reqs (_handleRequest p req).
Proof. unfold _handleRequest. repeat first [apply emit_same_reqs | same_tac]. Qed.

Lemma handleTraffic_same_reqs (tr : traffic) :
  preserves same_reqs (handleTraffic tr).
Proof.
  unfold handleTraffic, _lookup.
  apply preserves_bind;
    [tc_solve | | intros [next tr']; repeat first [apply emit_same_reqs | same_tac]].
  apply preserves_bind; [tc_solve | apply preserves_get; tc_solve | intros r].
  apply preserves_bind; [tc_solve | apply getDist_same_reqs | intros d].
  destruct (d <? tr_watermark tr); [|apply preserves_ret; tc_solve].
  apply preserves_bind; [tc_solve | | intros ?; apply preserves_ret; tc_solve].
  apply preserves_foldEach; [tc_solve | intros [bp bd] [k ps]].
  apply preserves_bind; [tc_solve | apply getDist_same_reqs | intros d'].
  destruct (d' <? bd); apply preserves_ret; tc_solve.
Qed.

Lemma handleResponse_reqs_inv (p : peer) (res : routerSigRes) (r r' : router) :
  reqs_inv r -> is_Some (alookup (peer_key p) (rpeers r)) ->
  resSeqCtr r < 2 ^ 64 - 1 ->
  _handleResponse p res r = Done tt r' -> reqs_inv r'.
Proof.
  intros Hinv Hpeer Hwrap E.
  pose proof Hinv as (Hc & Hreq & Hres & Hseq & Hinj).
  unfold _handleResponse in E.
  rewrite (bind_Done get _ _ _ _ eq_refl) in E.
  destruct (bool_decide (alookup (peer_key p) (responses r) = None)) eqn:Hnone;
    cbn [andb] in E; [|injection E as <-; exact Hinv].
  destruct (bool_decide (default zeroSigReq (requests r !! peer_key p)
                         = res_req res)) eqn:Hans;
    [|injection E as <-; exact Hinv].
  apply bool_decide_eq_true in Hnone, Hans.
  rewrite !modify_bind_run in E.
  apply fix_reqs_step in E. eapply reqs_step_inv; [exact E|]. clear E r'.
  assert (Hw : wrap64 (resSeqCtr r + 1) = resSeqCtr r + 1).
  { unfold wrap64. apply Z.mod_small. lia. }
  assert (Hout : requests r !! peer_key p = Some (res_req res)).
  { apply Hreq in Hpeer as [q Hq]. rewrite Hq in Hans. cbn in Hans.
    now rewrite Hq, Hans. }
  unfold reqs_inv. cbn. rewrite Hw. split; [lia|]. split; [exact Hreq|].
  split; [|split].
  - intros k res' Hk. rewrite alookup_app in Hk.
    destruct (alookup k (responses r)) as [res0|] eqn:Hk0.
    + injection Hk as <-. destruct (Hres _ _ Hk0) as [A B]. split; [exact A|].
      destruct (decide (peer_key p = k)) as [<-|Hne].
      * rewrite lookup_insert_eq. eauto.
      * rewrite lookup_insert_ne by exact Hne. exact B.
    + cbn in Hk. destruct (decide (peer_key p = k)) as [<-|Hne]; [|discriminate].
      injection Hk as <-. split; [exact Hout|].
      rewrite lookup_insert_eq. eauto.
  - intros k n Hk. rewrite alookup_app.
    destruct (decide (peer_key p = k)) as [<-|Hne].
    + rewrite lookup_insert_eq in Hk. injection Hk as <-.
      rewrite Hnone. cbn. rewrite decide_True by reflexivity. split; [eauto | lia].
    + rewrite lookup_insert_ne in Hk by exact Hne.
      destruct (Hseq _ _ Hk) as [[x Hx] Hn]. rewrite Hx. split; [eauto | lia].
  - intros k1 k2 n Hk1 Hk2.
    destruct (decide (peer_key p = k1)) as [<-|Hne1];
      destruct (decide (peer_key p = k2)) as [<-|Hne2]; [reflexivity| | |].
    + rewrite lookup_insert_eq in Hk1. injection Hk1 as <-.
      rewrite lookup_insert_ne in Hk2 by exact Hne2.
      apply Hseq in Hk2 as [_ Hk2]. lia.
    + rewrite lookup_insert_eq in Hk2. injection Hk2 as <-.
      rewrite lookup_insert_ne in Hk1 by exact Hne1.
      apply Hseq in Hk1 as [_ Hk1]. lia.
    + rewrite lookup_insert_ne in Hk1 by exact Hne1.
      rewrite lookup_insert_ne in Hk2 by exact Hne2. eauto.
Qed.

Lemma removePeer_reqs_inv (p : peer) (r r' : router) :
  reqs_inv r -> router_removePeer p r = Done tt r' -> reqs_inv r'.
Proof.
  intros (Hc & Hreq & Hres & Hseq & Hinj) E. unfold router_removePeer in E.
  rewrite modify_bind_run in E.
  rewrite (bind_Done get _ _ _ _ eq_refl) in E.
  cbn [rpeers set_rpeers] in E.
  destruct (length _ =? 0)%nat eqn:Hlen.
  - rewrite !modify_bind_run in E.
    apply fix_reqs_step in E. eapply reqs_step_inv; [exact E|]. clear E r'.
    unfold reqs_inv. cbn -[adelete removeLink addLink alookup]. split; [exact Hc|].
    split; [|split; [|split]].
    + intros k. rewrite alookup_adelete.
      destruct (decide (k = peer_key p)) as [->|Hne].
      * rewrite lookup_delete_eq. split; intros [? ?]; discriminate.
      * rewrite lookup_delete_ne by congruence.
        rewrite alookup_removeLink. apply Hreq.
    + intros k res Hk. rewrite alookup_adelete in Hk.
      destruct (decide (k = peer_key p)) as [->|Hne]; [discriminate|].
      rewrite !lookup_delete_ne by congruence. auto.
    + intros k n Hk. rewrite alookup_adelete.
      destruct (decide (k = peer_key p)) as [->|Hne].
      * rewrite lookup_delete_eq in Hk. discriminate.
      * rewrite lookup_delete_ne in Hk by congruence. auto.
    + intros k1 k2 n Hk1 Hk2.
      apply lookup_delete_Some in Hk1 as [_ Hk1], Hk2 as [_ Hk2]. eauto.
  - injection E as <-. unfold reqs_inv. cbn -[adelete removeLink addLink alookup]. split; [exact Hc|].
    split; [|auto].
    intros k. rewrite alookup_removeLink. apply Hreq.
Qed.

Lemma addPeer_reqs_inv (p : peer) (r r' : router) :
  reqs_inv r -> router_addPeer p r = Done tt r' -> reqs_inv r'.
Proof.
  intros Hinv E. unfold router_addPeer in E.
  rewrite (bind_Done get _ _ _ _ eq_refl) in E.
  apply bind_Done_inv in E as ([] & r1 & E1 & E).
  assert (S1 : same_reqs r r1).
  { assert (Pm : preserves same_reqs
      (if bool_decide (alookup (peer_key p) (rpeers r) = None)
       then modify (fun r => set_ports (<[peer_port p := peer_key p]> (ports r)) r);;
            modify (fun r => set_merks (<[peer_key p := emptyTree]> (merks r)) r)
       else mret tt)) by repeat same_tac.
    exact (Pm _ _ _ E1). }
  apply same_reqs_inv in S1; [|exact Hinv]. clear Hinv E1.
  rewrite modify_bind_run in E.
  apply bind_Done_inv in E as ([] & r3 & E3 & E).
  assert (Hinv3 : reqs_inv r3).
  { destruct S1 as (Hc & Hreq & Hres & Hseq & Hinj).
    rewrite (bind_Done get _ _ _ _ eq_refl) in E3.
    cbn [responses requests set_rpeers] in E3.
    assert (Hknown : is_Some (requests r1 !! peer_key p) ->
                     reqs_inv (set_rpeers (addLink p (rpeers r1)) r1)).
    { intros Hq. unfold reqs_inv. cbn -[adelete removeLink addLink alookup]. split; [exact Hc|].
      split; [|auto]. intros k. rewrite alookup_addLink, <- Hreq.
      split; [auto|]. intros [->|Hk]; [exact Hq | exact Hk]. }
    destruct (alookup (peer_key p) (responses r1)) as [res|] eqn:Hp.
    { injection E3 as <-. apply Hknown.
      destruct (Hres _ _ Hp) as [-> _]. eauto. }
    apply bind_Done_inv in E3 as ([] & r4 & E4 & E3).
    rewrite (bind_Done get _ _ _ _ eq_refl) in E3.
    apply emit_same_reqs in E3. eapply same_reqs_inv; [exact E3|]. clear E3.
    destruct (requests r1 !! peer_key p) eqn:Hq.
    { injection E4 as <-. apply Hknown. eauto. }
    rewrite (bind_Done _ _ _ _ _ (newReq_run _)) in E4. injection E4 as <-.
    unfold reqs_inv. cbn -[adelete removeLink addLink alookup]. split; [exact Hc|]. split; [|split; [|auto]].
    - intros k. rewrite alookup_addLink, <- Hreq.
      destruct (decide (peer_key p = k)) as [<-|Hne].
      + rewrite lookup_insert_eq. split; eauto.
      + rewrite lookup_insert_ne by exact Hne. split; [auto|].
        intros [->|Hk]; [contradiction | exact Hk].
    - intros k res Hk. destruct (decide (peer_key p = k)) as [<-|Hne];
        [congruence|]. rewrite lookup_insert_ne by exact Hne. auto. }
  clear E3.
  assert (Pm : preserves same_reqs
    (if bool_decide (alookup (peer_key p) (rpeers r) = None) then _fixMerks
     else
       r ← get;
       let res := {| mres_req := zeroMerkleReq;
                     digest := Digest (Root (default emptyTree
                                               (merks r !! peer_key p))) |} in
       emit (Send p (sendMerkleRes res));;
       emit (Send p (sendMerkleReq zeroMerkleReq))))
    by repeat first [apply fixMerks_same_reqs | apply emit_same_reqs | same_tac].
  apply Pm in E. eapply same_reqs_inv; [exact E | exact Hinv3].
Qed.

(** X23. The bookkeeping of signature requests and responses stays
    sound: a request is out for every peered key and for no other key, a
    stored response carries the request that is out for its key, and
    every stored response has an arrival number that is positive, at most
    the counter and different from that of every other response.  [init]
    sets this up and every handler keeps it; for [_handleResponse] the
    response is one of a link of a peered key, and the counter has not run
    through its 64 bits. *)
Theorem requests_invariant :
  (forall c t0 r, init c t0 = Done tt r -> reqs_inv r)
  /\ (forall r r', reqs_inv r ->
        (exists sender a, _handleAnnounce sender a r = Done tt r')
        \/ (exists key, fireTimer key r = Done tt r')
        \/ fixTimerCallback r = Done tt r'
        \/ (exists p, router_addPeer p r = Done tt r')
        \/ (exists p, router_removePeer p r = Done tt r')
        \/ (exists p req, _handleRequest p req r = Done tt r')
        \/ (exists p res, is_Some (alookup (peer_key p) (rpeers r))
                          /\ resSeqCtr r < 2 ^ 64 - 1
                          /\ _handleResponse p res r = Done tt r')
        \/ (exists tr, handleTraffic tr r = Done tt r') ->
        reqs_inv r').
Proof.
  split.
  - intros c t0 r E. unfold init in E. apply fix_reqs_step in E.
    eapply reqs_step_inv; [exact E|].
    unfold reqs_inv. cbn. split; [lia|].
    split; [intros k; rewrite lookup_empty; split; intros [? ?]; discriminate|].
    split; [intros k res Hk; discriminate|].
    split; [intros k n Hk; rewrite lookup_empty in Hk; discriminate|].
    intros k1 k2 n Hk; rewrite lookup_empty in Hk; discriminate.
  - intros r r' Hinv Hstep.
    destruct Hstep as [(s & a & E) | [(k & E) | [E | [(p & E) | [(p & E) |
      [(p & q & E) | [(p & q & Hp & Hw & E) | (tr & E)]]]]]]].
    + eapply reqs_step_inv; [eapply handleAnnounce_reqs_step, E | exact Hinv].
    + eapply reqs_step_inv; [eapply fireTimer_reqs_step, E | exact Hinv].
    + eapply reqs_step_inv; [eapply fixTimerCallback_reqs_step, E | exact Hinv].
    + eapply addPeer_reqs_inv; [exact Hinv | exact E].
    + eapply removePeer_reqs_inv; [exact Hinv | exact E].
    + eapply same_reqs_inv; [eapply handleRequest_same_reqs, E | exact Hinv].
    + eapply handleResponse_reqs_inv; [exact Hinv | exact Hp | exact Hw | exact E].
    + eapply same_reqs_inv; [eapply handleTraffic_same_reqs, E | exact Hinv].
Qed.

End Requests.

Lemma requests_invariant_witness :
  let r0 := exampleNode 5 10 in
  let r1 := afterAddPeer exampleSender r0 in
  let r2 := afterResponse exampleSender (exampleResponse r1 exampleSender) r1 in
  reqs_inv r0 /\ reqs_inv r1 /\ reqs_inv r2
  /\ alookup [3] (responses r2) = Some (exampleResponse r1 exampleSender).
Proof.
  intros r0 r1 r2.
  pose proof (@requests_invariant exampleEnv) as [Hinit Hstep].
  assert (E0 : @init exampleEnv (exampleCore 5 10) 0 = Done tt r0).
  { unfold r0, exampleNode.
    destruct (@init exampleEnv (exampleCore 5 10) 0) as [[] x|] eqn:E;
      [reflexivity | vm_compute in E; discriminate]. }
  assert (E1 : @router_addPeer exampleEnv exampleSender r0 = Done tt r1).
  { unfold r1, afterAddPeer.
    destruct (@router_addPeer exampleEnv exampleSender r0) as [[] x|] eqn:E;
      [reflexivity | vm_compute in E; discriminate]. }
  assert (E2 : @_handleResponse exampleEnv exampleSender
                 (exampleResponse r1 exampleSender) r1 = Done tt r2).
  { unfold r2, afterResponse.
    destruct (@_handleResponse exampleEnv exampleSender
                (exampleResponse r1 exampleSender) r1) as [[] x|] eqn:E;
      [reflexivity | vm_compute in E; discriminate]. }
  assert (H0 : reqs_inv r0) by exact (Hinit _ _ _ E0).
  assert (H1 : reqs_inv r1).
  { apply (Hstep r0 r1 H0). do 3 right. left. exists exampleSender. exact E1. }
  assert (Hp : is_Some (alookup (peer_key exampleSender) (rpeers r1))).
  { vm_compute. eauto. }
  assert (Hw : resSeqCtr r1 < 2 ^ 64 - 1) by (vm_compute; reflexivity).
  assert (H2 : reqs_inv r2).
  { apply (Hstep r1 r2 H1). do 6 right. left.
    exists exampleSender, (exampleResponse r1 exampleSender).
    exact (conj Hp (conj Hw E2)). }
  assert (Hr : alookup [3] (responses r2)
               = Some (exampleResponse r1 exampleSender))
    by (vm_compute; reflexivity).
  exact (conj H0 (conj H1 (conj H2 Hr))).
Defined.

(** ** The choice of a parent *)

Section ParentChoiceProofs.
Context `{Env}.

Lemma less_not_below (a b c : list Z) :
  less a b = false -> c = b \/ less c b = true -> less a c = false.
Proof.
  unfold less. intros Hab [->|Hcb]; [exact Hab|].
  destruct (treeLess a c) eqn:Hac; [|reflexivity].
  rewrite (treeLess_trans _ _ _ Hac Hcb) in Hab. discriminate.
Qed.

(** One iteration of the loop over the responses. *)
Lemma fix_response_spec (r : router) (self : routerInfo)
  (best : list Z * list Z) (pk : list Z) :
  let best' := fix_response r self best pk in
  (best' = best
   \/ (is_Some (infos r !! pk)
       /\ (_getRootAndDists r pk).2 !! selfKey r = None
       /\ best' = (rootOf r pk, pk)))
  /\ (best'.1 = best.1 \/ less best'.1 best.1 = true)
  /\ (is_Some (infos r !! pk) ->
      (_getRootAndDists r pk).2 !! selfKey r = None ->
      less (rootOf r pk) best'.1 = false).
Proof.
  unfold fix_response, rootOf. destruct best as [b1 b2]. cbn [fst snd].
  destruct (infos r !! pk) as [info|] eqn:Hinfo.
  2:{ split; [now left|]. split; [now left|]. intros [? ?]. discriminate. }
  destruct (_getRootAndDists r pk) as [pRoot pDists]. cbn [fst snd].
  destruct (pDists !! selfKey r) eqn:Hloop.
  { split; [now left|]. split; [now left|]. intros _ ?. discriminate. }
  assert (Hirr : less pRoot pRoot = false) by apply treeLess_irrefl.
  destruct (less pRoot b1) eqn:Hless.
  - assert (Hres : (if refresh r || bool_decide (pk ≠ info_parent self)
                    then if bool_decide (pRoot = pRoot)
                            && (resSeq r pk <? resSeq r pk)
                         then (pRoot, pk) else (pRoot, pk)
                    else (pRoot, pk)) = (pRoot, pk)).
    { destruct (_ || _); [|reflexivity]. now destruct (_ && _). }
    rewrite Hres. cbn [fst snd]. split; [right; eauto|]. split; [now right|].
    intros _ _. exact Hirr.
  - destruct (refresh r || bool_decide (b2 ≠ info_parent self)).
    + destruct (bool_decide (pRoot = b1)) eqn:Heq; cbn [andb].
      * apply bool_decide_eq_true in Heq. subst b1.
        destruct (resSeq r pk <? resSeq r b2); cbn [fst snd].
        -- split; [right; eauto|]. split; [now left|]. intros _ _. exact Hirr.
        -- split; [now left|]. split; [now left|]. intros _ _. exact Hirr.
      * cbn [fst snd]. split; [now left|]. split; [now left|].
        intros _ _. exact Hless.
    + cbn [fst snd]. split; [now left|]. split; [now left|].
      intros _ _. exact Hless.
Qed.

(** The loop over the responses. *)
Lemma fix_fold_spec (r : router) (self : routerInfo) (l : list (list Z)) :
  forall best,
    let best' := fold_left (fix_response r self) l best in
    (best' = best
     \/ (best'.2 ∈ l /\ is_Some (infos r !! best'.2)
         /\ (_getRootAndDists r best'.2).2 !! selfKey r = None
         /\ best'.1 = rootOf r best'.2))
    /\ (best'.1 = best.1 \/ less best'.1 best.1 = true)
    /\ (forall pk, pk ∈ l -> is_Some (infos r !! pk) ->
          (_getRootAndDists r pk).2 !! selfKey r = None ->
          less (rootOf r pk) best'.1 = false).
Proof.
  induction l as [|pk l IH]; intros best; cbn [fold_left].
  - split; [now left|]. split; [now left|]. intros pk Hin. inversion Hin.
  - destruct (fix_response_spec r self best pk) as (S1 & S2 & S3).
    destruct (IH (fix_response r self best pk)) as (I1 & I2 & I3).
    cbn zeta in *.
    set (best1 := fix_response r self best pk) in *.
    set (best' := fold_left (fix_response r self) l best1) in *.
    split; [|split].
    + destruct I1 as [I1|(Hin & Hk & Hl & Hr)].
      * rewrite I1. destruct S1 as [S1|(Hk & Hl & S1)]; [now left|].
        right. rewrite S1. cbn [fst snd].
        split; [apply list_elem_of_here|]. auto.
      * right. split; [now apply list_elem_of_further|]. auto.
    + destruct I2 as [I2|I2], S2 as [S2|S2].
      * left. congruence.
      * right. now rewrite I2.
      * right. now rewrite <- S2.
      * right. exact (treeLess_trans _ _ _ I2 S2).
    + intros pk0 Hin Hk Hl. apply elem_of_cons in Hin as [->|Hin].
      * apply (less_not_below _ best1.1); [now apply S3 | exact I2].
      * now apply I3.
Qed.

(** The announcement [_useResponse] stores, when [_update] takes it. *)
Lemma useResponse_stores (peerKey : list Z) (res : routerSigRes) (r r' : router) :
  _useResponse peerKey res r = Done true r' ->
  exists sg, stores {| ann_key := selfKey r; ann_parent := peerKey;
                       ann_res := res; ann_sig := sg |} r r'.
Proof.
  unfold _useResponse. intros Hrun.
  rewrite (bind_Done get _ _ _ _ eq_refl) in Hrun.
  apply bind_Done_inv in Hrun as (bs & r1 & Hbs & Hrun).
  assert (r1 = r) as ->.
  { unfold orPanic in Hbs. destruct (routerSigRes_bytesForSig _ _ _);
      [now injection Hbs as _ <- | discriminate]. }
  apply bind_Done_inv in Hrun as (ok & r2 & Hup & Hrun).
  destruct ok; [|discriminate]. injection Hrun as <-.
  eexists. apply update_true_inv in Hup. exact Hup.
Qed.

(** The announcement [_becomeRoot] stores, when [_update] takes it. *)
Lemma becomeRoot_stores (r r' : router) :
  _becomeRoot r = Done true r' ->
  exists r1 a, same_store r r1 /\ ann_key a = selfKey r
    /\ ann_parent a = selfKey r /\ port (ann_res a) = 0 /\ stores a r1 r'.
Proof.
  unfold _becomeRoot. intros Hrun.
  apply bind_Done_inv in Hrun as (req & r1 & Hreq & Hrun).
  apply newReq_same_store in Hreq.
  rewrite (bind_Done get _ _ _ _ eq_refl) in Hrun.
  apply bind_Done_inv in Hrun as (bs & r2 & Hbs & Hrun).
  assert (r2 = r1) as ->.
  { unfold orPanic in Hbs. destruct (routerSigRes_bytesForSig _ _ _);
      [now injection Hbs as _ <- | discriminate]. }
  apply bind_Done_inv in Hrun as (ok & r2 & Hok & Hrun).
  assert (r2 = r1) as ->.
  { unfold orPanic in Hok. destruct (routerAnnounce_check _);
      [now injection Hok as _ <- | discriminate]. }
  destruct ok; cbn [negb] in Hrun; [|discriminate].
  assert (Hself : selfKey r1 = selfKey r).
  { unfold selfKey. now destruct Hreq as (-> & _). }
  exists r1. eexists. split; [exact Hreq|].
  split; [|split; [|split; [|apply update_true_inv, Hrun]]]; cbn; auto.
Qed.

(** X24. What [_fix] does to the node's own info.  When a run of
    [_fix] changes it, then either the node has made itself root, which it
    does only after the one-second wait ([doRoot2]), or it has taken a
    parent [p] on the response stored for [p], and then: the root that
    comes with [p] is strictly below the node's own key; [p] is an
    eligible peer (it has answered, its info is known and the way up from
    it does not pass the node) or the parent the node had, still peered;
    and no eligible peer has a root below that root. *)
Theorem fix_parent_choice (r r' : router) (info' : routerInfo) :
  _fix r = Done tt r' ->
  infos r' !! selfKey r = Some info' ->
  infos r !! selfKey r <> Some info' ->
  (info_parent info' = selfKey r /\ port (info_res info') = 0
   /\ doRoot2 r = true)
  \/ (alookup (info_parent info') (responses r) = Some (info_res info')
      /\ exists root,
           less root (selfKey r) = true
           /\ fix_candidate r (info_parent info') root
           /\ forall pk, fix_eligible r pk -> less (rootOf r pk) root = false).
Proof.
  unfold _fix. intros Hrun Hnew Hold.
  rewrite (bind_Done get _ _ _ _ eq_refl) in Hrun.
  set (self := default zeroInfo (infos r !! selfKey r)) in *.
  set (best0 := match alookup (info_parent self) (rpeers r) with
                | Some _ =>
                    if less (_getRootAndDists r (selfKey r)).1 (selfKey r)
                    then ((_getRootAndDists r (selfKey r)).1, info_parent self)
                    else (selfKey r, selfKey r)
                | None => (selfKey r, selfKey r)
                end) in *.
  assert (H0 : (best0 = (selfKey r, selfKey r))
               \/ (best0 = (rootOf r (selfKey r), info_parent self)
                   /\ is_Some (alookup (info_parent self) (rpeers r))
                   /\ less (rootOf r (selfKey r)) (selfKey r) = true)).
  { unfold best0, rootOf. destruct (alookup _ (rpeers r)); [|now left].
    destruct (less _ _) eqn:Hl; [right; eauto | now left]. }
  destruct (fix_fold_spec r self (responses r).*1 best0) as (F1 & F2 & F3).
  cbn zeta in F1, F2, F3.
  destruct best0 as [bestRoot0 bestParent0].
  destruct (fold_left _ _ _) as [bestRoot bestParent].
  cbn [fst snd] in F1, F2, F3.
  apply bind_Done_inv in Hrun as ([] & r2 & Hdec & Hmerks).
  apply fixMerks_same_store in Hmerks. destruct Hmerks as (_ & _ & _ & Hi2 & _).
  rewrite Hi2 in Hnew. clear Hi2 r'.
  destruct (_ || _ || _ || _); [|injection Hdec as <-; contradiction].
  destruct (bool_decide (bestRoot ≠ selfKey r)) eqn:Hroot.
  - apply bool_decide_eq_true in Hroot.
    destruct (alookup bestParent (responses r)) as [res|] eqn:Hres.
    + apply bind_Done_inv in Hdec as (ok & r1 & Huse & Hrest).
      destruct ok; [|cbn in Hrest; discriminate].
      apply (fix_rest_same_store true _ _ stop_fixTimer_same_store
               clearRootFlags_same_store) in Hrest.
      destruct Hrest as (_ & _ & _ & Hi1 & _). rewrite Hi1 in Hnew.
      apply useResponse_stores in Huse as (sg & Hst).
      destruct Hst as (Hi & _). rewrite Hi in Hnew. cbn in Hnew.
      rewrite lookup_insert_eq in Hnew. injection Hnew as <-. cbn.
      right. split; [exact Hres|]. exists bestRoot.
      assert (Hbelow : less bestRoot (selfKey r) = true).
      { destruct H0 as [H0|(H0 & _ & Hl)]; injection H0 as -> ->.
        - destruct F2 as [F2|F2]; [contradiction | exact F2].
        - destruct F2 as [->|F2]; [exact Hl|].
          exact (treeLess_trans _ _ _ F2 Hl). }
      split; [exact Hbelow|]. split.
      * destruct F1 as [F1|(Hin & Hk & Hl & Hr)].
        -- injection F1 as -> ->.
           destruct H0 as [H0|(H0 & Hp & _)]; injection H0 as -> ->;
             [contradiction|].
           right. auto.
        -- left. split; [|exact Hr]. repeat split; assumption.
      * intros pk (Hin & Hk & Hl). now apply F3.
    + destruct (doRoot2 r) eqn:Hd2.
      * apply bind_Done_inv in Hdec as (ok & r1 & Hbr & Hrest).
        destruct ok; [|cbn in Hrest; discriminate].
        apply (fix_rest_same_store true _ _ clearRootFlags_same_store
                 stop_fixTimer_same_store) in Hrest.
        destruct Hrest as (_ & _ & _ & Hi1 & _). rewrite Hi1 in Hnew.
        apply becomeRoot_stores in Hbr as (r0 & a & Hs & Ha & Hp & Hport & Hst).
        destruct Hst as (Hi & _). rewrite Hi in Hnew.
        rewrite Ha, lookup_insert_eq in Hnew. injection Hnew as <-. cbn.
        left. auto.
      * exfalso. apply Hold. rewrite <- Hnew.
        assert (Hp : preserves same_store
          (if negb (doRoot1 r)
           then modify (set_fixTimer (Some (now r + second)));;
                modify (set_doRoot1 true)
           else mret tt)) by (destruct (negb (doRoot1 r)); repeat preserves_step).
        apply Hp in Hdec. destruct Hdec as (_ & _ & _ & -> & _). reflexivity.
  - destruct (doRoot2 r) eqn:Hd2.
    + apply bind_Done_inv in Hdec as (ok & r1 & Hbr & Hrest).
      destruct ok; [|cbn in Hrest; discriminate].
      apply (fix_rest_same_store true _ _ clearRootFlags_same_store
               stop_fixTimer_same_store) in Hrest.
      destruct Hrest as (_ & _ & _ & Hi1 & _). rewrite Hi1 in Hnew.
      apply becomeRoot_stores in Hbr as (r0 & a & Hs & Ha & Hp & Hport & Hst).
      destruct Hst as (Hi & _). rewrite Hi in Hnew.
      rewrite Ha, lookup_insert_eq in Hnew. injection Hnew as <-. cbn.
      left. auto.
    + exfalso. apply Hold. rewrite <- Hnew.
      assert (Hp : preserves same_store
        (if negb (doRoot1 r)
         then modify (set_fixTimer (Some (now r + second)));;
              modify (set_doRoot1 true)
         else mret tt)) by (destruct (negb (doRoot1 r)); repeat preserves_step).
      apply Hp in Hdec. destruct Hdec as (_ & _ & _ & -> & _). reflexivity.
Qed.

End ParentChoiceProofs.

Lemma fix_parent_choice_witness :
  let r := examplePending in
  let r' := afterFix r in
  let info' := default (@zeroInfo exampleEnv) (infos r' !! selfKey r) in
  @_fix exampleEnv r = Done tt r'
  /\ infos r' !! selfKey r = Some info'
  /\ infos r !! selfKey r <> Some info'
  /\ info_parent info' = [3]
  /\ ((info_parent info' = selfKey r /\ port (info_res info') = 0
       /\ doRoot2 r = true)
      \/ (alookup (info_parent info') (responses r) = Some (info_res info')
          /\ exists root,
               less root (selfKey r) = true
               /\ @fix_candidate exampleEnv r (info_parent info') root
               /\ forall pk, @fix_eligible exampleEnv r pk ->
                             less (@rootOf exampleEnv r pk) root = false)).
Proof.
  intros r r' info'.
  assert (E : @_fix exampleEnv r = Done tt r').
  { unfold r', afterFix, stateOf.
    destruct (@_fix exampleEnv r) as [[] x|] eqn:E;
      [reflexivity | vm_compute in E; discriminate]. }
  assert (Hi : infos r' !! selfKey r = Some info') by (vm_compute; reflexivity).
  assert (Hold : infos r !! selfKey r <> Some info').
  { intros Heq. vm_compute in Heq. discriminate. }
  assert (Hp : info_parent info' = [3]) by (vm_compute; reflexivity).
  exact (conj E (conj Hi (conj Hold (conj Hp
           (@fix_parent_choice exampleEnv r r' info' E Hi Hold))))).
Defined.

(** ** The path cache *)

#[global] Instance cache_step_preorder : PreOrder cache_step.
Proof.
  split.
  - intros r Hr. exact Hr.
  - intros r1 r2 r3 A B Hr. exact (B (A Hr)).
Qed.

Section Cache.
Context `{Env}.

Lemma getRootAndPath_infos (r r' : router) (k : list Z) :
  infos r' = infos r -> _getRootAndPath r' k = _getRootAndPath r k.
Proof. unfold _getRootAndPath. now intros ->. Qed.

(** A change that leaves the store and adds nothing to the cache. *)
Lemma modify_cache_step (f : router -> router) :
  (forall r, infos (f r) = infos r) ->
  (forall r k p, cache (f r) !! k = Some p -> cache r !! k = Some p) ->
  preserves cache_step (modify f).
Proof.
  intros Hi Hc. apply preserves_modify. intros r Hr k p Hk.
  change (p = (_getRootAndPath (f r) k).2).
  rewrite (getRootAndPath_infos r (f r) k (Hi r)).
  exact (Hr k p (Hc r k p Hk)).
Qed.

Lemma empty_cache_ok (r : router) : cache r = ∅ -> cache_ok r.
Proof. unfold cache_ok. intros ->. apply map_Forall_empty. Qed.

Lemma update_cache_step (a : routerAnnounce) : preserves cache_step (_update a).
Proof.
  intros r x r' E. destruct (update_run r a) as [E' | (r1 & E' & Hst)];
    rewrite E' in E; injection E as <- <-; [reflexivity|].
  destruct Hst as (_ & _ & Hc & _). intros _. now apply empty_cache_ok.
Qed.

Lemma getDist_cache_step (destPath key : list Z) :
  preserves cache_step (_getDist destPath key).
Proof.
  intros r d r' E. rewrite getDist_run_eq in E. injection E as _ <-.
  intros Hr k p Hk.
  change (p = (_getRootAndPath
                 (set_cache (<[key := cachedPath r key]> (cache r)) r) k).2).
  rewrite (getRootAndPath_infos r
             (set_cache (<[key := cachedPath r key]> (cache r)) r) k eq_refl).
  change (<[key := cachedPath r key]> (cache r) !! k = Some p) in Hk.
  destruct (decide (key = k)) as [->|Hne].
  - rewrite lookup_insert_eq in Hk. injection Hk as <-.
    unfold cachedPath. destruct (cache r !! k) as [c|] eqn:Hc; [|reflexivity].
    exact (Hr k c Hc).
  - rewrite lookup_insert_ne in Hk by exact Hne. exact (Hr k p Hk).
Qed.

Ltac cache_tac :=
  first
    [ apply update_cache_step
    | apply getDist_cache_step
    | apply modify_cache_step;
        [intros ?; reflexivity | intros ? ? ? Hx; exact Hx]
    | apply preserves_ret; tc_solve
    | apply preserves_get; tc_solve
    | apply preserves_panic
    | apply preserves_orPanic; tc_solve
    | apply preserves_forEach; [tc_solve | intros ?]
    | apply preserves_foldEach; [tc_solve | intros ? ?]
    | apply preserves_bind; [tc_solve | | intros ?]
    | match goal with
      | |- preserves _ (if ?b then _ else _) => destruct b
      | |- preserves _ (match ?x with _ => _ end) => destruct x
      | |- preserves _ (let '(_, _) := ?x in _) => destruct x
      end ].

Lemma emit_cache_step (a : action) : preserves cache_step (emit a).
Proof. unfold emit. repeat cache_tac. Qed.

Lemma newReq_cache_step : preserves cache_step _newReq.
Proof. unfold _newReq. repeat cache_tac. Qed.

Lemma sendReqs_cache_step : preserves cache_step _sendReqs.
Proof.
  unfold _sendReqs, _clearReqs.
  repeat first [apply newReq_cache_step | apply emit_cache_step | cache_tac].
Qed.

Lemma fixMerks_cache_step : preserves cache_step _fixMerks.
Proof. unfold _fixMerks. repeat first [apply emit_cache_step | cache_tac]. Qed.

Lemma useResponse_cache_step (pk : list Z) (res : routerSigRes) :
  preserves cache_step (_useResponse pk res).
Proof. unfold _useResponse. repeat cache_tac. Qed.

Lemma becomeRoot_cache_step : preserves cache_step _becomeRoot.
Proof. unfold _becomeRoot. repeat first [apply newReq_cache_step | cache_tac]. Qed.

Lemma fix_cache_step : preserves cache_step _fix.
Proof.
  unfold _fix, clearRootFlags.
  repeat first [ apply useResponse_cache_step | apply becomeRoot_cache_step
               | apply sendReqs_cache_step | apply fixMerks_cache_step
               | cache_tac ].
Qed.

Ltac cache_handler :=
  repeat first
    [ apply fix_cache_step | apply fixMerks_cache_step | apply sendReqs_cache_step
    | apply newReq_cache_step | apply emit_cache_step | cache_tac ].

(** Whatever is dropped from the store, the cache is emptied after it. *)
Lemma drop_cache_step (f g : router -> router) :
  preserves cache_step (modify f;; modify g;; _resetCache).
Proof.
  intros r [] r' E. injection E as <-. intros _. now apply empty_cache_ok.
Qed.

Lemma handleAnnounce_cache_step (sender : peer) (a : routerAnnounce) :
  preserves cache_step (_handleAnnounce sender a).
Proof.
  unfold _handleAnnounce.
  apply preserves_bind; [tc_solve | apply preserves_get; tc_solve | intros r].
  destruct (if Z.of_nat (size (infos r)) <? _ then _ else _)
    as [[doUpdate worst] found].
  destruct (negb doUpdate); [apply preserves_ret; tc_solve|].
  apply preserves_bind; [tc_solve | apply update_cache_step | intros ok].
  destruct ok; [|apply preserves_ret; tc_solve].
  apply preserves_bind; [tc_solve | | intros _; cache_handler].
  destruct found; [|apply preserves_ret; tc_solve].
  apply preserves_bind; [tc_solve | apply preserves_get; tc_solve | intros r1].
  destruct (timers r1 !! worst); [|apply preserves_panic].
  apply drop_cache_step.
Qed.

Lemma handleTraffic_cache_step (tr : traffic) :
  preserves cache_step (handleTraffic tr).
Proof.
  unfold handleTraffic, _lookup.
  apply preserves_bind; [tc_solve | | intros [next tr']; cache_handler].
  apply preserves_bind; [tc_solve | apply preserves_get; tc_solve | intros r].
  apply preserves_bind; [tc_solve | apply getDist_cache_step | intros d].
  destruct (d <? tr_watermark tr); [|apply preserves_ret; tc_solve].
  apply preserves_bind; [tc_solve | | intros ?; apply preserves_ret; tc_solve].
  apply preserves_foldEach; [tc_solve | intros [bp bd] [k ps]].
  apply preserves_bind; [tc_solve | apply getDist_cache_step | intros d'].
  destruct (d' <? bd); apply preserves_ret; tc_solve.
Qed.

Lemma addPeer_cache_step (p : peer) : preserves cache_step (router_addPeer p).
Proof. unfold router_addPeer. cache_handler. Qed.

Lemma removePeer_cache_step (p : peer) :
  preserves cache_step (router_removePeer p).
Proof.
  unfold router_removePeer.
  repeat first
    [ apply fix_cache_step
    | apply modify_cache_step;
        [intros ?; reflexivity
        |intros ? ? ? Hx; cbn in Hx; apply lookup_delete_Some in Hx as [_ Hx];
         exact Hx]
    | cache_tac ].
Qed.

Lemma handleResponse_cache_step (p : peer) (res : routerSigRes) :
  preserves cache_step (_handleResponse p res).
Proof. unfold _handleResponse. cache_handler. Qed.

Lemma handleRequest_cache_step (p : peer) (req : routerSigReq) :
  preserves cache_step (_handleRequest p req).
Proof. unfold _handleRequest. cache_handler. Qed.

Lemma fixTimerCallback_cache_step : preserves cache_step fixTimerCallback.
Proof. unfold fixTimerCallback. cache_handler. Qed.

Lemma drop_cond (m : gmap (list Z) routerInfo) (key : list Z) :
  match m !! key with Some i => expired i = true | None => True end ->
  bool_decide (m !! key = None) || expired (default zeroInfo (m !! key)) = true.
Proof.
  destruct (m !! key) as [i|]; simpl; intros Hk.
  - first [exact Hk | rewrite Hk; apply orb_true_r].
  - first [reflexivity | apply orb_true_iff; left; now apply bool_decide_eq_true].
Qed.

(** The timer of the local key, of a key that is gone and of an expired
    info. *)
Lemma fireTimer_cache_step (key : list Z) (r r' : router) :
  key = selfKey r
  \/ match infos r !! key with Some i => expired i = true | None => True end ->
  fireTimer key r = Done tt r' -> cache_step r r'.
Proof.
  intros Hkey E. unfold fireTimer in E.
  rewrite (bind_Done get _ _ _ _ eq_refl) in E.
  destruct (timers r !! key) as [tm|] eqn:Ht; [|injection E as <-; reflexivity].
  apply bind_Done_inv in E as ([] & r1 & E1 & E). injection E1 as <-.
  unfold timerCallback in E. rewrite (bind_Done get _ _ _ _ eq_refl) in E.
  cbn [timers set_now infos] in E. rewrite Ht in E.
  rewrite decide_True in E by reflexivity.
  transitivity (set_now (timer_due tm) r).
  { intros Hr k p Hk. exact (Hr k p Hk). }
  clear Ht.
  change (selfKey (set_now (timer_due tm) r)) with (selfKey r) in E.
  destruct (decide (key = selfKey r)) as [Hself|Hself].
  - assert (P : preserves cache_step (modify (set_refresh true);; _fix))
      by cache_handler.
    exact (P _ _ _ E).
  - destruct Hkey as [Hkey|Hkey]; [contradiction|].
    assert (Hdrop : bool_decide (infos r !! key = None)
                    || expired (default zeroInfo (infos r !! key)) = true).
    { exact (drop_cond (infos r) key Hkey). }
    rewrite Hdrop in E.
    apply bind_Done_inv in E as ([] & r1 & E1 & E).
    apply bind_Done_inv in E as ([] & r2 & E2 & E).
    apply bind_Done_inv in E as ([] & r3 & E3 & E).
    apply fix_cache_step in E. etransitivity; [|exact E].
    injection E1 as <-. injection E2 as <-. injection E3 as <-.
    intros _. now apply empty_cache_ok.
Qed.

End Cache.

(** X25. The path cache follows the store, with one gap.  [init]
    starts with an empty cache, and every handler leaves every cached path
    equal to the path [_getRootAndPath] finds in the store, as does the
    timer of the local key, of a key that is gone and of an info that has
    expired before.  The timer that marks a live info as expired does not:
    it changes what [_getRootAndPath] finds and leaves the cache as it
    is. *)
Theorem cache_follows_store :
  (forall (E : Env) c t0 r, init c t0 = Done tt r -> cache_ok r)
  /\ (forall (E : Env) r r', cache_ok r ->
        (exists sender a, _handleAnnounce sender a r = Done tt r')
        \/ (exists key,
              (key = selfKey r
               \/ match infos r !! key with
                  | Some i => expired i = true
                  | None => True
                  end)
              /\ fireTimer key r = Done tt r')
        \/ fixTimerCallback r = Done tt r'
        \/ (exists p, router_addPeer p r = Done tt r')
        \/ (exists p, router_removePeer p r = Done tt r')
        \/ (exists p req, _handleRequest p req r = Done tt r')
        \/ (exists p res, _handleResponse p res r = Done tt r')
        \/ (exists tr, handleTraffic tr r = Done tt r') ->
        cache_ok r')
  /\ (exists (E : Env) key r r',
        cache_ok r /\ fireTimer key r = Done tt r' /\ ~ cache_ok r').
Proof.
  split; [|split].
  - intros E c t0 r Hrun. unfold init in Hrun. apply fix_cache_step in Hrun.
    apply Hrun. now apply empty_cache_ok.
  - intros E r r' Hr Hstep.
    assert (Hk : cache_step r r'); [|exact (Hk Hr)].
    destruct Hstep as [(s & a & Hrun) | [(k & Hkey & Hrun) | [Hrun |
      [(p & Hrun) | [(p & Hrun) | [(p & q & Hrun) | [(p & q & Hrun) |
      (tr & Hrun)]]]]]]].
    + eapply handleAnnounce_cache_step, Hrun.
    + eapply fireTimer_cache_step; [exact Hkey | exact Hrun].
    + eapply fixTimerCallback_cache_step, Hrun.
    + eapply addPeer_cache_step, Hrun.
    + eapply removePeer_cache_step, Hrun.
    + eapply handleRequest_cache_step, Hrun.
    + eapply handleResponse_cache_step, Hrun.
    + eapply handleTraffic_cache_step, Hrun.
  - exists exampleEnv, [2], exampleRouted, (afterTimer [2] exampleRouted).
    split; [|split].
    + apply (bool_decide_unpack _). vm_compute. exact I.
    + unfold afterTimer, stateOf.
      destruct (@fireTimer exampleEnv [2] exampleRouted) as [[] x|] eqn:Hrun;
        [reflexivity | vm_compute in Hrun; discriminate].
    + intros Hok. apply (bool_decide_pack _) in Hok.
      vm_compute in Hok. exact Hok.
Qed.

Lemma cache_follows_store_witness :
  cache_ok (exampleRoot linkA linkB) /\ cache_ok exampleRouted
  /\ cache exampleRouted !! [2] = Some [7].
Proof.
  assert (H0 : cache_ok (exampleRoot linkA linkB)).
  { apply (bool_decide_unpack _). vm_compute. exact I. }
  assert (E : handleTraffic examplePacket (exampleRoot linkA linkB)
              = Done tt exampleRouted).
  { unfold exampleRouted, stateOf.
    destruct (handleTraffic examplePacket (exampleRoot linkA linkB))
      as [[] x|] eqn:E; [reflexivity | vm_compute in E; discriminate]. }
  split; [exact H0|]. split; [|vm_compute; reflexivity].
  apply (proj1 (proj2 cache_follows_store) exampleEnv
           (exampleRoot linkA linkB) exampleRouted H0).
  do 7 right. exists examplePacket. exact E.
Defined.

(** ** The tries [Add] builds *)

Section Trie.
Context `{Env}.















End Trie.

(** ** The Merkle trees of a router that runs *)

#[global] Instance merks_step_preorder `{Env} : PreOrder merks_step.
Proof.
  split.
  - intros r. split; done.
  - intros r1 r2 r3 [A1 A2] [B1 B2]. split; [congruence | auto].
Qed.

#[global] Instance same_merks_preorder : PreOrder same_merks.
Proof.
  split.
  - intros r. split; reflexivity.
  - intros r1 r2 r3 [A1 A2] [B1 B2]. split; congruence.
Qed.

Section MerkleInv.
Context `{Env}.

(** *** The trees stay tries *)










Lemma same_store_merks_wf (r r' : router) :
  same_store r r' -> merks r' = merks r -> merks_step r r'.
Proof.
  intros (Hc & _ & Hp & Hi & _) Hm. split; [exact Hc|].
  unfold merks_wf, selfKey, keys_wf. now rewrite Hc, Hm, Hp, Hi.
Qed.

















(** *** The trees are in step with the store when a handler is done *)



















End MerkleInv.

(** ** Merkle requests on a router that runs *)

Section MerkleReply.
Context `{Env}.






End MerkleReply.



